(** * MiniC: AST -> linear IR lowering and ARM32 branch selection

    A shallow embedding of the lowering pass [IRGenerator] (IRGenerator.cpp),
    of the IR value/instruction classes it builds, of [GlobalVariable]
    (GlobalVariable.h) and of [InstSelectorArm32::translate_br]
    (InstSelectorArm32.cpp), followed by the properties of the specification
    that concern them. *)

From Stdlib Require Import ZArith List String Bool Lia Arith.
Import ListNotations.
Local Open Scope string_scope.
Local Open Scope list_scope.

Set Implicit Arguments.

(* ------------------------------------------------------------------ *)
(** * 32-bit signed integers *)

(** [int32_t] values are integers of [Z]; an operation that leaves the range
    wraps around (two's complement). *)
Definition wrap32 (z : Z) : Z :=
  ((z + 2147483648) mod 4294967296 - 2147483648)%Z.

Definition INT32_MIN : Z := (-2147483648)%Z.
Definition INT32_MAX : Z := 2147483647%Z.

Definition in_int32 (z : Z) : Prop := (INT32_MIN <= z <= INT32_MAX)%Z.

(* ------------------------------------------------------------------ *)
(** * IR data model *)

(** [Type] and its subclasses ([VoidType], [IntegerType] with its two
    instances i32 and i1, [PointerType], [ArrayType]). *)
Inductive IRType : Type :=
| VoidType
| TypeInt
| TypeBool
| PointerType (pointee : IRType)
| ArrayType (elementType : IRType) (dimensions : list Z).

Definition isVoidType (t : IRType) : bool :=
  match t with VoidType => true | _ => false end.
Definition isInt1Byte (t : IRType) : bool :=
  match t with TypeBool => true | _ => false end.
Definition isArrayType (t : IRType) : bool :=
  match t with ArrayType _ _ => true | _ => false end.

(** [ArrayType::getSize]: the element size times every dimension, in
    [int32_t]. *)
Definition typeSize (t : IRType) : Z :=
  match t with
  | VoidType => 0%Z
  | TypeInt => 4%Z
  | TypeBool => 1%Z
  | PointerType _ => 4%Z
  | ArrayType e dims =>
      fold_left (fun acc d => wrap32 (acc * d))
                dims
                (match e with TypeInt => 4 | TypeBool => 1 | PointerType _ => 4
                         | _ => 0 end)%Z
  end.

(** Operators of [BinaryInstruction]. *)
Inductive IRInstOperator : Type :=
| IRINST_OP_ADD_I | IRINST_OP_SUB_I | IRINST_OP_MUL_I | IRINST_OP_DIV_I
| IRINST_OP_MOD_I
| IRINST_OP_LT_I | IRINST_OP_GT_I | IRINST_OP_LE_I | IRINST_OP_GE_I
| IRINST_OP_EQ_I | IRINST_OP_NE_I.

(** A [Value*].  An object that is later reached through a pointer (a label,
    a local, an instruction used as an operand or stored in [node->val])
    receives at its [new] the next number of an allocation counter, which
    stands for its address: two such pointers are equal exactly when their
    numbers are.  Constants are interned per value, globals are identified by
    name.  [InstValue id ty] is the pointer to the instruction object number
    [id]. *)
Inductive Value : Type :=
| nullptr
| ConstInt (v : Z)
| LocalVariable (id : nat) (ty : IRType) (name : string)
| GlobalVar (ty : IRType) (name : string)
| FormalParam (id : nat) (ty : IRType) (name : string)
| InstValue (id : nat) (ty : IRType).

(** [Value::getType]; [None] is the dereference of a null pointer. *)
Definition getType (v : Value) : option IRType :=
  match v with
  | nullptr => None
  | ConstInt _ => Some TypeInt
  | LocalVariable _ ty _ => Some ty
  | GlobalVar ty _ => Some ty
  | FormalParam _ ty _ => Some ty
  | InstValue _ ty => Some ty
  end.

(** Labels are [LabelInstruction] objects; a branch holds pointers to them. *)
Definition label := nat.

(** The instruction classes.  [GotoInstruction] has the three fields of the
    class: the unconditional constructor leaves [cond] and [falseTarget]
    null. *)
Inductive Instruction : Type :=
| EntryInstruction
| ExitInstruction (retVal : Value)
| LabelInstruction (l : label)
| GotoInstruction (cond : Value) (trueTarget : label) (falseTarget : option label)
| MoveInstruction (result src : Value)
| BinaryInstruction (id : nat) (op : IRInstOperator) (src1 src2 : Value) (ty : IRType)
| FuncCallInstruction (id : nat) (callee : string) (realParams : list Value) (ty : IRType)
| LoadArrayInstruction (id : nat) (arrayBase offset : Value) (elementType : IRType)
| StoreArrayInstruction (value arrayBase offset : Value)
| ArraySliceInstruction (id : nat) (address : Value) (arrayType : IRType).

(** [GotoInstruction(func, target)] *)
Definition Goto (target : label) : Instruction :=
  GotoInstruction nullptr target None.

(** [GotoInstruction(func, cond, trueTarget, falseTarget)] *)
Definition GotoCond (cond : Value) (trueTarget falseTarget : label) : Instruction :=
  GotoInstruction cond trueTarget (Some falseTarget).

(** An instruction used as a [Value*]. *)
Definition asValue (i : Instruction) : Value :=
  match i with
  | BinaryInstruction id _ _ _ ty => InstValue id ty
  | FuncCallInstruction id _ _ ty => InstValue id ty
  | LoadArrayInstruction id _ _ ty => InstValue id ty
  | ArraySliceInstruction id _ ty => InstValue id ty
  | _ => nullptr
  end.

Definition InterCode := list Instruction.

(* ------------------------------------------------------------------ *)
(** * GlobalVariable (GlobalVariable.h) *)

Module GlobalVariable.

(** The fields of the class that the section placement depends on. *)
Record t : Type := mk {
  type : IRType;
  name : string;
  alignment : Z;
  inBSSSection : bool;
  initializer : Value
}.

(** The constructor: alignment 4, and the member initialisers
    [inBSSSection = true], [initializer = nullptr]. *)
Definition new (_type : IRType) (_name : string) : t :=
  {| type := _type; name := _name; alignment := 4%Z;
     inBSSSection := true; initializer := nullptr |}.

Definition isInBSSSection (g : t) : bool := inBSSSection g.

Definition getInitializer (g : t) : Value := initializer g.

(** [setInitializer]: stores the value, and leaves BSS whenever the
    pointer is not null. *)
Definition setInitializer (g : t) (initVal : Value) : t :=
  {| type := type g; name := name g; alignment := alignment g;
     inBSSSection := match initVal with
                     | nullptr => inBSSSection g
                     | _ => false
                     end;
     initializer := initVal |}.

End GlobalVariable.

(* ------------------------------------------------------------------ *)
(** * Module and generator state *)

Record Function : Type := mkFunction {
  fn_name : string;
  fn_returnType : IRType;
  fn_params : list Value;
  fn_interCode : InterCode;
  fn_exitLabel : option label;
  fn_returnValue : Value;
  fn_existFuncCall : bool;
  fn_maxFuncCallArgCnt : Z
}.

Definition Scope := list (string * Value).

(** The state the lowering threads: the allocation counter, the [Module]
    (scope stack, globals, functions, current function) and the two loop
    stacks of [IRGenerator].  The loop stacks are [std::vector]s: the back
    is the last element. *)
Record GenState : Type := mkGenState {
  nextId : nat;
  scopeStack : list Scope;
  globals : list GlobalVariable.t;
  functions : list Function;
  currentFunction : option string;
  loopCondStack : list label;
  loopEndStack : list label
}.

Definition set_nextId (s : GenState) (n : nat) : GenState :=
  mkGenState n (scopeStack s) (globals s) (functions s) (currentFunction s)
             (loopCondStack s) (loopEndStack s).
Definition set_scopeStack (s : GenState) (st : list Scope) : GenState :=
  mkGenState (nextId s) st (globals s) (functions s) (currentFunction s)
             (loopCondStack s) (loopEndStack s).
Definition set_globals (s : GenState) (g : list GlobalVariable.t) : GenState :=
  mkGenState (nextId s) (scopeStack s) g (functions s) (currentFunction s)
             (loopCondStack s) (loopEndStack s).
Definition set_functions (s : GenState) (f : list Function) : GenState :=
  mkGenState (nextId s) (scopeStack s) (globals s) f (currentFunction s)
             (loopCondStack s) (loopEndStack s).
Definition set_currentFunction (s : GenState) (f : option string) : GenState :=
  mkGenState (nextId s) (scopeStack s) (globals s) (functions s) f
             (loopCondStack s) (loopEndStack s).
Definition set_loopStacks (s : GenState) (c e : list label) : GenState :=
  mkGenState (nextId s) (scopeStack s) (globals s) (functions s)
             (currentFunction s) c e.

(** A module before lowering: the global scope only. *)
Definition initState : GenState :=
  mkGenState 0 [[]] [] [] None [] [].

(** The attributes of an [ast_node] that lowering writes: [val],
    [blockInsts], and the node's entry in the file-level map
    [g_arrayAccessAddresses].  That map is keyed by the node's address and a
    node is lowered once, so the entry read for a node is the one written
    during its own visit (null when none was written, as [operator[]]
    default-constructs it). *)
Record ast_attrs : Type := mkAttrs {
  val : Value;
  blockInsts : InterCode;
  arrayAccessAddress : Value
}.

Definition empty_attrs : ast_attrs := mkAttrs nullptr [] nullptr.

(** The result of running lowering code on a node: it returns ([Ret]; for a
    handler this is [return true]), it returns false ([Err], with the state
    and the node as they are at that point), or it dereferences a null
    pointer or indexes a vector out of range ([Undef]). *)
Inductive outcome (A : Type) : Type :=
| Ret (a : A) (s : GenState) (n : ast_attrs)
| Err (s : GenState) (n : ast_attrs)
| Undef.
Arguments Err {A} s n.
Arguments Undef {A}.

Definition Gen (A : Type) : Type := GenState -> ast_attrs -> outcome A.

Definition ret {A} (a : A) : Gen A := fun s n => Ret a s n.
Definition bind {A B} (m : Gen A) (k : A -> Gen B) : Gen B :=
  fun s n =>
    match m s n with
    | Ret a s' n' => k a s' n'
    | Err s' n' => Err s' n'
    | Undef => Undef
    end.
Definition fail {A} : Gen A := fun s n => Err s n.
Definition undef {A} : Gen A := fun _ _ => Undef.

Notation "x <- c1 ;; c2" := (bind c1 (fun x => c2))
  (at level 61, c1 at next level, right associativity).
Notation "c1 ;; c2" := (bind c1 (fun _ => c2))
  (at level 61, right associativity).

Definition getState : Gen GenState := fun s n => Ret s s n.
Definition modifyState (f : GenState -> GenState) : Gen unit :=
  fun s n => Ret tt (f s) n.

(** [node->blockInsts.addInst(inst)] and [addInst(InterCode&)] *)
Definition addInst (i : Instruction) : Gen unit :=
  fun s n => Ret tt s (mkAttrs (val n) (blockInsts n ++ [i]) (arrayAccessAddress n)).
Definition addInsts (l : InterCode) : Gen unit :=
  fun s n => Ret tt s (mkAttrs (val n) (blockInsts n ++ l) (arrayAccessAddress n)).
(** [node->val = v] *)
Definition setVal (v : Value) : Gen unit :=
  fun s n => Ret tt s (mkAttrs v (blockInsts n) (arrayAccessAddress n)).
(** [g_arrayAccessAddresses[node] = v] *)
Definition setArrayAccessAddress (v : Value) : Gen unit :=
  fun s n => Ret tt s (mkAttrs (val n) (blockInsts n) v).

(** [new]: the next object number. *)
Definition new_id : Gen nat :=
  fun s n => Ret (nextId s) (set_nextId s (S (nextId s))) n.

(** What [ir_visit_ast_node] hands to the caller: the node with its
    attributes, or a null pointer. *)
Definition Visitor : Type := Gen (option ast_attrs).

(** Running a handler on a node of its own: the caller's node is untouched,
    and a handler that returns false makes the visit return null. *)
Definition visit_with (handler : Gen unit) : Visitor :=
  fun s n =>
    match handler s empty_attrs with
    | Ret _ s' c => Ret (Some c) s' n
    | Err s' _ => Ret None s' n
    | Undef => Undef
    end.

(* ------------------------------------------------------------------ *)
(** * Module operations *)

(** [Module::newConstInt]: constants are interned, so the pointer is
    determined by the value. *)
Definition newConstInt (v : Z) : Value := ConstInt v.

Fixpoint findInScope (name : string) (sc : Scope) : option Value :=
  match sc with
  | [] => None
  | (k, v) :: rest => if String.eqb k name then Some v else findInScope name rest
  end.

(** Modelled from the spec: [Module::findVarValue] (Module.cpp is not among
    the sources) "searches scopes"; "symbol lookups walk from innermost
    outward".  Null when no scope binds the name. *)
Fixpoint findVarValue_in (name : string) (st : list Scope) : Value :=
  match st with
  | [] => nullptr
  | sc :: outer =>
      match findInScope name sc with
      | Some v => v
      | None => findVarValue_in name outer
      end
  end.

Definition findVarValue (name : string) : Gen Value :=
  fun s n => Ret (findVarValue_in name (scopeStack s)) s n.

(** Modelled from the spec: [Module::enterScope] and [Module::leaveScope]
    push and pop the innermost scope. *)
Definition enterScope : Gen unit :=
  modifyState (fun s => set_scopeStack s ([] :: scopeStack s)).
Definition leaveScope : Gen unit :=
  modifyState (fun s => set_scopeStack s (tl (scopeStack s))).

Definition insertValue (name : string) (v : Value) (st : list Scope) : list Scope :=
  match st with
  | [] => []
  | sc :: outer => ((name, v) :: sc) :: outer
  end.

(** Modelled from the spec: [Module::newVarValue(type, name?)] "creates a
    local in currentFunction or a global when no function is active"; a
    named variable is bound in the innermost scope. *)
Definition newVarValue (ty : IRType) (name : string) : Gen Value :=
  fun s n =>
    match currentFunction s with
    | Some _ =>
        let v := LocalVariable (nextId s) ty name in
        let s1 := set_nextId s (S (nextId s)) in
        Ret v (if String.eqb name "" then s1
               else set_scopeStack s1 (insertValue name v (scopeStack s1))) n
    | None =>
        let v := GlobalVar ty name in
        let s1 := set_globals s (globals s ++ [GlobalVariable.new ty name]) in
        Ret v (if String.eqb name "" then s1
               else set_scopeStack s1 (insertValue name v (scopeStack s1))) n
    end.

Fixpoint findFunction_in (name : string) (fs : list Function) : option Function :=
  match fs with
  | [] => None
  | f :: rest => if String.eqb (fn_name f) name then Some f else findFunction_in name rest
  end.

(** Modelled from the spec: [Module::findFunction(name)]. *)
Definition findFunction (name : string) : Gen (option Function) :=
  fun s n => Ret (findFunction_in name (functions s)) s n.

(** Modelled from the spec: [Module::newFunction(name, retType)]; null when
    the name is already taken (the caller tests the result). *)
Definition newFunction (name : string) (ty : IRType) : Gen (option Function) :=
  fun s n =>
    match findFunction_in name (functions s) with
    | Some _ => Ret None s n
    | None =>
        let f := mkFunction name ty [] [] None nullptr false 0%Z in
        Ret (Some f) (set_functions s (functions s ++ [f])) n
    end.

Definition getCurrentFunction : Gen (option Function) :=
  fun s n =>
    Ret (match currentFunction s with
         | Some name => findFunction_in name (functions s)
         | None => None
         end) s n.

Definition setCurrentFunction (f : option string) : Gen unit :=
  modifyState (fun s => set_currentFunction s f).

Fixpoint updateFunction_in (name : string) (upd : Function -> Function)
         (fs : list Function) : list Function :=
  match fs with
  | [] => []
  | f :: rest =>
      if String.eqb (fn_name f) name then upd f :: rest
      else f :: updateFunction_in name upd rest
  end.

(** A write through the [Function*] of the current function. *)
Definition updCurrentFunction (upd : Function -> Function) : Gen unit :=
  modifyState (fun s =>
    match currentFunction s with
    | Some name => set_functions s (updateFunction_in name upd (functions s))
    | None => s
    end).

Definition fn_addInsts (l : InterCode) (f : Function) : Function :=
  mkFunction (fn_name f) (fn_returnType f) (fn_params f) (fn_interCode f ++ l)
             (fn_exitLabel f) (fn_returnValue f) (fn_existFuncCall f)
             (fn_maxFuncCallArgCnt f).
Definition fn_addParam (p : Value) (f : Function) : Function :=
  mkFunction (fn_name f) (fn_returnType f) (fn_params f ++ [p]) (fn_interCode f)
             (fn_exitLabel f) (fn_returnValue f) (fn_existFuncCall f)
             (fn_maxFuncCallArgCnt f).
Definition fn_setExitLabel (l : label) (f : Function) : Function :=
  mkFunction (fn_name f) (fn_returnType f) (fn_params f) (fn_interCode f)
             (Some l) (fn_returnValue f) (fn_existFuncCall f)
             (fn_maxFuncCallArgCnt f).
Definition fn_setReturnValue (v : Value) (f : Function) : Function :=
  mkFunction (fn_name f) (fn_returnType f) (fn_params f) (fn_interCode f)
             (fn_exitLabel f) v (fn_existFuncCall f)
             (fn_maxFuncCallArgCnt f).
Definition fn_setExistFuncCall (b : bool) (f : Function) : Function :=
  mkFunction (fn_name f) (fn_returnType f) (fn_params f) (fn_interCode f)
             (fn_exitLabel f) (fn_returnValue f) b
             (fn_maxFuncCallArgCnt f).
Definition fn_setMaxFuncCallArgCnt (c : Z) (f : Function) : Function :=
  mkFunction (fn_name f) (fn_returnType f) (fn_params f) (fn_interCode f)
             (fn_exitLabel f) (fn_returnValue f) (fn_existFuncCall f) c.

Fixpoint updateGlobal_in (name : string)
         (upd : GlobalVariable.t -> GlobalVariable.t)
         (gs : list GlobalVariable.t) : list GlobalVariable.t :=
  match gs with
  | [] => []
  | g :: rest =>
      if String.eqb (GlobalVariable.name g) name then upd g :: rest
      else g :: updateGlobal_in name upd rest
  end.

(** [static_cast<GlobalVariable*>(var)->setInitializer(v)] *)
Definition setGlobalInitializer (var : Value) (initVal : Value) : Gen unit :=
  match var with
  | GlobalVar _ name =>
      modifyState (fun s =>
        set_globals s (updateGlobal_in name
                         (fun g => GlobalVariable.setInitializer g initVal)
                         (globals s)))
  | _ => undef
  end.

(* ------------------------------------------------------------------ *)
(** * Lowering handlers (IRGenerator.cpp)

    A handler is the C++ member function of the same name.  Its children
    arrive as [Visitor]s, the calls [ir_visit_ast_node(node->sons[i])] it
    makes; it runs them in the order of the source. *)

Definition getAttrs : Gen ast_attrs := fun s n => Ret n s n.

(** [if (!x) return false;] *)
Definition require {A} (o : option A) : Gen A :=
  match o with
  | Some a => ret a
  | None => fail
  end.

(** A child that may be a null pointer and is visited only when it is not. *)
Definition visit_opt (son : option Visitor) : Gen (option ast_attrs) :=
  match son with
  | Some v => r <- v ;; r <- require r ;; ret (Some r)
  | None => ret None
  end.

Definition addInsts_opt (n : option ast_attrs) : Gen unit :=
  match n with
  | Some a => addInsts (blockInsts a)
  | None => ret tt
  end.

Definition new_BinaryInstruction (op : IRInstOperator) (src1 src2 : Value)
           (ty : IRType) : Gen Instruction :=
  id <- new_id ;; ret (BinaryInstruction id op src1 src2 ty).

Definition new_LabelInstruction : Gen label := new_id.

(** [ir_default] *)
Definition ir_default : Gen unit := ret tt.

(** [ir_leaf_node_uint]: the literal is a [uint32_t] cast to [int32_t]. *)
Definition ir_leaf_node_uint (integer_val : Z) : Gen unit :=
  setVal (newConstInt (wrap32 integer_val)).

(** [ir_leaf_node_var_id] *)
Definition ir_leaf_node_var_id (name : string) : Gen unit :=
  v <- findVarValue name ;;
  setVal v ;;
  ret tt.

(** [ir_leaf_node_type] *)
Definition ir_leaf_node_type : Gen unit := ret tt.

(** The part [ir_add], [ir_sub], [ir_mul], [ir_div], [ir_mod] and the six
    comparison handlers have in common: both operands, the instruction,
    then the three buffers in order. *)
Definition ir_binary (op : IRInstOperator) (ty : IRType)
           (son0 son1 : Visitor) : Gen Instruction :=
  left <- son0 ;; left <- require left ;;
  right <- son1 ;; right <- require right ;;
  inst <- new_BinaryInstruction op (val left) (val right) ty ;;
  addInsts (blockInsts left) ;;
  addInsts (blockInsts right) ;;
  addInst inst ;;
  ret inst.

Definition ir_add (son0 son1 : Visitor) : Gen unit :=
  inst <- ir_binary IRINST_OP_ADD_I TypeInt son0 son1 ;; setVal (asValue inst).
Definition ir_sub (son0 son1 : Visitor) : Gen unit :=
  inst <- ir_binary IRINST_OP_SUB_I TypeInt son0 son1 ;; setVal (asValue inst).
Definition ir_mul (son0 son1 : Visitor) : Gen unit :=
  inst <- ir_binary IRINST_OP_MUL_I TypeInt son0 son1 ;; setVal (asValue inst).
Definition ir_div (son0 son1 : Visitor) : Gen unit :=
  inst <- ir_binary IRINST_OP_DIV_I TypeInt son0 son1 ;; setVal (asValue inst).
Definition ir_mod (son0 son1 : Visitor) : Gen unit :=
  inst <- ir_binary IRINST_OP_MOD_I TypeInt son0 son1 ;; setVal (asValue inst).

(** [convertBoolToInt(node, boolValue)] *)
Definition convertBoolToInt (boolValue : Value) : Gen Value :=
  result <- newVarValue TypeInt "" ;;
  L_true <- new_LabelInstruction ;;
  L_false <- new_LabelInstruction ;;
  L_end <- new_LabelInstruction ;;
  addInst (GotoCond boolValue L_true L_false) ;;
  addInst (LabelInstruction L_true) ;;
  addInst (MoveInstruction result (newConstInt 1)) ;;
  addInst (Goto L_end) ;;
  addInst (LabelInstruction L_false) ;;
  addInst (MoveInstruction result (newConstInt 0)) ;;
  addInst (Goto L_end) ;;
  addInst (LabelInstruction L_end) ;;
  ret result.

(** [ir_neg] *)
Definition ir_neg (son0 : Visitor) : Gen unit :=
  operand <- son0 ;; operand <- require operand ;;
  let target := val operand in
  cur <- getCurrentFunction ;;
  match cur with
  | None =>
      match target with
      | ConstInt v => setVal (newConstInt (wrap32 (- v)))
      | _ => fail
      end
  | Some _ =>
      let zero := newConstInt 0 in
      match getType target with
      | None => undef
      | Some ty =>
          target' <-
            (if isInt1Byte ty then
               L_true <- new_LabelInstruction ;;
               L_false <- new_LabelInstruction ;;
               L_join <- new_LabelInstruction ;;
               tmpInt <- newVarValue TypeInt "" ;;
               addInsts (blockInsts operand) ;;
               addInst (GotoCond target L_true L_false) ;;
               addInst (LabelInstruction L_true) ;;
               addInst (MoveInstruction tmpInt (newConstInt 1)) ;;
               addInst (Goto L_join) ;;
               addInst (LabelInstruction L_false) ;;
               addInst (MoveInstruction tmpInt (newConstInt 0)) ;;
               addInst (Goto L_join) ;;
               addInst (LabelInstruction L_join) ;;
               ret tmpInt
             else
               addInsts (blockInsts operand) ;;
               ret target) ;;
          negInst <- new_BinaryInstruction IRINST_OP_SUB_I zero target' TypeInt ;;
          addInst negInst ;;
          setVal (asValue negInst)
      end
  end.

(** [ir_lt] and [ir_gt]: the comparison, then [convertBoolToInt]. *)
Definition ir_lt (son0 son1 : Visitor) : Gen unit :=
  cmpInst <- ir_binary IRINST_OP_LT_I TypeBool son0 son1 ;;
  r <- convertBoolToInt (asValue cmpInst) ;;
  setVal r.
Definition ir_gt (son0 son1 : Visitor) : Gen unit :=
  cmpInst <- ir_binary IRINST_OP_GT_I TypeBool son0 son1 ;;
  r <- convertBoolToInt (asValue cmpInst) ;;
  setVal r.

(** [ir_le], [ir_ge], [ir_eq], [ir_ne]: the comparison is the value. *)
Definition ir_le (son0 son1 : Visitor) : Gen unit :=
  cmpInst <- ir_binary IRINST_OP_LE_I TypeBool son0 son1 ;; setVal (asValue cmpInst).
Definition ir_ge (son0 son1 : Visitor) : Gen unit :=
  cmpInst <- ir_binary IRINST_OP_GE_I TypeBool son0 son1 ;; setVal (asValue cmpInst).
Definition ir_eq (son0 son1 : Visitor) : Gen unit :=
  cmpInst <- ir_binary IRINST_OP_EQ_I TypeBool son0 son1 ;; setVal (asValue cmpInst).
Definition ir_ne (son0 son1 : Visitor) : Gen unit :=
  cmpInst <- ir_binary IRINST_OP_NE_I TypeBool son0 son1 ;; setVal (asValue cmpInst).

(** [ir_and]: both operands are visited before either result is tested. *)
Definition ir_and (son0 son1 : Visitor) : Gen unit :=
  leftNode <- son0 ;;
  rightNode <- son1 ;;
  match leftNode, rightNode with
  | Some leftNode, Some rightNode =>
      L_rhs <- new_LabelInstruction ;;
      L_false <- new_LabelInstruction ;;
      L_end <- new_LabelInstruction ;;
      addInsts (blockInsts leftNode) ;;
      let zero := newConstInt 0 in
      cmpL <- new_BinaryInstruction IRINST_OP_NE_I (val leftNode) zero TypeBool ;;
      addInst cmpL ;;
      addInst (GotoCond (asValue cmpL) L_rhs L_false) ;;
      addInst (LabelInstruction L_rhs) ;;
      addInsts (blockInsts rightNode) ;;
      cmpR <- new_BinaryInstruction IRINST_OP_NE_I (val rightNode) zero TypeBool ;;
      addInst cmpR ;;
      result <- convertBoolToInt (asValue cmpR) ;;
      addInst (Goto L_end) ;;
      addInst (LabelInstruction L_false) ;;
      addInst (MoveInstruction result (newConstInt 0)) ;;
      addInst (Goto L_end) ;;
      addInst (LabelInstruction L_end) ;;
      setVal result
  | _, _ => fail
  end.

(** [ir_or] *)
Definition ir_or (son0 son1 : Visitor) : Gen unit :=
  leftNode <- son0 ;;
  rightNode <- son1 ;;
  match leftNode, rightNode with
  | Some leftNode, Some rightNode =>
      L_rhs <- new_LabelInstruction ;;
      L_true <- new_LabelInstruction ;;
      L_end <- new_LabelInstruction ;;
      addInsts (blockInsts leftNode) ;;
      let zero := newConstInt 0 in
      cmpL <- new_BinaryInstruction IRINST_OP_NE_I (val leftNode) zero TypeBool ;;
      addInst cmpL ;;
      addInst (GotoCond (asValue cmpL) L_true L_rhs) ;;
      addInst (LabelInstruction L_rhs) ;;
      addInsts (blockInsts rightNode) ;;
      cmpR <- new_BinaryInstruction IRINST_OP_NE_I (val rightNode) zero TypeBool ;;
      addInst cmpR ;;
      result <- convertBoolToInt (asValue cmpR) ;;
      addInst (Goto L_end) ;;
      addInst (LabelInstruction L_true) ;;
      addInst (MoveInstruction result (newConstInt 1)) ;;
      addInst (Goto L_end) ;;
      addInst (LabelInstruction L_end) ;;
      setVal result
  | _, _ => fail
  end.

(** [ir_not] *)
Definition ir_not (son0 : Visitor) : Gen unit :=
  operandNode <- son0 ;; operandNode <- require operandNode ;;
  let zero := newConstInt 0 in
  eqInst <- new_BinaryInstruction IRINST_OP_EQ_I (val operandNode) zero TypeBool ;;
  addInsts (blockInsts operandNode) ;;
  addInst eqInst ;;
  r <- convertBoolToInt (asValue eqInst) ;;
  setVal r.

(** Node kinds ([ast_operator_type]). *)
Inductive ast_operator_type : Type :=
| AST_OP_LEAF_LITERAL_UINT | AST_OP_LEAF_VAR_ID | AST_OP_LEAF_TYPE
| AST_OP_ADD | AST_OP_SUB | AST_OP_MUL | AST_OP_DIV | AST_OP_MOD | AST_OP_NEG
| AST_OP_LT | AST_OP_GT | AST_OP_LE | AST_OP_GE | AST_OP_EQ | AST_OP_NE
| AST_OP_AND | AST_OP_OR | AST_OP_NOT
| AST_OP_IF | AST_OP_WHILE | AST_OP_BREAK | AST_OP_CONTINUE
| AST_OP_ASSIGN | AST_OP_RETURN
| AST_OP_FUNC_CALL | AST_OP_FUNC_REAL_PARAMS
| AST_OP_FUNC_DEF | AST_OP_FUNC_FORMAL_PARAMS | AST_OP_FUNC_FORMAL_PARAM
| AST_OP_DECL_STMT | AST_OP_VAR_DECL | AST_OP_VAR_DEF | AST_OP_ARRAY_DEF
| AST_OP_ARRAY_ACCESS | AST_OP_ARRAY_DIMS
| AST_OP_BLOCK | AST_OP_COMPILE_UNIT.

Definition is_array_access (t : ast_operator_type) : bool :=
  match t with AST_OP_ARRAY_ACCESS => true | _ => false end.
Definition is_leaf_var_id (t : ast_operator_type) : bool :=
  match t with AST_OP_LEAF_VAR_ID => true | _ => false end.

(** [ir_assign]: the left side is visited first, its buffer is appended
    after the right side's. *)
Definition ir_assign (son1_type : ast_operator_type)
           (son1 son2 : Visitor) : Gen unit :=
  left <- son1 ;; left <- require left ;;
  right <- son2 ;; right <- require right ;;
  if is_array_access son1_type then
    let arrayAddr := arrayAccessAddress left in
    storeId <- new_id ;;
    let storeInst := StoreArrayInstruction (val right) arrayAddr (newConstInt 0) in
    addInsts (blockInsts right) ;;
    addInsts (blockInsts left) ;;
    addInst storeInst ;;
    setVal (InstValue storeId VoidType)
  else
    movId <- new_id ;;
    let movInst := MoveInstruction (val left) (val right) in
    addInsts (blockInsts right) ;;
    addInsts (blockInsts left) ;;
    addInst movInst ;;
    setVal (InstValue movId VoidType).

(** [ir_return] *)
Definition ir_return (son0 : option Visitor) : Gen unit :=
  right <- visit_opt son0 ;;
  currentFunc <- getCurrentFunction ;;
  match currentFunc with
  | None => undef
  | Some f =>
      match right with
      | Some r =>
          addInsts (blockInsts r) ;;
          addInst (MoveInstruction (fn_returnValue f) (val r)) ;;
          setVal (val r)
      | None => setVal nullptr
      end ;;
      match fn_exitLabel f with
      | Some l => addInst (Goto l)
      | None => undef
      end
  end.

(** The branch on a lowered condition in [ir_if] and [ir_while]: a
    [ConstInt] condition gives an unconditional jump. *)
Definition branch_on (cond : Value) (L_nonzero L_zero : label) : Instruction :=
  match cond with
  | ConstInt c => if (c =? 0)%Z then Goto L_zero else Goto L_nonzero
  | _ => GotoCond cond L_nonzero L_zero
  end.

(** [ir_if]: [son2] is [None] when the node has two sons, [Some None] when
    the third son is a null pointer. *)
Definition ir_if (son0 : Visitor) (son1 : option Visitor)
           (son2 : option (option Visitor)) : Gen unit :=
  condNode <- son0 ;; condNode <- require condNode ;;
  thenNode <- visit_opt son1 ;;
  elseNode <- visit_opt (match son2 with Some e => e | None => None end) ;;
  L_then <- new_LabelInstruction ;;
  L_else <- new_LabelInstruction ;;
  L_end <- new_LabelInstruction ;;
  addInsts (blockInsts condNode) ;;
  addInst (branch_on (val condNode) L_then L_else) ;;
  addInst (LabelInstruction L_then) ;;
  addInsts_opt thenNode ;;
  addInst (Goto L_end) ;;
  addInst (LabelInstruction L_else) ;;
  addInsts_opt elseNode ;;
  addInst (LabelInstruction L_end).

(** [ir_while] *)
Definition ir_while (son0 : Visitor) (son1 : option Visitor) : Gen unit :=
  L_cond <- new_LabelInstruction ;;
  L_body <- new_LabelInstruction ;;
  L_end <- new_LabelInstruction ;;
  modifyState (fun s => set_loopStacks s (loopCondStack s ++ [L_cond])
                                         (loopEndStack s ++ [L_end])) ;;
  condNode <- son0 ;; condNode <- require condNode ;;
  bodyNode <- visit_opt son1 ;;
  addInst (LabelInstruction L_cond) ;;
  addInsts (blockInsts condNode) ;;
  addInst (branch_on (val condNode) L_body L_end) ;;
  addInst (LabelInstruction L_body) ;;
  addInsts_opt bodyNode ;;
  addInst (Goto L_cond) ;;
  addInst (LabelInstruction L_end) ;;
  modifyState (fun s => set_loopStacks s (removelast (loopCondStack s))
                                         (removelast (loopEndStack s))).

(** [ir_break] *)
Definition ir_break : Gen unit :=
  s <- getState ;;
  match loopEndStack s with
  | [] => fail
  | _ :: _ =>
      let L_end := last (loopEndStack s) 0 in
      addInst (Goto L_end)
  end.

(** [ir_continue] *)
Definition ir_continue : Gen unit :=
  s <- getState ;;
  match loopCondStack s with
  | [] => fail
  | _ :: _ =>
      let L_cond := last (loopCondStack s) 0 in
      addInst (Goto L_cond)
  end.

(** The loop of [ir_function_call] over the actual parameters. *)
Fixpoint ir_function_call_args (sons : list (ast_operator_type * Visitor))
         (realParams : list Value) : Gen (list Value) :=
  match sons with
  | [] => ret realParams
  | (son_type, son) :: rest =>
      temp <- son ;; temp <- require temp ;;
      let paramValue := val temp in
      (if is_leaf_var_id son_type then
         match getType (val temp) with
         | None => undef
         | Some _ => ret tt
         end
       else ret tt) ;;
      addInsts (blockInsts temp) ;;
      ir_function_call_args rest (realParams ++ [paramValue])
  end.

(** [ir_function_call] *)
Definition ir_function_call (funcName : string)
           (paramsNode : list (ast_operator_type * Visitor)) : Gen unit :=
  currentFunc <- getCurrentFunction ;;
  calledFunction <- findFunction funcName ;;
  match calledFunction with
  | None => fail
  | Some callee =>
      match currentFunc with
      | None => undef
      | Some cur =>
          updCurrentFunction (fn_setExistFuncCall true) ;;
          realParams <-
            match paramsNode with
            | [] => ret []
            | _ :: _ =>
                let argsCount := Z.of_nat (List.length paramsNode) in
                (if (fn_maxFuncCallArgCnt cur <? argsCount)%Z
                 then updCurrentFunction (fn_setMaxFuncCallArgCnt argsCount)
                 else ret tt) ;;
                ir_function_call_args paramsNode []
            end ;;
          if negb (List.length realParams =? List.length (fn_params callee))%nat then fail
          else
            id <- new_id ;;
            let funcCallInst :=
              FuncCallInstruction id funcName realParams (fn_returnType callee) in
            addInst funcCallInst ;;
            setVal (asValue funcCallInst)
      end
  end.

(** The loop of [ir_block]. *)
Fixpoint ir_block_sons (sons : list Visitor) : Gen unit :=
  match sons with
  | [] => ret tt
  | son :: rest =>
      temp <- son ;; temp <- require temp ;;
      addInsts (blockInsts temp) ;;
      ir_block_sons rest
  end.

(** [ir_block] *)
Definition ir_block (needScope : bool) (sons : list Visitor) : Gen unit :=
  (if needScope then enterScope else ret tt) ;;
  ir_block_sons sons ;;
  (if needScope then leaveScope else ret tt).

(** [ir_declare_statment]: every child is handed to [ir_variable_declare],
    which arrives here as the visit of the child. *)
Fixpoint ir_declare_statment (sons : list Visitor) : Gen unit :=
  match sons with
  | [] => ret tt
  | child :: rest =>
      c <- child ;; c <- require c ;;
      addInsts (blockInsts c) ;;
      ir_declare_statment rest
  end.

(** The loop of [ir_get_array_dimensions]; a dimension that is not a
    [ConstInt] counts as 10. *)
Fixpoint ir_get_array_dimensions_sons (sons : list Visitor)
         (dimValues : list Value) (dimConstants : list Z)
  : Gen (list Value * list Z) :=
  match sons with
  | [] => ret (dimValues, dimConstants)
  | dimChild :: rest =>
      dimNode <- dimChild ;; dimNode <- require dimNode ;;
      addInsts (blockInsts dimNode) ;;
      let c := match val dimNode with ConstInt v => v | _ => 10%Z end in
      ir_get_array_dimensions_sons rest (dimValues ++ [val dimNode])
                                   (dimConstants ++ [c])
  end.

(** [ir_get_array_dimensions(node, dimsNode, dimValues, dimConstants)] *)
Definition ir_get_array_dimensions (dimsNode : option (list Visitor))
  : Gen (list Value * list Z) :=
  match dimsNode with
  | None => fail
  | Some sons => ir_get_array_dimensions_sons sons [] []
  end.

(** [ir_simple_var_def] *)
Definition ir_simple_var_def (ty : IRType) (name : string)
           (initExpr : option Visitor) : Gen unit :=
  curF <- getCurrentFunction ;;
  var <- newVarValue ty name ;;
  setVal var ;;
  match initExpr with
  | None => ret tt
  | Some v =>
      initNode <- v ;; initNode <- require initNode ;;
      addInsts (blockInsts initNode) ;;
      match curF with
      | Some _ => addInst (MoveInstruction var (val initNode))
      | None => setGlobalInitializer var (val initNode)
      end
  end.

(** [ir_array_var_def] *)
Definition ir_array_var_def (ty : IRType) (name : string)
           (dimsNode : option (list Visitor)) : Gen unit :=
  dims <- ir_get_array_dimensions dimsNode ;;
  let arrayType := ArrayType ty (snd dims) in
  arrayVar <- newVarValue arrayType name ;;
  match arrayVar with
  | nullptr => fail
  | _ => setVal arrayVar
  end.

(** The definition node below a [AST_OP_VAR_DECL], by kind. *)
Inductive defNode_view : Type :=
| view_var_def (name : string) (initExpr : option Visitor)
| view_array_def (name : string) (dimsNode : option (list Visitor))
| view_other.

(** [ir_variable_declare] *)
Definition ir_variable_declare (ty : IRType) (defNode : defNode_view) : Gen unit :=
  match defNode with
  | view_var_def name initExpr => ir_simple_var_def ty name initExpr
  | view_array_def name dimsNode => ir_array_var_def ty name dimsNode
  | view_other => fail
  end.

(** The loop [for (i = 1; i < accessedDims; ++i)] of
    [ir_calculate_array_offset], with [n] rounds left; reading
    [fullDimensions[i]] or [indices[i]] past the end is undefined. *)
Fixpoint ir_calculate_array_offset_loop (n i : nat) (indices : list Value)
         (fullDimensions : list Z) (linearOffset : Value) : Gen Value :=
  match n with
  | O => ret linearOffset
  | S n' =>
      match nth_error fullDimensions i, nth_error indices i with
      | Some d, Some idx =>
          let multiplierVal := newConstInt d in
          mulInst <- new_BinaryInstruction IRINST_OP_MUL_I linearOffset
                                           multiplierVal TypeInt ;;
          addInst mulInst ;;
          addInst' <- new_BinaryInstruction IRINST_OP_ADD_I (asValue mulInst)
                                            idx TypeInt ;;
          addInst addInst' ;;
          ir_calculate_array_offset_loop n' (S i) indices fullDimensions
                                         (asValue addInst')
      | _, _ => undef
      end
  end.

(** [remainingSize]: the product of the remaining dimensions in
    [int32_t]. *)
Definition remainingSize (remainingDims : list Z) : Z :=
  fold_left (fun acc dim => wrap32 (acc * dim)) remainingDims 1%Z.

(** [ir_calculate_array_offset] *)
Definition ir_calculate_array_offset (indices : list Value)
           (fullDimensions : list Z) (accessedDims : nat)
           (isFullAccess : bool) (remainingDims : list Z) : Gen Value :=
  match accessedDims with
  | O => ret (newConstInt 0)
  | S _ =>
      match nth_error indices 0 with
      | None => undef
      | Some idx0 =>
          linearOffset <-
            ir_calculate_array_offset_loop (accessedDims - 1) 1 indices
                                           fullDimensions idx0 ;;
          if negb isFullAccess then
            if (1 <? remainingSize remainingDims)%Z then
              let remainingSizeVal := newConstInt (remainingSize remainingDims) in
              mulInst <- new_BinaryInstruction IRINST_OP_MUL_I linearOffset
                                               remainingSizeVal TypeInt ;;
              addInst mulInst ;;
              ret (asValue mulInst)
            else ret linearOffset
          else ret linearOffset
      end
  end.

(** [ir_generate_array_access_instructions] *)
Definition ir_generate_array_access_instructions (arrayNameVal : Value)
           (linearOffset : Value) (elementType : IRType)
           (isFullAccess : bool) (remainingDims : list Z) : Gen unit :=
  let elementSize := newConstInt 4 in
  byteOffsetInst <- new_BinaryInstruction IRINST_OP_MUL_I linearOffset
                                          elementSize TypeInt ;;
  addInst byteOffsetInst ;;
  let ptrType := PointerType elementType in
  addrInst <- new_BinaryInstruction IRINST_OP_ADD_I arrayNameVal
                                    (asValue byteOffsetInst) ptrType ;;
  addInst addrInst ;;
  if isFullAccess then
    id <- new_id ;;
    let loadInst :=
      LoadArrayInstruction id (asValue addrInst) (newConstInt 0) elementType in
    addInst loadInst ;;
    setVal (asValue loadInst) ;;
    setArrayAccessAddress (asValue addrInst)
  else
    let sliceType := ArrayType elementType remainingDims in
    id <- new_id ;;
    let sliceInst := ArraySliceInstruction id (asValue addrInst) sliceType in
    addInst sliceInst ;;
    setVal (asValue sliceInst).

(** [ir_array_access] *)
Definition ir_array_access (son0 : Visitor)
           (indicesNode : option (list Visitor)) : Gen unit :=
  arrayNameNode <- son0 ;; arrayNameNode <- require arrayNameNode ;;
  dims <- ir_get_array_dimensions indicesNode ;;
  let indices := fst dims in
  addInsts (blockInsts arrayNameNode) ;;
  match getType (val arrayNameNode) with
  | None => undef
  | Some (ArrayType elementType fullDimensions) =>
      let accessedDims := List.length indices in
      let totalDims := List.length fullDimensions in
      let isFullAccess := (accessedDims =? totalDims)%nat in
      let remainingDims :=
        if isFullAccess then [] else skipn accessedDims fullDimensions in
      linearOffset <- ir_calculate_array_offset indices fullDimensions
                        accessedDims isFullAccess remainingDims ;;
      match linearOffset with
      | nullptr => fail
      | _ =>
          ir_generate_array_access_instructions (val arrayNameNode) linearOffset
            elementType isFullAccess remainingDims
      end
  | Some _ => fail
  end.

(** A [AST_OP_FUNC_FORMAL_PARAM] child: type, name and the optional
    array-dims node; [None] when it has fewer than two sons. *)
Definition formal_param_view : Type :=
  option (IRType * string * option (list Visitor)).

(** The dimension loop of [ir_function_formal_params]. *)
Fixpoint formal_param_dims (sons : list Visitor) (dimSizes : list Z)
  : Gen (list Z) :=
  match sons with
  | [] => ret dimSizes
  | dimChild :: rest =>
      dimNode <- dimChild ;; dimNode <- require dimNode ;;
      let c := match val dimNode with ConstInt v => v | _ => 10%Z end in
      formal_param_dims rest (dimSizes ++ [c])
  end.

(** First loop of [ir_function_formal_params]: the [FormalParam] values. *)
Fixpoint formal_params_first (sons : list formal_param_view) : Gen unit :=
  match sons with
  | [] => ret tt
  | None :: _ => fail
  | Some (ty, pname, dimsNode) :: rest =>
      ty' <- match dimsNode with
             | Some dimSons =>
                 dimSizes <- formal_param_dims dimSons [0%Z] ;;
                 ret (ArrayType ty dimSizes)
             | None => ret ty
             end ;;
      id <- new_id ;;
      updCurrentFunction (fn_addParam (FormalParam id ty' pname)) ;;
      formal_params_first rest
  end.

(** Second loop: a local per parameter, and the copy, which goes to the
    function's own code. *)
Fixpoint formal_params_second (sons : list formal_param_view) (i : nat)
  : Gen unit :=
  match sons with
  | [] => ret tt
  | pAST :: rest =>
      current <- getCurrentFunction ;;
      match current, pAST with
      | Some f, Some (_, pname, _) =>
          match nth_error (fn_params f) i with
          | None => undef
          | Some fp =>
              match getType fp with
              | None => undef
              | Some ty =>
                  localVar <- newVarValue ty pname ;;
                  updCurrentFunction (fn_addInsts [MoveInstruction localVar fp]) ;;
                  formal_params_second rest (S i)
              end
          end
      | _, _ => undef
      end
  end.

(** [ir_function_formal_params] *)
Definition ir_function_formal_params (sons : list formal_param_view) : Gen unit :=
  current <- getCurrentFunction ;;
  match current with
  | None => undef
  | Some _ =>
      formal_params_first sons ;;
      formal_params_second sons 0
  end.

(** [ir_function_define]: sons 0..3 are the return type, the name, the
    formal parameters and the body block, whose sons arrive as [body]. *)
Definition ir_function_define (retType : IRType) (name : string)
           (param_node : list formal_param_view) (body : list Visitor) : Gen unit :=
  cur <- getCurrentFunction ;;
  match cur with
  | Some _ => fail
  | None =>
      newFunc <- newFunction name retType ;;
      match newFunc with
      | None => fail
      | Some _ =>
          setCurrentFunction (Some name) ;;
          enterScope ;;
          updCurrentFunction (fn_addInsts [EntryInstruction]) ;;
          exitLabel <- new_LabelInstruction ;;
          updCurrentFunction (fn_setExitLabel exitLabel) ;;
          params <- visit_with (ir_function_formal_params param_node) ;;
          params <- require params ;;
          addInsts (blockInsts params) ;;
          retVal <-
            (if isVoidType retType then ret nullptr
             else
               rv <- newVarValue retType "" ;;
               updCurrentFunction (fn_setReturnValue rv) ;;
               addInst (MoveInstruction rv (newConstInt 0)) ;;
               ret rv) ;;
          block <- visit_with (ir_block false body) ;;
          block <- require block ;;
          addInsts (blockInsts block) ;;
          n <- getAttrs ;;
          updCurrentFunction (fn_addInsts (blockInsts n)) ;;
          updCurrentFunction
            (fn_addInsts [LabelInstruction exitLabel; ExitInstruction retVal]) ;;
          leaveScope ;;
          setCurrentFunction None
      end
  end.

(** The loop of [ir_compile_unit]. *)
Fixpoint ir_compile_unit_sons (sons : list Visitor) : Gen unit :=
  match sons with
  | [] => ret tt
  | son :: rest =>
      son_node <- son ;; _ <- require son_node ;;
      ir_compile_unit_sons rest
  end.

(** [ir_compile_unit] *)
Definition ir_compile_unit (sons : list Visitor) : Gen unit :=
  setCurrentFunction None ;;
  ir_compile_unit_sons sons.

(* ------------------------------------------------------------------ *)
(** * The AST and the dispatcher *)

(** The AST the front end delivers, one constructor per node shape.  A child
    that the front end may leave null is an [option]. *)
#[local] Unset Elimination Schemes.
Inductive ast_node : Type :=
| ast_leaf_literal_uint (integer_val : Z)
| ast_leaf_var_id (name : string)
| ast_leaf_type (type : IRType)
| ast_unary (op : ast_operator_type) (son0 : ast_node)
| ast_binary (op : ast_operator_type) (son0 son1 : ast_node)
| ast_return (son0 : option ast_node)
| ast_if (cond : ast_node) (thenNode : option ast_node)
         (elseNode : option (option ast_node))
| ast_while (cond : ast_node) (body : option ast_node)
| ast_break
| ast_continue
| ast_func_call (name : string) (realParams : list ast_node)
| ast_array_access (arrayName : ast_node) (dims : list ast_node)
| ast_block (needScope : bool) (sons : list ast_node)
| ast_decl_stmt (sons : list ast_node)
| ast_var_decl (type : IRType) (def : ast_node)
| ast_var_def (name : string) (init : option ast_node)
| ast_array_def (name : string) (dims : list ast_node)
| ast_func_def (retType : IRType) (name : string) (params : list ast_node)
               (block : ast_node)
| ast_func_formal_param (type : IRType) (name : string)
                        (dims : option (list ast_node))
| ast_compile_unit (sons : list ast_node).
#[local] Set Elimination Schemes.

Definition node_type (n : ast_node) : ast_operator_type :=
  match n with
  | ast_leaf_literal_uint _ => AST_OP_LEAF_LITERAL_UINT
  | ast_leaf_var_id _ => AST_OP_LEAF_VAR_ID
  | ast_leaf_type _ => AST_OP_LEAF_TYPE
  | ast_unary op _ => op
  | ast_binary op _ _ => op
  | ast_return _ => AST_OP_RETURN
  | ast_if _ _ _ => AST_OP_IF
  | ast_while _ _ => AST_OP_WHILE
  | ast_break => AST_OP_BREAK
  | ast_continue => AST_OP_CONTINUE
  | ast_func_call _ _ => AST_OP_FUNC_CALL
  | ast_array_access _ _ => AST_OP_ARRAY_ACCESS
  | ast_block _ _ => AST_OP_BLOCK
  | ast_decl_stmt _ => AST_OP_DECL_STMT
  | ast_var_decl _ _ => AST_OP_VAR_DECL
  | ast_var_def _ _ => AST_OP_VAR_DEF
  | ast_array_def _ _ => AST_OP_ARRAY_DEF
  | ast_func_def _ _ _ _ => AST_OP_FUNC_DEF
  | ast_func_formal_param _ _ _ => AST_OP_FUNC_FORMAL_PARAM
  | ast_compile_unit _ => AST_OP_COMPILE_UNIT
  end.

(** The handler table [ast2ir_handlers] for a node with one son. *)
Definition unary_handler (op : ast_operator_type) (son0 : Visitor) : Gen unit :=
  match op with
  | AST_OP_NEG => ir_neg son0
  | AST_OP_NOT => ir_not son0
  | _ => ir_default
  end.

(** The handler table for a node with two sons. *)
Definition binary_handler (op : ast_operator_type) (son0_type : ast_operator_type)
           (son0 son1 : Visitor) : Gen unit :=
  match op with
  | AST_OP_ADD => ir_add son0 son1
  | AST_OP_SUB => ir_sub son0 son1
  | AST_OP_MUL => ir_mul son0 son1
  | AST_OP_DIV => ir_div son0 son1
  | AST_OP_MOD => ir_mod son0 son1
  | AST_OP_LT => ir_lt son0 son1
  | AST_OP_GT => ir_gt son0 son1
  | AST_OP_LE => ir_le son0 son1
  | AST_OP_GE => ir_ge son0 son1
  | AST_OP_EQ => ir_eq son0 son1
  | AST_OP_NE => ir_ne son0 son1
  | AST_OP_AND => ir_and son0 son1
  | AST_OP_OR => ir_or son0 son1
  | AST_OP_ASSIGN => ir_assign son0_type son0 son1
  | _ => ir_default
  end.

(** [ir_visit_ast_node]: the handler of the node's kind, run on the node. *)
Fixpoint ir_visit_ast_node (node : ast_node) : Visitor :=
  visit_with
    match node with
    | ast_leaf_literal_uint v => ir_leaf_node_uint v
    | ast_leaf_var_id name => ir_leaf_node_var_id name
    | ast_leaf_type _ => ir_leaf_node_type
    | ast_unary op son0 => unary_handler op (ir_visit_ast_node son0)
    | ast_binary op son0 son1 =>
        binary_handler op (node_type son0)
                       (ir_visit_ast_node son0) (ir_visit_ast_node son1)
    | ast_return son0 => ir_return (option_map ir_visit_ast_node son0)
    | ast_if cond thenNode elseNode =>
        ir_if (ir_visit_ast_node cond)
              (option_map ir_visit_ast_node thenNode)
              (option_map (option_map ir_visit_ast_node) elseNode)
    | ast_while cond body =>
        ir_while (ir_visit_ast_node cond) (option_map ir_visit_ast_node body)
    | ast_break => ir_break
    | ast_continue => ir_continue
    | ast_func_call name realParams =>
        ir_function_call name
          (map (fun son => (node_type son, ir_visit_ast_node son)) realParams)
    | ast_array_access arrayName dims =>
        ir_array_access (ir_visit_ast_node arrayName)
                        (Some (map ir_visit_ast_node dims))
    | ast_block needScope sons =>
        ir_block needScope (map ir_visit_ast_node sons)
    | ast_decl_stmt sons =>
        ir_declare_statment (map ir_visit_ast_node sons)
    | ast_var_decl ty def =>
        ir_variable_declare ty
          match def with
          | ast_var_def name init =>
              view_var_def name (option_map ir_visit_ast_node init)
          | ast_array_def name dims =>
              view_array_def name (Some (map ir_visit_ast_node dims))
          | _ => view_other
          end
    | ast_var_def _ _ => ir_default
    | ast_array_def _ _ => ir_default
    | ast_func_def retType name params block =>
        ir_function_define retType name
          (map (fun p =>
                  match p with
                  | ast_func_formal_param ty pname dims =>
                      Some (ty, pname, option_map (map ir_visit_ast_node) dims)
                  | _ => None
                  end) params)
          match block with
          | ast_block _ sons => map ir_visit_ast_node sons
          | _ => []
          end
    | ast_func_formal_param _ _ _ => ir_default
    | ast_compile_unit sons => ir_compile_unit (map ir_visit_ast_node sons)
    end.

(** [IRGenerator::run] on a module state: the visit of the root. *)
Definition run (root : ast_node) (s : GenState) : outcome (option ast_attrs) :=
  ir_visit_ast_node root s empty_attrs.

(* ------------------------------------------------------------------ *)
(** * A machine for the linear IR

    The repository has no interpreter for its IR.  The machine below gives
    each instruction the meaning that the ARM32 selector translates it to
    (InstSelectorArm32.cpp): [add], [sub], [mul], [sdiv] on 32-bit registers,
    the remainder as [a - (a sdiv b) * b], a comparison as 0 or 1
    ([mov #0; mov<cc> #1]), a conditional branch as [cmp rCond, #0; bne
    Ltrue; b Lfalse], and a label as a position in the code.  The selector
    has no translation for the array instructions; here a load or store
    reads or writes the word at base + 4 * offset (the offset operand
    counts elements, LoadArrayInstruction.cpp), and a slice is the address
    it holds. *)

Section Machine.

(** Variables that hold a value: numbered objects (locals, parameters,
    instruction results) and named globals; [mem] is the array storage. *)
Record Machine : Type := mkMachine {
  pc : nat;
  regs : nat -> Z;
  gvars : string -> Z;
  mem : Z -> Z
}.

(** What a call does to globals and memory, and what it returns. *)
Variable call_sem :
  string -> list Z -> (string -> Z) -> (Z -> Z) -> Z * (string -> Z) * (Z -> Z).

(** The value of an operand; an array variable holds its base address. *)
Definition eval (m : Machine) (v : Value) : Z :=
  match v with
  | nullptr => 0%Z
  | ConstInt c => c
  | LocalVariable id _ _ => regs m id
  | GlobalVar _ name => gvars m name
  | FormalParam id _ _ => regs m id
  | InstValue id _ => regs m id
  end.

Definition bool_to_Z (b : bool) : Z := if b then 1%Z else 0%Z.

Definition eval_binop (op : IRInstOperator) (a b : Z) : Z :=
  match op with
  | IRINST_OP_ADD_I => wrap32 (a + b)
  | IRINST_OP_SUB_I => wrap32 (a - b)
  | IRINST_OP_MUL_I => wrap32 (a * b)
  | IRINST_OP_DIV_I => wrap32 (Z.quot a b)
  | IRINST_OP_MOD_I => wrap32 (a - wrap32 (wrap32 (Z.quot a b) * b))
  | IRINST_OP_LT_I => bool_to_Z (a <? b)%Z
  | IRINST_OP_GT_I => bool_to_Z (b <? a)%Z
  | IRINST_OP_LE_I => bool_to_Z (a <=? b)%Z
  | IRINST_OP_GE_I => bool_to_Z (b <=? a)%Z
  | IRINST_OP_EQ_I => bool_to_Z (a =? b)%Z
  | IRINST_OP_NE_I => bool_to_Z (negb (a =? b)%Z)
  end.

Definition set_reg (m : Machine) (id : nat) (z : Z) : Machine :=
  mkMachine (pc m) (fun k => if Nat.eqb k id then z else regs m k)
            (gvars m) (mem m).
Definition set_gvar (m : Machine) (name : string) (z : Z) : Machine :=
  mkMachine (pc m) (regs m)
            (fun k => if String.eqb k name then z else gvars m k) (mem m).
Definition set_mem (m : Machine) (a z : Z) : Machine :=
  mkMachine (pc m) (regs m) (gvars m)
            (fun k => if (k =? a)%Z then z else mem m k).
Definition set_pc (m : Machine) (p : nat) : Machine :=
  mkMachine p (regs m) (gvars m) (mem m).
Definition next (m : Machine) : Machine := set_pc m (S (pc m)).

(** A write to a variable; constants and null are not writable. *)
Definition write (m : Machine) (dst : Value) (z : Z) : option Machine :=
  match dst with
  | LocalVariable id _ _ => Some (set_reg m id z)
  | FormalParam id _ _ => Some (set_reg m id z)
  | InstValue id _ => Some (set_reg m id z)
  | GlobalVar _ name => Some (set_gvar m name z)
  | _ => None
  end.

(** The position of label [l]: its first [LabelInstruction]. *)
Fixpoint find_label (l : label) (prog : InterCode) : option nat :=
  match prog with
  | [] => None
  | LabelInstruction l' :: rest =>
      if Nat.eqb l' l then Some O else option_map S (find_label l rest)
  | _ :: rest => option_map S (find_label l rest)
  end.

Definition jump (prog : InterCode) (m : Machine) (l : label) : option Machine :=
  option_map (set_pc m) (find_label l prog).

(** One instruction.  [None]: the machine has stopped ([exit], or no
    instruction at [pc]) or is stuck. *)
Definition step (prog : InterCode) (m : Machine) : option Machine :=
  match nth_error prog (pc m) with
  | None => None
  | Some i =>
      match i with
      | EntryInstruction => Some (next m)
      | ExitInstruction _ => None
      | LabelInstruction _ => Some (next m)
      | GotoInstruction nullptr t _ => jump prog m t
      | GotoInstruction cond t f =>
          if (eval m cond =? 0)%Z
          then match f with Some l => jump prog m l | None => None end
          else jump prog m t
      | MoveInstruction dst src => option_map next (write m dst (eval m src))
      | BinaryInstruction id op a b _ =>
          Some (next (set_reg m id (eval_binop op (eval m a) (eval m b))))
      | FuncCallInstruction id callee args _ =>
          let '(r, g, h) := call_sem callee (map (eval m) args) (gvars m) (mem m) in
          Some (mkMachine (S (pc m))
                          (fun k => if Nat.eqb k id then r else regs m k) g h)
      | LoadArrayInstruction id base off _ =>
          Some (next (set_reg m id
                        (mem m (wrap32 (eval m base + 4 * eval m off)))))
      | StoreArrayInstruction v base off =>
          Some (next (set_mem m (wrap32 (eval m base + 4 * eval m off))
                              (eval m v)))
      | ArraySliceInstruction id addr _ =>
          Some (next (set_reg m id (eval m addr)))
      end
  end.

(** [n] steps from [m]: the positions executed, in order, and the machine
    reached; [None] when the machine stops earlier. *)
Fixpoint exec (prog : InterCode) (n : nat) (m : Machine)
  : option (list nat * Machine) :=
  match n with
  | O => Some ([], m)
  | S n' =>
      match step prog m with
      | None => None
      | Some m1 =>
          match exec prog n' m1 with
          | None => None
          | Some (t, m2) => Some (pc m :: t, m2)
          end
      end
  end.

End Machine.

(** The labels defined in a piece of code. *)
Fixpoint labels_of (prog : InterCode) : list label :=
  match prog with
  | [] => []
  | LabelInstruction l :: rest => l :: labels_of rest
  | _ :: rest => labels_of rest
  end.

Definition is_call (i : Instruction) : bool :=
  match i with FuncCallInstruction _ _ _ _ => true | _ => false end.
Definition is_load (i : Instruction) : bool :=
  match i with LoadArrayInstruction _ _ _ _ => true | _ => false end.
Definition is_store (i : Instruction) : bool :=
  match i with StoreArrayInstruction _ _ _ => true | _ => false end.
Definition is_slice (i : Instruction) : bool :=
  match i with ArraySliceInstruction _ _ _ => true | _ => false end.

Definition count (p : Instruction -> bool) (code : InterCode) : nat :=
  List.length (filter p code).

(* ------------------------------------------------------------------ *)
(** * ARM32 selection of branches (InstSelectorArm32.cpp) *)

Module InstSelectorArm32.

(** What the selector hands to the ILoc emitter. *)
Inductive ILocLine : Type :=
| iloc_inst (op : string) (operands : list string)
| iloc_load_var (rs_reg_no : Z) (src : Value).

(** Modelled from the spec: [ILocArm32::jump] (ILocArm32.cpp is not among
    the sources); an unconditional jump "becomes [b .Lk]". *)
Definition iloc_jump (labelName : string) : ILocLine :=
  iloc_inst "b" [labelName].

Section Selector.

(** [PlatformArm32::regName], [LabelInstruction::getName] and
    [Value::getRegId] (-1: not in a register) are declared outside the
    sources, and so is the register allocator. *)
Variable regName : Z -> string.
Variable getName : label -> string.
Variable getRegId : Value -> Z.
Variable Allocator : Type.
Variable Allocate : Allocator -> Value -> Z * Allocator.
Variable free : Allocator -> Value -> Allocator.

Record Selector : Type := mkSelector {
  iloc : list ILocLine;
  simpleRegisterAllocator : Allocator
}.

Definition emit (st : Selector) (l : ILocLine) : Selector :=
  mkSelector (iloc st ++ [l]) (simpleRegisterAllocator st).

Definition is_nullptr (v : Value) : bool :=
  match v with nullptr => true | _ => false end.

(** [translate_br].  [None]: the instruction is not a
    [GotoInstruction], or a conditional one has no false target. *)
Definition translate_br (inst : Instruction) (st : Selector) : option Selector :=
  match inst with
  | GotoInstruction cond Ltrue Lfalse =>
      if is_nullptr cond then
        Some (emit st (iloc_jump (getName Ltrue)))
      else
        match Lfalse with
        | None => None
        | Some Lfalse =>
            let condReg := getRegId cond in
            let '(loadReg, st1) :=
              if (condReg =? -1)%Z then
                let '(r, a) := Allocate (simpleRegisterAllocator st) cond in
                (r, emit (mkSelector (iloc st) a) (iloc_load_var r cond))
              else (condReg, st) in
            let rCond := regName loadReg in
            let st2 := emit st1 (iloc_inst "cmp" [rCond; "#0"]) in
            let st3 := emit st2 (iloc_inst "bne" [getName Ltrue]) in
            let st4 := emit st3 (iloc_jump (getName Lfalse)) in
            Some (mkSelector (iloc st4)
                             (free (simpleRegisterAllocator st4) cond))
        end
  | _ => None
  end.

End Selector.

End InstSelectorArm32.

(* ------------------------------------------------------------------ *)
(** * The specification's statements, as predicates

    Where the code departs from a sentence of the specification, the
    sentence is written out here as it reads, to be compared with what the
    lowering produces. *)

(** "used as the LHS of assignment, the LoadArray is suppressed and a
    StoreArray takes its place": the assignment's code holds one store and
    no load. *)
Definition spec_lhs_load_suppressed (assignCode : InterCode) : Prop :=
  count is_load assignCode = 0%nat /\ count is_store assignCode = 1%nat.

(** "non-zero: emit only the then-branch body", "zero: emit only the
    else-branch body": no instruction of the other body is in the code of
    the [if]. *)
Definition spec_if_const_specialized (c : Z) (thenBody elseBody ifCode : InterCode)
  : Prop :=
  if (c =? 0)%Z then forall i, In i thenBody -> ~ In i ifCode
  else forall i, In i elseBody -> ~ In i ifCode.

(** The parent contexts the specification distinguishes for a comparison. *)
Inductive parent_context : Type :=
| IfCondition | WhileCondition | ShortCircuitOperand | OtherParent.

(** "If the parent is an if-condition, while-condition, or operand of a
    short-circuit operator, the raw i1 is used directly ...  Otherwise the i1
    is widened to i32": the type of the value a comparison exposes. *)
Definition spec_exposed_type (ctx : parent_context) : IRType :=
  match ctx with
  | OtherParent => TypeInt
  | _ => TypeBool
  end.

(** "Identifier: look up in the scope stack; if not found, fail": the
    outcome the specification gives the lowering of an identifier. *)
Definition spec_identifier_fails (name : string) (s : GenState)
           (result : outcome (option ast_attrs)) : Prop :=
  findVarValue_in name (scopeStack s) = nullptr ->
  exists s' n', result = Ret None s' n'.

(** "BSS if no initializer or zero; .data otherwise": the placement the
    specification gives a global with initializer [init]. *)
Definition spec_inBSS (init : Value) : bool :=
  match init with
  | nullptr => true
  | ConstInt 0 => true
  | _ => false
  end.

(** [lowers node s a s']: visiting [node] in state [s] succeeds with
    attributes [a] and leaves state [s']. *)
Definition lowers (node : ast_node) (s : GenState) (a : ast_attrs)
           (s' : GenState) : Prop :=
  ir_visit_ast_node node s empty_attrs = Ret (Some a) s' empty_attrs.

(** The same for a child that may be null: it contributes [code]. *)
Definition lowers_opt (node : option ast_node) (s : GenState)
           (code : InterCode) (s' : GenState) : Prop :=
  match node with
  | None => code = [] /\ s' = s
  | Some x => exists a, lowers x s a s' /\ blockInsts a = code
  end.


(* ------------------------------------------------------------------ *)
(** * Notions used in the statements *)

(** The type of the value each comparison exposes, by operator. *)
Definition exposed_type (op : ast_operator_type) : IRType :=
  match op with
  | AST_OP_LT | AST_OP_GT => TypeInt
  | _ => TypeBool
  end.

Definition compare_operator (op : ast_operator_type) : option IRInstOperator :=
  match op with
  | AST_OP_LT => Some IRINST_OP_LT_I
  | AST_OP_GT => Some IRINST_OP_GT_I
  | AST_OP_LE => Some IRINST_OP_LE_I
  | AST_OP_GE => Some IRINST_OP_GE_I
  | AST_OP_EQ => Some IRINST_OP_EQ_I
  | AST_OP_NE => Some IRINST_OP_NE_I
  | _ => None
  end.

(** The code of [convertBoolToInt] for condition [b], result [r] and the
    labels numbered from [l]. *)
Definition widen_code (b r : Value) (l : nat) : InterCode :=
  [GotoCond b l (S l); LabelInstruction l;
   MoveInstruction r (ConstInt 1); Goto (S (S l));
   LabelInstruction (S l);
   MoveInstruction r (ConstInt 0); Goto (S (S l));
   LabelInstruction (S (S l))].

(** The variable [newVarValue] creates for an anonymous [i32] in state
    [s]. *)
Definition fresh_int (s : GenState) : Value :=
  match currentFunction s with
  | Some _ => LocalVariable (nextId s) TypeInt ""
  | None => GlobalVar TypeInt ""
  end.

(** The counter after that creation. *)
Definition after_fresh_int (s : GenState) : nat :=
  match currentFunction s with
  | Some _ => S (nextId s)
  | None => nextId s
  end.


(** The state [newVarValue] leaves after that creation: inside a function
    the counter has moved past the local; outside, the unnamed global is
    added to the module. *)
Definition after_fresh_state (s : GenState) : GenState :=
  match currentFunction s with
  | Some _ => set_nextId s (S (nextId s))
  | None => set_globals s (globals s ++ [GlobalVariable.new TypeInt ""])
  end.

(** The state [convertBoolToInt] leaves: the variable, then three labels. *)
Definition widened_state (s : GenState) : GenState :=
  set_nextId (after_fresh_state s) (3 + nextId (after_fresh_state s)).

(** "fresh local r: i32": the result of the pattern is a local variable
    of type [i32]. *)
Definition spec_widened_local (r : Value) : Prop :=
  exists id name, r = LocalVariable id TypeInt name.

(* ------------------------------------------------------------------ *)
(** * Row-major offsets *)

(** The specification's offset: [off = i1; for j in 2..k: off = off*dj + ij]. *)
Fixpoint horner_from (off : Z) (idx dims : list Z) : Z :=
  match idx, dims with
  | i :: idx', d :: dims' => horner_from (off * d + i)%Z idx' dims'
  | _, _ => off
  end.

Definition horner (idx fullDimensions : list Z) : Z :=
  match idx with
  | [] => 0%Z
  | i1 :: rest => horner_from i1 rest (tl fullDimensions)
  end.

(** The product of the dimensions that are left. *)
Definition product (dims : list Z) : Z := fold_right Z.mul 1%Z dims.

(** The specification's byte offset of [a[c1]...[ck]] in an array of shape
    [d1..dn]. *)
Definition spec_byte_offset (idx fullDimensions : list Z) : Z :=
  (4 * (horner idx fullDimensions
        * product (skipn (List.length idx) fullDimensions)))%Z.


(* ------------------------------------------------------------------ *)
(** * Straight-line arithmetic and lists of children *)

Definition is_binary (i : Instruction) : bool :=
  match i with BinaryInstruction _ _ _ _ _ => true | _ => false end.

(** The effect of a run of [BinaryInstruction]s on the registers. *)
Fixpoint run_binaries (code : InterCode) (m : Machine) : Machine :=
  match code with
  | [] => m
  | BinaryInstruction id op a b _ :: rest =>
      run_binaries rest (set_reg m id (eval_binop op (eval m a) (eval m b)))
  | _ :: rest => run_binaries rest m
  end.

(** [v] was created before the counter reached [bound]. *)
Definition value_id_lt (bound : nat) (v : Value) : Prop :=
  match v with
  | LocalVariable id _ _ => (id < bound)%nat
  | FormalParam id _ _ => (id < bound)%nat
  | InstValue id _ => (id < bound)%nat
  | _ => True
  end.

(** The state after [k] more objects were created. *)
Definition advance (s : GenState) (k : nat) : GenState :=
  match k with
  | O => s
  | S _ => set_nextId s (k + nextId s)
  end.

(** Children lowered one after the other. *)
Inductive lowers_list : list ast_node -> GenState -> list ast_attrs -> GenState -> Prop :=
| lowers_nil : forall s, lowers_list [] s [] s
| lowers_cons : forall x xs s a s1 rest s2,
    lowers x s a s1 -> lowers_list xs s1 rest s2 ->
    lowers_list (x :: xs) s (a :: rest) s2.

Definition dim_constant (a : ast_attrs) : Z :=
  match val a with ConstInt v => v | _ => 10%Z end.

(** The three instructions that close an array access whose linear offset
    is [off]: the byte offset (object number [byteId]), the address, and the
    load (all dimensions indexed) or the slice. *)
Definition byteOffsetInst_of (byteId : nat) (off : Value) : Instruction :=
  BinaryInstruction byteId IRINST_OP_MUL_I off (ConstInt 4) TypeInt.

Definition addrInst_of (byteId : nat) (base : Value) (elem : IRType) : Instruction :=
  BinaryInstruction (S byteId) IRINST_OP_ADD_I base (InstValue byteId TypeInt)
                    (PointerType elem).

Definition accessInst_of (byteId : nat) (base : Value) (elem : IRType)
           (isFull : bool) (remainingDims : list Z) : Instruction :=
  if isFull then
    LoadArrayInstruction (S (S byteId)) (asValue (addrInst_of byteId base elem))
                         (ConstInt 0) elem
  else
    ArraySliceInstruction (S (S byteId)) (asValue (addrInst_of byteId base elem))
                          (ArrayType elem remainingDims).

(* ------------------------------------------------------------------ *)
(** * Notions for branches on the machine *)

(** A variable that [MoveInstruction] can write. *)
Definition writable (v : Value) : Prop :=
  match v with
  | nullptr => False
  | ConstInt _ => False
  | _ => True
  end.

(** The result variable of a short-circuit operator whose operands were
    lowered up to state [s2]: three labels and two comparisons are created
    before it. *)
Definition short_circuit_result (s2 : GenState) : Value :=
  fresh_int (set_nextId s2 (5 + nextId s2)).

(** The code of [a && b] ([isAnd]) or [a || b]: [L_rhs], [L_other] (the
    label of the short cut: [L_false] for [&&], [L_true] for [||]) and
    [L_end] are numbered from [nextId s2]. *)
Definition short_circuit_code (isAnd : bool) (la lb : ast_attrs)
           (s2 : GenState) : InterCode :=
  let base := nextId s2 in
  let L_rhs := base in
  let L_other := S base in
  let L_end := S (S base) in
  let cmpL := BinaryInstruction (3 + base) IRINST_OP_NE_I (val la) (ConstInt 0) TypeBool in
  let cmpR := BinaryInstruction (4 + base) IRINST_OP_NE_I (val lb) (ConstInt 0) TypeBool in
  let r := short_circuit_result s2 in
  blockInsts la
  ++ [cmpL;
      if isAnd then GotoCond (asValue cmpL) L_rhs L_other
      else GotoCond (asValue cmpL) L_other L_rhs;
      LabelInstruction L_rhs]
  ++ blockInsts lb
  ++ [cmpR]
  ++ widen_code (asValue cmpR) r (after_fresh_int (set_nextId s2 (5 + base)))
  ++ [Goto L_end;
      LabelInstruction L_other;
      MoveInstruction r (ConstInt (if isAnd then 0 else 1));
      Goto L_end;
      LabelInstruction L_end].

(** Every move in [code] writes [r], and writes the constant 1 or 0. *)
Definition moves_only_bool (r : Value) (code : InterCode) : Prop :=
  forall dst src, In (MoveInstruction dst src) code ->
                  dst = r /\ (src = ConstInt 1 \/ src = ConstInt 0).

(* ------------------------------------------------------------------ *)
(** * A concrete state and concrete programs *)

(** The state inside [int main()] after the globals [int a[3][4];], the
    function [int f()] and the declarations [int x; int y;]. *)
Definition demo_a : Value := GlobalVar (ArrayType TypeInt [3; 4]%Z) "a".
Definition demo_x : Value := LocalVariable 3 TypeInt "x".
Definition demo_y : Value := LocalVariable 4 TypeInt "y".

Definition demo_state : GenState :=
  mkGenState 5
    [[("y", demo_y); ("x", demo_x)]; [("a", demo_a)]]
    [GlobalVariable.new (ArrayType TypeInt [3; 4]%Z) "a"]
    [mkFunction "f" TypeInt []
                [EntryInstruction;
                 MoveInstruction (LocalVariable 1 TypeInt "") (ConstInt 0);
                 MoveInstruction (LocalVariable 1 TypeInt "") (ConstInt 1);
                 Goto 0; LabelInstruction 0;
                 ExitInstruction (LocalVariable 1 TypeInt "")]
                (Some 0) (LocalVariable 1 TypeInt "") false 0%Z;
     mkFunction "main" TypeInt [] [EntryInstruction] (Some 2) nullptr false 0%Z]
    (Some "main") [] [].

(** [a[1][2]] and [a[1]] *)
Definition demo_access : ast_node :=
  ast_array_access (ast_leaf_var_id "a")
                   [ast_leaf_literal_uint 1; ast_leaf_literal_uint 2].
Definition demo_slice : ast_node :=
  ast_array_access (ast_leaf_var_id "a") [ast_leaf_literal_uint 1].

(** [int a[3][4]; int main() { a[1][2] = 7; return a[1][2]; }] *)
Definition demo_program_array : ast_node :=
  ast_compile_unit
    [ast_decl_stmt
       [ast_var_decl TypeInt
          (ast_array_def "a" [ast_leaf_literal_uint 3; ast_leaf_literal_uint 4])];
     ast_func_def TypeInt "main" []
       (ast_block true
          [ast_binary AST_OP_ASSIGN demo_access (ast_leaf_literal_uint 7);
           ast_return (Some demo_access)])].

(** [int a[3][4]; int main() { a[1][2] = 7; return 0; }] *)
Definition demo_program_store : ast_node :=
  ast_compile_unit
    [ast_decl_stmt
       [ast_var_decl TypeInt
          (ast_array_def "a" [ast_leaf_literal_uint 3; ast_leaf_literal_uint 4])];
     ast_func_def TypeInt "main" []
       (ast_block true
          [ast_binary AST_OP_ASSIGN demo_access (ast_leaf_literal_uint 7);
           ast_return (Some (ast_leaf_literal_uint 0))])].

(** [int c[2][65536][65536]; int z[2][0];
     int g(int p[][65536][65536]) { return 0; }
     int h(int q[][0]) { return 0; }
     int main() { return g(c[1]) + h(z[1]); }] *)
Definition demo_c : Value := GlobalVar (ArrayType TypeInt [2; 65536; 65536]%Z) "c".
Definition demo_z : Value := GlobalVar (ArrayType TypeInt [2; 0]%Z) "z".

Definition demo_program_wide : ast_node :=
  ast_compile_unit
    [ast_decl_stmt
       [ast_var_decl TypeInt
          (ast_array_def "c" [ast_leaf_literal_uint 2; ast_leaf_literal_uint 65536;
                              ast_leaf_literal_uint 65536])];
     ast_decl_stmt
       [ast_var_decl TypeInt
          (ast_array_def "z" [ast_leaf_literal_uint 2; ast_leaf_literal_uint 0])];
     ast_func_def TypeInt "g"
       [ast_func_formal_param TypeInt "p"
          (Some [ast_leaf_literal_uint 65536; ast_leaf_literal_uint 65536])]
       (ast_block false [ast_return (Some (ast_leaf_literal_uint 0))]);
     ast_func_def TypeInt "h"
       [ast_func_formal_param TypeInt "q" (Some [ast_leaf_literal_uint 0])]
       (ast_block false [ast_return (Some (ast_leaf_literal_uint 0))]);
     ast_func_def TypeInt "main" []
       (ast_block false
          [ast_return
             (Some (ast_binary AST_OP_ADD
                (ast_func_call "g"
                   [ast_array_access (ast_leaf_var_id "c") [ast_leaf_literal_uint 1]])
                (ast_func_call "h"
                   [ast_array_access (ast_leaf_var_id "z") [ast_leaf_literal_uint 1]])))])].

(** [1 < 2], and [int g = 1 < 2;] outside any function. *)
Definition demo_lt_const : ast_node :=
  ast_binary AST_OP_LT (ast_leaf_literal_uint 1) (ast_leaf_literal_uint 2).

Definition demo_global_init : ast_node :=
  ast_compile_unit
    [ast_decl_stmt
       [ast_var_decl TypeInt (ast_var_def "g" (Some demo_lt_const))]].

(** [x = 1;] and [x = 2;] *)
Definition demo_assign (c : Z) : ast_node :=
  ast_binary AST_OP_ASSIGN (ast_leaf_var_id "x") (ast_leaf_literal_uint c).

(** [if (1) x = 1; else x = 2;] *)
Definition demo_if_const : ast_node :=
  ast_if (ast_leaf_literal_uint 1) (Some (demo_assign 1))
         (Some (Some (demo_assign 2))).

(** [x < y] and [x <= y] *)
Definition demo_lt : ast_node :=
  ast_binary AST_OP_LT (ast_leaf_var_id "x") (ast_leaf_var_id "y").
Definition demo_le : ast_node :=
  ast_binary AST_OP_LE (ast_leaf_var_id "x") (ast_leaf_var_id "y").

(** A machine at position [p] where every variable holds [z]. *)
Definition demo_machine (p : nat) (z : Z) : Machine :=
  mkMachine p (fun _ => z) (fun _ => z) (fun _ => z).

(** Calls that return 0 and change nothing. *)
Definition demo_call_sem (callee : string) (args : list Z)
           (g : string -> Z) (h : Z -> Z) : Z * (string -> Z) * (Z -> Z) :=
  (0%Z, g, h).

(** The state in which [ir_while] visits its children: the three labels
    are made, [L_cond] and [L_end] are on top of the loop stacks. *)
Definition while_entry (s : GenState) : GenState :=
  set_loopStacks (set_nextId s (3 + nextId s))
                 (loopCondStack s ++ [nextId s])
                 (loopEndStack s ++ [2 + nextId s])%nat.

(** The state in which [ir_while] leaves: the two stacks popped. *)
Definition while_exit (s : GenState) : GenState :=
  set_loopStacks s (removelast (loopCondStack s)) (removelast (loopEndStack s)).

(** [while (x) { while (y) { break; } continue; }] *)
Definition demo_nested_loops : ast_node :=
  ast_while (ast_leaf_var_id "x")
    (Some (ast_block true
             [ast_while (ast_leaf_var_id "y")
                        (Some (ast_block true [ast_break]));
              ast_continue])).
(* ------------------------------------------------------------------ *)
(** * Notions for the shape of the generated code *)

(** The labels a branch can jump to. *)
Definition targets_of_inst (i : Instruction) : list label :=
  match i with
  | GotoInstruction _ t f => t :: match f with Some l => [l] | None => [] end
  | _ => []
  end.

Definition targets_of (code : InterCode) : list label :=
  flat_map targets_of_inst code.

(** The dimension expressions of a formal parameter node. *)
Definition formal_param_dim_nodes (p : ast_node) : list ast_node :=
  match p with
  | ast_func_formal_param _ _ (Some dims) => dims
  | _ => []
  end.

Definition opt_node (o : option ast_node) : list ast_node :=
  match o with Some x => [x] | None => [] end.

(** The nodes that the handler of [n] hands to [ir_visit_ast_node], in the
    order of the visits. *)
Definition visited_sons (n : ast_node) : list ast_node :=
  match n with
  | ast_leaf_literal_uint _ | ast_leaf_var_id _ | ast_leaf_type _ => []
  | ast_unary op son0 =>
      match op with AST_OP_NEG | AST_OP_NOT => [son0] | _ => [] end
  | ast_binary op son0 son1 =>
      match op with
      | AST_OP_ADD | AST_OP_SUB | AST_OP_MUL | AST_OP_DIV | AST_OP_MOD
      | AST_OP_LT | AST_OP_GT | AST_OP_LE | AST_OP_GE | AST_OP_EQ | AST_OP_NE
      | AST_OP_AND | AST_OP_OR | AST_OP_ASSIGN => [son0; son1]
      | _ => []
      end
  | ast_return son0 => opt_node son0
  | ast_if cond thenNode elseNode =>
      cond :: opt_node thenNode
           ++ opt_node (match elseNode with Some e => e | None => None end)
  | ast_while cond body => cond :: opt_node body
  | ast_break | ast_continue => []
  | ast_func_call _ realParams => realParams
  | ast_array_access arrayName dims => arrayName :: dims
  | ast_block _ sons => sons
  | ast_decl_stmt sons => sons
  | ast_var_decl _ def =>
      match def with
      | ast_var_def _ init => opt_node init
      | ast_array_def _ dims => dims
      | _ => []
      end
  | ast_var_def _ _ | ast_array_def _ _ => []
  | ast_func_def _ _ params block =>
      flat_map formal_param_dim_nodes params
      ++ match block with ast_block _ sons => sons | _ => [] end
  | ast_func_formal_param _ _ _ => []
  | ast_compile_unit sons => sons
  end.

(** Nodes of a function body: no function definition and no compile unit
    among the node and the nodes visited below it. *)
Fixpoint body_node (n : ast_node) : bool :=
  match n with
  | ast_leaf_literal_uint _ | ast_leaf_var_id _ | ast_leaf_type _ => true
  | ast_unary _ son0 => body_node son0
  | ast_binary _ son0 son1 => body_node son0 && body_node son1
  | ast_return son0 =>
      match son0 with Some x => body_node x | None => true end
  | ast_if cond thenNode elseNode =>
      body_node cond
      && match thenNode with Some x => body_node x | None => true end
      && match elseNode with Some (Some x) => body_node x | _ => true end
  | ast_while cond body =>
      body_node cond && match body with Some x => body_node x | None => true end
  | ast_break | ast_continue => true
  | ast_func_call _ realParams => forallb body_node realParams
  | ast_array_access arrayName dims => body_node arrayName && forallb body_node dims
  | ast_block _ sons => forallb body_node sons
  | ast_decl_stmt sons => forallb body_node sons
  | ast_var_decl _ def =>
      match def with
      | ast_var_def _ init =>
          match init with Some x => body_node x | None => true end
      | ast_array_def _ dims => forallb body_node dims
      | _ => true
      end
  | ast_var_def _ _ | ast_array_def _ _ => true
  | ast_func_def _ _ _ _ => false
  | ast_func_formal_param _ _ _ => true
  | ast_compile_unit _ => false
  end.

(** The exit label of the current function. *)
Definition exit_label (s : GenState) : option label :=
  match currentFunction s with
  | Some nm =>
      match findFunction_in nm (functions s) with
      | Some f => fn_exitLabel f
      | None => None
      end
  | None => None
  end.

(** [f'] is [f] up to the two call statistics. *)
Definition fn_same_code (f f' : Function) : Prop :=
  fn_name f' = fn_name f
  /\ fn_returnType f' = fn_returnType f
  /\ fn_params f' = fn_params f
  /\ fn_interCode f' = fn_interCode f
  /\ fn_exitLabel f' = fn_exitLabel f
  /\ fn_returnValue f' = fn_returnValue f.

(** The labels placed in [code] were all created between [s] and [s'],
    each is placed once. *)
Definition labels_fresh (s : GenState) (code : InterCode) (s' : GenState) : Prop :=
  (nextId s <= nextId s')%nat
  /\ (forall l, In l (labels_of code) -> (nextId s <= l < nextId s')%nat)
  /\ NoDup (labels_of code).

Definition loops_balanced (s s' : GenState) : Prop :=
  loopCondStack s' = loopCondStack s /\ loopEndStack s' = loopEndStack s.

(** Between [s] and [s'] the current function is the same and no function
    changed but in its call statistics. *)
Definition functions_kept (s s' : GenState) : Prop :=
  currentFunction s' = currentFunction s
  /\ forall nm,
       match findFunction_in nm (functions s), findFunction_in nm (functions s') with
       | Some f, Some f' => fn_same_code f f'
       | None, None => True
       | _, _ => False
       end.

(** A label that code lowered in state [s] may jump to without placing
    it: a label of an enclosing loop, or the exit label of the function. *)
Definition outer_label (s : GenState) (l : label) : Prop :=
  In l (loopCondStack s) \/ In l (loopEndStack s) \/ exit_label s = Some l.

(** Every jump of [code] goes to a label placed in [code] or to an outer
    label. *)
Definition jumps_closed (s : GenState) (code : InterCode) : Prop :=
  forall l, In l (targets_of code) -> In l (labels_of code) \/ outer_label s l.

(** What holds of every successful visit of node [n]: fresh labels, the
    loop stacks as before, and for the nodes of a function body the
    functions kept and the jumps closed. *)
Definition node_shape (n : ast_node) : Prop :=
  forall s n0 a s' n0',
    ir_visit_ast_node n s n0 = Ret (Some a) s' n0' ->
    labels_fresh s (blockInsts a) s'
    /\ loops_balanced s s'
    /\ (body_node n = true ->
        functions_kept s s' /\ jumps_closed s (blockInsts a)).

(** The state after objects were created and nothing else was done. *)
Definition counter_moved (s s' : GenState) : Prop :=
  exists k, s' = set_nextId s k /\ (nextId s <= k)%nat.

(** The function [getCurrentFunction] returns. *)
Definition cur_fn (s : GenState) : option Function :=
  match currentFunction s with
  | Some name => findFunction_in name (functions s)
  | None => None
  end.

(** [f'] has the name, the code and the exit label of [f]. *)
Definition fn_same_body (f f' : Function) : Prop :=
  fn_name f' = fn_name f
  /\ fn_interCode f' = fn_interCode f
  /\ fn_exitLabel f' = fn_exitLabel f.

(** A formal parameter node as [ir_function_define] hands it to
    [ir_function_formal_params]. *)
Definition formal_param_view_of (p : ast_node) : formal_param_view :=
  match p with
  | ast_func_formal_param ty pname dims =>
      Some (ty, pname, option_map (map ir_visit_ast_node) dims)
  | _ => None
  end.

Definition is_move (i : Instruction) : bool :=
  match i with MoveInstruction _ _ => true | _ => false end.

(** What a run handed back: the node's attributes and the state, for a
    visit that succeeded. *)
Definition attrs_of (o : outcome (option ast_attrs)) : ast_attrs :=
  match o with Ret (Some a) _ _ => a | _ => empty_attrs end.
Definition state_of (o : outcome (option ast_attrs)) : GenState :=
  match o with Ret _ s _ => s | Err s _ => s | Undef => initState end.

(** [int g(int n) { while (n) { if (n <= 1) break; n = n - 1; } return n; }] *)
Definition demo_fn : ast_node :=
  ast_func_def TypeInt "g" [ast_func_formal_param TypeInt "n" None]
    (ast_block false
       [ast_while (ast_leaf_var_id "n")
          (Some (ast_block true
                   [ast_if (ast_binary AST_OP_LE (ast_leaf_var_id "n")
                                       (ast_leaf_literal_uint 1))
                           (Some ast_break) None;
                    ast_binary AST_OP_ASSIGN (ast_leaf_var_id "n")
                      (ast_binary AST_OP_SUB (ast_leaf_var_id "n")
                                  (ast_leaf_literal_uint 1))]));
        ast_return (Some (ast_leaf_var_id "n"))]).

(** The call statistics of the calling function once [ir_function_call]
    has counted a call with [argsCount] actual parameters. *)
Definition call_statistics (argsCount : nat) (f : Function) : Function :=
  let f1 := fn_setExistFuncCall true f in
  match argsCount with
  | O => f1
  | S _ =>
      if (fn_maxFuncCallArgCnt f <? Z.of_nat argsCount)%Z
      then fn_setMaxFuncCallArgCnt (Z.of_nat argsCount) f1
      else f1
  end.

(** The state in which [ir_function_call] visits the actual parameters. *)
Definition call_entry (s : GenState) (argsCount : nat) : GenState :=
  match currentFunction s with
  | Some nm =>
      set_functions s (updateFunction_in nm (call_statistics argsCount) (functions s))
  | None => s
  end.

(** An actual parameter that is a plain identifier has its type read, so
    its value must not be null. *)
Definition args_usable (args : list ast_node) (ias : list ast_attrs) : Prop :=
  Forall2 (fun x a => is_leaf_var_id (node_type x) = true -> val a <> nullptr)
          args ias.

(** [g(x, 1)] where [g] is not defined, and [f(x)] for the function [f] of
    [demo_state], which has no parameter. *)
Definition demo_call_undefined : ast_node :=
  ast_func_call "g" [ast_leaf_var_id "x"; ast_leaf_literal_uint 1].
Definition demo_call_one_arg : ast_node := ast_func_call "f" [ast_leaf_var_id "x"].

(** [demo_state] with a function [int h(int p, int q)] before [main], and
    the call [h(x, 1)]. *)
Definition demo_state_h : GenState :=
  set_functions demo_state
    (mkFunction "h" TypeInt
                [FormalParam 0 TypeInt "p"; FormalParam 0 TypeInt "q"]
                [EntryInstruction] (Some 0) nullptr false 0%Z
     :: functions demo_state).
Definition demo_call_h : ast_node :=
  ast_func_call "h" [ast_leaf_var_id "x"; ast_leaf_literal_uint 1].

(** [a[1][2][3]] for the array [int a[3][4]] and [x[1]] for the scalar [x]
    of [demo_state]. *)
Definition demo_access_too_deep : ast_node :=
  ast_array_access (ast_leaf_var_id "a")
    [ast_leaf_literal_uint 1; ast_leaf_literal_uint 2; ast_leaf_literal_uint 3].
Definition demo_index_scalar : ast_node :=
  ast_array_access (ast_leaf_var_id "x") [ast_leaf_literal_uint 1].

(** [int b[2][x];], [int z = z;] and [-7]. *)
Definition demo_array_decl : ast_node :=
  ast_var_decl TypeInt
    (ast_array_def "b" [ast_leaf_literal_uint 2; ast_leaf_var_id "x"]).
Definition demo_self_init : ast_node :=
  ast_var_decl TypeInt (ast_var_def "z" (Some (ast_leaf_var_id "z"))).
Definition demo_minus_seven : ast_node :=
  ast_unary AST_OP_NEG (ast_leaf_literal_uint 7).

(** Index values that are inside the bounds of the shape. *)
Definition in_bounds (idx dims : list Z) : Prop :=
  Forall2 (fun i d => 0 <= i < d)%Z idx dims.

(* ------------------------------------------------------------------ *)
(** * Sequences of initializers (GlobalVariable.h) *)

(** [setInitializer] called with each value of [inits] in turn. *)
Definition setInitializers (g : GlobalVariable.t) (inits : list Value)
  : GlobalVariable.t :=
  fold_left GlobalVariable.setInitializer inits g.

(* ------------------------------------------------------------------ *)
(** * The dispatch of the ARM32 selector (InstSelectorArm32.cpp) *)

Module Dispatch.

(** The operator an instruction was constructed with. *)
Inductive InstOperator : Type :=
| IRINST_OP_ENTRY | IRINST_OP_EXIT | IRINST_OP_LABEL | IRINST_OP_GOTO
| IRINST_OP_ASSIGN | IRINST_OP_FUNC_CALL | IRINST_OP_ARG
| IRINST_OP_LOAD_ARRAY | IRINST_OP_STORE_ARRAY
| IRINST_OP_BINARY (op : IRInstOperator).

(** Modelled from the spec: [Instruction::getOp] for the classes whose
    constructors are not among the sources; the specification names the
    operators Entry, Exit, Label, Assign (move) and FuncCall.  The
    constructors of [GotoInstruction], [LoadArrayInstruction],
    [StoreArrayInstruction] and [ArraySliceInstruction] are among the
    sources (the slice is made with [IRINST_OP_ASSIGN]), and a
    [BinaryInstruction] receives its operator from the handler that makes
    it. *)
Definition getOp (inst : Instruction) : InstOperator :=
  match inst with
  | EntryInstruction => IRINST_OP_ENTRY
  | ExitInstruction _ => IRINST_OP_EXIT
  | LabelInstruction _ => IRINST_OP_LABEL
  | GotoInstruction _ _ _ => IRINST_OP_GOTO
  | MoveInstruction _ _ => IRINST_OP_ASSIGN
  | BinaryInstruction _ op _ _ _ => IRINST_OP_BINARY op
  | FuncCallInstruction _ _ _ _ => IRINST_OP_FUNC_CALL
  | LoadArrayInstruction _ _ _ _ => IRINST_OP_LOAD_ARRAY
  | StoreArrayInstruction _ _ _ => IRINST_OP_STORE_ARRAY
  | ArraySliceInstruction _ _ _ => IRINST_OP_ASSIGN
  end.

(** The member functions that the constructor enters in
    [translator_handlers]. *)
Inductive translate_handler : Type :=
| translate_entry | translate_exit | translate_label | translate_br
| translate_assign
| translate_add_int32 | translate_sub_int32 | translate_mul_int32
| translate_div_int32 | translate_mod_int32
| translate_lt_int32 | translate_gt_int32 | translate_le_int32
| translate_ge_int32 | translate_eq_int32 | translate_ne_int32
| translate_call | translate_arg.

(** [translator_handlers.find(op)] for the map the constructor fills. *)
Definition translator_handlers (op : InstOperator) : option translate_handler :=
  match op with
  | IRINST_OP_ENTRY => Some translate_entry
  | IRINST_OP_EXIT => Some translate_exit
  | IRINST_OP_LABEL => Some translate_label
  | IRINST_OP_GOTO => Some translate_br
  | IRINST_OP_ASSIGN => Some translate_assign
  | IRINST_OP_BINARY IRINST_OP_ADD_I => Some translate_add_int32
  | IRINST_OP_BINARY IRINST_OP_SUB_I => Some translate_sub_int32
  | IRINST_OP_BINARY IRINST_OP_MUL_I => Some translate_mul_int32
  | IRINST_OP_BINARY IRINST_OP_DIV_I => Some translate_div_int32
  | IRINST_OP_BINARY IRINST_OP_MOD_I => Some translate_mod_int32
  | IRINST_OP_BINARY IRINST_OP_LT_I => Some translate_lt_int32
  | IRINST_OP_BINARY IRINST_OP_GT_I => Some translate_gt_int32
  | IRINST_OP_BINARY IRINST_OP_LE_I => Some translate_le_int32
  | IRINST_OP_BINARY IRINST_OP_GE_I => Some translate_ge_int32
  | IRINST_OP_BINARY IRINST_OP_EQ_I => Some translate_eq_int32
  | IRINST_OP_BINARY IRINST_OP_NE_I => Some translate_ne_int32
  | IRINST_OP_FUNC_CALL => Some translate_call
  | IRINST_OP_ARG => Some translate_arg
  | IRINST_OP_LOAD_ARRAY | IRINST_OP_STORE_ARRAY => None
  end.

Section Run.

(** The state the member functions work on (the ILoc sequence, the register
    allocator, the function), the member functions themselves,
    [outputIRInstruction], the flag [showLinearIR] and [Instruction::isDead]
    are left open: the dispatch does not depend on them. *)
Variable SelectorState : Type.
Variable call : translate_handler -> Instruction -> SelectorState -> SelectorState.
Variable outputIRInstruction : Instruction -> SelectorState -> SelectorState.
Variable showLinearIR : bool.
Variable isDead : Instruction -> bool.

(** [translate]: an operator without handler is reported on the standard
    output and nothing else happens. *)
Definition translate (inst : Instruction) (st : SelectorState) : SelectorState :=
  match translator_handlers (getOp inst) with
  | None => st
  | Some handler =>
      call handler inst
           (if showLinearIR then outputIRInstruction inst st else st)
  end.

(** [run] *)
Definition run (ir : InterCode) (st : SelectorState) : SelectorState :=
  fold_left (fun st inst => if isDead inst then st else translate inst st) ir st.

End Run.

End Dispatch.

(** An array load or an array store. *)
Definition is_array_memory_access (i : Instruction) : bool :=
  is_load i || is_store i.

(* ------------------------------------------------------------------ *)
(** * Closed functions *)

(** No label is placed twice in the code of [f], and every branch of the
    code goes to a label placed in it. *)
Definition fn_closed (f : Function) : Prop :=
  NoDup (labels_of (fn_interCode f))
  /\ forall l, In l (targets_of (fn_interCode f)) ->
               In l (labels_of (fn_interCode f)).

(** Between [s] and [s'] the current function is the same, and the
    functions with another name than [name] have the code they had. *)
Definition others_kept (name : string) (s s' : GenState) : Prop :=
  currentFunction s' = currentFunction s
  /\ forall nm, nm <> name ->
       match findFunction_in nm (functions s), findFunction_in nm (functions s') with
       | Some f, Some f' => fn_interCode f' = fn_interCode f
       | None, None => True
       | _, _ => False
       end.

(** A child of the compile unit as the front end makes it: a function
    definition without a function definition inside, or a declaration. *)
Definition unit_node (n : ast_node) : bool :=
  match n with
  | ast_func_def _ _ _ _ => forallb body_node (visited_sons n)
  | _ => body_node n
  end.

(** [int g(int n) { ... } int main() { return g(3); }] *)
Definition demo_unit : ast_node :=
  ast_compile_unit
    [demo_fn;
     ast_func_def TypeInt "main" []
       (ast_block false
          [ast_return (Some (ast_func_call "g" [ast_leaf_literal_uint 3]))])].

(* ------------------------------------------------------------------ *)
(** * Formal parameters *)

(** The dimensions written as literals, [None] when one of them is not a
    literal. *)
Fixpoint literal_dims (dims : list ast_node) : option (list Z) :=
  match dims with
  | [] => Some []
  | ast_leaf_literal_uint v :: rest =>
      option_map (cons (wrap32 v)) (literal_dims rest)
  | _ :: _ => None
  end.

(** Type and name of a formal parameter node whose dimensions, if it has
    any, are literals: an array parameter has 0 as first dimension. *)
Definition formal_param_sig (p : ast_node) : option (IRType * string) :=
  match p with
  | ast_func_formal_param ty pname None => Some (ty, pname)
  | ast_func_formal_param ty pname (Some dims) =>
      option_map (fun cs => (ArrayType ty (0%Z :: cs), pname)) (literal_dims dims)
  | _ => None
  end.

(** The [FormalParam] values made from object number [id] on, the locals
    made from [id] on, and the copies of the former into the latter. *)
Fixpoint formals_from (id : nat) (sig : list (IRType * string)) : list Value :=
  match sig with
  | [] => []
  | (ty, pname) :: rest => FormalParam id ty pname :: formals_from (S id) rest
  end.

Fixpoint param_moves (localId formalId : nat) (sig : list (IRType * string))
  : InterCode :=
  match sig with
  | [] => []
  | (ty, pname) :: rest =>
      MoveInstruction (LocalVariable localId ty pname) (FormalParam formalId ty pname)
      :: param_moves (S localId) (S formalId) rest
  end.

(** [f] with [ps] as further parameters and [code] as further
    instructions. *)
Definition fn_with_params (f : Function) (ps : list Value) (code : InterCode)
  : Function :=
  mkFunction (fn_name f) (fn_returnType f) (fn_params f ++ ps)
             (fn_interCode f ++ code) (fn_exitLabel f) (fn_returnValue f)
             (fn_existFuncCall f) (fn_maxFuncCallArgCnt f).

(** The parameters [int a[][3], int n]. *)
Definition demo_params : list ast_node :=
  [ast_func_formal_param TypeInt "a" (Some [ast_leaf_literal_uint 3]);
   ast_func_formal_param TypeInt "n" None].

(* ------------------------------------------------------------------ *)
(** * Scopes *)

(** From [s] to [s'] the scopes around the innermost one are untouched
    and the innermost scope has its old bindings, with new ones in front
    of them. *)
Definition scope_grown (s s' : GenState) : Prop :=
  match scopeStack s with
  | [] => scopeStack s' = []
  | sc :: outer => exists top, scopeStack s' = (top ++ sc) :: outer
  end.

Definition node_scoped (n : ast_node) : Prop :=
  forall s n0 a s' n0',
    ir_visit_ast_node n s n0 = Ret (Some a) s' n0' -> scope_grown s s'.

(** A node whose handler enters a scope of its own. *)
Definition opens_scope (n : ast_node) : bool :=
  match n with
  | ast_block needScope _ => needScope
  | ast_func_def _ _ _ _ => true
  | _ => false
  end.

(** [{ int y; int x; }] *)
Definition demo_block_decls : ast_node :=
  ast_block true
    [ast_decl_stmt [ast_var_decl TypeInt (ast_var_def "y" None);
                    ast_var_decl TypeInt (ast_var_def "x" None)]].

(* ------------------------------------------------------------------ *)
(** * Arithmetic expressions *)

(** The IR operator of the five arithmetic operators. *)
Definition arith_operator (op : ast_operator_type) : option IRInstOperator :=
  match op with
  | AST_OP_ADD => Some IRINST_OP_ADD_I
  | AST_OP_SUB => Some IRINST_OP_SUB_I
  | AST_OP_MUL => Some IRINST_OP_MUL_I
  | AST_OP_DIV => Some IRINST_OP_DIV_I
  | AST_OP_MOD => Some IRINST_OP_MOD_I
  | _ => None
  end.

(** Expressions made of literals, identifiers bound in [st] and the five
    arithmetic operators. *)
Fixpoint arith_expr (st : list Scope) (n : ast_node) : bool :=
  match n with
  | ast_leaf_literal_uint _ => true
  | ast_leaf_var_id name =>
      match findVarValue_in name st with nullptr => false | _ => true end
  | ast_binary op l r =>
      match arith_operator op with
      | Some _ => arith_expr st l && arith_expr st r
      | None => false
      end
  | _ => false
  end.

(** The number of operator nodes of such an expression: one instruction
    is made for each. *)
Fixpoint arith_size (n : ast_node) : nat :=
  match n with
  | ast_binary op l r =>
      match arith_operator op with
      | Some _ => (arith_size l + arith_size r + 1)%nat
      | None => 0%nat
      end
  | _ => 0%nat
  end.

(** The value and the code of such an expression when its instructions
    are numbered from [id]: a literal and an identifier have no code; an
    operator node has the code of its left operand, then the code of its
    right operand, then one instruction of the operator on the values of
    the two, which is the value of the node. *)
Definition arith_val (st : list Scope) (id : nat) (n : ast_node) : Value :=
  match n with
  | ast_leaf_literal_uint v => ConstInt (wrap32 v)
  | ast_leaf_var_id name => findVarValue_in name st
  | ast_binary op l r => InstValue (arith_size l + arith_size r + id) TypeInt
  | _ => nullptr
  end.

Fixpoint arith_code (st : list Scope) (id : nat) (n : ast_node) : InterCode :=
  match n with
  | ast_binary op l r =>
      match arith_operator op with
      | Some irop =>
          arith_code st id l
          ++ arith_code st (arith_size l + id) r
          ++ [BinaryInstruction (arith_size l + arith_size r + id) irop
                                (arith_val st id l)
                                (arith_val st (arith_size l + id) r) TypeInt]
      | None => []
      end
  | _ => []
  end.

(** The value of such an expression on a machine: a literal is itself in
    [int32_t], an identifier has the value of the variable it is bound to,
    an operator node has the result of its IR operation on the values of
    the left and of the right operand. *)
Fixpoint expr_value (st : list Scope) (m : Machine) (n : ast_node) : Z :=
  match n with
  | ast_leaf_literal_uint v => wrap32 v
  | ast_leaf_var_id name => eval m (findVarValue_in name st)
  | ast_binary op l r =>
      match arith_operator op with
      | Some irop => eval_binop irop (expr_value st m l) (expr_value st m r)
      | None => 0%Z
      end
  | _ => 0%Z
  end.

(** Every variable bound in a scope was created before the counter reached
    its present value. *)
Definition scopes_older (s : GenState) : Prop :=
  forall name, value_id_lt (nextId s) (findVarValue_in name (scopeStack s)).

(** [(x + 2) * y - x % 3] *)
Definition demo_arith : ast_node :=
  ast_binary AST_OP_SUB
    (ast_binary AST_OP_MUL
       (ast_binary AST_OP_ADD (ast_leaf_var_id "x") (ast_leaf_literal_uint 2))
       (ast_leaf_var_id "y"))
    (ast_binary AST_OP_MOD (ast_leaf_var_id "x") (ast_leaf_literal_uint 3)).

(* ------------------------------------------------------------------ *)
(** * Basic facts about the generator monad and the dispatcher *)

(** A visit is a handler run on a node of its own. *)
Lemma ir_visit_ast_node_visit_with :
  forall node, exists handler,
    forall s n, ir_visit_ast_node node s n = visit_with handler s n.
Proof.
  destruct node; eexists; intros; simpl; reflexivity.
Qed.

(** A successful visit leaves the caller's node as it found it. *)
Lemma visit_frame :
  forall node s r s' n0 n0',
    ir_visit_ast_node node s n0 = Ret r s' n0' ->
    forall n, ir_visit_ast_node node s n = Ret r s' n.
Proof.
  intros node s r s' n0 n0' H n.
  destruct (ir_visit_ast_node_visit_with node) as [h Hh].
  rewrite Hh in H. rewrite Hh. unfold visit_with in *.
  destruct (h s empty_attrs); inversion H; subst; reflexivity.
Qed.

(** A visit never returns false itself: a failing handler shows as a null
    node. *)
Lemma visit_never_Err :
  forall node s n s' n', ir_visit_ast_node node s n <> Err s' n'.
Proof.
  intros node s n s' n' H.
  destruct (ir_visit_ast_node_visit_with node) as [h Hh].
  rewrite Hh in H. unfold visit_with in H.
  destruct (h s empty_attrs); discriminate.
Qed.

Lemma lowers_at :
  forall node s a s', lowers node s a s' ->
    forall n, ir_visit_ast_node node s n = Ret (Some a) s' n.
Proof.
  intros node s a s' H n. exact (visit_frame _ _ _ H n).
Qed.

(** ** Running a handler on children whose lowering is known *)

Ltac gen_red :=
  cbv beta iota zeta delta
      [bind ret fail undef require visit_opt addInsts_opt addInst addInsts setVal
       setArrayAccessAddress new_id new_LabelInstruction new_BinaryInstruction
       getState modifyState getAttrs visit_with option_map newConstInt];
  cbn [nextId scopeStack globals functions currentFunction loopCondStack
       loopEndStack set_nextId set_scopeStack set_globals set_functions
       set_currentFunction set_loopStacks val blockInsts arrayAccessAddress
       empty_attrs asValue newConstInt fst snd app].

(** Unfold the monad up to the next child visit, replace the visit by its
    known result, and go on. *)
Ltac gen_run :=
  repeat (gen_red;
          match goal with
          | H : lowers ?x ?s _ _ |- context [ir_visit_ast_node ?x ?s ?n] =>
              rewrite (lowers_at H n)
          end);
  gen_red.

Ltac flatten_code := repeat rewrite <- app_assoc; cbn [app].

Lemma last_snoc : forall (l : list label) (x d : label), last (l ++ [x]) d = x.
Proof.
  induction l as [|y l IH]; intros x d; simpl.
  - reflexivity.
  - rewrite IH. destruct (l ++ [x]) eqn:E.
    + destruct l; discriminate.
    + reflexivity.
Qed.

Lemma snoc_not_nil : forall (l : list label) (x : label), l ++ [x] <> [].
Proof. intros l x H. destruct l; discriminate. Qed.

(* ------------------------------------------------------------------ *)
(** * Global variables and BSS (C9) *)

(** What [setInitializer] does to the placement: after it, a global is in
    BSS exactly when the initializer pointer is null. *)
Lemma setInitializer_inBSS :
  forall ty name v,
    GlobalVariable.isInBSSSection
      (GlobalVariable.setInitializer (GlobalVariable.new ty name) v)
    = InstSelectorArm32.is_nullptr v.
Proof. intros ty name v. destruct v; reflexivity. Qed.

Lemma new_global_alignment :
  forall ty name, GlobalVariable.alignment (GlobalVariable.new ty name) = 4%Z.
Proof. reflexivity. Qed.

(** C9 (the code departs from the specification).  The specification places
    a global in BSS when it has no initializer or the initializer is the
    constant 0.  In the
    code, the global [int g = 0;] is lowered to a [GlobalVariable] whose
    initializer is [ConstInt 0] and whose [isInBSSSection] is false, although
    the specification's rule (and the comment on the field) puts it in
    BSS. *)
Theorem C9_zero_initialized_global_not_in_bss :
  let g0 := GlobalVariable.setInitializer (GlobalVariable.new TypeInt "g")
                                          (newConstInt 0) in
  GlobalVariable.isInBSSSection g0 = false
  /\ spec_inBSS (GlobalVariable.getInitializer g0) = true
  /\ GlobalVariable.alignment g0 = 4%Z
  /\ exists s',
       run (ast_compile_unit
              [ast_decl_stmt
                 [ast_var_decl TypeInt
                    (ast_var_def "g" (Some (ast_leaf_literal_uint 0)))]])
           initState
       = Ret (Some empty_attrs) s' empty_attrs
       /\ globals s' = [g0].
Proof.
  repeat split; try reflexivity.
  eexists; split; reflexivity.
Qed.

(* ------------------------------------------------------------------ *)
(** * Identifiers (C5) *)

(** C5 (the code departs from the specification).  The specification makes
    the lowering of an identifier fail when no scope binds the name.  [ir_leaf_node_var_id]
    stores the null result of the lookup in [node->val] and returns true:
    the visit succeeds with a null value, for every name that is not found. *)
Theorem C5_undefined_identifier_succeeds :
  forall name s n,
    findVarValue_in name (scopeStack s) = nullptr ->
    ir_visit_ast_node (ast_leaf_var_id name) s n
    = Ret (Some (mkAttrs nullptr [] nullptr)) s n
    /\ ~ spec_identifier_fails name s
         (ir_visit_ast_node (ast_leaf_var_id name) s n).
Proof.
  intros name s n Hnot.
  assert (E : ir_visit_ast_node (ast_leaf_var_id name) s n
              = Ret (Some (mkAttrs nullptr [] nullptr)) s n).
  { simpl. unfold visit_with, ir_leaf_node_var_id, bind, findVarValue, setVal, ret.
    simpl. rewrite Hnot. reflexivity. }
  split; [exact E|].
  intros Hspec. destruct (Hspec Hnot) as (s' & n' & Hr).
  rewrite E in Hr. discriminate.
Qed.

(** The lookup walks the scope stack from the innermost scope outward: a
    binding in the innermost scope hides the outer ones, and a name the
    innermost scope lacks is looked up in the rest. *)
Lemma findVarValue_innermost_first :
  forall name sc outer,
    findVarValue_in name (sc :: outer)
    = match findInScope name sc with
      | Some v => v
      | None => findVarValue_in name outer
      end.
Proof. reflexivity. Qed.

(* ------------------------------------------------------------------ *)
(** * Break and continue (C8) *)

Lemma ir_break_visit :
  forall s n st L,
    loopEndStack s = st ++ [L] ->
    ir_break s n
    = Ret tt s (mkAttrs (val n) (blockInsts n ++ [Goto L]) (arrayAccessAddress n))
    /\ ir_visit_ast_node ast_break s n
       = Ret (Some (mkAttrs nullptr [Goto L] nullptr)) s n.
Proof.
  intros s n st L H. split.
  - unfold ir_break, bind, getState, addInst.
    rewrite H, last_snoc. destruct (st ++ [L]) eqn:E.
    + destruct (snoc_not_nil _ _ E).
    + reflexivity.
  - simpl. unfold visit_with, ir_break, bind, getState, addInst.
    rewrite H, last_snoc. destruct (st ++ [L]) eqn:E.
    + destruct (snoc_not_nil _ _ E).
    + reflexivity.
Qed.

Lemma ir_continue_visit :
  forall s n st L,
    loopCondStack s = st ++ [L] ->
    ir_continue s n
    = Ret tt s (mkAttrs (val n) (blockInsts n ++ [Goto L]) (arrayAccessAddress n))
    /\ ir_visit_ast_node ast_continue s n
       = Ret (Some (mkAttrs nullptr [Goto L] nullptr)) s n.
Proof.
  intros s n st L H. split.
  - unfold ir_continue, bind, getState, addInst.
    rewrite H, last_snoc. destruct (st ++ [L]) eqn:E.
    + destruct (snoc_not_nil _ _ E).
    + reflexivity.
  - simpl. unfold visit_with, ir_continue, bind, getState, addInst.
    rewrite H, last_snoc. destruct (st ++ [L]) eqn:E.
    + destruct (snoc_not_nil _ _ E).
    + reflexivity.
Qed.

(** [ir_while] on children whose lowering is known: the children are
    visited with the loop's own labels on top of the two stacks, and the
    stacks are popped at the end. *)
Lemma ir_while_run :
  forall cond body s ca s1 bodyCode s2,
    lowers cond (while_entry s) ca s1 ->
    lowers_opt body s1 bodyCode s2 ->
    let L_cond := nextId s in
    let L_body := S (nextId s) in
    let L_end := S (S (nextId s)) in
    lowers (ast_while cond body) s
           (mkAttrs nullptr
              ([LabelInstruction L_cond]
               ++ blockInsts ca
               ++ [branch_on (val ca) L_body L_end; LabelInstruction L_body]
               ++ bodyCode
               ++ [Goto L_cond; LabelInstruction L_end])
              nullptr)
           (while_exit s2).
Proof.
  intros cond body s ca s1 bodyCode s2 Hc Hb L_cond L_body L_end.
  unfold lowers. simpl ir_visit_ast_node. unfold ir_while.
  destruct body as [t|];
    [destruct Hb as (ta & Hb & <-) | destruct Hb as [-> ->]];
    gen_red;
    change (set_loopStacks _ (loopCondStack s ++ [nextId s]) _)
      with (while_entry s);
    gen_run; flatten_code; reflexivity.
Qed.

(** C8.  With a loop stack whose back is [L], [break] emits the
    unconditional [goto L] for the back of [loopEndStack] and [continue] the
    one for the back of [loopCondStack], and nothing else changes.  With an
    empty stack the handler returns false, the node's buffer is as it was
    (no instruction), the state is unchanged, and the visit of the node
    returns null, which makes every enclosing handler and [run] fail.  The
    back of the stacks is the innermost loop: [ir_while] visits its children
    with its own [L_cond] and [L_end] pushed last, so that a [break] that is
    the body of a [while] jumps to the label that ends this loop's code and
    a [continue] to the label that begins it (the condition's lowering
    leaving the stacks as they are). *)
Theorem C8_break_continue :
  forall s n,
    (forall st L, loopEndStack s = st ++ [L] ->
       ir_break s n
       = Ret tt s (mkAttrs (val n) (blockInsts n ++ [Goto L]) (arrayAccessAddress n))
       /\ ir_visit_ast_node ast_break s n
          = Ret (Some (mkAttrs nullptr [Goto L] nullptr)) s n)
    /\ (forall st L, loopCondStack s = st ++ [L] ->
       ir_continue s n
       = Ret tt s (mkAttrs (val n) (blockInsts n ++ [Goto L]) (arrayAccessAddress n))
       /\ ir_visit_ast_node ast_continue s n
          = Ret (Some (mkAttrs nullptr [Goto L] nullptr)) s n)
    /\ (loopEndStack s = [] ->
        ir_break s n = Err s n
        /\ ir_visit_ast_node ast_break s n = Ret None s n)
    /\ (loopCondStack s = [] ->
        ir_continue s n = Err s n
        /\ ir_visit_ast_node ast_continue s n = Ret None s n)
    /\ (forall (isBreak : bool) cond ca s1,
          lowers cond (while_entry s) ca s1 ->
          loopCondStack s1 = loopCondStack (while_entry s) ->
          loopEndStack s1 = loopEndStack (while_entry s) ->
          let L_cond := nextId s in
          let L_body := S (nextId s) in
          let L_end := S (S (nextId s)) in
          lowers (ast_while cond (Some (if isBreak then ast_break else ast_continue))) s
                 (mkAttrs nullptr
                    ([LabelInstruction L_cond]
                     ++ blockInsts ca
                     ++ [branch_on (val ca) L_body L_end;
                         LabelInstruction L_body;
                         Goto (if isBreak then L_end else L_cond);
                         Goto L_cond;
                         LabelInstruction L_end])
                    nullptr)
                 (while_exit s1)).
Proof.
  intros s n.
  split; [intros st L H; exact (@ir_break_visit s n st L H)|].
  split; [intros st L H; exact (@ir_continue_visit s n st L H)|].
  split.
  { intros H. split.
    - unfold ir_break, bind, getState, fail. rewrite H. reflexivity.
    - simpl. unfold visit_with, ir_break, bind, getState, fail.
      rewrite H. reflexivity. }
  split.
  { intros H. split.
    - unfold ir_continue, bind, getState, fail. rewrite H. reflexivity.
    - simpl. unfold visit_with, ir_continue, bind, getState, fail.
      rewrite H. reflexivity. }
  intros isBreak cond ca s1 Hc HC HE L_cond L_body L_end.
  assert (Hb : lowers_opt (Some (if isBreak then ast_break else ast_continue)) s1
                          [Goto (if isBreak then L_end else L_cond)] s1).
  { exists (mkAttrs nullptr [Goto (if isBreak then L_end else L_cond)] nullptr).
    split; [|reflexivity].
    destruct isBreak.
    - exact (proj2 (@ir_break_visit s1 empty_attrs (loopEndStack s) _ HE)).
    - exact (proj2 (@ir_continue_visit s1 empty_attrs (loopCondStack s) _ HC)). }
  exact (@ir_while_run cond _ s ca s1 _ s1 Hc Hb).
Qed.

(* ------------------------------------------------------------------ *)
(** * Branch selection (C7) *)

Section TranslateBr.

Import InstSelectorArm32.

Variable regName : Z -> string.
Variable getName : label -> string.
Variable getRegId : Value -> Z.
Variable Allocator : Type.
Variable Allocate : Allocator -> Value -> Z * Allocator.
Variable free : Allocator -> Value -> Allocator.

Let tr := translate_br regName getName getRegId Allocate free.

(** C7.  For an unconditional goto the selector appends exactly [b Ltrue].
    For a conditional one (the condition pointer is not null) the register
    of the condition is its own when it has one, else a register obtained
    from the allocator, into which the condition is loaded first; then come
    [cmp rCond, #0], [bne Ltrue], [b Lfalse], in that order and nothing
    else. *)
Theorem C7_translate_br :
  forall (st : Selector Allocator),
    (forall target,
       exists st', tr (Goto target) st = Some st'
         /\ iloc st' = iloc st ++ [iloc_inst "b" [getName target]])
    /\ (forall cond Ltrue Lfalse,
          cond <> nullptr ->
          exists st',
            tr (GotoCond cond Ltrue Lfalse) st = Some st'
            /\ let loaded := (getRegId cond =? -1)%Z in
               let rCond :=
                 regName (if loaded
                          then fst (Allocate (simpleRegisterAllocator st) cond)
                          else getRegId cond) in
               iloc st'
               = iloc st
                 ++ (if loaded
                     then [iloc_load_var
                             (fst (Allocate (simpleRegisterAllocator st) cond))
                             cond]
                     else [])
                 ++ [iloc_inst "cmp" [rCond; "#0"];
                     iloc_inst "bne" [getName Ltrue];
                     iloc_inst "b" [getName Lfalse]]).
Proof.
  intros st. split.
  - intros target. eexists. split; reflexivity.
  - intros cond Ltrue Lfalse Hc.
    unfold tr, translate_br, GotoCond.
    assert (Hn : is_nullptr cond = false) by (destruct cond; [contradiction|reflexivity..]).
    rewrite Hn.
    destruct (getRegId cond =? -1)%Z eqn:E.
    + destruct (Allocate (simpleRegisterAllocator st) cond) as [r a] eqn:EA.
      eexists. split; [reflexivity|].
      simpl. repeat rewrite <- app_assoc. reflexivity.
    + eexists. split; [reflexivity|].
      simpl. repeat rewrite <- app_assoc. reflexivity.
Qed.

End TranslateBr.

Lemma convertBoolToInt_run :
  forall b s n,
    exists s',
      convertBoolToInt b s n
      = Ret (fresh_int s) s'
            (mkAttrs (val n)
                     (blockInsts n ++ widen_code b (fresh_int s) (after_fresh_int s))
                     (arrayAccessAddress n))
      /\ nextId s' = (3 + after_fresh_int s)%nat
      /\ currentFunction s' = currentFunction s
      /\ loopCondStack s' = loopCondStack s
      /\ loopEndStack s' = loopEndStack s.
Proof.
  intros b s n. unfold convertBoolToInt, newVarValue, fresh_int, after_fresh_int.
  destruct (currentFunction s) eqn:E; gen_red; rewrite E; gen_red;
    eexists; (split; [flatten_code; reflexivity | simpl; repeat split; auto]).
Qed.

(** The same with the state written out. *)
Lemma convertBoolToInt_state :
  forall b s n,
    convertBoolToInt b s n
    = Ret (fresh_int s) (widened_state s)
          (mkAttrs (val n)
                   (blockInsts n ++ widen_code b (fresh_int s) (after_fresh_int s))
                   (arrayAccessAddress n)).
Proof.
  intros b s n.
  unfold convertBoolToInt, newVarValue, fresh_int, after_fresh_int,
         widened_state, after_fresh_state.
  destruct (currentFunction s) eqn:E; gen_red; rewrite E; gen_red;
    flatten_code; reflexivity.
Qed.

(* ------------------------------------------------------------------ *)
(** * If with a constant condition (C3) *)

(** C3 (amended).  When the lowered condition of an [if] is [ConstInt c],
    the conditional branch is replaced by one unconditional [goto]: to
    [L_then] when [c] is not zero, to [L_else] when it is.  Everything else
    is emitted as for any other [if]: the condition's code, [L_then], the
    then-body, [goto L_end], [L_else], the else-body, [L_end]; both bodies
    are in the code whatever [c] is. *)
Theorem C3_if_constant_condition :
  forall cond thenNode elseNode s ca s1 thenCode s2 elseCode s3 c,
    lowers cond s ca s1 ->
    val ca = ConstInt c ->
    lowers_opt thenNode s1 thenCode s2 ->
    lowers_opt (match elseNode with Some e => e | None => None end)
               s2 elseCode s3 ->
    let L_then := nextId s3 in
    let L_else := S (nextId s3) in
    let L_end := S (S (nextId s3)) in
    lowers (ast_if cond thenNode elseNode) s
           (mkAttrs nullptr
              (blockInsts ca
               ++ [Goto (if (c =? 0)%Z then L_else else L_then);
                   LabelInstruction L_then]
               ++ thenCode
               ++ [Goto L_end; LabelInstruction L_else]
               ++ elseCode
               ++ [LabelInstruction L_end])
              nullptr)
           (set_nextId s3 (3 + nextId s3)).
Proof.
  intros cond thenNode elseNode s ca s1 thenCode s2 elseCode s3 c
         Hc Hv Ht He L_then L_else L_end.
  unfold lowers. simpl ir_visit_ast_node. unfold ir_if.
  destruct thenNode as [t|];
    [destruct Ht as (ta & Ht & <-) | destruct Ht as [-> ->]];
    (destruct elseNode as [[e|]|];
     [destruct He as (ea & He & <-) | destruct He as [-> ->] ..]);
    gen_run; rewrite Hv; unfold branch_on; flatten_code;
    subst L_then L_else L_end; destruct (c =? 0)%Z; reflexivity.
Qed.

(* ------------------------------------------------------------------ *)
(** * Comparisons (C4) *)

(** C4 (the code departs from the specification).  The specification lets
    the parent decide what a comparison exposes: the raw [i1] to an [if],
    a [while] or a short-circuit operator, the widened [i32] to any other
    parent.  In the code the visit of the node, which is all a parent ever
    receives, is determined by the operator and the operands.  [ir_lt] and
    [ir_gt] always call [convertBoolToInt] and expose the [i32] variable
    set by the pattern that follows the [i1] comparison; their siblings
    [ir_le], [ir_ge], [ir_eq] and [ir_ne] never do: they expose the [i1]
    comparison instruction itself and emit nothing after it. *)
Theorem C4_comparison_exposed_value :
  forall op cmp a b s la s1 lb s2,
    compare_operator op = Some cmp ->
    lowers a s la s1 ->
    lowers b s1 lb s2 ->
    let cmpInst := BinaryInstruction (nextId s2) cmp (val la) (val lb) TypeBool in
    let s2' := set_nextId s2 (S (nextId s2)) in
    exists attrs s',
      lowers (ast_binary op a b) s attrs s'
      /\ getType (val attrs) = Some (exposed_type op)
      /\ (exposed_type op = TypeInt ->
          val attrs = fresh_int s2'
          /\ blockInsts attrs
             = blockInsts la ++ blockInsts lb ++ [cmpInst]
               ++ widen_code (asValue cmpInst) (fresh_int s2') (after_fresh_int s2'))
      /\ (exposed_type op = TypeBool ->
          val attrs = asValue cmpInst
          /\ blockInsts attrs = blockInsts la ++ blockInsts lb ++ [cmpInst]).
Proof.
  intros op cmp a b s la s1 lb s2 Hop Ha Hb cmpInst s2'.
  destruct op; simpl in Hop; try discriminate; inversion Hop; subst cmp;
    unfold lowers; simpl ir_visit_ast_node; unfold binary_handler.
  - (* < *)
    unfold ir_lt, ir_binary. gen_run.
    match goal with
    | |- context [convertBoolToInt ?b ?s ?n] =>
        destruct (convertBoolToInt_run b s n) as (s' & E & _); rewrite E
    end.
    gen_red. do 2 eexists. split; [reflexivity|].
    cbn [val blockInsts]. split.
    + unfold fresh_int. simpl. destruct (currentFunction s2); reflexivity.
    + split; [intros _ | discriminate].
      split; [reflexivity | flatten_code; reflexivity].
  - (* > *)
    unfold ir_gt, ir_binary. gen_run.
    match goal with
    | |- context [convertBoolToInt ?b ?s ?n] =>
        destruct (convertBoolToInt_run b s n) as (s' & E & _); rewrite E
    end.
    gen_red. do 2 eexists. split; [reflexivity|].
    cbn [val blockInsts]. split.
    + unfold fresh_int. simpl. destruct (currentFunction s2); reflexivity.
    + split; [intros _ | discriminate].
      split; [reflexivity | flatten_code; reflexivity].
  - unfold ir_le, ir_binary. gen_run. do 2 eexists.
    split; [reflexivity|]. cbn [val blockInsts]. split; [reflexivity|].
    split; [discriminate | intros _].
    split; [reflexivity | flatten_code; reflexivity].
  - unfold ir_ge, ir_binary. gen_run. do 2 eexists.
    split; [reflexivity|]. cbn [val blockInsts]. split; [reflexivity|].
    split; [discriminate | intros _].
    split; [reflexivity | flatten_code; reflexivity].
  - unfold ir_eq, ir_binary. gen_run. do 2 eexists.
    split; [reflexivity|]. cbn [val blockInsts]. split; [reflexivity|].
    split; [discriminate | intros _].
    split; [reflexivity | flatten_code; reflexivity].
  - unfold ir_ne, ir_binary. gen_run. do 2 eexists.
    split; [reflexivity|]. cbn [val blockInsts]. split; [reflexivity|].
    split; [discriminate | intros _].
    split; [reflexivity | flatten_code; reflexivity].
Qed.

(* ------------------------------------------------------------------ *)
(** * Assignment to an array element (C2, second half) *)

Lemma ir_assign_array_access :
  forall lhs rhs s la s1 lr s2,
    node_type lhs = AST_OP_ARRAY_ACCESS ->
    lowers lhs s la s1 ->
    lowers rhs s1 lr s2 ->
    lowers (ast_binary AST_OP_ASSIGN lhs rhs) s
           (mkAttrs (InstValue (nextId s2) VoidType)
                    (blockInsts lr ++ blockInsts la
                     ++ [StoreArrayInstruction (val lr) (arrayAccessAddress la)
                                               (ConstInt 0)])
                    nullptr)
           (set_nextId s2 (S (nextId s2))).
Proof.
  intros lhs rhs s la s1 lr s2 Ht Hl Hr.
  unfold lowers. simpl ir_visit_ast_node. unfold binary_handler, ir_assign.
  rewrite Ht. cbn [is_array_access]. gen_run. flatten_code. reflexivity.
Qed.

(* ------------------------------------------------------------------ *)
(** * Arithmetic modulo 2^32 *)

Lemma wrap32_repr : forall a, exists k, wrap32 a = (a + k * 4294967296)%Z.
Proof.
  intros a. unfold wrap32.
  exists (- ((a + 2147483648) / 4294967296))%Z.
  pose proof (Z.div_mod (a + 2147483648) 4294967296). lia.
Qed.

Lemma wrap32_shift : forall a k, wrap32 (a + k * 4294967296) = wrap32 a.
Proof.
  intros a k. unfold wrap32.
  replace (a + k * 4294967296 + 2147483648)%Z
    with (a + 2147483648 + k * 4294967296)%Z by lia.
  rewrite Z.mod_add by lia. reflexivity.
Qed.

Lemma wrap32_small : forall a, in_int32 a -> wrap32 a = a.
Proof.
  intros a [H1 H2]. unfold INT32_MIN, INT32_MAX in *. unfold wrap32.
  rewrite Z.mod_small by lia. lia.
Qed.

Lemma wrap32_range : forall a, in_int32 (wrap32 a).
Proof.
  intros a. unfold in_int32, INT32_MIN, INT32_MAX, wrap32.
  pose proof (Z.mod_pos_bound (a + 2147483648) 4294967296). lia.
Qed.

Lemma wrap32_idem : forall a, wrap32 (wrap32 a) = wrap32 a.
Proof. intros a. apply wrap32_small, wrap32_range. Qed.

Lemma wrap32_congr_mul :
  forall a a' b b', wrap32 a = wrap32 a' -> wrap32 b = wrap32 b' ->
                    wrap32 (a * b) = wrap32 (a' * b').
Proof.
  intros a a' b b' Ha Hb.
  destruct (wrap32_repr a) as [k1 E1]. destruct (wrap32_repr a') as [k2 E2].
  destruct (wrap32_repr b) as [k3 E3]. destruct (wrap32_repr b') as [k4 E4].
  assert (Ea : a = (a' + (k2 - k1) * 4294967296)%Z) by lia.
  assert (Eb : b = (b' + (k4 - k3) * 4294967296)%Z) by lia.
  rewrite Ea, Eb.
  replace ((a' + (k2 - k1) * 4294967296) * (b' + (k4 - k3) * 4294967296))%Z
    with (a' * b' + (a' * (k4 - k3) + (k2 - k1) * b'
                     + (k2 - k1) * (k4 - k3) * 4294967296) * 4294967296)%Z by ring.
  apply wrap32_shift.
Qed.

Lemma wrap32_congr_add :
  forall a a' b b', wrap32 a = wrap32 a' -> wrap32 b = wrap32 b' ->
                    wrap32 (a + b) = wrap32 (a' + b').
Proof.
  intros a a' b b' Ha Hb.
  destruct (wrap32_repr a) as [k1 E1]. destruct (wrap32_repr a') as [k2 E2].
  destruct (wrap32_repr b) as [k3 E3]. destruct (wrap32_repr b') as [k4 E4].
  replace (a + b)%Z with (a' + b' + ((k2 - k1) + (k4 - k3)) * 4294967296)%Z by lia.
  apply wrap32_shift.
Qed.

Lemma horner_from_congr :
  forall idx dims a b,
    wrap32 a = wrap32 b ->
    wrap32 (horner_from a idx dims) = wrap32 (horner_from b idx dims).
Proof.
  induction idx as [|i idx IH]; intros dims a b H; simpl.
  - exact H.
  - destruct dims as [|d dims]; [exact H|].
    apply IH. apply wrap32_congr_add; [|reflexivity].
    apply wrap32_congr_mul; [exact H | reflexivity].
Qed.

Lemma remainingSize_product_from :
  forall dims acc,
    (1 <= acc)%Z ->
    Forall (fun d => 0 < d)%Z dims ->
    (acc * product dims <= INT32_MAX)%Z ->
    fold_left (fun a d => wrap32 (a * d)) dims acc = (acc * product dims)%Z.
Proof.
  induction dims as [|d dims IH]; intros acc Hacc Hpos Hmax; simpl.
  - unfold product. simpl. lia.
  - inversion Hpos as [|? ? Hd Hrest]; subst.
    assert (Hp : (1 <= product dims)%Z).
    { clear - Hrest. induction Hrest; unfold product in *; simpl; nia. }
    unfold product in Hmax. simpl in Hmax. fold (product dims) in Hmax.
    assert (Hsmall : wrap32 (acc * d) = (acc * d)%Z).
    { apply wrap32_small. unfold in_int32, INT32_MIN, INT32_MAX in *. nia. }
    rewrite Hsmall. rewrite IH; try assumption.
    + unfold product. simpl. ring.
    + nia.
    + replace (acc * d * product dims)%Z with (acc * (d * product dims))%Z by ring.
      exact Hmax.
Qed.

(** With positive dimensions whose product fits [int32_t], the generator's
    [remainingSize] is that product. *)
Lemma remainingSize_product :
  forall dims,
    Forall (fun d => 0 < d)%Z dims ->
    (product dims <= INT32_MAX)%Z ->
    remainingSize dims = product dims /\ (1 <= product dims)%Z.
Proof.
  intros dims Hpos Hmax. unfold remainingSize.
  rewrite remainingSize_product_from; try assumption; try lia.
  split; [lia|].
  clear Hmax. induction Hpos; unfold product in *; simpl; nia.
Qed.

(* ------------------------------------------------------------------ *)
(** * Array accesses *)

Lemma value_id_lt_mono :
  forall b b' v, (b <= b')%nat -> value_id_lt b v -> value_id_lt b' v.
Proof. intros b b' v H; destruct v; simpl; auto; lia. Qed.

Lemma eval_set_pc : forall m p v, eval (set_pc m p) v = eval m v.
Proof. intros m p v; destruct v; reflexivity. Qed.

Lemma eval_set_reg_lt :
  forall m id z b v,
    value_id_lt b v -> (b <= id)%nat -> eval (set_reg m id z) v = eval m v.
Proof.
  intros m id z b v Hv Hb.
  destruct v; simpl in *; try reflexivity;
    destruct (Nat.eqb_spec id0 id); try reflexivity; lia.
Qed.

Lemma eval_set_reg_same :
  forall m id z ty, eval (set_reg m id z) (InstValue id ty) = z.
Proof. intros. simpl. rewrite Nat.eqb_refl. reflexivity. Qed.

Lemma run_binaries_set_pc :
  forall code m p, run_binaries code (set_pc m p) = set_pc (run_binaries code m) p.
Proof.
  induction code as [|i code IH]; intros m p; simpl; [reflexivity|].
  destruct i; try apply IH.
  rewrite !eval_set_pc. apply (IH (set_reg m id _) p).
Qed.

Lemma nth_error_middle :
  forall (pre : InterCode) i post, nth_error (pre ++ i :: post) (List.length pre) = Some i.
Proof.
  intros pre i post. rewrite nth_error_app2 by lia.
  rewrite Nat.sub_diag. reflexivity.
Qed.

(** A run of binary instructions inside a program executes in sequence. *)
Lemma exec_binaries :
  forall call_sem code pre post m,
    forallb is_binary code = true ->
    pc m = List.length pre ->
    exec call_sem (pre ++ code ++ post) (List.length code) m
    = Some (seq (List.length pre) (List.length code),
            set_pc (run_binaries code m) (List.length pre + List.length code)).
Proof.
  intros call_sem. induction code as [|i code IH]; intros pre post m Hb Hpc.
  - simpl. rewrite Nat.add_0_r. destruct m; simpl in *; subst; reflexivity.
  - simpl in Hb. apply andb_prop in Hb. destruct Hb as [Hi Hb].
    destruct i; try discriminate.
    cbn [List.length exec]. unfold step. rewrite Hpc.
    cbn [app]. rewrite nth_error_middle.
    specialize (IH (pre ++ [BinaryInstruction id op src1 src2 ty]) post
                   (next (set_reg m id (eval_binop op (eval m src1) (eval m src2)))) Hb).
    rewrite <- app_assoc in IH. cbn [app] in IH.
    rewrite IH.
    + rewrite length_app. cbn [List.length seq].
      replace (List.length pre + 1)%nat with (S (List.length pre)) by lia.
      f_equal. f_equal.
      unfold next. rewrite run_binaries_set_pc. cbn [run_binaries].
      unfold set_pc. simpl. f_equal. lia.
    + unfold next. simpl. rewrite Hpc, length_app. simpl. lia.
Qed.

Lemma nextId_advance : forall s k, nextId (advance s k) = (k + nextId s)%nat.
Proof. intros s [|k]; reflexivity. Qed.

Lemma skipn_nth_error :
  forall (A : Type) (l : list A) i x,
    nth_error l i = Some x -> skipn i l = x :: skipn (S i) l.
Proof.
  intros A. induction l as [|y l IH]; intros i x H.
  - destruct i; discriminate.
  - destruct i; simpl in *.
    + inversion H; reflexivity.
    + apply IH; assumption.
Qed.

Lemma offset_loop_run :
  forall n i indices dims lin s nd,
    (i + n = List.length indices)%nat ->
    (List.length indices <= List.length dims)%nat ->
    exists v code,
      ir_calculate_array_offset_loop n i indices dims lin s nd
      = Ret v (advance s (n + n))
            (mkAttrs (val nd) (blockInsts nd ++ code) (arrayAccessAddress nd))
      /\ forallb is_binary code = true
      /\ (lin <> nullptr -> v <> nullptr)
      /\ (value_id_lt (nextId s) lin -> value_id_lt (n + n + nextId s) v)
      /\ forall m,
           value_id_lt (nextId s) lin ->
           Forall (value_id_lt (nextId s)) indices ->
           wrap32 (eval (run_binaries code m) v)
           = wrap32 (horner_from (eval m lin) (map (eval m) (skipn i indices))
                                 (skipn i dims))
           /\ (forall u, value_id_lt (nextId s) u ->
                         eval (run_binaries code m) u = eval m u).
Proof.
  induction n as [|n IH]; intros i indices dims lin s nd Hlen Hdims.
  - exists lin, []. simpl. unfold ret. rewrite app_nil_r.
    split; [destruct nd; reflexivity|].
    split; [reflexivity|]. split; [auto|]. split; [auto|].
    intros m _ _. split; [|auto].
    assert (E : skipn i indices = []) by (apply skipn_all2; lia).
    rewrite E. reflexivity.
  - assert (Hi : (i < List.length indices)%nat) by lia.
    destruct (nth_error indices i) as [idx|] eqn:Eidx;
      [|apply nth_error_None in Eidx; lia].
    destruct (nth_error dims i) as [d|] eqn:Ed;
      [|apply nth_error_None in Ed; lia].
    cbn [ir_calculate_array_offset_loop]. rewrite Eidx, Ed.
    gen_red.
    set (mulI := BinaryInstruction (nextId s) IRINST_OP_MUL_I lin (ConstInt d) TypeInt).
    set (addI := BinaryInstruction (S (nextId s)) IRINST_OP_ADD_I
                                   (InstValue (nextId s) TypeInt) idx TypeInt).
    destruct (IH (S i) indices dims (InstValue (S (nextId s)) TypeInt)
                 (set_nextId (set_nextId s (S (nextId s))) (S (S (nextId s))))
                 (mkAttrs (val nd) ((blockInsts nd ++ [mulI]) ++ [addI])
                          (arrayAccessAddress nd)))
      as (v & code & Hrun & Hbin & Hnn & Hlt & Hsem); [lia | assumption |].
    exists v, (mulI :: addI :: code).
    split.
    { rewrite Hrun. cbn [val blockInsts arrayAccessAddress]. f_equal.
      - destruct n; simpl; [reflexivity|].
        unfold set_nextId; simpl. f_equal. lia.
      - f_equal. flatten_code. reflexivity. }
    split; [simpl; exact Hbin|].
    split; [intros _; apply Hnn; discriminate|].
    split.
    { intros _. cbn [nextId set_nextId] in Hlt.
      replace (S n + S n + nextId s)%nat with (n + n + S (S (nextId s)))%nat by lia.
      apply Hlt. simpl. lia. }
    intros m Hlin Hidx.
    cbn [nextId set_nextId] in Hsem.
    set (m1 := set_reg m (nextId s)
                       (eval_binop IRINST_OP_MUL_I (eval m lin) (eval m (ConstInt d)))).
    set (m2 := set_reg m1 (S (nextId s))
                       (eval_binop IRINST_OP_ADD_I (eval m1 (InstValue (nextId s) TypeInt))
                                   (eval m1 idx))).
    assert (Hpres : forall u, value_id_lt (nextId s) u -> eval m2 u = eval m u).
    { intros u Hu. unfold m2, m1.
      rewrite (eval_set_reg_lt _ _ (b := nextId s)) by (auto; lia).
      rewrite (eval_set_reg_lt _ _ (b := nextId s)) by (auto; lia).
      reflexivity. }
    assert (Hidxlt : value_id_lt (nextId s) idx).
    { rewrite Forall_forall in Hidx. apply Hidx. eapply nth_error_In; eassumption. }
    destruct (Hsem m2) as [Hv Hu].
    { simpl. lia. }
    { eapply Forall_impl; [|exact Hidx].
      intros a Ha. eapply value_id_lt_mono; [|exact Ha]. lia. }
    cbn [run_binaries]. subst mulI addI. cbv beta iota. fold m1. fold m2.
    split.
    + rewrite Hv.
      rewrite (skipn_nth_error _ _ Eidx), (skipn_nth_error _ _ Ed).
      cbn [map horner_from].
      assert (Emap : map (eval m2) (skipn (S i) indices)
                     = map (eval m) (skipn (S i) indices)).
      { apply map_ext_in. intros a Ha. apply Hpres.
        rewrite Forall_forall in Hidx. apply Hidx.
        clear - Ha. revert Ha. generalize (S i). intros k.
        revert indices. induction k; intros indices Ha; simpl in *; [assumption|].
        destruct indices; [destruct Ha|]. right. apply IHk. assumption. }
      rewrite Emap. apply horner_from_congr.
      unfold m2. rewrite eval_set_reg_same.
      unfold eval_binop. rewrite wrap32_idem.
      apply wrap32_congr_add.
      * unfold m1. rewrite eval_set_reg_same. apply wrap32_idem.
      * unfold m1. rewrite (eval_set_reg_lt _ _ (b := nextId s)) by (auto; lia).
        reflexivity.
    + intros u Hu'. rewrite Hu.
      * apply Hpres; assumption.
      * eapply value_id_lt_mono; [|exact Hu']. lia.
Qed.

Lemma ir_get_array_dimensions_sons_run :
  forall xs s ias s2,
    lowers_list xs s ias s2 ->
    forall dv dc n,
      ir_get_array_dimensions_sons (map ir_visit_ast_node xs) dv dc s n
      = Ret (dv ++ map val ias, dc ++ map dim_constant ias) s2
            (mkAttrs (val n) (blockInsts n ++ List.concat (map blockInsts ias))
                     (arrayAccessAddress n)).
Proof.
  induction 1 as [s|x xs s a s1 rest s2 Hx Hxs IH]; intros dv dc n.
  - simpl. unfold ret. rewrite !app_nil_r. destruct n; reflexivity.
  - cbn [map ir_get_array_dimensions_sons]. gen_run.
    rewrite IH. cbn [val blockInsts arrayAccessAddress map List.concat].
    rewrite <- !app_assoc. reflexivity.
Qed.

Lemma advance_advance :
  forall s a b, advance (advance s a) b = advance s (a + b).
Proof.
  intros s [|a] [|b]; simpl; try reflexivity.
  - rewrite Nat.add_0_r. reflexivity.
  - unfold set_nextId. simpl. f_equal. lia.
Qed.

Lemma new_id_advance :
  forall s k, set_nextId (advance s k) (S (nextId (advance s k))) = advance s (k + 1).
Proof.
  intros s k. rewrite <- advance_advance. reflexivity.
Qed.

Lemma set_nextId_advance3 :
  forall s k a b c,
    set_nextId (set_nextId (set_nextId (advance s k) a) b) c = set_nextId s c.
Proof. intros s [|k] a b c; reflexivity. Qed.

Lemma advance_pos :
  forall s k, (0 < k)%nat -> advance s k = set_nextId s (k + nextId s).
Proof. intros s [|k] H; [lia | reflexivity]. Qed.

Lemma run_binaries_app :
  forall c1 c2 m, run_binaries (c1 ++ c2) m = run_binaries c2 (run_binaries c1 m).
Proof.
  induction c1 as [|i c1 IH]; intros c2 m; simpl; [reflexivity|].
  destruct i; apply IH.
Qed.

Lemma forallb_is_binary_app :
  forall c1 c2, forallb is_binary c1 = true -> forallb is_binary c2 = true ->
                forallb is_binary (c1 ++ c2) = true.
Proof. intros. rewrite forallb_app, H, H0. reflexivity. Qed.

Lemma ir_calculate_array_offset_run :
  forall indices dims s nd,
    (1 <= List.length indices <= List.length dims)%nat ->
    Forall (fun v => v <> nullptr) indices ->
    let k := List.length indices in
    let isFull := (k =? List.length dims)%nat in
    exists off code cnt,
      ir_calculate_array_offset indices dims k isFull
                                (if isFull then [] else skipn k dims) s nd
      = Ret off (advance s cnt)
            (mkAttrs (val nd) (blockInsts nd ++ code) (arrayAccessAddress nd))
      /\ forallb is_binary code = true
      /\ off <> nullptr
      /\ (Forall (value_id_lt (nextId s)) indices ->
          value_id_lt (cnt + nextId s) off)
      /\ forall m,
           Forall (value_id_lt (nextId s)) indices ->
           Forall (fun d => 0 < d)%Z (skipn k dims) ->
           (product (skipn k dims) <= INT32_MAX)%Z ->
           wrap32 (eval (run_binaries code m) off)
           = wrap32 (horner (map (eval m) indices) dims * product (skipn k dims))
           /\ (forall u, value_id_lt (nextId s) u ->
                         eval (run_binaries code m) u = eval m u).
Proof.
  intros indices dims s nd Hk Hnn.
  destruct indices as [|idx0 rest]; [simpl in Hk; lia|].
  remember (idx0 :: rest) as indices eqn:Eind.
  intros k isFull.
  assert (Hk' : k = S (List.length rest)) by (unfold k; rewrite Eind; reflexivity).
  unfold ir_calculate_array_offset. rewrite Hk'.
  replace (nth_error indices 0) with (Some idx0) by (rewrite Eind; reflexivity).
  replace (S (List.length rest) - 1)%nat with (List.length rest) by lia.
  destruct (offset_loop_run (List.length rest) 1 indices dims idx0 s nd)
    as (v & code & Hrun & Hbin & Hvnn & Hvlt & Hsem).
  { rewrite Eind. simpl. lia. }
  { lia. }
  assert (Hidx0 : idx0 <> nullptr).
  { rewrite Eind in Hnn. inversion Hnn; assumption. }
  assert (Hhorner : forall m,
             horner_from (eval m idx0) (map (eval m) (skipn 1 indices)) (skipn 1 dims)
             = horner (map (eval m) indices) dims).
  { intros m. rewrite Eind. simpl. destruct dims; reflexivity. }
  rewrite <- Hk'.
  unfold bind at 1. rewrite Hrun.
  destruct isFull eqn:Efull; cbn [negb].
  - (* full access *)
    exists v, code, (List.length rest + List.length rest)%nat.
    split; [reflexivity|]. split; [assumption|]. split; [auto|].
    split.
    { intros H. apply Hvlt. rewrite Eind in H. inversion H; assumption. }
    intros m Hlt Hpos Hmax.
    destruct (Hsem m) as [Hv Hu]; [rewrite Eind in Hlt; inversion Hlt; assumption | assumption |].
    split; [|exact Hu].
    rewrite Hv, Hhorner.
    assert (E : skipn k dims = []).
    { apply skipn_all2. apply Nat.eqb_eq in Efull. lia. }
    rewrite E. unfold product. simpl. f_equal. lia.
  - (* partial access *)
    destruct (1 <? remainingSize (skipn k dims))%Z eqn:Erem.
    + gen_red.
      exists (InstValue (nextId (advance s (List.length rest + List.length rest))) TypeInt),
             (code ++ [BinaryInstruction
                         (nextId (advance s (List.length rest + List.length rest)))
                         IRINST_OP_MUL_I v
                         (ConstInt (remainingSize (skipn k dims))) TypeInt]),
             (List.length rest + List.length rest + 1)%nat.
      split.
      { rewrite new_id_advance. rewrite app_assoc. reflexivity. }
      split.
      { apply forallb_is_binary_app; [assumption | reflexivity]. }
      split; [discriminate|].
      split.
      { intros _. rewrite nextId_advance. simpl. lia. }
      intros m Hlt Hpos Hmax.
      destruct (Hsem m) as [Hv Hu]; [rewrite Eind in Hlt; inversion Hlt; assumption | assumption |].
      destruct (remainingSize_product Hpos Hmax) as [Hrs _].
      rewrite run_binaries_app. cbn [run_binaries].
      split.
      * rewrite eval_set_reg_same. unfold eval_binop. rewrite wrap32_idem.
        cbn [eval]. rewrite Hrs.
        apply wrap32_congr_mul; [|reflexivity].
        rewrite Hv, Hhorner. reflexivity.
      * intros u Hu'.
        rewrite (eval_set_reg_lt _ _ (b := nextId s)).
        -- apply Hu; assumption.
        -- assumption.
        -- rewrite nextId_advance. lia.
    + exists v, code, (List.length rest + List.length rest)%nat.
      split; [reflexivity|]. split; [assumption|]. split; [auto|].
      split.
      { intros H. apply Hvlt. rewrite Eind in H. inversion H; assumption. }
      intros m Hlt Hpos Hmax.
      destruct (Hsem m) as [Hv Hu]; [rewrite Eind in Hlt; inversion Hlt; assumption | assumption |].
      split; [|exact Hu].
      destruct (remainingSize_product Hpos Hmax) as [Hrs Hp1].
      rewrite Hrs in Erem. apply Z.ltb_ge in Erem.
      assert (Ep : product (skipn k dims) = 1%Z) by lia.
      rewrite Ep, Hv, Hhorner. f_equal. lia.
Qed.

(** The lowering of [a[i1]...[ik]]: the code of the indices, the code of
    the array name, a run [arith] of multiplications and additions that
    leaves the linear offset in [off], then the byte offset, the address
    and the load or slice. *)
Lemma ir_array_access_run :
  forall arrayName dims s na s1 ias s2 elem fullDims,
    lowers arrayName s na s1 ->
    lowers_list dims s1 ias s2 ->
    getType (val na) = Some (ArrayType elem fullDims) ->
    (1 <= List.length ias <= List.length fullDims)%nat ->
    Forall (fun a => val a <> nullptr) ias ->
    let k := List.length ias in
    let isFull := (k =? List.length fullDims)%nat in
    exists arith off cnt,
      let byteId := (cnt + nextId s2)%nat in
      lowers (ast_array_access arrayName dims) s
             (mkAttrs (asValue (accessInst_of byteId (val na) elem isFull
                                              (skipn k fullDims)))
                      (List.concat (map blockInsts ias) ++ blockInsts na ++ arith
                       ++ [byteOffsetInst_of byteId off;
                           addrInst_of byteId (val na) elem;
                           accessInst_of byteId (val na) elem isFull
                                         (skipn k fullDims)])
                      (if isFull then asValue (addrInst_of byteId (val na) elem)
                       else nullptr))
             (advance s2 (cnt + 3))
      /\ forallb is_binary arith = true
      /\ forall m,
           Forall (value_id_lt (nextId s2)) (map val ias) ->
           value_id_lt (nextId s2) (val na) ->
           Forall (fun d => 0 < d)%Z (skipn k fullDims) ->
           (product (skipn k fullDims) <= INT32_MAX)%Z ->
           let m' := run_binaries (arith ++ [byteOffsetInst_of byteId off;
                                             addrInst_of byteId (val na) elem]) m in
           regs m' byteId
           = wrap32 (spec_byte_offset (map (eval m) (map val ias)) fullDims)
           /\ regs m' (S byteId) = wrap32 (eval m (val na) + regs m' byteId).
Proof.
  intros arrayName dims s na s1 ias s2 elem fullDims Hna Hidx Hty Hk Hnn k isFull.
  destruct (@ir_calculate_array_offset_run (map val ias) fullDims s2
              (mkAttrs nullptr (List.concat (map blockInsts ias) ++ blockInsts na) nullptr))
    as (off & arith & cnt & Hrun & Hbin & Hoff & Hofflt & Hsem).
  { rewrite length_map. exact Hk. }
  { rewrite Forall_map. exact Hnn. }
  rewrite length_map in Hrun, Hsem. fold k in Hrun, Hsem. fold isFull in Hrun.
  exists arith, off, cnt. cbv zeta.
  split; [|split; [exact Hbin|]].
  - unfold lowers. simpl ir_visit_ast_node.
    unfold ir_array_access, ir_get_array_dimensions. gen_run.
    rewrite (ir_get_array_dimensions_sons_run Hidx). gen_red.
    rewrite Hty. rewrite length_map. fold k. fold isFull.
    rewrite Hrun.
    destruct off; try (exfalso; apply Hoff; reflexivity);
      unfold ir_generate_array_access_instructions, accessInst_of,
             addrInst_of, byteOffsetInst_of;
      destruct isFull; gen_red; rewrite !nextId_advance;
      rewrite set_nextId_advance3, (@advance_pos s2 (cnt + 3)) by lia;
      flatten_code;
      replace (cnt + 3 + nextId s2)%nat with (S (S (S (cnt + nextId s2)))) by lia;
      reflexivity.
  - intros m Hlt Hbase Hpos Hmax.
    destruct (Hsem m Hlt Hpos Hmax) as [Hv Hu].
    rewrite run_binaries_app.
    unfold byteOffsetInst_of, addrInst_of. cbn [run_binaries].
    set (m1 := run_binaries arith m) in *.
    set (byteId := (cnt + nextId s2)%nat).
    set (b := eval_binop IRINST_OP_MUL_I (eval m1 off) (eval m1 (ConstInt 4))).
    assert (Hb : b = wrap32 (spec_byte_offset (map (eval m) (map val ias)) fullDims)).
    { unfold b, eval_binop, spec_byte_offset. cbn [eval].
      rewrite length_map, length_map. fold k.
      replace (4 * (horner (map (eval m) (map val ias)) fullDims
                    * product (skipn k fullDims)))%Z
        with (horner (map (eval m) (map val ias)) fullDims
              * product (skipn k fullDims) * 4)%Z by ring.
      apply wrap32_congr_mul; [exact Hv | reflexivity]. }
    cbn [regs set_reg].
    rewrite Nat.eqb_refl.
    replace (byteId =? S byteId)%nat with false
      by (symmetry; apply Nat.eqb_neq; lia).
    rewrite Nat.eqb_refl.
    split; [exact Hb|].
    unfold eval_binop. rewrite eval_set_reg_same.
    rewrite (eval_set_reg_lt _ _ (b := nextId s2)); [| exact Hbase | unfold byteId; lia].
    rewrite (Hu _ Hbase). reflexivity.
Qed.

Lemma count_app :
  forall p c1 c2, count p (c1 ++ c2) = (count p c1 + count p c2)%nat.
Proof.
  intros p c1 c2. unfold count. rewrite filter_app, length_app. reflexivity.
Qed.

Lemma last_last_app :
  forall (l : InterCode) a b c d, last (l ++ [a; b; c]) d = c.
Proof.
  intros l a b c d.
  replace (l ++ [a; b; c]) with ((l ++ [a; b]) ++ [c])
    by (rewrite <- app_assoc; reflexivity).
  apply last_last.
Qed.

Lemma count_binary_zero :
  forall p code,
    (forall i, is_binary i = true -> p i = false) ->
    forallb is_binary code = true -> count p code = 0%nat.
Proof.
  intros p code Hp. induction code as [|i code IH]; intros H; [reflexivity|].
  simpl in H. apply andb_prop in H. destruct H as [Hi H].
  unfold count in *. simpl. rewrite (Hp i Hi). apply IH. exact H.
Qed.

(** C1 (amended).  For an access [a[i1]...[ik]] (1 <= k <= n) to an array
    of shape [d1..dn] whose remaining dimensions [d_{k+1}..dn] are positive
    with a product that fits [int32_t], and whose indices lower to values
    that are not null, the lowering succeeds and emits, after the code of
    the indices and of the array name, a run [arith] of [mul]/[add]
    instructions, then [byteOff = off * 4] and [addr = a + byteOff].  On the
    IR machine, with 32-bit registers, executing [arith], [byteOff] and
    [addr] in any program that holds this code leaves in [byteOff] the value
    [4 * (((i1*d2+i2)*d3+i3)...+ik) * prod_{j>k} dj] of the specification
    modulo 2^32 (the value itself when it fits [int32_t]), where [ij] is the
    value of the j-th index, and in [addr] the array base plus that byte
    offset; for constant indices [c1..ck] the [ij] are the [cj].  The index
    values and the array base are objects made before the instructions of
    the access, as the values of a lowering are. *)
Theorem C1_row_major_addressing :
  forall arrayName dims s na s1 ias s2 elem fullDims,
    lowers arrayName s na s1 ->
    lowers_list dims s1 ias s2 ->
    getType (val na) = Some (ArrayType elem fullDims) ->
    (1 <= List.length ias <= List.length fullDims)%nat ->
    Forall (fun a => val a <> nullptr) ias ->
    Forall (value_id_lt (nextId s2)) (map val ias) ->
    value_id_lt (nextId s2) (val na) ->
    Forall (fun d => 0 < d)%Z (skipn (List.length ias) fullDims) ->
    (product (skipn (List.length ias) fullDims) <= INT32_MAX)%Z ->
    exists attrs s3 arith off byteId final,
      let childCode := List.concat (map blockInsts ias) ++ blockInsts na in
      let byteOff := byteOffsetInst_of byteId off in
      let addr := addrInst_of byteId (val na) elem in
      lowers (ast_array_access arrayName dims) s attrs s3
      /\ blockInsts attrs = childCode ++ arith ++ [byteOff; addr; final]
      /\ forallb is_binary arith = true
      /\ forall call_sem pre post m,
           pc m = List.length (pre ++ childCode) ->
           exists m',
             exec call_sem (pre ++ blockInsts attrs ++ post)
                  (List.length arith + 2) m
             = Some (seq (pc m) (List.length arith + 2), m')
             /\ pc m' = (pc m + (List.length arith + 2))%nat
             /\ let idx := map (eval m) (map val ias) in
                eval m' (asValue byteOff) = wrap32 (spec_byte_offset idx fullDims)
                /\ (in_int32 (spec_byte_offset idx fullDims) ->
                    eval m' (asValue byteOff) = spec_byte_offset idx fullDims)
                /\ eval m' (asValue addr)
                   = wrap32 (eval m (val na) + eval m' (asValue byteOff))
                /\ (forall cs, map val ias = map ConstInt cs -> idx = cs).
Proof.
  intros arrayName dims s na s1 ias s2 elem fullDims
         Hna Hidx Hty Hk Hnn Hlt Hbase Hpos Hmax.
  destruct (ir_array_access_run Hna Hidx Hty Hk Hnn)
    as (arith & off & cnt & Hlow & Hbin & Hsem).
  cbv zeta in Hlow, Hsem.
  set (byteId := (cnt + nextId s2)%nat) in *.
  set (k := List.length ias) in *.
  set (isFull := (k =? List.length fullDims)%nat) in *.
  eexists _, _, arith, off, byteId,
    (accessInst_of byteId (val na) elem isFull (skipn k fullDims)).
  cbv zeta.
  split; [exact Hlow|]. cbn [blockInsts].
  split; [rewrite <- app_assoc; reflexivity|].
  split; [exact Hbin|].
  intros call_sem pre post m Hpc.
  set (childCode := List.concat (map blockInsts ias) ++ blockInsts na) in *.
  set (code := arith ++ [byteOffsetInst_of byteId off; addrInst_of byteId (val na) elem]).
  assert (Hcode : forallb is_binary code = true).
  { unfold code. rewrite forallb_app, Hbin. reflexivity. }
  pose proof (@exec_binaries call_sem code (pre ++ childCode)
                ([accessInst_of byteId (val na) elem isFull (skipn k fullDims)] ++ post)
                m Hcode Hpc) as Hexec.
  assert (Hlen : List.length code = (List.length arith + 2)%nat).
  { unfold code. rewrite length_app. reflexivity. }
  rewrite Hlen in Hexec.
  assert (Hprog : (pre ++ childCode) ++ code
                  ++ [accessInst_of byteId (val na) elem isFull (skipn k fullDims)]
                  ++ post
                  = pre ++ (List.concat (map blockInsts ias) ++ blockInsts na ++ arith
                            ++ [byteOffsetInst_of byteId off;
                                addrInst_of byteId (val na) elem;
                                accessInst_of byteId (val na) elem isFull
                                              (skipn k fullDims)]) ++ post).
  { unfold code, childCode. repeat rewrite <- app_assoc. reflexivity. }
  rewrite Hprog in Hexec. rewrite <- Hpc in Hexec.
  eexists. split; [exact Hexec|].
  split; [reflexivity|].
  destruct (Hsem m Hlt Hbase Hpos Hmax) as [Hb Ha].
  fold code in Hb, Ha.
  cbv zeta. unfold byteOffsetInst_of, addrInst_of, asValue.
  rewrite !eval_set_pc. cbn [eval].
  split; [exact Hb|].
  split; [intros Hin; rewrite Hb; apply wrap32_small; exact Hin|].
  split; [exact Ha|].
  intros cs Hcs. rewrite Hcs, map_map. cbn [eval]. apply map_id.
Qed.


(** C2 (amended).  The own code of an array access, which follows the code
    of its indices and of the array name, holds no store and ends with the
    one instruction that is the value of the node.  With all dimensions
    indexed that instruction is the only [LoadArray] of the own code (and
    there is no slice), and the address it reads is recorded for the node.
    With fewer indices it is the only slice of the own code, typed by the
    remaining dimensions (and there is no load), and no address is
    recorded: the entry of the node stays null.  When the access is the
    left side of an assignment, the code of the access, with its
    [LoadArray], is spliced unchanged after the code of the right side, and
    a single [StoreArray] of the right side's value to the recorded address
    follows it: the load is not suppressed. *)
Theorem C2_array_access_load_store :
  forall arrayName dims s na s1 ias s2 elem fullDims,
    lowers arrayName s na s1 ->
    lowers_list dims s1 ias s2 ->
    getType (val na) = Some (ArrayType elem fullDims) ->
    (1 <= List.length ias <= List.length fullDims)%nat ->
    Forall (fun a => val a <> nullptr) ias ->
    exists attrs s3 own,
      lowers (ast_array_access arrayName dims) s attrs s3
      /\ blockInsts attrs
         = List.concat (map blockInsts ias) ++ blockInsts na ++ own
      /\ count is_store own = 0%nat
      /\ (List.length ias = List.length fullDims ->
          count is_load own = 1%nat /\ count is_slice own = 0%nat
          /\ exists id addr,
               last own EntryInstruction
               = LoadArrayInstruction id addr (ConstInt 0) elem
               /\ val attrs = InstValue id elem
               /\ arrayAccessAddress attrs = addr)
      /\ (List.length ias <> List.length fullDims ->
          count is_load own = 0%nat /\ count is_slice own = 1%nat
          /\ exists id addr,
               last own EntryInstruction
               = ArraySliceInstruction id addr
                   (ArrayType elem (skipn (List.length ias) fullDims))
               /\ val attrs = InstValue id
                                (ArrayType elem (skipn (List.length ias) fullDims))
               /\ arrayAccessAddress attrs = nullptr)
      /\ forall rhs lr s4,
           lowers rhs s3 lr s4 ->
           lowers (ast_binary AST_OP_ASSIGN (ast_array_access arrayName dims) rhs) s
                  (mkAttrs (InstValue (nextId s4) VoidType)
                           (blockInsts lr ++ blockInsts attrs
                            ++ [StoreArrayInstruction (val lr)
                                  (arrayAccessAddress attrs) (ConstInt 0)])
                           nullptr)
                  (set_nextId s4 (S (nextId s4))).
Proof.
  intros arrayName dims s na s1 ias s2 elem fullDims Hna Hidx Hty Hk Hnn.
  destruct (ir_array_access_run Hna Hidx Hty Hk Hnn)
    as (arith & off & cnt & Hlow & Hbin & _).
  cbv zeta in Hlow.
  set (byteId := (cnt + nextId s2)%nat) in *.
  set (k := List.length ias) in *.
  set (isFull := (k =? List.length fullDims)%nat) in *.
  set (final := accessInst_of byteId (val na) elem isFull (skipn k fullDims)) in *.
  eexists _, _, (arith ++ [byteOffsetInst_of byteId off;
                           addrInst_of byteId (val na) elem; final]).
  split; [exact Hlow|]. cbn [blockInsts val arrayAccessAddress].
  split; [reflexivity|].
  assert (Hst : count is_store arith = 0%nat)
    by (apply count_binary_zero; [destruct i; simpl; congruence | exact Hbin]).
  assert (Hld : count is_load arith = 0%nat)
    by (apply count_binary_zero; [destruct i; simpl; congruence | exact Hbin]).
  assert (Hsl : count is_slice arith = 0%nat)
    by (apply count_binary_zero; [destruct i; simpl; congruence | exact Hbin]).
  split.
  { rewrite count_app, Hst. subst final. unfold accessInst_of.
    destruct isFull; reflexivity. }
  split.
  { intros Hfull. apply Nat.eqb_eq in Hfull. fold k in Hfull. fold isFull in Hfull.
    rewrite !count_app, Hld, Hsl. subst final. unfold accessInst_of.
    rewrite Hfull. split; [reflexivity|]. split; [reflexivity|].
    do 2 eexists. split; [|split; reflexivity].
    rewrite last_last_app. reflexivity. }
  split.
  { intros Hpart. apply Nat.eqb_neq in Hpart. fold k in Hpart. fold isFull in Hpart.
    rewrite !count_app, Hld, Hsl. subst final. unfold accessInst_of.
    rewrite Hpart. split; [reflexivity|]. split; [reflexivity|].
    do 2 eexists. split; [|split; reflexivity].
    rewrite last_last_app. reflexivity. }
  intros rhs lr s4 Hr.
  exact (@ir_assign_array_access (ast_array_access arrayName dims) _ _ _ _ _ _ eq_refl Hlow Hr).
Qed.

(* ------------------------------------------------------------------ *)
(** * Executing branches and labels *)

Lemma labels_of_app :
  forall c1 c2, labels_of (c1 ++ c2) = labels_of c1 ++ labels_of c2.
Proof.
  induction c1 as [|i c1 IH]; intros c2; simpl; [reflexivity|].
  destruct i; simpl; rewrite ?IH; reflexivity.
Qed.

Lemma find_label_not_in :
  forall l code, ~ In l (labels_of code) -> find_label l code = None.
Proof.
  induction code as [|i code IH]; intros H; simpl; [reflexivity|].
  destruct i; simpl in *; try (rewrite IH by assumption; reflexivity).
  destruct (Nat.eqb_spec l0 l) as [E|E].
  - exfalso. apply H. left. exact E.
  - rewrite IH; [reflexivity|]. intros Hin. apply H. right. exact Hin.
Qed.

(** With every label defined once, a label is found where it stands. *)
Lemma find_label_unique :
  forall prog p l,
    NoDup (labels_of prog) ->
    nth_error prog p = Some (LabelInstruction l) ->
    find_label l prog = Some p.
Proof.
  induction prog as [|i prog IH]; intros p l Hnd Hp.
  - destruct p; discriminate.
  - destruct p as [|p]; simpl in Hp.
    + inversion Hp; subst. simpl. rewrite Nat.eqb_refl. reflexivity.
    + assert (Hin : In l (labels_of prog)).
      { clear - Hp. revert p Hp. induction prog as [|j prog IH]; intros p Hp.
        - destruct p; discriminate.
        - destruct p as [|p]; simpl in Hp.
          + inversion Hp; subst. simpl. left. reflexivity.
          + specialize (IH _ Hp). destruct j; simpl; auto. }
      destruct i; simpl in *;
        try (rewrite (IH p l Hnd Hp); reflexivity).
      inversion Hnd as [|? ? Hnotin Hnd']; subst.
      destruct (Nat.eqb_spec l0 l) as [E|E].
      * subst. contradiction.
      * rewrite (IH p l Hnd' Hp). reflexivity.
Qed.

Lemma nth_error_app_at :
  forall (A B : InterCode) k, nth_error (A ++ B) (List.length A + k) = nth_error B k.
Proof.
  intros A B k. rewrite nth_error_app2 by lia. f_equal. lia.
Qed.


Lemma write_writable :
  forall m r z, writable r ->
    exists m1, write m r z = Some m1 /\ pc m1 = pc m /\ eval m1 r = z.
Proof.
  intros m r z H. destruct r; simpl in H; try contradiction; simpl;
    eexists; (split; [reflexivity|]); (split; [reflexivity|]); simpl;
    rewrite ?Nat.eqb_refl, ?String.eqb_refl; reflexivity.
Qed.

Lemma fresh_int_writable : forall s, writable (fresh_int s).
Proof. intros s. unfold fresh_int. destruct (currentFunction s); exact I. Qed.

Section Steps.

Variable call_sem :
  string -> list Z -> (string -> Z) -> (Z -> Z) -> Z * (string -> Z) * (Z -> Z).
Variable prog : InterCode.

Lemma step_label :
  forall m l, nth_error prog (pc m) = Some (LabelInstruction l) ->
              step call_sem prog m = Some (next m).
Proof. intros m l H. unfold step. rewrite H. reflexivity. Qed.

Lemma step_goto :
  forall m l p,
    nth_error prog (pc m) = Some (Goto l) ->
    find_label l prog = Some p ->
    step call_sem prog m = Some (set_pc m p).
Proof.
  intros m l p H Hl. unfold step. rewrite H. unfold Goto, jump.
  rewrite Hl. reflexivity.
Qed.

Lemma step_gotocond :
  forall m c lt lf pt pf,
    nth_error prog (pc m) = Some (GotoCond c lt lf) ->
    find_label lt prog = Some pt ->
    find_label lf prog = Some pf ->
    step call_sem prog m
    = Some (set_pc m (if InstSelectorArm32.is_nullptr c then pt
                      else if (eval m c =? 0)%Z then pf else pt)).
Proof.
  intros m c lt lf pt pf H Ht Hf. unfold step. rewrite H. unfold GotoCond, jump.
  destruct c; simpl; rewrite ?Ht, ?Hf; try reflexivity;
    match goal with |- context [if ?b then _ else _] => destruct b end;
    simpl; rewrite ?Ht, ?Hf; reflexivity.
Qed.

Lemma step_move :
  forall m dst src m1,
    nth_error prog (pc m) = Some (MoveInstruction dst src) ->
    write m dst (eval m src) = Some m1 ->
    step call_sem prog m = Some (next m1).
Proof.
  intros m dst src m1 H Hw. unfold step. rewrite H, Hw. reflexivity.
Qed.

Lemma step_binary :
  forall m id op a b ty,
    nth_error prog (pc m) = Some (BinaryInstruction id op a b ty) ->
    step call_sem prog m
    = Some (next (set_reg m id (eval_binop op (eval m a) (eval m b)))).
Proof. intros m id op a b ty H. unfold step. rewrite H. reflexivity. Qed.

Lemma exec_S :
  forall n m m1 t m2,
    step call_sem prog m = Some m1 ->
    exec call_sem prog n m1 = Some (t, m2) ->
    exec call_sem prog (S n) m = Some (pc m :: t, m2).
Proof. intros n m m1 t m2 H1 H2. simpl. rewrite H1, H2. reflexivity. Qed.

Lemma exec_app :
  forall a b m t1 m1 t2 m2,
    exec call_sem prog a m = Some (t1, m1) ->
    exec call_sem prog b m1 = Some (t2, m2) ->
    exec call_sem prog (a + b) m = Some (t1 ++ t2, m2).
Proof.
  induction a as [|a IH]; intros b m t1 m1 t2 m2 H1 H2.
  - simpl in H1. inversion H1; subst. exact H2.
  - simpl in H1. destruct (step call_sem prog m) as [m'|] eqn:Es; [|discriminate].
    destruct (exec call_sem prog a m') as [[t' m'']|] eqn:Ee; [|discriminate].
    inversion H1; subst.
    cbn [Nat.add exec]. rewrite Es. rewrite (IH _ _ _ _ _ _ Ee H2). reflexivity.
Qed.

End Steps.


(** The instruction at the current position, when the position is known
    as an offset [k] from [P]. *)
Ltac at_pc Hat P k :=
  cbn [pc next set_pc];
  repeat match goal with
         | H : pc _ = _ |- _ => rewrite H; cbn [pc next set_pc]
         end;
  match goal with
  | |- nth_error _ ?x = _ => replace x with (P + k)%nat by lia
  end;
  rewrite Hat; reflexivity.

(** The bool-to-int pattern on the machine: from its branch, four steps
    lead to its join label, and there the result holds 1 when the condition
    was not zero (or the branch had a null condition) and 0 otherwise. *)
Lemma widen_exec :
  forall call_sem pre post b r l m,
    writable r ->
    NoDup (labels_of (pre ++ widen_code b r l ++ post)) ->
    pc m = List.length pre ->
    exists trace m',
      exec call_sem (pre ++ widen_code b r l ++ post) 4 m = Some (trace, m')
      /\ pc m' = (List.length pre + 7)%nat
      /\ eval m' r = (if InstSelectorArm32.is_nullptr b then 1
                      else if (eval m b =? 0)%Z then 0 else 1)%Z
      /\ (forall p, In p trace ->
                    (List.length pre <= p < List.length pre + 7)%nat).
Proof.
  intros call_sem pre post b r l m Hw Hnd Hpc.
  set (prog := pre ++ widen_code b r l ++ post) in *.
  set (P := List.length pre) in *.
  assert (Hat : forall k, nth_error prog (P + k)
                          = nth_error (widen_code b r l ++ post) k)
    by (intros k; apply nth_error_app_at).
  assert (Ll : find_label l prog = Some (P + 1)%nat)
    by (apply find_label_unique; [exact Hnd | rewrite Hat; reflexivity]).
  assert (Lf : find_label (S l) prog = Some (P + 4)%nat)
    by (apply find_label_unique; [exact Hnd | rewrite Hat; reflexivity]).
  assert (Le : find_label (S (S l)) prog = Some (P + 7)%nat)
    by (apply find_label_unique; [exact Hnd | rewrite Hat; reflexivity]).
  assert (S0 : step call_sem prog m
               = Some (set_pc m (if InstSelectorArm32.is_nullptr b then (P + 1)%nat
                                 else if (eval m b =? 0)%Z then (P + 4)%nat
                                      else (P + 1)%nat))).
  { apply step_gotocond with (lt := l) (lf := S l); try assumption.
    at_pc Hat P 0%nat. }
  assert (Harm : forall (m0 : Machine) (k : nat) (c : Z) (lab : label),
             pc m0 = (P + k)%nat ->
             nth_error (widen_code b r l ++ post) k = Some (LabelInstruction lab) ->
             nth_error (widen_code b r l ++ post) (k + 1)
             = Some (MoveInstruction r (ConstInt c)) ->
             nth_error (widen_code b r l ++ post) (k + 2) = Some (Goto (S (S l))) ->
             exists t m', exec call_sem prog 3 m0 = Some (t, m')
                          /\ pc m' = (P + 7)%nat /\ eval m' r = c
                          /\ t = [(P + k); (P + k + 1); (P + k + 2)]%nat).
  { intros m0 k c lab H0 Hk0 Hk1 Hk2.
    destruct (@write_writable (next m0) r (eval (next m0) (ConstInt c)) Hw)
      as (m1 & Hw1 & Hpc1 & Hr1).
    do 2 eexists. split.
    - eapply exec_S.
      { eapply step_label. rewrite H0, Hat. exact Hk0. }
      eapply exec_S.
      { eapply step_move; [|exact Hw1].
        cbn [pc next set_pc]. rewrite H0.
        replace (S (P + k)) with (P + (k + 1))%nat by lia.
        rewrite Hat. exact Hk1. }
      eapply exec_S.
      { eapply step_goto; [|exact Le].
        cbn [pc next set_pc]. rewrite Hpc1. cbn [pc next set_pc]. rewrite H0.
        replace (S (S (P + k))) with (P + (k + 2))%nat by lia.
        rewrite Hat. exact Hk2. }
      reflexivity.
    - split; [reflexivity|]. split.
      + rewrite eval_set_pc. unfold next. rewrite eval_set_pc. exact Hr1.
      + cbn [pc next set_pc]. rewrite Hpc1. cbn [pc next set_pc]. rewrite H0.
        repeat (f_equal; try lia). }
  assert (Hres : exists t m',
             exec call_sem prog 3
                  (set_pc m (if InstSelectorArm32.is_nullptr b then (P + 1)%nat
                             else if (eval m b =? 0)%Z then (P + 4)%nat
                                  else (P + 1)%nat)) = Some (t, m')
             /\ pc m' = (P + 7)%nat
             /\ eval m' r = (if InstSelectorArm32.is_nullptr b then 1
                             else if (eval m b =? 0)%Z then 0 else 1)%Z
             /\ (forall p, In p t -> (P < p < P + 7)%nat)).
  { destruct (InstSelectorArm32.is_nullptr b);
      [|destruct (eval m b =? 0)%Z];
      match goal with
      | |- context [set_pc m (P + ?k)%nat] =>
          match goal with
          | |- context [eval _ r = ?c] =>
              destruct (Harm (set_pc m (P + k)%nat) k c _ eq_refl eq_refl eq_refl eq_refl)
                as (t & m' & He & Hp & Hr & Ht)
          end
      end;
      exists t, m'; (split; [exact He|]); (split; [exact Hp|]);
      (split; [exact Hr|]);
      intros p Hin; rewrite Ht in Hin; simpl in Hin; lia. }
  destruct Hres as (t & m' & He & Hp & Hr & Ht).
  exists (pc m :: t), m'. split; [eapply exec_S; eassumption|].
  split; [exact Hp|]. split; [exact Hr|].
  intros p [Hin|Hin]; [lia|]. specialize (Ht p Hin). lia.
Qed.




Lemma short_circuit_run :
  forall (isAnd : bool) a b s la s1 lb s2,
    lowers a s la s1 ->
    lowers b s1 lb s2 ->
    exists s',
      lowers (ast_binary (if isAnd then AST_OP_AND else AST_OP_OR) a b) s
             (mkAttrs (short_circuit_result s2)
                      (short_circuit_code isAnd la lb s2) nullptr)
             s'.
Proof.
  intros isAnd a b s la s1 lb s2 Ha Hb.
  unfold lowers. destruct isAnd; simpl ir_visit_ast_node; unfold binary_handler.
  - unfold ir_and. gen_run.
    match goal with
    | |- context [convertBoolToInt ?c ?st ?n] =>
        destruct (convertBoolToInt_run c st n) as (s' & E & _); rewrite E
    end.
    gen_red. eexists. unfold short_circuit_code, short_circuit_result.
    flatten_code. reflexivity.
  - unfold ir_or. gen_run.
    match goal with
    | |- context [convertBoolToInt ?c ?st ?n] =>
        destruct (convertBoolToInt_run c st n) as (s' & E & _); rewrite E
    end.
    gen_red. eexists. unfold short_circuit_code, short_circuit_result.
    flatten_code. reflexivity.
Qed.


Lemma short_circuit_code_length :
  forall isAnd la lb s2,
    List.length (short_circuit_code isAnd la lb s2)
    = (List.length (blockInsts la) + List.length (blockInsts lb) + 17)%nat.
Proof.
  intros. unfold short_circuit_code. cbv zeta.
  rewrite !length_app. simpl. lia.
Qed.

(** The short cut on the machine.  At the test of the left operand, with
    the left operand 0 for [&&] (not 0 for [||]), five steps lead to
    [L_end]: the test, the branch, the label of the short cut, the move of
    the constant and the jump.  The positions executed are the first two
    after the left operand's code and the three after the right operand's
    part: neither [L_rhs] nor anything of the right operand is executed. *)
Lemma short_circuit_skip_exec :
  forall call_sem (isAnd : bool) la lb s2 pre post m,
    let code := short_circuit_code isAnd la lb s2 in
    let prog := pre ++ code ++ post in
    let P := (List.length pre + List.length (blockInsts la))%nat in
    let Q := (3 + List.length (blockInsts lb))%nat in
    NoDup (labels_of prog) ->
    pc m = P ->
    (if isAnd then eval m (val la) = 0%Z else eval m (val la) <> 0%Z) ->
    exists m',
      exec call_sem prog 5 m
      = Some ([P; P + 1; P + Q + 10; P + Q + 11; P + Q + 12]%nat, m')
      /\ pc m' = (P + Q + 13)%nat
      /\ nth_error prog (P + Q + 13) = Some (LabelInstruction (S (S (nextId s2))))
      /\ eval m' (short_circuit_result s2) = (if isAnd then 0 else 1)%Z
      /\ forall p, In p [P; P + 1; P + Q + 10; P + Q + 11; P + Q + 12]%nat ->
                   exists i, nth_error prog p = Some i /\ is_call i = false.
Proof.
  intros call_sem isAnd la lb s2 pre post m code prog P Q Hnd Hpc Hval.
  set (base := nextId s2) in *.
  set (r := short_circuit_result s2) in *.
  set (cmpL := BinaryInstruction (3 + base) IRINST_OP_NE_I (val la) (ConstInt 0) TypeBool).
  set (cmpR := BinaryInstruction (4 + base) IRINST_OP_NE_I (val lb) (ConstInt 0) TypeBool).
  set (bc := if isAnd then GotoCond (asValue cmpL) base (S base)
             else GotoCond (asValue cmpL) (S base) base).
  set (tail := [LabelInstruction (S base);
                MoveInstruction r (ConstInt (if isAnd then 0 else 1));
                Goto (S (S base)); LabelInstruction (S (S base))]).
  set (mid := [LabelInstruction base] ++ blockInsts lb ++ [cmpR]
              ++ widen_code (asValue cmpR) r
                            (after_fresh_int (set_nextId s2 (5 + base)))
              ++ [Goto (S (S base))]).
  assert (Hprog1 : prog = (pre ++ blockInsts la) ++ ([cmpL; bc] ++ mid ++ tail ++ post)).
  { unfold prog, code, short_circuit_code, mid, tail. cbv zeta.
    fold base. fold r. fold cmpL. fold cmpR. fold bc.
    repeat rewrite <- app_assoc. reflexivity. }
  assert (Hprog2 : prog = ((pre ++ blockInsts la) ++ [cmpL; bc] ++ mid) ++ (tail ++ post)).
  { rewrite Hprog1. repeat rewrite <- app_assoc. reflexivity. }
  assert (Hmid : List.length mid = (Q + 8)%nat).
  { unfold mid, Q. rewrite !length_app. simpl. lia. }
  assert (Hlen2 : List.length ((pre ++ blockInsts la) ++ [cmpL; bc] ++ mid)
                  = (P + Q + 10)%nat).
  { rewrite !length_app, Hmid. simpl. unfold P. lia. }
  assert (Hat1 : forall k, nth_error prog (P + k)
                           = nth_error ([cmpL; bc] ++ mid ++ tail ++ post) k).
  { intros k. rewrite Hprog1. unfold P. rewrite <- length_app.
    apply nth_error_app_at. }
  assert (Hat2 : forall k, nth_error prog (P + Q + 10 + k)
                           = nth_error (tail ++ post) k).
  { intros k. rewrite Hprog2, <- Hlen2. apply nth_error_app_at. }
  assert (Lo : find_label (S base) prog = Some (P + Q + 10 + 0)%nat)
    by (apply find_label_unique; [exact Hnd | rewrite Hat2; reflexivity]).
  assert (Le : find_label (S (S base)) prog = Some (P + Q + 10 + 3)%nat)
    by (apply find_label_unique; [exact Hnd | rewrite Hat2; reflexivity]).
  assert (Lr : exists pr, find_label base prog = Some pr).
  { exists (P + 2)%nat. apply find_label_unique; [exact Hnd|].
    rewrite Hat1. reflexivity. }
  destruct Lr as [pr Lr].
  (* the test *)
  set (m1 := next (set_reg m (3 + base)
                           (eval_binop IRINST_OP_NE_I (eval m (val la))
                                       (eval m (ConstInt 0))))).
  assert (S1 : step call_sem prog m = Some m1).
  { apply step_binary with (ty := TypeBool).
    rewrite Hpc. replace P with (P + 0)%nat at 1 by lia. rewrite Hat1. reflexivity. }
  assert (Hc : eval m1 (asValue cmpL) = (if isAnd then 0 else 1)%Z).
  { unfold m1, next. rewrite eval_set_pc. unfold cmpL. cbn [asValue].
    rewrite eval_set_reg_same. unfold eval_binop. cbn [eval].
    destruct isAnd.
    - rewrite Hval. reflexivity.
    - destruct (Z.eqb_spec (eval m (val la)) 0); [contradiction | reflexivity]. }
  (* the branch *)
  assert (S2 : step call_sem prog m1 = Some (set_pc m1 (P + Q + 10 + 0)%nat)).
  { destruct isAnd.
    - rewrite (@step_gotocond call_sem prog m1 (asValue cmpL) base (S base)
                              pr (P + Q + 10 + 0)%nat); try assumption.
      + rewrite Hc. reflexivity.
      + unfold m1. cbn [pc next set_pc set_reg]. rewrite Hpc.
        replace (S P) with (P + 1)%nat by lia. rewrite Hat1. reflexivity.
    - rewrite (@step_gotocond call_sem prog m1 (asValue cmpL) (S base) base
                              (P + Q + 10 + 0)%nat pr); try assumption.
      + rewrite Hc. reflexivity.
      + unfold m1. cbn [pc next set_pc set_reg]. rewrite Hpc.
        replace (S P) with (P + 1)%nat by lia. rewrite Hat1. reflexivity. }
  (* the short cut *)
  set (m2 := set_pc m1 (P + Q + 10 + 0)%nat) in *.
  assert (Hw : writable r) by apply fresh_int_writable.
  destruct (@write_writable (next m2) r
              (eval (next m2) (ConstInt (if isAnd then 0 else 1))) Hw)
    as (m3 & Hw3 & Hpc3 & Hr3).
  exists (set_pc (next m3) (P + Q + 10 + 3)%nat).
  split.
  - assert (He : exec call_sem prog 5 m
                 = Some ([pc m; pc m1; pc m2; pc (next m2); pc (next m3)],
                         set_pc (next m3) (P + Q + 10 + 3)%nat)).
    { eapply exec_S; [exact S1|].
      eapply exec_S; [exact S2|].
      eapply exec_S.
      { eapply step_label. unfold m2. cbn [pc set_pc]. rewrite Hat2. reflexivity. }
      eapply exec_S.
      { eapply step_move; [|exact Hw3].
        unfold m2. cbn [pc next set_pc].
        replace (S (P + Q + 10 + 0)) with (P + Q + 10 + 1)%nat by lia.
        rewrite Hat2. reflexivity. }
      eapply exec_S.
      { eapply step_goto; [|exact Le].
        cbn [pc next set_pc]. rewrite Hpc3. unfold m2. cbn [pc next set_pc].
        replace (S (S (P + Q + 10 + 0))) with (P + Q + 10 + 2)%nat by lia.
        rewrite Hat2. reflexivity. }
      reflexivity. }
    rewrite He. f_equal. f_equal.
    unfold m1, m2. cbn [pc next set_pc set_reg]. rewrite Hpc3, Hpc.
    cbn [pc next set_pc].
    repeat (f_equal; try (unfold m2; cbn [pc set_pc]; lia)).
  - split; [cbn [pc set_pc]; lia|].
    split.
    + replace (P + Q + 13)%nat with (P + Q + 10 + 3)%nat by lia.
      rewrite Hat2. reflexivity.
    + split.
      * rewrite eval_set_pc. unfold next. rewrite eval_set_pc.
        rewrite Hr3. cbn [eval]. reflexivity.
      * intros p Hin. cbn [In] in Hin.
        destruct Hin as [<-|[<-|[<-|[<-|[<-|[]]]]]].
        -- replace P with (P + 0)%nat by lia. rewrite Hat1.
           eexists; split; reflexivity.
        -- rewrite Hat1. cbn [app nth_error]. unfold bc.
           destruct isAnd; eexists; split; reflexivity.
        -- replace (P + Q + 10)%nat with (P + Q + 10 + 0)%nat by lia.
           rewrite Hat2. eexists; split; reflexivity.
        -- replace (P + Q + 11)%nat with (P + Q + 10 + 1)%nat by lia.
           rewrite Hat2. eexists; split; reflexivity.
        -- replace (P + Q + 12)%nat with (P + Q + 10 + 2)%nat by lia.
           rewrite Hat2. eexists; split; reflexivity.
Qed.


(** The other way to [L_end]: from the branch on the right operand's test,
    through the bool-to-int pattern and the jump that follows it. *)
Lemma short_circuit_join_exec :
  forall call_sem (isAnd : bool) la lb s2 pre post m,
    let code := short_circuit_code isAnd la lb s2 in
    let prog := pre ++ code ++ post in
    let P := (List.length pre + List.length (blockInsts la))%nat in
    let Q := (3 + List.length (blockInsts lb))%nat in
    let cmpR := InstValue (4 + nextId s2) TypeBool in
    NoDup (labels_of prog) ->
    pc m = (P + Q + 1)%nat ->
    exists trace m',
      exec call_sem prog 6 m = Some (trace, m')
      /\ pc m' = (P + Q + 13)%nat
      /\ eval m' (short_circuit_result s2)
         = (if (eval m cmpR =? 0)%Z then 0 else 1)%Z.
Proof.
  intros call_sem isAnd la lb s2 pre post m code prog P Q cmpRv Hnd Hpc.
  set (base := nextId s2) in *.
  set (r := short_circuit_result s2) in *.
  set (cmpL := BinaryInstruction (3 + base) IRINST_OP_NE_I (val la) (ConstInt 0) TypeBool).
  set (cmpR := BinaryInstruction (4 + base) IRINST_OP_NE_I (val lb) (ConstInt 0) TypeBool).
  set (bc := if isAnd then GotoCond (asValue cmpL) base (S base)
             else GotoCond (asValue cmpL) (S base) base).
  set (W := widen_code (asValue cmpR) r (after_fresh_int (set_nextId s2 (5 + base)))).
  set (tail := [Goto (S (S base)); LabelInstruction (S base);
                MoveInstruction r (ConstInt (if isAnd then 0 else 1));
                Goto (S (S base)); LabelInstruction (S (S base))]).
  set (pre' := pre ++ blockInsts la ++ [cmpL; bc; LabelInstruction base]
                   ++ blockInsts lb ++ [cmpR]).
  assert (Hprog : prog = pre' ++ W ++ (tail ++ post)).
  { unfold prog, code, short_circuit_code, pre', W, tail. cbv zeta.
    fold base. fold r. fold cmpL. fold cmpR. fold bc.
    repeat rewrite <- app_assoc. reflexivity. }
  assert (Hlen : List.length pre' = (P + Q + 1)%nat).
  { unfold pre', P, Q. rewrite !length_app. simpl. lia. }
  assert (Hat : forall k, nth_error prog (P + Q + 1 + 8 + k)
                          = nth_error (tail ++ post) k).
  { intros k. rewrite Hprog, app_assoc.
    replace (P + Q + 1 + 8)%nat with (List.length (pre' ++ W))
      by (rewrite length_app, Hlen; reflexivity).
    apply nth_error_app_at. }
  assert (Le : find_label (S (S base)) prog = Some (P + Q + 1 + 8 + 4)%nat)
    by (apply find_label_unique; [exact Hnd | rewrite Hat; reflexivity]).
  assert (Hw : writable r) by apply fresh_int_writable.
  rewrite Hprog in Hnd.
  destruct (@widen_exec call_sem pre' (tail ++ post) (asValue cmpR) r
                        (after_fresh_int (set_nextId s2 (5 + base))) m Hw Hnd)
    as (t & m1 & He & Hp1 & Hr1 & _).
  { rewrite Hlen. exact Hpc. }
  fold W in He. rewrite <- Hprog in He.
  rewrite Hlen in Hp1.
  exists (t ++ [pc m1; pc (next m1)]), (set_pc (next m1) (P + Q + 1 + 8 + 4)%nat).
  split.
  - change 6%nat with (4 + 2)%nat. eapply exec_app; [exact He|].
    eapply exec_S.
    { eapply step_label. rewrite Hp1.
      replace (P + Q + 1 + 7)%nat with (P + Q + 1 + 7 + 0)%nat by lia.
      rewrite Hprog. rewrite <- Hlen.
      replace (List.length pre' + 7 + 0)%nat with (List.length pre' + 7)%nat by lia.
      rewrite nth_error_app_at. reflexivity. }
    eapply exec_S.
    { eapply step_goto; [|exact Le].
      cbn [pc next set_pc]. rewrite Hp1.
      replace (S (P + Q + 1 + 7)) with (P + Q + 1 + 8 + 0)%nat by lia.
      rewrite Hat. reflexivity. }
    reflexivity.
  - split; [cbn [pc set_pc]; lia|].
    rewrite eval_set_pc. unfold next. rewrite eval_set_pc. rewrite Hr1.
    reflexivity.
Qed.


Lemma short_circuit_end_at :
  forall (isAnd : bool) la lb s2 pre post,
    nth_error (pre ++ short_circuit_code isAnd la lb s2 ++ post)
              (List.length pre + List.length (blockInsts la)
               + (3 + List.length (blockInsts lb)) + 13)
    = Some (LabelInstruction (S (S (nextId s2)))).
Proof.
  intros isAnd la lb s2 pre post.
  unfold short_circuit_code. cbv zeta.
  match goal with
  | |- nth_error (pre ++ (?A ++ ?B ++ ?C ++ ?D ++ ?E ++ ?F) ++ post) _ = _ =>
      replace (pre ++ (A ++ B ++ C ++ D ++ E ++ F) ++ post)
        with ((pre ++ A ++ B ++ C ++ D ++ E ++ firstn 4 F)
                ++ LabelInstruction (S (S (nextId s2))) :: post)
        by (repeat rewrite <- app_assoc; reflexivity);
      replace (List.length pre + List.length (blockInsts la)
               + (3 + List.length (blockInsts lb)) + 13)%nat
        with (List.length (pre ++ A ++ B ++ C ++ D ++ E ++ firstn 4 F))
        by (rewrite !length_app; simpl; lia)
  end.
  apply nth_error_middle.
Qed.

(* ------------------------------------------------------------------ *)
(** * Short-circuit evaluation (C6) *)

(** C6.  [a && b] and [a || b] lower to the code of [a], the test
    [a != 0], a conditional branch, the label [L_rhs], the code of [b] and
    the rest; [L_rhs], created after both operands were lowered, is the
    true target of the branch for [&&] and its false target for [||].  On
    the machine, whenever control is at the test with [a] equal to 0 (for
    [&&]; different from 0 for [||]), the next five steps lead to [L_end]
    and execute neither [L_rhs] nor any instruction of [b]'s code, and no
    call at all; the result is then 0 (1 for [||]). *)
Theorem C6_short_circuit :
  forall (isAnd : bool) a b s la s1 lb s2,
    lowers a s la s1 ->
    lowers b s1 lb s2 ->
    let op := if isAnd then AST_OP_AND else AST_OP_OR in
    let code := short_circuit_code isAnd la lb s2 in
    let L_rhs := nextId s2 in
    (exists s',
       lowers (ast_binary op a b) s
              (mkAttrs (short_circuit_result s2) code nullptr) s')
    /\ (exists cmpL rest,
          code = blockInsts la
                 ++ [cmpL;
                     if isAnd then GotoCond (asValue cmpL) L_rhs (S L_rhs)
                     else GotoCond (asValue cmpL) (S L_rhs) L_rhs;
                     LabelInstruction L_rhs]
                 ++ blockInsts lb ++ rest
          /\ cmpL = BinaryInstruction (3 + L_rhs) IRINST_OP_NE_I (val la)
                                      (ConstInt 0) TypeBool)
    /\ forall call_sem pre post m,
         let prog := pre ++ code ++ post in
         let P := (List.length pre + List.length (blockInsts la))%nat in
         NoDup (labels_of prog) ->
         pc m = P ->
         (if isAnd then eval m (val la) = 0%Z else eval m (val la) <> 0%Z) ->
         exists trace m',
           exec call_sem prog 5 m = Some (trace, m')
           /\ nth_error prog (pc m') = Some (LabelInstruction (S (S L_rhs)))
           /\ (forall p, In p trace ->
                  ~ (P + 2 <= p < P + 3 + List.length (blockInsts lb))%nat)
           /\ (forall p, In p trace ->
                  exists i, nth_error prog p = Some i /\ is_call i = false)
           /\ eval m' (short_circuit_result s2) = (if isAnd then 0 else 1)%Z.
Proof.
  intros isAnd a b s la s1 lb s2 Ha Hb op code L_rhs.
  split; [exact (short_circuit_run isAnd Ha Hb)|].
  split.
  { do 2 eexists. split; [|reflexivity].
    unfold code, short_circuit_code. cbv zeta. reflexivity. }
  intros call_sem pre post m prog P Hnd Hpc Hval.
  destruct (@short_circuit_skip_exec call_sem isAnd la lb s2 pre post m Hnd Hpc Hval)
    as (m' & He & Hp & Hend & Hr & Hcalls).
  do 2 eexists. split; [exact He|].
  split; [rewrite Hp; exact Hend|].
  split.
  { intros p Hin. fold P in Hin. cbn [In] in Hin. lia. }
  split; [exact Hcalls | exact Hr].
Qed.

(* ------------------------------------------------------------------ *)
(** * The bool-to-int pattern (C10) *)

Lemma widened_compare_state :
  forall op cmp a b s la s1 lb s2,
    (op = AST_OP_LT /\ cmp = IRINST_OP_LT_I) \/ (op = AST_OP_GT /\ cmp = IRINST_OP_GT_I) ->
    lowers a s la s1 ->
    lowers b s1 lb s2 ->
    let cmpInst := BinaryInstruction (nextId s2) cmp (val la) (val lb) TypeBool in
    let s2' := set_nextId s2 (S (nextId s2)) in
    lowers (ast_binary op a b) s
           (mkAttrs (fresh_int s2')
                    (blockInsts la ++ blockInsts lb ++ [cmpInst]
                     ++ widen_code (asValue cmpInst) (fresh_int s2')
                                   (after_fresh_int s2'))
                    nullptr)
           (widened_state s2').
Proof.
  intros op cmp a b s la s1 lb s2 Hop Ha Hb cmpInst s2'.
  unfold lowers.
  destruct Hop as [[-> ->]|[-> ->]]; simpl ir_visit_ast_node; unfold binary_handler;
    [unfold ir_lt | unfold ir_gt]; unfold ir_binary; gen_run;
    rewrite convertBoolToInt_state; gen_red; flatten_code; reflexivity.
Qed.

Lemma ir_not_state :
  forall e s le s1,
    lowers e s le s1 ->
    let eqInst := BinaryInstruction (nextId s1) IRINST_OP_EQ_I (val le)
                                    (ConstInt 0) TypeBool in
    let s1' := set_nextId s1 (S (nextId s1)) in
    lowers (ast_unary AST_OP_NOT e) s
           (mkAttrs (fresh_int s1')
                    (blockInsts le ++ [eqInst]
                     ++ widen_code (asValue eqInst) (fresh_int s1')
                                   (after_fresh_int s1'))
                    nullptr)
           (widened_state s1').
Proof.
  intros e s le s1 He eqInst s1'.
  unfold lowers. simpl ir_visit_ast_node. unfold unary_handler, ir_not. gen_run.
  rewrite convertBoolToInt_state. gen_red. flatten_code. reflexivity.
Qed.

Lemma short_circuit_state :
  forall (isAnd : bool) a b s la s1 lb s2,
    lowers a s la s1 ->
    lowers b s1 lb s2 ->
    lowers (ast_binary (if isAnd then AST_OP_AND else AST_OP_OR) a b) s
           (mkAttrs (short_circuit_result s2)
                    (short_circuit_code isAnd la lb s2) nullptr)
           (widened_state (set_nextId s2 (5 + nextId s2))).
Proof.
  intros isAnd a b s la s1 lb s2 Ha Hb.
  unfold lowers. destruct isAnd; simpl ir_visit_ast_node; unfold binary_handler.
  - unfold ir_and. gen_run. rewrite convertBoolToInt_state.
    gen_red. unfold short_circuit_code, short_circuit_result.
    flatten_code. reflexivity.
  - unfold ir_or. gen_run. rewrite convertBoolToInt_state.
    gen_red. unfold short_circuit_code, short_circuit_result.
    flatten_code. reflexivity.
Qed.

(** What [newVarValue] made for the pattern: inside a function a local
    numbered by the counter, which the pattern moves past it and its
    labels; outside, an unnamed global that joins the module's globals. *)
Lemma fresh_int_made :
  forall s,
    nextId (widened_state s) = (3 + after_fresh_int s)%nat
    /\ scopeStack (widened_state s) = scopeStack s
    /\ match currentFunction s with
       | Some _ =>
           fresh_int s = LocalVariable (nextId s) TypeInt ""
           /\ ~ value_id_lt (nextId s) (fresh_int s)
           /\ value_id_lt (nextId (widened_state s)) (fresh_int s)
           /\ globals (widened_state s) = globals s
       | None =>
           fresh_int s = GlobalVar TypeInt ""
           /\ globals (widened_state s)
              = globals s ++ [GlobalVariable.new TypeInt ""]
       end.
Proof.
  intros s. unfold widened_state, after_fresh_state, fresh_int, after_fresh_int.
  destruct (currentFunction s); cbn.
  - repeat split; lia.
  - repeat split.
Qed.

Lemma widen_code_moves : forall b r l, moves_only_bool r (widen_code b r l).
Proof.
  intros b r l dst src Hin. unfold widen_code in Hin. cbn [In] in Hin.
  repeat (destruct Hin as [Hin|Hin];
          [try discriminate; inversion Hin; subst; auto|]).
  destruct Hin.
Qed.

(** C10.  [convertBoolToInt] returns the variable [r] that [newVarValue]
    makes at that moment and leaves the state written out here.  Inside a
    function [r] is a new local: its number is the value of the allocation
    counter, so nothing made before is [r], and the pattern moves the
    counter past [r] and its three labels, so nothing made later is.
    Outside any function, where the code departs from the specification,
    [r] is no local: [newVarValue] makes an unnamed global, which joins
    the globals of the module.  The pattern [bc cond, L_true, L_false;
    L_true: r = 1; goto L_end; L_false: r = 0; goto L_end; L_end:] is
    appended; its only moves write [r] and write the constants 1 and 0; on
    the machine, four steps from the branch lead to [L_end], where [r] is
    1 or 0.  [<], [>] and [!] expose the [r] of such a pattern, which ends
    their code.  [&&] and [||] expose the [r] of the pattern on their right
    operand's test; the one other move of their own code writes the
    constant 0 (1 for [||]) to [r], and on both ways to their [L_end] the
    value of [r] there is 0 or 1. *)
Theorem C10_widened_value_is_zero_or_one :
  (forall b s n,
     let r := fresh_int s in
     let l := after_fresh_int s in
     convertBoolToInt b s n
     = Ret r (widened_state s)
           (mkAttrs (val n) (blockInsts n ++ widen_code b r l)
                    (arrayAccessAddress n))
     /\ nextId (widened_state s) = (3 + l)%nat
     /\ scopeStack (widened_state s) = scopeStack s
     /\ match currentFunction s with
        | Some _ =>
            r = LocalVariable (nextId s) TypeInt ""
            /\ ~ value_id_lt (nextId s) r
            /\ value_id_lt (nextId (widened_state s)) r
            /\ globals (widened_state s) = globals s
        | None =>
            r = GlobalVar TypeInt ""
            /\ globals (widened_state s)
               = globals s ++ [GlobalVariable.new TypeInt ""]
        end
     /\ moves_only_bool r (widen_code b r l)
     /\ forall call_sem pre post m,
          let prog := pre ++ widen_code b r l ++ post in
          NoDup (labels_of prog) ->
          pc m = List.length pre ->
          exists trace m',
            exec call_sem prog 4 m = Some (trace, m')
            /\ nth_error prog (pc m') = Some (LabelInstruction (S (S l)))
            /\ (eval m' r = 0 \/ eval m' r = 1)%Z)
  /\ (forall op cmp a b s la s1 lb s2,
        (op = AST_OP_LT /\ cmp = IRINST_OP_LT_I)
        \/ (op = AST_OP_GT /\ cmp = IRINST_OP_GT_I) ->
        lowers a s la s1 ->
        lowers b s1 lb s2 ->
        let cmpInst := BinaryInstruction (nextId s2) cmp (val la) (val lb) TypeBool in
        let s2' := set_nextId s2 (S (nextId s2)) in
        lowers (ast_binary op a b) s
               (mkAttrs (fresh_int s2')
                        (blockInsts la ++ blockInsts lb ++ [cmpInst]
                         ++ widen_code (asValue cmpInst) (fresh_int s2')
                                       (after_fresh_int s2'))
                        nullptr)
               (widened_state s2'))
  /\ (forall e s le s1,
        lowers e s le s1 ->
        let eqInst := BinaryInstruction (nextId s1) IRINST_OP_EQ_I (val le)
                                        (ConstInt 0) TypeBool in
        let s1' := set_nextId s1 (S (nextId s1)) in
        lowers (ast_unary AST_OP_NOT e) s
               (mkAttrs (fresh_int s1')
                        (blockInsts le ++ [eqInst]
                         ++ widen_code (asValue eqInst) (fresh_int s1')
                                       (after_fresh_int s1'))
                        nullptr)
               (widened_state s1'))
  /\ (forall (isAnd : bool) a b s la s1 lb s2,
        lowers a s la s1 ->
        lowers b s1 lb s2 ->
        let s2' := set_nextId s2 (5 + nextId s2) in
        let r := fresh_int s2' in
        exists code own1 cmpR own2,
          lowers (ast_binary (if isAnd then AST_OP_AND else AST_OP_OR) a b) s
                 (mkAttrs r code nullptr) (widened_state s2')
          /\ code
             = blockInsts la ++ own1 ++ blockInsts lb ++ [cmpR]
               ++ widen_code (asValue cmpR) r (after_fresh_int s2') ++ own2
          /\ moves_only_bool r (own1 ++ own2)
          /\ In (MoveInstruction r (ConstInt (if isAnd then 0 else 1))) own2
          /\ forall call_sem pre post m,
               let prog := pre ++ code ++ post in
               let P := (List.length pre + List.length (blockInsts la))%nat in
               let Q := (3 + List.length (blockInsts lb))%nat in
               NoDup (labels_of prog) ->
               (pc m = P /\
                (if isAnd then eval m (val la) = 0%Z else eval m (val la) <> 0%Z)
                -> exists trace m',
                     exec call_sem prog 5 m = Some (trace, m')
                     /\ pc m' = (P + Q + 13)%nat
                     /\ (eval m' r = 0 \/ eval m' r = 1)%Z)
               /\ (pc m = (P + Q + 1)%nat
                   -> exists trace m',
                        exec call_sem prog 6 m = Some (trace, m')
                        /\ pc m' = (P + Q + 13)%nat
                        /\ (eval m' r = 0 \/ eval m' r = 1)%Z)
               /\ nth_error prog (P + Q + 13)
                  = Some (LabelInstruction (S (S (nextId s2))))).
Proof.
  split; [|split; [|split]].
  - intros b s n r l.
    split; [apply convertBoolToInt_state|].
    destruct (fresh_int_made s) as (Hn & Hsc & Hm).
    split; [exact Hn|]. split; [exact Hsc|]. split; [exact Hm|].
    split; [apply widen_code_moves|].
    intros call_sem pre post m prog Hnd Hpc.
    destruct (@widen_exec call_sem pre post b r l m (fresh_int_writable s) Hnd Hpc)
      as (t & m' & He & Hp & Hr & _).
    exists t, m'. split; [exact He|]. split.
    + rewrite Hp. unfold prog. rewrite nth_error_app_at. reflexivity.
    + rewrite Hr. destruct (InstSelectorArm32.is_nullptr b); [auto|].
      destruct (eval m b =? 0)%Z; auto.
  - intros op cmp a b s la s1 lb s2 Hop Ha Hb.
    exact (widened_compare_state Hop Ha Hb).
  - intros e s le s1 He.
    exact (ir_not_state He).
  - intros isAnd a b s la s1 lb s2 Ha Hb s2' r.
    pose proof (short_circuit_state isAnd Ha Hb) as Hl.
    eexists (short_circuit_code isAnd la lb s2), _, _, _.
    split; [exact Hl|].
    split.
    { unfold short_circuit_code. cbv zeta. reflexivity. }
    split.
    { intros dst src Hin. apply in_app_or in Hin. destruct Hin as [Hin|Hin].
      - cbn [In] in Hin. destruct isAnd;
          repeat (destruct Hin as [Hin|Hin]; [discriminate|]); destruct Hin.
      - cbn [In] in Hin.
        destruct Hin as [Hin|[Hin|[Hin|[Hin|[Hin|[]]]]]]; try discriminate.
        inversion Hin; subst. split; [reflexivity | destruct isAnd; auto]. }
    split.
    { cbn [In]. right. right. left. reflexivity. }
    intros call_sem pre post m prog P Q Hnd. subst prog P Q.
    split; [|split].
    + intros [Hpc Hval].
      destruct (@short_circuit_skip_exec call_sem isAnd la lb s2 pre post m Hnd Hpc Hval)
        as (m' & He & Hp & _ & Hr & _).
      do 2 eexists. split; [exact He|]. split; [exact Hp|].
      unfold r, s2'. fold (short_circuit_result s2).
      rewrite Hr. destruct isAnd; auto.
    + intros Hpc.
      destruct (@short_circuit_join_exec call_sem isAnd la lb s2 pre post m Hnd Hpc)
        as (t & m' & He & Hp & Hr).
      do 2 eexists. split; [exact He|]. split; [exact Hp|].
      unfold r, s2'. fold (short_circuit_result s2).
      rewrite Hr.
      match goal with |- context [if ?c then _ else _] => destruct c end; auto.
    + apply short_circuit_end_at.
Qed.

(* ------------------------------------------------------------------ *)
(** * The statements on concrete programs *)

(** Scenario "2-D array read/write" of the specification: the code of
    [main], and the byte offset 24 on both sides. *)
Example scenario_array_read_write :
  exists s' f,
    run demo_program_array initState = Ret (Some empty_attrs) s' empty_attrs
    /\ findFunction_in "main" (functions s') = Some f
    /\ count is_store (fn_interCode f) = 1%nat
    /\ count is_load (fn_interCode f) = 2%nat
    /\ exists trace m',
         exec demo_call_sem (fn_interCode f) 6 (demo_machine 0 0) = Some (trace, m')
         /\ eval m' (InstValue 4 TypeInt) = 24%Z.
Proof.
  do 2 eexists. split; [vm_compute; reflexivity|].
  split; [vm_compute; reflexivity|].
  split; [vm_compute; reflexivity|].
  split; [vm_compute; reflexivity|].
  do 2 eexists. split; vm_compute; reflexivity.
Qed.

(** C1, counterexample.  In [main] of [demo_program_wide] the access
    [c[1]] leaves the dimensions [65536][65536], whose product 2^32
    [int32_t] does not hold, and the access [z[1]] leaves the dimension
    [0].  In both the multiplication by the product of the remaining
    dimensions is left out: the byte offset is [1 * 4], and on the machine
    it is 4, where the formula of the specification gives 4 * 2^32 (0
    modulo 2^32) for [c[1]] and 0 for [z[1]].  These are the accesses the
    amended statement leaves out: a product of the remaining dimensions
    beyond [int32_t], and a remaining dimension that is not positive. *)
Lemma C1_counterexample :
  ~ (product [65536; 65536]%Z <= INT32_MAX)%Z
  /\ ~ Forall (fun d => 0 < d)%Z [0]%Z
  /\ exists s' f,
    run demo_program_wide initState = Ret (Some empty_attrs) s' empty_attrs
    /\ findFunction_in "main" (functions s') = Some f
    /\ firstn 3 (skipn 2 (fn_interCode f))
       = [byteOffsetInst_of 10 (ConstInt 1);
          addrInst_of 10 demo_c TypeInt;
          accessInst_of 10 demo_c TypeInt false [65536; 65536]%Z]
    /\ firstn 3 (skipn 6 (fn_interCode f))
       = [byteOffsetInst_of 14 (ConstInt 1);
          addrInst_of 14 demo_z TypeInt;
          accessInst_of 14 demo_z TypeInt false [0]%Z]
    /\ exists trace m',
         exec demo_call_sem (fn_interCode f) 8 (demo_machine 0 0)
         = Some (trace, m')
         /\ eval m' (InstValue 10 TypeInt) = 4%Z
         /\ spec_byte_offset [1]%Z [2; 65536; 65536]%Z = 17179869184%Z
         /\ eval m' (InstValue 10 TypeInt)
            <> wrap32 (spec_byte_offset [1]%Z [2; 65536; 65536]%Z)
         /\ eval m' (InstValue 14 TypeInt) = 4%Z
         /\ spec_byte_offset [1]%Z [2; 0]%Z = 0%Z
         /\ eval m' (InstValue 14 TypeInt) <> wrap32 (spec_byte_offset [1]%Z [2; 0]%Z).
Proof.
  split; [vm_compute; intros H; apply H; reflexivity|].
  split; [intros H; inversion H; subst; lia|].
  do 2 eexists. split; [vm_compute; reflexivity|].
  split; [vm_compute; reflexivity|].
  split; [vm_compute; reflexivity|].
  split; [vm_compute; reflexivity|].
  do 2 eexists. split; [vm_compute; reflexivity|].
  split; [vm_compute; reflexivity|].
  split; [vm_compute; reflexivity|].
  split; [vm_compute; discriminate|].
  split; [vm_compute; reflexivity|].
  split; [vm_compute; reflexivity|].
  vm_compute. discriminate.
Qed.

(** C10 at the failing input.  [int g = 1 < 2;] outside any function is
    lowered without error.  The variable that the pattern of [1 < 2]
    writes and exposes is an unnamed global of the module, not a local
    variable, and it becomes the initializer of [g]. *)
Lemma C10_counterexample :
  exists attrs s' s'',
    lowers demo_lt_const initState attrs s'
    /\ blockInsts attrs
       = BinaryInstruction 0 IRINST_OP_LT_I (ConstInt 1) (ConstInt 2) TypeBool
         :: widen_code (InstValue 0 TypeBool) (val attrs) 1
    /\ val attrs = GlobalVar TypeInt ""
    /\ ~ spec_widened_local (val attrs)
    /\ run demo_global_init initState = Ret (Some empty_attrs) s'' empty_attrs
    /\ globals s''
       = [GlobalVariable.setInitializer (GlobalVariable.new TypeInt "g") (val attrs);
          GlobalVariable.new TypeInt ""].
Proof.
  do 3 eexists. split; [vm_compute; reflexivity|].
  cbn [blockInsts val].
  split; [reflexivity|]. split; [reflexivity|].
  split; [intros (id & name & H); discriminate H|].
  split; [vm_compute; reflexivity|].
  vm_compute. reflexivity.
Qed.

(** C2, counterexample.  In [int a[3][4]; int main() { a[1][2] = 7;
    return 0; }] the only array access is the left side of the assignment;
    the code of [main] holds its [LoadArray] next to the [StoreArray]. *)
Lemma C2_counterexample :
  exists s' f,
    run demo_program_store initState = Ret (Some empty_attrs) s' empty_attrs
    /\ findFunction_in "main" (functions s') = Some f
    /\ count is_load (fn_interCode f) = 1%nat
    /\ ~ spec_lhs_load_suppressed (fn_interCode f).
Proof.
  do 2 eexists. split; [vm_compute; reflexivity|].
  split; [vm_compute; reflexivity|].
  split; [vm_compute; reflexivity|].
  intros [H _]. vm_compute in H. discriminate.
Qed.

(** C3, counterexample.  [if (1) x = 1; else x = 2;]: the condition lowers
    to [ConstInt 1], the branches to [x = 1] and [x = 2], and the move of
    the else-branch is in the code of the [if]. *)
Lemma C3_counterexample :
  exists ca s1 s2 s3 attrs s',
    lowers (ast_leaf_literal_uint 1) demo_state ca s1
    /\ val ca = ConstInt 1
    /\ lowers_opt (Some (demo_assign 1)) s1
                  [MoveInstruction demo_x (ConstInt 1)] s2
    /\ lowers_opt (Some (demo_assign 2)) s2
                  [MoveInstruction demo_x (ConstInt 2)] s3
    /\ lowers demo_if_const demo_state attrs s'
    /\ In (MoveInstruction demo_x (ConstInt 2)) (blockInsts attrs)
    /\ ~ spec_if_const_specialized 1 [MoveInstruction demo_x (ConstInt 1)]
                                   [MoveInstruction demo_x (ConstInt 2)]
                                   (blockInsts attrs).
Proof.
  do 6 eexists.
  split; [vm_compute; reflexivity|].
  split; [reflexivity|].
  split; [eexists; split; [vm_compute; reflexivity | reflexivity]|].
  split; [eexists; split; [vm_compute; reflexivity | reflexivity]|].
  split; [vm_compute; reflexivity|].
  assert (Hin : In (MoveInstruction demo_x (ConstInt 2))
                   [Goto 7; LabelInstruction 7;
                    MoveInstruction demo_x (ConstInt 1); Goto 9;
                    LabelInstruction 8;
                    MoveInstruction demo_x (ConstInt 2);
                    LabelInstruction 9])
    by (cbn [In]; auto 10).
  split; [exact Hin|].
  intros H. cbn in H. apply (H (MoveInstruction demo_x (ConstInt 2))).
  - left. reflexivity.
  - exact Hin.
Qed.

(** C4 at the failing inputs.  As the condition of an [if], [x < y]
    exposes the widened [i32] variable, which the branch then tests, where
    the specification has the raw [i1]; as the right side of an
    assignment, [x <= y] exposes the raw [i1] comparison, which is moved
    into [x], where the specification has the widened [i32]. *)
Lemma C4_counterexample :
  (exists attrs s' ifAttrs s'',
     lowers demo_lt demo_state attrs s'
     /\ lowers (ast_if demo_lt None None) demo_state ifAttrs s''
     /\ In (GotoCond (val attrs) 10 11) (blockInsts ifAttrs)
     /\ getType (val attrs) <> Some (spec_exposed_type IfCondition))
  /\ (exists attrs s' asgAttrs s'',
        lowers demo_le demo_state attrs s'
        /\ lowers (ast_binary AST_OP_ASSIGN (ast_leaf_var_id "x") demo_le)
                  demo_state asgAttrs s''
        /\ In (MoveInstruction demo_x (val attrs)) (blockInsts asgAttrs)
        /\ getType (val attrs) <> Some (spec_exposed_type OtherParent)).
Proof.
  split.
  - do 4 eexists.
    split; [vm_compute; reflexivity|].
    split; [vm_compute; reflexivity|].
    split; [cbn [In val blockInsts]; auto 20|].
    cbn. discriminate.
  - do 4 eexists.
    split; [vm_compute; reflexivity|].
    split; [vm_compute; reflexivity|].
    split; [cbn [In val blockInsts]; auto 20|].
    cbn. discriminate.
Qed.

(* ------------------------------------------------------------------ *)
(** * The theorems at concrete inputs *)

(** C1 at the partial access [a[1]] of [int a[3][4]]: every hypothesis
    holds, and the access lowers. *)
Lemma C1_witness :
  exists na ias,
    lowers (ast_leaf_var_id "a") demo_state na demo_state
    /\ lowers_list [ast_leaf_literal_uint 1] demo_state ias demo_state
    /\ getType (val na) = Some (ArrayType TypeInt [3; 4]%Z)
    /\ (1 <= List.length ias <= List.length [3; 4]%Z)%nat
    /\ Forall (fun a => val a <> nullptr) ias
    /\ Forall (value_id_lt (nextId demo_state)) (map val ias)
    /\ value_id_lt (nextId demo_state) (val na)
    /\ Forall (fun d => 0 < d)%Z (skipn (List.length ias) [3; 4]%Z)
    /\ (product (skipn (List.length ias) [3; 4]%Z) <= INT32_MAX)%Z
    /\ exists attrs s3, lowers demo_slice demo_state attrs s3.
Proof.
  exists (mkAttrs demo_a [] nullptr), [mkAttrs (ConstInt 1) [] nullptr].
  assert (H1 : lowers (ast_leaf_var_id "a") demo_state
                      (mkAttrs demo_a [] nullptr) demo_state)
    by (vm_compute; reflexivity).
  assert (H2 : lowers_list [ast_leaf_literal_uint 1] demo_state
                           [mkAttrs (ConstInt 1) [] nullptr] demo_state)
    by (eapply lowers_cons; [vm_compute; reflexivity | apply lowers_nil]).
  assert (H3 : getType (val (mkAttrs demo_a [] nullptr))
               = Some (ArrayType TypeInt [3; 4]%Z)) by reflexivity.
  assert (H4 : (1 <= List.length [mkAttrs (ConstInt 1) [] nullptr]
                <= List.length [3; 4]%Z)%nat) by (simpl; lia).
  assert (H5 : Forall (fun a => val a <> nullptr) [mkAttrs (ConstInt 1) [] nullptr])
    by (constructor; [discriminate | constructor]).
  assert (H6 : Forall (value_id_lt (nextId demo_state))
                      (map val [mkAttrs (ConstInt 1) [] nullptr]))
    by (constructor; [exact I | constructor]).
  assert (H7 : value_id_lt (nextId demo_state) (val (mkAttrs demo_a [] nullptr)))
    by exact I.
  assert (H8 : Forall (fun d => 0 < d)%Z
                      (skipn (List.length [mkAttrs (ConstInt 1) [] nullptr]) [3; 4]%Z))
    by (constructor; [reflexivity | constructor]).
  assert (H9 : (product (skipn (List.length [mkAttrs (ConstInt 1) [] nullptr])
                               [3; 4]%Z) <= INT32_MAX)%Z)
    by (vm_compute; discriminate).
  destruct (C1_row_major_addressing H1 H2 H3 H4 H5 H6 H7 H8 H9)
    as (attrs & s3 & _ & _ & _ & _ & Hl & _).
  repeat (split; [assumption|]).
  exists attrs, s3. exact Hl.
Defined.

(** C2 at [a[1][2]] and the assignment [a[1][2] = 7]. *)
Lemma C2_witness :
  exists na ias,
    lowers (ast_leaf_var_id "a") demo_state na demo_state
    /\ lowers_list [ast_leaf_literal_uint 1; ast_leaf_literal_uint 2]
                   demo_state ias demo_state
    /\ getType (val na) = Some (ArrayType TypeInt [3; 4]%Z)
    /\ (1 <= List.length ias <= List.length [3; 4]%Z)%nat
    /\ Forall (fun a => val a <> nullptr) ias
    /\ exists attrs s3, lowers demo_access demo_state attrs s3.
Proof.
  exists (mkAttrs demo_a [] nullptr),
         [mkAttrs (ConstInt 1) [] nullptr; mkAttrs (ConstInt 2) [] nullptr].
  assert (H1 : lowers (ast_leaf_var_id "a") demo_state
                      (mkAttrs demo_a [] nullptr) demo_state)
    by (vm_compute; reflexivity).
  assert (H2 : lowers_list [ast_leaf_literal_uint 1; ast_leaf_literal_uint 2]
                           demo_state
                           [mkAttrs (ConstInt 1) [] nullptr;
                            mkAttrs (ConstInt 2) [] nullptr] demo_state)
    by (eapply lowers_cons;
        [vm_compute; reflexivity
        | eapply lowers_cons; [vm_compute; reflexivity | apply lowers_nil]]).
  assert (H3 : getType (val (mkAttrs demo_a [] nullptr))
               = Some (ArrayType TypeInt [3; 4]%Z)) by reflexivity.
  assert (H4 : (1 <= List.length [mkAttrs (ConstInt 1) [] nullptr;
                                  mkAttrs (ConstInt 2) [] nullptr]
                <= List.length [3; 4]%Z)%nat) by (simpl; lia).
  assert (H5 : Forall (fun a => val a <> nullptr)
                      [mkAttrs (ConstInt 1) [] nullptr;
                       mkAttrs (ConstInt 2) [] nullptr])
    by (repeat constructor; discriminate).
  destruct (C2_array_access_load_store H1 H2 H3 H4 H5)
    as (attrs & s3 & _ & Hl & _).
  repeat (split; [assumption|]).
  exists attrs, s3. exact Hl.
Defined.

(** C3 at [if (1) x = 1; else x = 2;]. *)
Lemma C3_witness :
  exists ca s1 s2 s3,
    lowers (ast_leaf_literal_uint 1) demo_state ca s1
    /\ val ca = ConstInt 1
    /\ lowers_opt (Some (demo_assign 1)) s1
                  [MoveInstruction demo_x (ConstInt 1)] s2
    /\ lowers_opt (Some (demo_assign 2)) s2
                  [MoveInstruction demo_x (ConstInt 2)] s3
    /\ exists attrs s', lowers demo_if_const demo_state attrs s'.
Proof.
  assert (H1 : lowers (ast_leaf_literal_uint 1) demo_state
                      (mkAttrs (ConstInt 1) [] nullptr) demo_state)
    by (vm_compute; reflexivity).
  assert (H2 : val (mkAttrs (ConstInt 1) [] nullptr) = ConstInt 1) by reflexivity.
  assert (H3 : lowers_opt (Some (demo_assign 1)) demo_state
                          [MoveInstruction demo_x (ConstInt 1)]
                          (set_nextId demo_state 6)).
  { eexists. split; [vm_compute; reflexivity | reflexivity]. }
  assert (H4 : lowers_opt (Some (demo_assign 2)) (set_nextId demo_state 6)
                          [MoveInstruction demo_x (ConstInt 2)]
                          (set_nextId demo_state 7)).
  { eexists. split; [vm_compute; reflexivity | reflexivity]. }
  pose proof (@C3_if_constant_condition
                (ast_leaf_literal_uint 1) (Some (demo_assign 1))
                (Some (Some (demo_assign 2))) _ _ _ _ _ _ _ _ H1 H2 H3 H4) as Hl.
  do 4 eexists.
  split; [exact H1|]. split; [exact H2|]. split; [exact H3|]. split; [exact H4|].
  do 2 eexists. exact Hl.
Defined.

(** C4 at [x < y]. *)
Lemma C4_witness :
  exists la lb,
    compare_operator AST_OP_LT = Some IRINST_OP_LT_I
    /\ lowers (ast_leaf_var_id "x") demo_state la demo_state
    /\ lowers (ast_leaf_var_id "y") demo_state lb demo_state
    /\ exists attrs s',
         lowers demo_lt demo_state attrs s'
         /\ getType (val attrs) = Some TypeInt.
Proof.
  assert (H1 : compare_operator AST_OP_LT = Some IRINST_OP_LT_I) by reflexivity.
  assert (H2 : lowers (ast_leaf_var_id "x") demo_state
                      (mkAttrs demo_x [] nullptr) demo_state)
    by (vm_compute; reflexivity).
  assert (H3 : lowers (ast_leaf_var_id "y") demo_state
                      (mkAttrs demo_y [] nullptr) demo_state)
    by (vm_compute; reflexivity).
  pose proof (@C4_comparison_exposed_value _ _ _ _ _ _ _ _ _ H1 H2 H3) as H.
  cbv zeta in H. destruct H as (attrs & s' & Hl & Ht & _).
  do 2 eexists.
  split; [exact H1|]. split; [exact H2|]. split; [exact H3|].
  exists attrs, s'. split; [exact Hl | exact Ht].
Defined.

(** C5 at the undeclared name [z]. *)
Lemma C5_witness :
  findVarValue_in "z" (scopeStack demo_state) = nullptr
  /\ ir_visit_ast_node (ast_leaf_var_id "z") demo_state empty_attrs
     = Ret (Some (mkAttrs nullptr [] nullptr)) demo_state empty_attrs.
Proof.
  assert (H : findVarValue_in "z" (scopeStack demo_state) = nullptr) by reflexivity.
  split; [exact H|].
  exact (proj1 (@C5_undefined_identifier_succeeds "z" demo_state empty_attrs H)).
Defined.

(** C6 at [x && f()] with [x] equal to 0: the five steps from the test
    reach [L_end], and none of them is the call of [f]. *)
Lemma C6_witness :
  exists la lb s2,
    lowers (ast_leaf_var_id "x") demo_state la demo_state
    /\ lowers (ast_func_call "f" []) demo_state lb s2
    /\ In (FuncCallInstruction 5 "f" [] TypeInt) (short_circuit_code true la lb s2)
    /\ NoDup (labels_of ([] ++ short_circuit_code true la lb s2 ++ []))
    /\ exists trace m',
         exec demo_call_sem ([] ++ short_circuit_code true la lb s2 ++ []) 5
              (demo_machine 0 0)
         = Some (trace, m')
         /\ (forall p, In p trace ->
                exists i, nth_error ([] ++ short_circuit_code true la lb s2 ++ []) p
                          = Some i /\ is_call i = false)
         /\ eval m' (short_circuit_result s2) = 0%Z.
Proof.
  assert (H1 : lowers (ast_leaf_var_id "x") demo_state
                      (mkAttrs demo_x [] nullptr) demo_state)
    by (vm_compute; reflexivity).
  assert (H2 : lowers (ast_func_call "f" []) demo_state
                      (mkAttrs (InstValue 5 TypeInt)
                               [FuncCallInstruction 5 "f" [] TypeInt] nullptr)
                      (mkGenState 6 (scopeStack demo_state) (globals demo_state)
                         [mkFunction "f" TypeInt []
                            [EntryInstruction;
                             MoveInstruction (LocalVariable 1 TypeInt "") (ConstInt 0);
                             MoveInstruction (LocalVariable 1 TypeInt "") (ConstInt 1);
                             Goto 0; LabelInstruction 0;
                             ExitInstruction (LocalVariable 1 TypeInt "")]
                            (Some 0) (LocalVariable 1 TypeInt "") false 0%Z;
                          mkFunction "main" TypeInt [] [EntryInstruction] (Some 2)
                                     nullptr true 0%Z]
                         (Some "main") [] []))
    by (vm_compute; reflexivity).
  destruct (@C6_short_circuit true _ _ _ _ _ _ _ H1 H2) as (_ & _ & Hdyn).
  do 3 eexists.
  split; [exact H1|]. split; [exact H2|].
  split; [vm_compute; auto 10|].
  assert (Hnd : NoDup (labels_of
                         ([] ++ short_circuit_code true (mkAttrs demo_x [] nullptr)
                                  (mkAttrs (InstValue 5 TypeInt)
                                     [FuncCallInstruction 5 "f" [] TypeInt] nullptr)
                                  (mkGenState 6 (scopeStack demo_state)
                                     (globals demo_state)
                                     [mkFunction "f" TypeInt []
                                        [EntryInstruction;
                                         MoveInstruction (LocalVariable 1 TypeInt "") (ConstInt 0);
                                         MoveInstruction (LocalVariable 1 TypeInt "") (ConstInt 1);
                                         Goto 0; LabelInstruction 0;
                                         ExitInstruction (LocalVariable 1 TypeInt "")]
                                        (Some 0) (LocalVariable 1 TypeInt "") false 0%Z;
                                      mkFunction "main" TypeInt [] [EntryInstruction]
                                                 (Some 2) nullptr true 0%Z]
                                     (Some "main") [] []) ++ []))).
  { vm_compute. repeat (constructor; [cbn [In]; lia|]). constructor. }
  split; [exact Hnd|].
  destruct (Hdyn demo_call_sem [] [] (demo_machine 0 0) Hnd eq_refl eq_refl)
    as (trace & m' & He & _ & _ & Hcalls & Hr).
  exists trace, m'. split; [exact He|]. split; [exact Hcalls | exact Hr].
Defined.

(** C7 at a condition that is in no register, with an allocator that
    hands out register 4. *)
Lemma C7_witness :
  InstValue 1 TypeBool <> nullptr
  /\ exists st',
       InstSelectorArm32.translate_br
         (fun _ => "r4") (fun l => if Nat.eqb l 1 then ".L1" else ".L2")
         (fun _ => (-1)%Z) (fun (a : unit) _ => (4%Z, a)) (fun (a : unit) _ => a)
         (GotoCond (InstValue 1 TypeBool) 1 2) (InstSelectorArm32.mkSelector [] tt)
       = Some st'
       /\ InstSelectorArm32.iloc st'
          = [InstSelectorArm32.iloc_load_var 4 (InstValue 1 TypeBool);
             InstSelectorArm32.iloc_inst "cmp" ["r4"; "#0"];
             InstSelectorArm32.iloc_inst "bne" [".L1"];
             InstSelectorArm32.iloc_inst "b" [".L2"]].
Proof.
  assert (H : InstValue 1 TypeBool <> nullptr) by discriminate.
  split; [exact H|].
  exact (proj2 (@C7_translate_br
                  (fun _ => "r4") (fun l => if Nat.eqb l 1 then ".L1" else ".L2")
                  (fun _ => (-1)%Z) unit (fun (a : unit) _ => (4%Z, a))
                  (fun (a : unit) _ => a)
                  (InstSelectorArm32.mkSelector [] tt))
               (InstValue 1 TypeBool) 1%nat 2%nat H).
Defined.

(** C8 inside two loops, and in [while (x) break;]. *)
Lemma C8_witness :
  loopEndStack (set_loopStacks demo_state [5; 8] [7; 10]) = [7] ++ [10]
  /\ ir_visit_ast_node ast_break (set_loopStacks demo_state [5; 8] [7; 10])
                       empty_attrs
     = Ret (Some (mkAttrs nullptr [Goto 10] nullptr))
           (set_loopStacks demo_state [5; 8] [7; 10]) empty_attrs
  /\ lowers (ast_leaf_var_id "x") (while_entry demo_state)
            (mkAttrs demo_x [] nullptr) (while_entry demo_state)
  /\ lowers (ast_while (ast_leaf_var_id "x") (Some ast_break)) demo_state
            (mkAttrs nullptr
               [LabelInstruction 5; GotoCond demo_x 6 7; LabelInstruction 6;
                Goto 7; Goto 5; LabelInstruction 7] nullptr)
            (while_exit (while_entry demo_state)).
Proof.
  assert (H : loopEndStack (set_loopStacks demo_state [5; 8] [7; 10]) = [7] ++ [10])
    by reflexivity.
  assert (Hx : lowers (ast_leaf_var_id "x") (while_entry demo_state)
                      (mkAttrs demo_x [] nullptr) (while_entry demo_state))
    by (vm_compute; reflexivity).
  split; [exact H|].
  split; [exact (proj2 (proj1 (C8_break_continue (set_loopStacks demo_state [5; 8] [7; 10])
                                                empty_attrs) [7] 10 H))|].
  split; [exact Hx|].
  exact (proj2 (proj2 (proj2 (proj2 (C8_break_continue demo_state empty_attrs))))
               true _ _ _ Hx eq_refl eq_refl).
Defined.

(** C10 at the pattern made in [demo_state] for an [i1] that holds 1: the
    result is the local number 5, the counter goes from 5 to 9, and the
    run ends with 0 or 1 in the result. *)
Lemma C10_witness :
  NoDup (labels_of ([] ++ widen_code (InstValue 1 TypeBool) (fresh_int demo_state)
                                      (after_fresh_int demo_state) ++ []))
  /\ convertBoolToInt (InstValue 1 TypeBool) demo_state empty_attrs
     = Ret (LocalVariable 5 TypeInt "") (set_nextId demo_state 9)
           (mkAttrs nullptr
                    (widen_code (InstValue 1 TypeBool) (LocalVariable 5 TypeInt "") 6)
                    nullptr)
  /\ exists trace m',
       exec demo_call_sem
            ([] ++ widen_code (InstValue 1 TypeBool) (fresh_int demo_state)
                              (after_fresh_int demo_state) ++ [])
            4 (demo_machine 0 1)
       = Some (trace, m')
       /\ (eval m' (fresh_int demo_state) = 0
           \/ eval m' (fresh_int demo_state) = 1)%Z.
Proof.
  assert (Hnd : NoDup (labels_of
                         ([] ++ widen_code (InstValue 1 TypeBool)
                                           (fresh_int demo_state)
                                           (after_fresh_int demo_state) ++ []))).
  { vm_compute. repeat (constructor; [cbn [In]; lia|]). constructor. }
  split; [exact Hnd|].
  destruct (proj1 C10_widened_value_is_zero_or_one
                  (InstValue 1 TypeBool) demo_state empty_attrs)
    as (Hrun & _ & _ & _ & _ & Hexec).
  split; [exact Hrun|].
  destruct (Hexec demo_call_sem [] [] (demo_machine 0 1) Hnd eq_refl)
    as (trace & m' & He & _ & Hr).
  exists trace, m'. split; [exact He | exact Hr].
Defined.

(** Two nested loops: the [break] of the inner loop jumps to the inner
    [L_end] (label 10), the [continue] after it to the outer [L_cond]
    (label 5), and the stacks are empty again at the end. *)
Example scenario_nested_loops :
  exists s',
    lowers demo_nested_loops demo_state
           (mkAttrs nullptr
              [LabelInstruction 5; GotoCond demo_x 6 7; LabelInstruction 6;
               LabelInstruction 8; GotoCond demo_y 9 10; LabelInstruction 9;
               Goto 10;
               Goto 8; LabelInstruction 10;
               Goto 5;
               Goto 5; LabelInstruction 7]
              nullptr) s'
    /\ loopCondStack s' = [] /\ loopEndStack s' = [].
Proof.
  eexists. split; [vm_compute; reflexivity|]. split; reflexivity.
Qed.
(* ------------------------------------------------------------------ *)
(** * The shape of the code of every node *)

Lemma visit_cases :
  forall node s n,
    (exists a s1, lowers node s a s1
                  /\ ir_visit_ast_node node s n = Ret (Some a) s1 n)
    \/ (exists s1, ir_visit_ast_node node s n = Ret None s1 n)
    \/ ir_visit_ast_node node s n = Undef.
Proof.
  intros node s n.
  destruct (ir_visit_ast_node node s empty_attrs) as [[a|] s1 n1| |] eqn:E.
  - left. exists a, s1. split.
    + unfold lowers. exact (visit_frame _ _ _ E empty_attrs).
    + exact (visit_frame _ _ _ E n).
  - right. left. exists s1. exact (visit_frame _ _ _ E n).
  - destruct (visit_never_Err _ _ _ E).
  - right. right.
    destruct (ir_visit_ast_node_visit_with node) as [h Hh].
    rewrite Hh in *. unfold visit_with in *.
    destruct (h s empty_attrs); try discriminate. reflexivity.
Qed.

Ltac gen_red_in H :=
  cbv beta iota zeta delta
      [bind ret fail undef require visit_opt addInsts_opt addInst addInsts setVal
       setArrayAccessAddress new_id new_LabelInstruction new_BinaryInstruction
       getState modifyState getAttrs visit_with option_map newConstInt] in H;
  cbn [nextId scopeStack globals functions currentFunction loopCondStack
       loopEndStack set_nextId set_scopeStack set_globals set_functions
       set_currentFunction set_loopStacks val blockInsts arrayAccessAddress
       empty_attrs asValue newConstInt fst snd app] in H.

(** One child visit in [H]: the cases of its outcome. *)
Ltac step_visit H :=
  gen_red_in H;
  match type of H with
  | context [ir_visit_ast_node ?x ?s ?n] =>
      let a := fresh "a" in
      let s1 := fresh "s" in
      let L := fresh "L" in
      let E := fresh "E" in
      destruct (visit_cases x s n) as [(a & s1 & L & E) | [(s1 & E) | E]];
      rewrite E in H; clear E; gen_red_in H; try discriminate H
  end.

Lemma targets_of_app :
  forall a b, targets_of (a ++ b) = targets_of a ++ targets_of b.
Proof. intros a b. unfold targets_of. apply flat_map_app. Qed.


Lemma fn_same_code_refl : forall f, fn_same_code f f.
Proof. intros f. repeat split. Qed.

Lemma fn_same_code_trans :
  forall f g h, fn_same_code f g -> fn_same_code g h -> fn_same_code f h.
Proof.
  unfold fn_same_code. intros f g h H1 H2.
  destruct H1 as (a1 & a2 & a3 & a4 & a5 & a6).
  destruct H2 as (b1 & b2 & b3 & b4 & b5 & b6).
  repeat split; congruence.
Qed.

Lemma functions_kept_refl : forall s, functions_kept s s.
Proof.
  intros s. split; [reflexivity|]. intros nm.
  destruct (findFunction_in nm (functions s)); [apply fn_same_code_refl | exact I].
Qed.

Lemma functions_kept_trans :
  forall s1 s2 s3, functions_kept s1 s2 -> functions_kept s2 s3 -> functions_kept s1 s3.
Proof.
  intros s1 s2 s3 [C1 F1] [C2 F2]. split; [congruence|]. intros nm.
  specialize (F1 nm). specialize (F2 nm).
  destruct (findFunction_in nm (functions s1)), (findFunction_in nm (functions s2)),
    (findFunction_in nm (functions s3)); try contradiction; try exact I.
  eapply fn_same_code_trans; eassumption.
Qed.

(** A state that differs from [s2] in neither the functions nor the
    current function. *)
Lemma functions_kept_same :
  forall s s2 s3,
    functions_kept s s2 ->
    functions s3 = functions s2 -> currentFunction s3 = currentFunction s2 ->
    functions_kept s s3.
Proof.
  intros s s2 s3 [C F] Hf Hc. split; [congruence|]. intros nm.
  rewrite Hf. apply F.
Qed.

Lemma exit_label_kept :
  forall s s', functions_kept s s' -> exit_label s' = exit_label s.
Proof.
  intros s s' [C F]. unfold exit_label. rewrite C.
  destruct (currentFunction s) as [nm|]; [|reflexivity].
  specialize (F nm).
  destruct (findFunction_in nm (functions s)), (findFunction_in nm (functions s'));
    try contradiction; try reflexivity.
  destruct F as (_ & _ & _ & _ & E & _). exact E.
Qed.

Lemma outer_label_kept :
  forall s s' l,
    loops_balanced s s' -> functions_kept s s' ->
    outer_label s' l -> outer_label s l.
Proof.
  intros s s' l [B1 B2] K. unfold outer_label.
  rewrite B1, B2, (exit_label_kept K). tauto.
Qed.

(** [updCurrentFunction] with an update of the call statistics. *)
Lemma findFunction_in_update :
  forall nm0 upd fs nm,
    (forall f, fn_name (upd f) = fn_name f) ->
    findFunction_in nm (updateFunction_in nm0 upd fs)
    = if String.eqb nm0 nm
      then option_map upd (findFunction_in nm fs)
      else findFunction_in nm fs.
Proof.
  intros nm0 upd fs nm Hn. induction fs as [|f fs IH]; simpl.
  - destruct (String.eqb nm0 nm); reflexivity.
  - destruct (String.eqb (fn_name f) nm0) eqn:E0.
    + apply String.eqb_eq in E0. subst nm0. simpl. rewrite Hn.
      destruct (String.eqb (fn_name f) nm); reflexivity.
    + simpl. destruct (String.eqb (fn_name f) nm) eqn:E1.
      * apply String.eqb_eq in E1. subst nm.
        rewrite String.eqb_sym, E0. reflexivity.
      * exact IH.
Qed.

Lemma functions_kept_update :
  forall s upd,
    (forall f, fn_same_code f (upd f)) ->
    forall s',
      currentFunction s' = currentFunction s ->
      functions s'
      = match currentFunction s with
        | Some name => updateFunction_in name upd (functions s)
        | None => functions s
        end ->
      functions_kept s s'.
Proof.
  intros s upd Hu s' Hc Hf. split; [exact Hc|]. intros nm. rewrite Hf.
  destruct (currentFunction s) as [nm0|].
  - rewrite findFunction_in_update by (intros f; apply (Hu f)).
    destruct (String.eqb nm0 nm);
      destruct (findFunction_in nm (functions s)); simpl;
      try exact I; [apply Hu | apply fn_same_code_refl].
  - destruct (findFunction_in nm (functions s)); [apply fn_same_code_refl | exact I].
Qed.

Lemma NoDup_app_intro :
  forall (l1 l2 : list label),
    NoDup l1 -> NoDup l2 -> (forall x, In x l1 -> In x l2 -> False) ->
    NoDup (l1 ++ l2).
Proof.
  induction l1 as [|a l1 IH]; intros l2 H1 H2 Hd; simpl; [exact H2|].
  inversion H1; subst. constructor.
  - intros Hin. apply in_app_or in Hin. destruct Hin as [Hin|Hin].
    + contradiction.
    + apply (Hd a); [left; reflexivity | exact Hin].
  - apply IH; [assumption | assumption |].
    intros x Hx1 Hx2. apply (Hd x); [right; exact Hx1 | exact Hx2].
Qed.

Ltac norm_state :=
  cbn [nextId scopeStack globals functions currentFunction loopCondStack
       loopEndStack set_nextId set_scopeStack set_globals set_functions
       set_currentFunction set_loopStacks val blockInsts arrayAccessAddress
       empty_attrs] in *.

(** The exit label and the functions do not depend on the counter or on
    the loop stacks. *)
Ltac norm_exit :=
  repeat match goal with
         | H : context [exit_label (set_nextId ?s ?k)] |- _ =>
             change (exit_label (set_nextId s k)) with (exit_label s) in H
         | H : context [exit_label (set_loopStacks ?s ?c ?e)] |- _ =>
             change (exit_label (set_loopStacks s c e)) with (exit_label s) in H
         | H : context [exit_label (set_scopeStack ?s ?c)] |- _ =>
             change (exit_label (set_scopeStack s c)) with (exit_label s) in H
         | H : context [exit_label (set_globals ?s ?c)] |- _ =>
             change (exit_label (set_globals s c)) with (exit_label s) in H
         | H : context [functions_kept (set_nextId ?s ?k) ?t] |- _ =>
             change (functions_kept (set_nextId s k) t) with (functions_kept s t) in H
         | H : context [functions_kept (set_loopStacks ?s ?c ?e) ?t] |- _ =>
             change (functions_kept (set_loopStacks s c e) t)
               with (functions_kept s t) in H
         | H : context [functions_kept (set_scopeStack ?s ?c) ?t] |- _ =>
             change (functions_kept (set_scopeStack s c) t)
               with (functions_kept s t) in H
         | H : context [functions_kept (set_globals ?s ?c) ?t] |- _ =>
             change (functions_kept (set_globals s c) t)
               with (functions_kept s t) in H
         | |- context [exit_label (set_nextId ?s ?k)] =>
             change (exit_label (set_nextId s k)) with (exit_label s)
         | |- context [exit_label (set_loopStacks ?s ?c ?e)] =>
             change (exit_label (set_loopStacks s c e)) with (exit_label s)
         | |- context [exit_label (set_scopeStack ?s ?c)] =>
             change (exit_label (set_scopeStack s c)) with (exit_label s)
         | |- context [exit_label (set_globals ?s ?c)] =>
             change (exit_label (set_globals s c)) with (exit_label s)
         | |- context [functions_kept ?t (set_nextId ?s ?k)] =>
             change (functions_kept t (set_nextId s k)) with (functions_kept t s)
         | |- context [functions_kept ?t (set_loopStacks ?s ?c ?e)] =>
             change (functions_kept t (set_loopStacks s c e))
               with (functions_kept t s)
         | |- context [functions_kept ?t (set_scopeStack ?s ?c)] =>
             change (functions_kept t (set_scopeStack s c))
               with (functions_kept t s)
         | |- context [functions_kept ?t (set_globals ?s ?c)] =>
             change (functions_kept t (set_globals s c))
               with (functions_kept t s)
         end.

(** Membership in a list of labels built from pieces with known ranges. *)
Ltac split_in :=
  repeat match goal with
         | H : In _ (_ ++ _) |- _ => apply in_app_or in H; destruct H as [H|H]
         | H : In _ (_ :: _) |- _ => destruct H as [H|H]
         | H : In _ [] |- _ => destruct H
         end.

Ltac range_in :=
  repeat match goal with
         | H : In ?x ?L, R : forall l, In l ?L -> _ |- _ =>
             pose proof (R x H); clear H
         end.

Ltac solve_range := intros; split_in; range_in; subst; try lia.

Ltac solve_nodup :=
  repeat first
    [ apply NoDup_nil
    | assumption
    | apply NoDup_cons; [intros ?; solve_range |]
    | apply NoDup_app_intro; [| | solve_range] ].

Ltac in_labels :=
  repeat (rewrite in_app_iff || simpl In); tauto.


(** The facts the induction gives for the children lowered so far. *)
Ltac children_facts :=
  repeat match goal with
         | Hc : node_shape ?x, L : lowers ?x ?s ?a ?s1 |- _ =>
             let M := fresh "M" in
             let R := fresh "R" in
             let N := fresh "N" in
             let B := fresh "B" in
             let B' := fresh "B" in
             let K := fresh "K" in
             destruct (Hc _ _ _ _ _ L) as ((M & R & N) & (B & B') & K);
             clear L
         end;
  norm_state; norm_exit.

Ltac body_facts Hbody :=
  simpl in Hbody;
  repeat match goal with
         | H : _ && _ = true |- _ => apply andb_prop in H; destruct H
         end;
  repeat match goal with
         | K : ?c = true -> _, H : ?c = true |- _ =>
             let F := fresh "F" in
             let J := fresh "J" in
             let E := fresh "E" in
             destruct (K H) as [F J]; clear K;
             norm_exit;
             pose proof (exit_label_kept F) as E
         end.

Ltac solve_balanced :=
  unfold loops_balanced; norm_state;
  repeat match goal with
         | H : loopCondStack ?x = _ |- context [loopCondStack ?x] => rewrite H
         | H : loopEndStack ?x = _ |- context [loopEndStack ?x] => rewrite H
         end;
  rewrite ?removelast_last; split; congruence.

(** Code known to hold neither labels nor jumps. *)
Ltac plain_rewrite :=
  repeat match goal with
         | H : labels_of ?c = [] |- context [labels_of ?c] => rewrite H
         | H : targets_of ?c = [], Hl : context [targets_of ?c] |- _ =>
             rewrite H in Hl
         end.

Ltac solve_fresh :=
  unfold labels_fresh, Goto, GotoCond; norm_state;
  cbn [labels_of app]; rewrite ?labels_of_app; cbn [labels_of app];
  plain_rewrite; rewrite ?app_nil_r;
  split; [lia | split; [solve_range | solve_nodup]].

Ltac kept_chain :=
  first [ assumption
        | apply functions_kept_refl
        | eapply functions_kept_trans; [eassumption | kept_chain] ].

Ltac solve_kept := norm_exit; kept_chain.

Ltac solve_outer :=
  unfold outer_label in *; norm_state; norm_exit;
  repeat match goal with
         | H : loopCondStack ?x = _, H2 : In _ (loopCondStack ?x) |- _ =>
             rewrite H in H2
         | H : loopEndStack ?x = _, H2 : In _ (loopEndStack ?x) |- _ =>
             rewrite H in H2
         | H : In _ (_ ++ _) |- _ => apply in_app_or in H; destruct H as [H|H]
         | H : In _ [_] |- _ => destruct H as [H|[]]
         | H : _ \/ _ |- _ => destruct H as [H|H]
         end;
  subst;
  first [ left; in_labels
        | right; left; congruence
        | right; right; left; congruence
        | right; right; right; congruence ].

Ltac solve_jumps :=
  unfold jumps_closed, Goto, GotoCond; norm_state;
  let l := fresh "l" in
  let Hl := fresh "Hl" in
  intros l Hl;
  change (targets_of ?c) with (flat_map targets_of_inst c) in Hl;
  cbn [flat_map targets_of_inst app] in Hl;
  change (flat_map targets_of_inst ?c) with (targets_of c) in Hl;
  rewrite ?targets_of_app in Hl;
  cbn [targets_of flat_map targets_of_inst app] in Hl;
  cbn [labels_of app]; rewrite ?labels_of_app; cbn [labels_of app];
  plain_rewrite;
  split_in;
  try match goal with
      | J : jumps_closed _ ?c, H : In _ (targets_of ?c) |- _ =>
          apply J in H
      end;
  solve_outer.


Lemma functions_kept_eq :
  forall s s',
    functions s' = functions s -> currentFunction s' = currentFunction s ->
    functions_kept s s'.
Proof.
  intros s s' Hf Hc.
  exact (@functions_kept_same s s s' (functions_kept_refl s) Hf Hc).
Qed.

(** [newVarValue] creates at most one numbered object and touches neither
    the loop stacks nor the functions. *)
Lemma newVarValue_cases :
  forall ty name s n,
    exists v s',
      newVarValue ty name s n = Ret v s' n
      /\ (nextId s <= nextId s' <= S (nextId s))%nat
      /\ loopCondStack s' = loopCondStack s
      /\ loopEndStack s' = loopEndStack s
      /\ functions_kept s s'.
Proof.
  intros ty name s n. unfold newVarValue.
  destruct (currentFunction s) eqn:EC; destruct (String.eqb name "");
    do 2 eexists; (split; [reflexivity|]); norm_state;
    (split; [lia|]); (split; [reflexivity|]); (split; [reflexivity|]);
    apply functions_kept_eq; norm_state; congruence.
Qed.

Ltac step_newvar H :=
  gen_red_in H;
  match type of H with
  | context [newVarValue ?ty ?name ?s ?n] =>
      let v := fresh "v" in
      let s1 := fresh "s" in
      let E := fresh "E" in
      let M := fresh "M" in
      let B := fresh "B" in
      let B' := fresh "B" in
      let F := fresh "F" in
      destruct (newVarValue_cases ty name s n) as (v & s1 & E & M & B & B' & F);
      rewrite E in H; clear E; gen_red_in H;
      norm_state; norm_exit;
      pose proof (exit_label_kept F)
  end.

(** A node whose handler emits nothing and visits nothing. *)
Lemma shape_no_code :
  forall s a s',
    blockInsts a = [] -> nextId s' = nextId s ->
    loopCondStack s' = loopCondStack s -> loopEndStack s' = loopEndStack s ->
    functions s' = functions s -> currentFunction s' = currentFunction s ->
    labels_fresh s (blockInsts a) s' /\ loops_balanced s s'
    /\ (functions_kept s s' /\ jumps_closed s (blockInsts a)).
Proof.
  intros s a s' E Hn H1 H2 Hf Hc. rewrite E.
  split; [|split; [|split]].
  - unfold labels_fresh. simpl. split; [lia|]. split; [intros l []|constructor].
  - split; assumption.
  - apply functions_kept_eq; assumption.
  - intros l [].
Qed.

Ltac finish_shape :=
  children_facts;
  split; [solve_fresh | split; [solve_balanced|]];
  let Hbody := fresh "Hbody" in
  intros Hbody; body_facts Hbody;
  split; [solve_kept | solve_jumps].

Lemma shape_leaf_uint : forall v, node_shape (ast_leaf_literal_uint v).
Proof.
  intros v s n0 a s' n0' Hv. simpl in Hv. unfold ir_leaf_node_uint in Hv.
  gen_red_in Hv. inversion Hv; subst; clear Hv. finish_shape.
Qed.

Lemma shape_leaf_var_id : forall name, node_shape (ast_leaf_var_id name).
Proof.
  intros v s n0 a s' n0' Hv. simpl in Hv.
  unfold ir_leaf_node_var_id, findVarValue in Hv.
  gen_red_in Hv. inversion Hv; subst; clear Hv. finish_shape.
Qed.

Lemma shape_default :
  forall n, (forall s n0, ir_visit_ast_node n s n0 = visit_with ir_default s n0) ->
            body_node n = true -> node_shape n.
Proof.
  intros n Hn Hb s n0 a s' n0' Hv. rewrite Hn in Hv. unfold ir_default in Hv.
  gen_red_in Hv. inversion Hv; subst; clear Hv. finish_shape.
Qed.

(** The nine operators lowered by one instruction after the operands. *)
Lemma shape_ir_binary :
  forall op ty a b op0,
    node_shape a -> node_shape b ->
    binary_handler op0 (node_type a) (ir_visit_ast_node a) (ir_visit_ast_node b)
    = (inst <- ir_binary op ty (ir_visit_ast_node a) (ir_visit_ast_node b) ;;
       setVal (asValue inst)) ->
    node_shape (ast_binary op0 a b).
Proof.
  intros op ty a b op0 Ha Hb Heq s n0 at' s' n0' Hv.
  simpl ir_visit_ast_node in Hv. rewrite Heq in Hv. unfold ir_binary in Hv.
  step_visit Hv. step_visit Hv.
  inversion Hv; subst; clear Hv.
  finish_shape.
Qed.

(** [<] and [>]: the comparison and the bool-to-int pattern. *)
Lemma shape_ir_widened :
  forall op a b op0,
    node_shape a -> node_shape b ->
    binary_handler op0 (node_type a) (ir_visit_ast_node a) (ir_visit_ast_node b)
    = (cmpInst <- ir_binary op TypeBool (ir_visit_ast_node a) (ir_visit_ast_node b) ;;
       r <- convertBoolToInt (asValue cmpInst) ;; setVal r) ->
    node_shape (ast_binary op0 a b).
Proof.
  intros op a b op0 Ha Hb Heq s n0 at' s' n0' Hv.
  simpl ir_visit_ast_node in Hv. rewrite Heq in Hv.
  unfold ir_binary, convertBoolToInt in Hv.
  step_visit Hv. step_visit Hv. step_newvar Hv.
  inversion Hv; subst; clear Hv.
  finish_shape.
Qed.

Lemma shape_and_or :
  forall op a b,
    op = AST_OP_AND \/ op = AST_OP_OR ->
    node_shape a -> node_shape b -> node_shape (ast_binary op a b).
Proof.
  intros op a b Hop Ha Hb s n0 at' s' n0' Hv.
  destruct Hop; subst op; simpl ir_visit_ast_node in Hv;
    unfold binary_handler, ir_and, ir_or, convertBoolToInt in Hv;
    step_visit Hv; step_visit Hv; step_newvar Hv;
    inversion Hv; subst; clear Hv;
    finish_shape.
Qed.

Lemma shape_assign :
  forall a b, node_shape a -> node_shape b -> node_shape (ast_binary AST_OP_ASSIGN a b).
Proof.
  intros a b Ha Hb s n0 at' s' n0' Hv.
  simpl ir_visit_ast_node in Hv. unfold binary_handler, ir_assign in Hv.
  step_visit Hv. step_visit Hv.
  destruct (is_array_access (node_type a)); gen_red_in Hv;
    inversion Hv; subst; clear Hv; finish_shape.
Qed.

Lemma shape_not : forall a, node_shape a -> node_shape (ast_unary AST_OP_NOT a).
Proof.
  intros a Ha s n0 at' s' n0' Hv.
  simpl ir_visit_ast_node in Hv. unfold unary_handler, ir_not, convertBoolToInt in Hv.
  step_visit Hv. step_newvar Hv.
  inversion Hv; subst; clear Hv.
  finish_shape.
Qed.

Lemma shape_neg : forall a, node_shape a -> node_shape (ast_unary AST_OP_NEG a).
Proof.
  intros a Ha s n0 at' s' n0' Hv.
  simpl ir_visit_ast_node in Hv. unfold unary_handler, ir_neg in Hv.
  step_visit Hv. unfold getCurrentFunction in Hv. gen_red_in Hv.
  destruct (match currentFunction s0 with
            | Some name => findFunction_in name (functions s0)
            | None => None
            end).
  - destruct (getType (val a0)) as [ty|]; [|discriminate Hv].
    destruct (isInt1Byte ty); gen_red_in Hv.
    + step_newvar Hv. inversion Hv; subst; clear Hv. finish_shape.
    + inversion Hv; subst; clear Hv. finish_shape.
  - destruct (val a0); gen_red_in Hv; try discriminate Hv.
    inversion Hv; subst; clear Hv. finish_shape.
Qed.

Lemma shape_return :
  forall son0, Forall node_shape (opt_node son0) -> node_shape (ast_return son0).
Proof.
  intros son0 Hs s n0 at' s' n0' Hv.
  simpl ir_visit_ast_node in Hv. unfold ir_return, getCurrentFunction in Hv.
  destruct son0 as [x|]; simpl in Hs.
  - inversion Hs as [|? ? Hx _]; subst. step_visit Hv.
    unfold exit_label.
    destruct (currentFunction s0) as [nm|] eqn:EC; [|discriminate Hv].
    destruct (findFunction_in nm (functions s0)) as [f|] eqn:EF; [|discriminate Hv].
    gen_red_in Hv.
    destruct (fn_exitLabel f) as [l0|] eqn:EL; gen_red_in Hv; [|discriminate Hv].
    assert (EX : exit_label s0 = Some l0)
      by (unfold exit_label; rewrite EC, EF; exact EL).
    inversion Hv; subst; clear Hv. finish_shape.
  - gen_red_in Hv.
    destruct (currentFunction s) as [nm|] eqn:EC; [|discriminate Hv].
    destruct (findFunction_in nm (functions s)) as [f|] eqn:EF; [|discriminate Hv].
    gen_red_in Hv.
    destruct (fn_exitLabel f) as [l0|] eqn:EL; gen_red_in Hv; [|discriminate Hv].
    assert (EX : exit_label s = Some l0)
      by (unfold exit_label; rewrite EC, EF; exact EL).
    inversion Hv; subst; clear Hv. finish_shape.
Qed.

Lemma branch_on_cases :
  forall v a b,
    branch_on v a b = Goto a \/ branch_on v a b = Goto b
    \/ branch_on v a b = GotoCond v a b.
Proof.
  intros v a b. unfold branch_on.
  destruct v; auto. destruct (v =? 0)%Z; auto.
Qed.

Ltac case_branch_on :=
  match goal with
  | |- context [branch_on ?v ?a ?b] =>
      let E := fresh "E" in
      destruct (branch_on_cases v a b) as [E|[E|E]]; rewrite E; clear E
  end.

Lemma shape_if :
  forall cond thenNode elseNode,
    Forall node_shape (visited_sons (ast_if cond thenNode elseNode)) ->
    node_shape (ast_if cond thenNode elseNode).
Proof.
  intros cond thenNode elseNode Hs s n0 at' s' n0' Hv.
  simpl in Hs. inversion Hs as [|? ? Hc Hrest]; subst. clear Hs.
  apply Forall_app in Hrest. destruct Hrest as [Ht He].
  simpl ir_visit_ast_node in Hv. unfold ir_if in Hv.
  step_visit Hv.
  destruct thenNode as [t|]; simpl in Ht;
    [inversion Ht as [|? ? Ht' _]; subst; step_visit Hv | gen_red_in Hv];
    (destruct elseNode as [[e|]|]; simpl in He;
     [inversion He as [|? ? He' _]; subst; step_visit Hv | gen_red_in Hv ..]);
    inversion Hv; subst; clear Hv; case_branch_on; finish_shape.
Qed.

Lemma shape_while :
  forall cond body,
    Forall node_shape (visited_sons (ast_while cond body)) ->
    node_shape (ast_while cond body).
Proof.
  intros cond body Hs s n0 at' s' n0' Hv.
  simpl in Hs. inversion Hs as [|? ? Hc Hb]; subst. clear Hs.
  simpl ir_visit_ast_node in Hv. unfold ir_while in Hv.
  step_visit Hv.
  destruct body as [t|]; simpl in Hb;
    [inversion Hb as [|? ? Hb' _]; subst; step_visit Hv | gen_red_in Hv];
    inversion Hv; subst; clear Hv; case_branch_on; finish_shape.
Qed.

Lemma last_In : forall (l : list label) d, l <> [] -> In (last l d) l.
Proof.
  induction l as [|x l IH]; intros d H; [congruence|].
  destruct l as [|y l]; [left; reflexivity|].
  right. apply IH. discriminate.
Qed.

Lemma shape_break : node_shape ast_break.
Proof.
  intros s n0 at' s' n0' Hv. simpl in Hv. unfold ir_break in Hv. gen_red_in Hv.
  destruct (loopEndStack s) as [|x st] eqn:E; gen_red_in Hv; [discriminate Hv|].
  assert (Hin : In (last (x :: st) 0%nat) (loopEndStack s))
    by (rewrite E; apply last_In; discriminate).
  inversion Hv; subst; clear Hv.
  split; [solve_fresh | split; [solve_balanced|]].
  intros _. split; [solve_kept|].
  intros l [Hl|[]]. subst l. right. right. left. exact Hin.
Qed.

Lemma shape_continue : node_shape ast_continue.
Proof.
  intros s n0 at' s' n0' Hv. simpl in Hv. unfold ir_continue in Hv. gen_red_in Hv.
  destruct (loopCondStack s) as [|x st] eqn:E; gen_red_in Hv; [discriminate Hv|].
  assert (Hin : In (last (x :: st) 0%nat) (loopCondStack s))
    by (rewrite E; apply last_In; discriminate).
  inversion Hv; subst; clear Hv.
  split; [solve_fresh | split; [solve_balanced|]].
  intros _. split; [solve_kept|].
  intros l [Hl|[]]. subst l. right. left. exact Hin.
Qed.

(** Children lowered one after the other: their codes in a row. *)
Lemma lowers_list_shape :
  forall sons s ias s',
    Forall node_shape sons ->
    lowers_list sons s ias s' ->
    labels_fresh s (List.concat (map blockInsts ias)) s'
    /\ loops_balanced s s'
    /\ (forallb body_node sons = true ->
        functions_kept s s'
        /\ jumps_closed s (List.concat (map blockInsts ias))).
Proof.
  intros sons s ias s' Hs Hl. induction Hl as [s|x xs s a s1 rest s2 Hx Hrest IH].
  - cbn [List.concat map].
    split; [solve_fresh | split; [solve_balanced|]].
    intros _. split; [solve_kept | intros l Hl; simpl in Hl; destruct Hl].
  - inversion Hs as [|? ? Px Pxs]; subst.
    destruct (IH Pxs) as ((M' & R' & N') & (B1' & B2') & K'). clear IH.
    cbn [List.concat map]. children_facts.
    split; [solve_fresh | split; [solve_balanced|]].
    intros Hbody. simpl in Hbody. apply andb_prop in Hbody.
    destruct Hbody as [Hb1 Hb2].
    destruct (K' Hb2) as [F' J']. pose proof (exit_label_kept F').
    body_facts Hb1.
    split; [solve_kept | solve_jumps].
Qed.

(** ** The loops over lists of children *)

Lemma attrs_app_nil :
  forall n, mkAttrs (val n) (blockInsts n ++ []) (arrayAccessAddress n) = n.
Proof. intros [v c a]. simpl. rewrite app_nil_r. reflexivity. Qed.

Lemma ir_block_sons_inv :
  forall sons s n s' n',
    ir_block_sons (map ir_visit_ast_node sons) s n = Ret tt s' n' ->
    exists ias,
      lowers_list sons s ias s'
      /\ n' = mkAttrs (val n) (blockInsts n ++ List.concat (map blockInsts ias))
                      (arrayAccessAddress n).
Proof.
  induction sons as [|x xs IH]; intros s n s' n' H; simpl in H.
  - gen_red_in H. inversion H; subst. exists []. split; [constructor|].
    simpl. rewrite attrs_app_nil. reflexivity.
  - step_visit H. apply IH in H. destruct H as (ias & Hl & ->).
    exists (a :: ias). split; [econstructor; eassumption|].
    simpl. rewrite app_assoc. reflexivity.
Qed.

Lemma ir_declare_statment_inv :
  forall sons s n s' n',
    ir_declare_statment (map ir_visit_ast_node sons) s n = Ret tt s' n' ->
    exists ias,
      lowers_list sons s ias s'
      /\ n' = mkAttrs (val n) (blockInsts n ++ List.concat (map blockInsts ias))
                      (arrayAccessAddress n).
Proof.
  induction sons as [|x xs IH]; intros s n s' n' H; simpl in H.
  - gen_red_in H. inversion H; subst. exists []. split; [constructor|].
    simpl. rewrite attrs_app_nil. reflexivity.
  - step_visit H. apply IH in H. destruct H as (ias & Hl & ->).
    exists (a :: ias). split; [econstructor; eassumption|].
    simpl. rewrite app_assoc. reflexivity.
Qed.

Lemma ir_compile_unit_sons_inv :
  forall sons s n s' n',
    ir_compile_unit_sons (map ir_visit_ast_node sons) s n = Ret tt s' n' ->
    n' = n /\ exists ias, lowers_list sons s ias s'.
Proof.
  induction sons as [|x xs IH]; intros s n s' n' H; simpl in H.
  - gen_red_in H. inversion H; subst. split; [reflexivity|].
    exists []. constructor.
  - step_visit H. apply IH in H. destruct H as (-> & ias & Hl).
    split; [reflexivity|]. exists (a :: ias). econstructor; eassumption.
Qed.

Lemma ir_get_array_dimensions_sons_inv :
  forall sons s n dv dc r s' n',
    ir_get_array_dimensions_sons (map ir_visit_ast_node sons) dv dc s n
    = Ret r s' n' ->
    exists ias,
      lowers_list sons s ias s'
      /\ r = (dv ++ map val ias, dc ++ map dim_constant ias)
      /\ n' = mkAttrs (val n) (blockInsts n ++ List.concat (map blockInsts ias))
                      (arrayAccessAddress n).
Proof.
  induction sons as [|x xs IH]; intros s n dv dc r s' n' H; simpl in H.
  - gen_red_in H. inversion H; subst. exists []. split; [constructor|].
    simpl. rewrite !app_nil_r. split; [reflexivity | destruct n'; reflexivity].
  - step_visit H. apply IH in H. destruct H as (ias & Hl & -> & ->).
    exists (a :: ias). split; [econstructor; eassumption|].
    simpl. rewrite <- !app_assoc. split; reflexivity.
Qed.

Lemma formal_param_dims_inv :
  forall sons s n ds r s' n',
    formal_param_dims (map ir_visit_ast_node sons) ds s n = Ret r s' n' ->
    exists ias,
      lowers_list sons s ias s'
      /\ r = ds ++ map dim_constant ias
      /\ n' = n.
Proof.
  induction sons as [|x xs IH]; intros s n ds r s' n' H; simpl in H.
  - gen_red_in H. inversion H; subst. exists []. split; [constructor|].
    simpl. rewrite app_nil_r. split; reflexivity.
  - step_visit H. apply IH in H. destruct H as (ias & Hl & -> & ->).
    exists (a :: ias). split; [econstructor; eassumption|].
    simpl. rewrite <- app_assoc. split; reflexivity.
Qed.

Lemma ir_function_call_args_inv :
  forall sons s n rp r s' n',
    ir_function_call_args
      (map (fun son => (node_type son, ir_visit_ast_node son)) sons) rp s n
    = Ret r s' n' ->
    exists ias,
      lowers_list sons s ias s'
      /\ r = rp ++ map val ias
      /\ n' = mkAttrs (val n) (blockInsts n ++ List.concat (map blockInsts ias))
                      (arrayAccessAddress n).
Proof.
  induction sons as [|x xs IH]; intros s n rp r s' n' H; simpl in H.
  - gen_red_in H. inversion H; subst. exists []. split; [constructor|].
    simpl. rewrite !app_nil_r. split; [reflexivity | destruct n'; reflexivity].
  - step_visit H.
    destruct (is_leaf_var_id (node_type x));
      [destruct (getType (val a)); gen_red_in H; [|discriminate H]
      | gen_red_in H];
      (apply IH in H; destruct H as (ias & Hl & -> & ->);
       exists (a :: ias); split; [econstructor; eassumption|];
       simpl; rewrite <- !app_assoc; split; reflexivity).
Qed.

(** The facts about the children of a loop, in the form of those of one
    child. *)
Ltac list_facts :=
  repeat match goal with
         | Hc : Forall node_shape ?xs, L : lowers_list ?xs ?s ?ias ?s1 |- _ =>
             let M := fresh "M" in
             let R := fresh "R" in
             let N := fresh "N" in
             let B := fresh "B" in
             let B' := fresh "B" in
             let K := fresh "K" in
             destruct (lowers_list_shape Hc L) as ((M & R & N) & (B & B') & K);
             clear L
         end;
  norm_state; norm_exit.

Ltac finish_shape_list := list_facts; finish_shape.

Lemma shape_block :
  forall needScope sons,
    Forall node_shape sons -> node_shape (ast_block needScope sons).
Proof.
  intros needScope sons Hs s n0 at' s' n0' Hv.
  simpl ir_visit_ast_node in Hv. unfold ir_block, enterScope, leaveScope in Hv.
  destruct needScope; gen_red_in Hv.
  - destruct (ir_block_sons (map ir_visit_ast_node sons)
                (set_scopeStack s ([] :: scopeStack s)) empty_attrs)
      as [[] s1 n1| |] eqn:E; gen_red_in Hv; try discriminate Hv.
    apply ir_block_sons_inv in E. destruct E as (ias & Hl & ->).
    inversion Hv; subst; clear Hv. finish_shape_list.
  - destruct (ir_block_sons (map ir_visit_ast_node sons) s empty_attrs)
      as [[] s1 n1| |] eqn:E; gen_red_in Hv; try discriminate Hv.
    apply ir_block_sons_inv in E. destruct E as (ias & Hl & ->).
    inversion Hv; subst; clear Hv. finish_shape_list.
Qed.

Lemma shape_decl_stmt :
  forall sons, Forall node_shape sons -> node_shape (ast_decl_stmt sons).
Proof.
  intros sons Hs s n0 at' s' n0' Hv.
  simpl ir_visit_ast_node in Hv. gen_red_in Hv.
  destruct (ir_declare_statment (map ir_visit_ast_node sons) s empty_attrs)
    as [[] s1 n1| |] eqn:E; gen_red_in Hv; try discriminate Hv.
  apply ir_declare_statment_inv in E. destruct E as (ias & Hl & ->).
  inversion Hv; subst; clear Hv. finish_shape_list.
Qed.

(** [updCurrentFunction] with an update that keeps the code. *)
Lemma updCurrentFunction_cases :
  forall upd s n,
    exists s',
      updCurrentFunction upd s n = Ret tt s' n
      /\ nextId s' = nextId s
      /\ loopCondStack s' = loopCondStack s
      /\ loopEndStack s' = loopEndStack s
      /\ currentFunction s' = currentFunction s
      /\ ((forall f, fn_same_code f (upd f)) -> functions_kept s s')
      /\ (forall f, cur_fn s = Some f ->
                    (forall g, fn_name (upd g) = fn_name g) ->
                    cur_fn s' = Some (upd f)).
Proof.
  intros upd s n. unfold updCurrentFunction, modifyState, cur_fn.
  destruct (currentFunction s) as [nm|] eqn:EC.
  - eexists. split; [reflexivity|]. norm_state.
    split; [reflexivity|]. split; [reflexivity|]. split; [reflexivity|].
    split; [exact EC|]. split.
    + intros Hu.
      apply (@functions_kept_update s upd Hu); norm_state;
        [reflexivity | rewrite EC; reflexivity].
    + intros f H Hn. rewrite EC.
      rewrite (findFunction_in_update nm upd (functions s) nm Hn).
      rewrite String.eqb_refl, H. reflexivity.
  - exists s. split; [reflexivity|].
    split; [reflexivity|]. split; [reflexivity|]. split; [reflexivity|].
    split; [exact EC|]. split.
    + intros _. apply functions_kept_refl.
    + intros f H. discriminate H.
Qed.

Ltac step_upd H :=
  gen_red_in H;
  match type of H with
  | context [updCurrentFunction ?upd ?s ?n] =>
      let s1 := fresh "s" in
      let E := fresh "E" in
      let M := fresh "M" in
      let B := fresh "B" in
      let B' := fresh "B" in
      let C := fresh "C" in
      let F := fresh "F" in
      let T := fresh "T" in
      destruct (updCurrentFunction_cases upd s n)
        as (s1 & E & M & B & B' & C & F & T);
      rewrite E in H; clear E; gen_red_in H; norm_state
  end.

Lemma fn_setExistFuncCall_same : forall b f, fn_same_code f (fn_setExistFuncCall b f).
Proof. intros b f. repeat split. Qed.

Lemma fn_setMaxFuncCallArgCnt_same :
  forall c f, fn_same_code f (fn_setMaxFuncCallArgCnt c f).
Proof. intros c f. repeat split. Qed.

Lemma shape_func_call :
  forall name realParams,
    Forall node_shape realParams -> node_shape (ast_func_call name realParams).
Proof.
  intros name realParams Hs s n0 at' s' n0' Hv.
  simpl ir_visit_ast_node in Hv.
  unfold ir_function_call, getCurrentFunction, findFunction in Hv.
  gen_red_in Hv.
  destruct (findFunction_in name (functions s)) as [callee|]; [|discriminate Hv].
  destruct (match currentFunction s with
            | Some name0 => findFunction_in name0 (functions s)
            | None => None
            end) as [cur|]; [|discriminate Hv].
  step_upd Hv. specialize (F (fn_setExistFuncCall_same true)).
  pose proof (exit_label_kept F).
  destruct realParams as [|p ps]; cbn [map] in Hv; gen_red_in Hv.
  - match type of Hv with
    | context [if ?c then _ else _] => destruct c; gen_red_in Hv; [discriminate Hv|]
    end.
    inversion Hv; subst; clear Hv. finish_shape.
  - change ((node_type p, ir_visit_ast_node p)
            :: map (fun son => (node_type son, ir_visit_ast_node son)) ps)
      with (map (fun son => (node_type son, ir_visit_ast_node son)) (p :: ps)) in Hv.
    remember (p :: ps) as sons eqn:Esons. clear Esons p ps.
    match type of Hv with
    | context [if ?c then updCurrentFunction _ else _] => destruct c
    end.
    + step_upd Hv.
      match goal with
      | F' : (forall f, fn_same_code f (fn_setMaxFuncCallArgCnt _ f)) -> _ |- _ =>
          specialize (F' (fn_setMaxFuncCallArgCnt_same _));
          pose proof (exit_label_kept F')
      end.
      match type of Hv with
      | context [ir_function_call_args ?l ?rp ?st ?nt] =>
          destruct (ir_function_call_args l rp st nt) as [r s3 n3| |] eqn:E;
            gen_red_in Hv; try discriminate Hv
      end.
      apply ir_function_call_args_inv in E. destruct E as (ias & Hl & -> & ->).
      match type of Hv with
      | context [if ?c then _ else _] => destruct c; gen_red_in Hv; [discriminate Hv|]
      end.
      inversion Hv; subst; clear Hv. finish_shape_list.
    + gen_red_in Hv.
      match type of Hv with
      | context [ir_function_call_args ?l ?rp ?st ?nt] =>
          destruct (ir_function_call_args l rp st nt) as [r s3 n3| |] eqn:E;
            gen_red_in Hv; try discriminate Hv
      end.
      apply ir_function_call_args_inv in E. destruct E as (ias & Hl & -> & ->).
      match type of Hv with
      | context [if ?c then _ else _] => destruct c; gen_red_in Hv; [discriminate Hv|]
      end.
      inversion Hv; subst; clear Hv. finish_shape_list.
Qed.

(** ** Array accesses and declarations *)

Lemma binary_plain :
  forall c, forallb is_binary c = true -> labels_of c = [] /\ targets_of c = [].
Proof.
  induction c as [|i c IH]; intros H; [split; reflexivity|].
  simpl in H. apply andb_prop in H. destruct H as [Hi Hc].
  destruct (IH Hc) as [E1 E2].
  destruct i; try discriminate Hi. simpl. rewrite E1.
  split; [reflexivity|]. unfold targets_of in *. simpl. exact E2.
Qed.

Lemma set_nextId_same : forall s, set_nextId s (nextId s) = s.
Proof. intros []. reflexivity. Qed.


Lemma counter_moved_refl : forall s, counter_moved s s.
Proof. intros s. exists (nextId s). rewrite set_nextId_same. split; [reflexivity|lia]. Qed.

Lemma counter_moved_step :
  forall s s' k, counter_moved s s' -> (nextId s' <= k)%nat ->
                 counter_moved s (set_nextId s' k).
Proof.
  intros s s' k (j & -> & Hj) Hk. exists k. norm_state. split; [reflexivity|lia].
Qed.

Lemma counter_moved_trans :
  forall s s1 s2, counter_moved s s1 -> counter_moved s1 s2 -> counter_moved s s2.
Proof.
  intros s s1 s2 H (k & -> & Hk). apply counter_moved_step; assumption.
Qed.

Lemma offset_loop_shape :
  forall k i indices dims off s n v s' n',
    ir_calculate_array_offset_loop k i indices dims off s n = Ret v s' n' ->
    exists arith,
      n' = mkAttrs (val n) (blockInsts n ++ arith) (arrayAccessAddress n)
      /\ forallb is_binary arith = true
      /\ counter_moved s s'.
Proof.
  induction k as [|k IH]; intros i indices dims off s n v s' n' H; simpl in H.
  - gen_red_in H. inversion H; subst. exists []. rewrite attrs_app_nil.
    split; [reflexivity|]. split; [reflexivity|]. apply counter_moved_refl.
  - destruct (nth_error dims i) as [d|]; [|discriminate H].
    destruct (nth_error indices i) as [idx|]; [|discriminate H].
    gen_red_in H. apply IH in H. destruct H as (arith & -> & Hb & Hc).
    eexists (_ :: _ :: arith). norm_state.
    split; [rewrite <- !app_assoc; reflexivity|].
    split; [exact Hb|].
    eapply counter_moved_trans; [|exact Hc].
    apply counter_moved_step; [|norm_state; lia].
    apply counter_moved_step; [apply counter_moved_refl | lia].
Qed.

Lemma ir_calculate_array_offset_shape :
  forall indices dims k isFull rem s n v s' n',
    ir_calculate_array_offset indices dims k isFull rem s n = Ret v s' n' ->
    exists arith,
      n' = mkAttrs (val n) (blockInsts n ++ arith) (arrayAccessAddress n)
      /\ forallb is_binary arith = true
      /\ counter_moved s s'.
Proof.
  intros indices dims k isFull rem s n v s' n' H.
  unfold ir_calculate_array_offset in H.
  destruct k as [|k].
  - gen_red_in H. inversion H; subst. exists []. rewrite attrs_app_nil.
    split; [reflexivity|]. split; [reflexivity|]. apply counter_moved_refl.
  - destruct (nth_error indices 0) as [idx0|]; [|discriminate H].
    gen_red_in H.
    match type of H with
    | context [ir_calculate_array_offset_loop ?a ?b ?c ?d ?e ?st ?nt] =>
        destruct (ir_calculate_array_offset_loop a b c d e st nt)
          as [r s1 n1| |] eqn:E; gen_red_in H; try discriminate H
    end.
    apply offset_loop_shape in E. destruct E as (arith & -> & Hb & Hc).
    destruct (negb isFull); [destruct (1 <? remainingSize rem)%Z|];
      gen_red_in H; inversion H; subst; clear H.
    + eexists (arith ++ [_]). norm_state.
      split; [rewrite <- app_assoc; reflexivity|].
      split; [rewrite forallb_app, Hb; reflexivity|].
      apply counter_moved_step; [exact Hc | lia].
    + exists arith. split; [reflexivity|]. split; assumption.
    + exists arith. split; [reflexivity|]. split; assumption.
Qed.

Lemma shape_array_access :
  forall arrayName dims,
    node_shape arrayName -> Forall node_shape dims ->
    node_shape (ast_array_access arrayName dims).
Proof.
  intros arrayName dims Ha Hd s n0 at' s' n0' Hv.
  simpl ir_visit_ast_node in Hv.
  unfold ir_array_access, ir_get_array_dimensions in Hv.
  step_visit Hv.
  match type of Hv with
  | context [ir_get_array_dimensions_sons ?l ?dv ?dc ?st ?nt] =>
      destruct (ir_get_array_dimensions_sons l dv dc st nt)
        as [r s3 n3| |] eqn:E; gen_red_in Hv; try discriminate Hv
  end.
  apply ir_get_array_dimensions_sons_inv in E. destruct E as (ias & Hl & -> & ->).
  gen_red_in Hv.
  destruct (getType (val a)) as [[| | | |elem fullDims]|]; try discriminate Hv.
  gen_red_in Hv.
  match type of Hv with
  | context [ir_calculate_array_offset ?a1 ?a2 ?a3 ?a4 ?a5 ?st ?nt] =>
      destruct (ir_calculate_array_offset a1 a2 a3 a4 a5 st nt)
        as [off s4 n4| |] eqn:E; gen_red_in Hv; try discriminate Hv
  end.
  apply ir_calculate_array_offset_shape in E.
  destruct E as (arith & -> & Hb & (k & -> & Hk)).
  destruct (binary_plain _ Hb) as [PL PT].
  unfold ir_generate_array_access_instructions in Hv.
  destruct off; gen_red_in Hv; try discriminate Hv;
    (destruct (List.length (map val ias) =? List.length fullDims)%nat;
     gen_red_in Hv; inversion Hv; subst; clear Hv; finish_shape_list).
Qed.

Lemma shape_var_decl :
  forall ty def,
    Forall node_shape (visited_sons (ast_var_decl ty def)) ->
    node_shape (ast_var_decl ty def).
Proof.
  intros ty def Hs s n0 at' s' n0' Hv.
  simpl ir_visit_ast_node in Hv. unfold ir_variable_declare in Hv.
  destruct def; gen_red_in Hv; try discriminate Hv.
  - (* a scalar *)
    unfold ir_simple_var_def, getCurrentFunction in Hv. gen_red_in Hv.
    step_newvar Hv.
    destruct init as [x|]; simpl in Hs; gen_red_in Hv.
    + inversion Hs as [|? ? Hx _]; subst. step_visit Hv.
      destruct (match currentFunction s with
                | Some name0 => findFunction_in name0 (functions s)
                | None => None
                end); gen_red_in Hv.
      * inversion Hv; subst; clear Hv. finish_shape.
      * unfold setGlobalInitializer in Hv.
        destruct v; gen_red_in Hv; try discriminate Hv.
        inversion Hv; subst; clear Hv. finish_shape.
    + inversion Hv; subst; clear Hv. finish_shape.
  - (* an array *)
    unfold ir_array_var_def, ir_get_array_dimensions in Hv. simpl in Hs.
    gen_red_in Hv.
    match type of Hv with
    | context [ir_get_array_dimensions_sons ?l ?dv ?dc ?st ?nt] =>
        destruct (ir_get_array_dimensions_sons l dv dc st nt)
          as [r s3 n3| |] eqn:E; gen_red_in Hv; try discriminate Hv
    end.
    apply ir_get_array_dimensions_sons_inv in E. destruct E as (ias & Hl & -> & ->).
    step_newvar Hv.
    destruct v; gen_red_in Hv; try discriminate Hv;
      inversion Hv; subst; clear Hv; finish_shape_list.
Qed.

Lemma shape_compile_unit :
  forall sons, Forall node_shape sons -> node_shape (ast_compile_unit sons).
Proof.
  intros sons Hs s n0 at' s' n0' Hv.
  simpl ir_visit_ast_node in Hv. unfold ir_compile_unit, setCurrentFunction in Hv.
  gen_red_in Hv.
  match type of Hv with
  | context [ir_compile_unit_sons ?l ?st ?nt] =>
      destruct (ir_compile_unit_sons l st nt) as [[] s3 n3| |] eqn:E;
        gen_red_in Hv; try discriminate Hv
  end.
  apply ir_compile_unit_sons_inv in E. destruct E as (-> & ias & Hl).
  inversion Hv; subst; clear Hv.
  list_facts.
  split; [solve_fresh | split; [solve_balanced|]].
  intros Hbody. discriminate Hbody.
Qed.

(** ** Function definitions *)

Lemma exit_label_cur_fn :
  forall s, exit_label s = match cur_fn s with Some f => fn_exitLabel f | None => None end.
Proof.
  intros s. unfold exit_label, cur_fn.
  destruct (currentFunction s); reflexivity.
Qed.

Lemma functions_kept_cur_fn :
  forall s s' f,
    functions_kept s s' -> cur_fn s = Some f ->
    exists f', cur_fn s' = Some f' /\ fn_same_code f f'.
Proof.
  intros s s' f [C F] H. unfold cur_fn in *. rewrite C.
  destruct (currentFunction s) as [nm|]; [|discriminate H].
  specialize (F nm). rewrite H in F.
  destruct (findFunction_in nm (functions s')) as [f'|]; [|contradiction].
  exists f'. split; [reflexivity | exact F].
Qed.

Lemma fn_same_code_body : forall f f', fn_same_code f f' -> fn_same_body f f'.
Proof.
  intros f f' (a1 & a2 & a3 & a4 & a5 & a6). repeat split; assumption.
Qed.

Lemma fn_same_body_trans :
  forall f g h, fn_same_body f g -> fn_same_body g h -> fn_same_body f h.
Proof.
  intros f g h (a1 & a2 & a3) (b1 & b2 & b3). repeat split; congruence.
Qed.

Lemma formal_params_first_shape :
  forall params s n s' n',
    Forall node_shape (flat_map formal_param_dim_nodes params) ->
    formal_params_first (map formal_param_view_of params) s n = Ret tt s' n' ->
    n' = n
    /\ (nextId s <= nextId s')%nat
    /\ loops_balanced s s'
    /\ (forallb body_node (flat_map formal_param_dim_nodes params) = true ->
        currentFunction s' = currentFunction s
        /\ forall f, cur_fn s = Some f ->
                     exists f', cur_fn s' = Some f' /\ fn_same_body f f').
Proof.
  induction params as [|p ps IH]; intros s n s' n' Hs H.
  - simpl in H. gen_red_in H. inversion H; subst.
    split; [reflexivity|]. split; [lia|]. split; [split; reflexivity|].
    intros _. split; [reflexivity|]. intros f Hf. exists f.
    split; [exact Hf | repeat split].
  - simpl in Hs. apply Forall_app in Hs. destruct Hs as [Hp Hps].
    destruct p;
      cbn [map formal_param_view_of formal_params_first option_map] in H;
      gen_red_in H; try discriminate H.
    destruct dims as [dl|]; simpl in Hp;
      cbn [map formal_param_view_of formal_params_first option_map] in H;
      gen_red_in H.
    + match type of H with
      | context [formal_param_dims ?l ?ds ?st ?nt] =>
          destruct (formal_param_dims l ds st nt) as [r s1 n1| |] eqn:E;
            gen_red_in H; try discriminate H
      end.
      apply formal_param_dims_inv in E. destruct E as (ias & Hl & -> & ->).
      step_upd H.
      apply (IH _ _ _ _ Hps) in H. destruct H as (-> & Hm & [Hb1 Hb2] & Hk).
      destruct (lowers_list_shape Hp Hl) as ((M' & _ & _) & (B1 & B2) & K).
      norm_state.
      split; [reflexivity|]. split; [lia|]. split; [split; congruence|].
      intros Hbody. simpl in Hbody. rewrite forallb_app in Hbody.
      apply andb_prop in Hbody. destruct Hbody as [Hbd Hbps].
      destruct (K Hbd) as [Fk _]. destruct (Hk Hbps) as [Hc Htr].
      split; [destruct Fk as [Fc _]; norm_state; congruence|].
      intros f Hf.
      destruct (functions_kept_cur_fn Fk Hf) as (f1 & Hf1 & S1).
      assert (Hf2 : cur_fn s0 = Some (fn_addParam (FormalParam (nextId s1) (ArrayType type (0%Z :: map dim_constant ias)) name) f1)).
      { apply T; [exact Hf1 | intros g; reflexivity]. }
      destruct (Htr _ Hf2) as (f' & Hf' & S').
      exists f'. split; [exact Hf'|].
      eapply fn_same_body_trans; [apply fn_same_code_body; exact S1|].
      eapply fn_same_body_trans; [|exact S']. repeat split.
    + step_upd H.
      apply (IH _ _ _ _ Hps) in H. destruct H as (-> & Hm & [Hb1 Hb2] & Hk).
      norm_state.
      split; [reflexivity|]. split; [lia|]. split; [split; congruence|].
      intros Hbody. simpl in Hbody.
      destruct (Hk Hbody) as [Hc Htr].
      split; [congruence|].
      intros f Hf.
      assert (Hf2 : cur_fn s0 = Some (fn_addParam (FormalParam (nextId s) type name) f)).
      { apply T; [exact Hf | intros g; reflexivity]. }
      destruct (Htr _ Hf2) as (f' & Hf' & S').
      exists f'. split; [exact Hf'|].
      eapply fn_same_body_trans; [|exact S']. repeat split.
Qed.

Lemma formal_params_second_shape :
  forall sons i s n s' n',
    formal_params_second sons i s n = Ret tt s' n' ->
    n' = n
    /\ (nextId s <= nextId s')%nat
    /\ loops_balanced s s'
    /\ currentFunction s' = currentFunction s
    /\ forall f, cur_fn s = Some f ->
         exists f' moves,
           cur_fn s' = Some f'
           /\ fn_name f' = fn_name f
           /\ fn_exitLabel f' = fn_exitLabel f
           /\ fn_interCode f' = fn_interCode f ++ moves
           /\ forallb is_move moves = true.
Proof.
  induction sons as [|p ps IH]; intros i s n s' n' H.
  - simpl in H. gen_red_in H. inversion H; subst.
    split; [reflexivity|]. split; [lia|]. split; [split; reflexivity|].
    split; [reflexivity|]. intros f Hf. exists f, [].
    rewrite app_nil_r. repeat split. exact Hf.
  - cbn [formal_params_second] in H. unfold getCurrentFunction in H.
    gen_red_in H. fold (cur_fn s) in H.
    destruct (cur_fn s) as [f0|] eqn:Ef; [|discriminate H].
    destruct p as [[[ty pname] dn]|]; [|discriminate H].
    destruct (nth_error (fn_params f0) i) as [fp|]; [|discriminate H].
    destruct (getType fp) as [ty'|]; [|discriminate H].
    step_newvar H. step_upd H.
    apply IH in H. destruct H as (-> & Hm & [Hb1 Hb2] & Hc & Htr).
    match goal with
    | Fk : functions_kept s _ |- _ =>
        destruct (functions_kept_cur_fn Fk Ef) as (f1 & Hf1 & S1);
          pose proof Fk as [Fc _]
    end.
    split; [reflexivity|]. split; [lia|]. split; [split; congruence|].
    split; [congruence|].
    intros f Hf. inversion Hf; subst f0. clear Hf.
    assert (Hf2 : cur_fn s1 = Some (fn_addInsts [MoveInstruction v fp] f1))
      by (apply T; [exact Hf1 | intros g; reflexivity]).
    destruct (Htr _ Hf2) as (f' & moves & Hf' & N' & X' & I' & M').
    destruct S1 as (a1 & a2 & a3 & a4 & a5 & a6).
    exists f', (MoveInstruction v fp :: moves).
    split; [exact Hf'|]. simpl in N', X', I'.
    split; [congruence|]. split; [congruence|].
    split; [rewrite I', a4, <- app_assoc; reflexivity|].
    simpl. exact M'.
Qed.

Lemma findFunction_in_app_new :
  forall name fs f,
    findFunction_in name fs = None -> fn_name f = name ->
    findFunction_in name (fs ++ [f]) = Some f.
Proof.
  intros name fs f H Hn. induction fs as [|g fs IH]; simpl in *.
  - rewrite Hn, String.eqb_refl. reflexivity.
  - destruct (String.eqb (fn_name g) name); [discriminate H | exact (IH H)].
Qed.

Lemma is_move_plain :
  forall c, forallb is_move c = true -> labels_of c = [] /\ targets_of c = [].
Proof.
  induction c as [|i c IH]; intros H; [split; reflexivity|].
  simpl in H. apply andb_prop in H. destruct H as [Hi Hc].
  destruct (IH Hc) as [E1 E2].
  destruct i; try discriminate Hi. simpl. rewrite E1.
  split; [reflexivity|]. unfold targets_of in *. simpl. exact E2.
Qed.

Ltac step_upd_as H s1 M B B' C F T :=
  gen_red_in H;
  match type of H with
  | context [updCurrentFunction ?upd ?s ?n] =>
      let E := fresh "E" in
      destruct (updCurrentFunction_cases upd s n)
        as (s1 & E & M & B & B' & C & F & T);
      rewrite E in H; clear E; gen_red_in H; norm_state
  end.

Ltac step_newvar_as H v s1 M B B' F :=
  gen_red_in H;
  match type of H with
  | context [newVarValue ?ty ?name ?s ?n] =>
      let E := fresh "E" in
      destruct (newVarValue_cases ty name s n) as (v & s1 & E & M & B & B' & F);
      rewrite E in H; clear E; gen_red_in H;
      norm_state; norm_exit
  end.

(** [ir_function_define], when it succeeds: the code it leaves in the new
    function, and the node's own buffer. *)
Lemma ir_function_define_shape :
  forall retType name params block s a s',
    Forall node_shape (visited_sons (ast_func_def retType name params block)) ->
    lowers (ast_func_def retType name params block) s a s' ->
    labels_fresh s (blockInsts a) s'
    /\ loops_balanced s s'
    /\ (forall l, In l (labels_of (blockInsts a)) -> (nextId s < l)%nat)
    /\ findFunction_in name (functions s) = None
    /\ currentFunction s' = None
    /\ (forallb body_node (visited_sons (ast_func_def retType name params block))
        = true ->
        exists f moves rv,
          findFunction_in name (functions s') = Some f
          /\ fn_exitLabel f = Some (nextId s)
          /\ fn_interCode f
             = EntryInstruction :: moves ++ blockInsts a
               ++ [LabelInstruction (nextId s); ExitInstruction rv]
          /\ forallb is_move moves = true
          /\ (forall l, In l (targets_of (blockInsts a)) ->
                In l (labels_of (blockInsts a))
                \/ In l (loopCondStack s) \/ In l (loopEndStack s)
                \/ l = nextId s)).
Proof.
  intros retType name params block s a s' Hs Hv.
  unfold lowers in Hv. simpl ir_visit_ast_node in Hv.
  change (map (fun p : ast_node =>
                 match p with
                 | ast_func_formal_param ty pname dims =>
                     Some (ty, pname, option_map (map ir_visit_ast_node) dims)
                 | _ => None
                 end) params)
    with (map formal_param_view_of params) in Hv.
  simpl visited_sons in *. apply Forall_app in Hs. destruct Hs as [Hps Hbs].
  set (body := match block with ast_block _ sons => sons | _ => [] end) in *.
  assert (Hbd : match block with
                | ast_block _ sons => map ir_visit_ast_node sons
                | _ => []
                end = map ir_visit_ast_node body)
    by (destruct block; reflexivity).
  rewrite Hbd in Hv. clear Hbd. clearbody body.
  unfold ir_function_define, getCurrentFunction, newFunction, setCurrentFunction,
    enterScope, leaveScope in Hv.
  gen_red_in Hv. fold (cur_fn s) in Hv.
  destruct (cur_fn s) as [f00|] eqn:Ecur; [discriminate Hv|].
  destruct (findFunction_in name (functions s)) as [f00|] eqn:Efind;
    [discriminate Hv|].
  gen_red_in Hv.
  set (f0 := mkFunction name retType [] [] None nullptr false 0%Z) in *.
  assert (C0 : findFunction_in name (functions s ++ [f0]) = Some f0)
    by (apply findFunction_in_app_new; [exact Efind | reflexivity]).
  (* entry *)
  step_upd_as Hv s1 M1 B1 B1' C1 F1 T1. clear F1.
  assert (D1 : cur_fn s1 = Some (fn_addInsts [EntryInstruction] f0))
    by (apply T1; [exact C0 | intros g; reflexivity]).
  clear T1.
  (* exit label *)
  step_upd_as Hv s2 M2 B2 B2' C2 F2 T2. clear F2.
  assert (D2 : cur_fn s2
               = Some (fn_setExitLabel (nextId s)
                         (fn_addInsts [EntryInstruction] f0))).
  { rewrite <- M1. apply T2; [exact D1 | intros g; reflexivity]. }
  clear T2.
  (* formal parameters *)
  unfold ir_function_formal_params, getCurrentFunction in Hv. gen_red_in Hv.
  fold (cur_fn s2) in Hv. rewrite D2 in Hv. gen_red_in Hv.
  match type of Hv with
  | context [formal_params_first ?l ?st ?nt] =>
      destruct (formal_params_first l st nt) as [[] s3 n3| |] eqn:E3;
        gen_red_in Hv; try discriminate Hv
  end.
  apply (@formal_params_first_shape params _ _ _ _ Hps) in E3.
  destruct E3 as (-> & M3 & [B3 B3'] & K3).
  match type of Hv with
  | context [formal_params_second ?l ?i ?st ?nt] =>
      destruct (formal_params_second l i st nt) as [[] s4 n4| |] eqn:E4;
        gen_red_in Hv; try discriminate Hv
  end.
  apply formal_params_second_shape in E4.
  destruct E4 as (-> & M4 & [B4 B4'] & C4 & K4).
  (* the return value, then the body *)
  destruct (isVoidType retType); gen_red_in Hv.
  - match type of Hv with
    | context [ir_block ?b ?l ?st ?nt] =>
        unfold ir_block in Hv; gen_red_in Hv
    end.
    match type of Hv with
    | context [ir_block_sons ?l ?st ?nt] =>
        destruct (ir_block_sons l st nt) as [[] s5 n5| |] eqn:E5;
          gen_red_in Hv; try discriminate Hv
    end.
    apply ir_block_sons_inv in E5. destruct E5 as (ias & Hl & ->).
    destruct (lowers_list_shape Hbs Hl) as ((M5 & R5 & N5) & (B5 & B5') & K5).
    step_upd_as Hv s6 M6 B6 B6' C6 F6 T6. clear F6.
    step_upd_as Hv s7 M7 B7 B7' C7 F7 T7. clear F7.
    inversion Hv; subst; clear Hv. norm_state.
    split; [unfold labels_fresh; norm_state;
            split; [lia | split; [intros l Hin; apply R5 in Hin; lia | exact N5]]|].
    split; [split; norm_state; congruence|].
    split; [intros l Hin; apply R5 in Hin; lia|].
    split; [reflexivity|]. split; [reflexivity|].
    intros Hbody. rewrite forallb_app in Hbody. apply andb_prop in Hbody.
    destruct Hbody as [Hbp Hbb].
    destruct (K3 Hbp) as [C3 K3']. destruct (K3' _ D2) as (f3 & D3 & S3).
    destruct (K4 _ D3) as (f4 & moves & D4 & N4 & X4 & I4 & Mv).
    destruct (K5 Hbb) as [F5 J5].
    destruct (functions_kept_cur_fn F5 D4) as (f5 & D5 & S5).
    pose proof (T6 _ D5 (fun g => eq_refl)) as D6.
    pose proof (T7 _ D6 (fun g => eq_refl)) as D7.
    destruct S3 as (a1 & a2 & a3). destruct S5 as (b1 & b2 & b3 & b4 & b5 & b6).
    pose proof (proj1 F5) as C5.
    assert (Hcur : currentFunction s7 = Some name) by congruence.
    unfold cur_fn in D7. rewrite Hcur in D7.
    eexists _, moves, nullptr. split; [exact D7|].
    unfold f0 in *. simpl in a2, a3. rewrite M1 in *.
    cbn [fn_exitLabel fn_interCode fn_addInsts fn_setExitLabel].
    split; [rewrite b5, X4; exact a3|].
    split.
    { rewrite b4, I4, a2. simpl. rewrite <- !app_assoc. reflexivity. }
    split; [exact Mv|].
    intros l Hin. apply J5 in Hin. destruct Hin as [Hin|Hin]; [left; exact Hin|].
    right. unfold outer_label in Hin. rewrite exit_label_cur_fn, D4, X4, a3 in Hin.
    simpl in Hin.
    destruct Hin as [Hin|[Hin|Hin]];
      [left; congruence | right; left; congruence
      | right; right; congruence].
  - step_newvar_as Hv rv sA MA BA BA' FA.
    step_upd_as Hv sB MB BB BB' CB FB TB. clear FB.
    match type of Hv with
    | context [ir_block ?b ?l ?st ?nt] =>
        unfold ir_block in Hv; gen_red_in Hv
    end.
    match type of Hv with
    | context [ir_block_sons ?l ?st ?nt] =>
        destruct (ir_block_sons l st nt) as [[] s5 n5| |] eqn:E5;
          gen_red_in Hv; try discriminate Hv
    end.
    apply ir_block_sons_inv in E5. destruct E5 as (ias & Hl & ->).
    destruct (lowers_list_shape Hbs Hl) as ((M5 & R5 & N5) & (B5 & B5') & K5).
    step_upd_as Hv s6 M6 B6 B6' C6 F6 T6. clear F6.
    step_upd_as Hv s7 M7 B7 B7' C7 F7 T7. clear F7.
    inversion Hv; subst; clear Hv. norm_state.
    split; [unfold labels_fresh; norm_state;
            split; [lia | split; [intros l Hin; apply R5 in Hin; lia | exact N5]]|].
    split; [split; norm_state; congruence|].
    split; [intros l Hin; apply R5 in Hin; lia|].
    split; [reflexivity|]. split; [reflexivity|].
    intros Hbody. rewrite forallb_app in Hbody. apply andb_prop in Hbody.
    destruct Hbody as [Hbp Hbb].
    destruct (K3 Hbp) as [C3 K3']. destruct (K3' _ D2) as (f3 & D3 & S3).
    destruct (K4 _ D3) as (f4 & moves & D4 & N4 & X4 & I4 & Mv).
    destruct (functions_kept_cur_fn FA D4) as (fA & DA & SA).
    pose proof (TB _ DA (fun g => eq_refl)) as DB.
    destruct (K5 Hbb) as [F5 J5].
    destruct (functions_kept_cur_fn F5 DB) as (f5 & D5 & S5).
    pose proof (T6 _ D5 (fun g => eq_refl)) as D6.
    pose proof (T7 _ D6 (fun g => eq_refl)) as D7.
    destruct S3 as (a1 & a2 & a3). destruct SA as (c1 & c2 & c3 & c4 & c5 & c6).
    destruct S5 as (b1 & b2 & b3 & b4 & b5 & b6).
    pose proof (proj1 F5) as C5. pose proof (proj1 FA) as CA.
    assert (Hcur : currentFunction s7 = Some name) by congruence.
    unfold cur_fn in D7. rewrite Hcur in D7.
    eexists _, moves, rv. split; [exact D7|].
    unfold f0 in *. simpl in a2, a3, b4, b5. rewrite M1 in *.
    cbn [fn_exitLabel fn_interCode fn_addInsts fn_setExitLabel].
    split; [rewrite b5, c5, X4; exact a3|].
    split.
    { rewrite b4, c4, I4, a2. simpl. rewrite <- !app_assoc. reflexivity. }
    split; [exact Mv|].
    intros l Hin.
    change (In l (targets_of (List.concat (map blockInsts ias)))) in Hin.
    change (In l (labels_of (List.concat (map blockInsts ias)))
            \/ In l (loopCondStack s) \/ In l (loopEndStack s) \/ l = nextId s).
    apply J5 in Hin. destruct Hin as [Hin|Hin]; [left; exact Hin|].
    right. unfold outer_label in Hin. rewrite exit_label_cur_fn, DB in Hin.
    simpl in Hin. rewrite c5, X4, a3 in Hin.
    destruct Hin as [Hin|[Hin|Hin]];
      [left; congruence | right; left; congruence
      | right; right; congruence].
Qed.

Lemma shape_func_def :
  forall retType name params block,
    Forall node_shape (visited_sons (ast_func_def retType name params block)) ->
    node_shape (ast_func_def retType name params block).
Proof.
  intros retType name params block Hs s n0 a s' n0' Hv.
  assert (L : lowers (ast_func_def retType name params block) s a s')
    by (exact (visit_frame _ _ _ Hv empty_attrs)).
  destruct (ir_function_define_shape Hs L) as (F & B & _).
  split; [exact F|]. split; [exact B|]. intros Hb. discriminate Hb.
Qed.

Lemma shape_default_any :
  forall n, (forall s n0, ir_visit_ast_node n s n0 = visit_with ir_default s n0) ->
            node_shape n.
Proof.
  intros n Hn s n0 a s' n0' Hv. rewrite Hn in Hv. unfold ir_default in Hv.
  gen_red_in Hv. inversion Hv; subst; clear Hv.
  split; [|split].
  - split; [apply Nat.le_refl|]. split; [intros l []|constructor].
  - split; reflexivity.
  - intros _. split; [apply functions_kept_refl|intros l []].
Qed.

(** Induction over the nodes a handler visits. *)
Lemma ast_node_visited_ind :
  forall P : ast_node -> Prop,
    (forall n, Forall P (visited_sons n) -> P n) -> forall n, P n.
Proof.
  intros P H. fix IH 1. intros n. apply H.
  destruct n as [v|name|ty|op son0|op son0 son1|son0|cond thenNode elseNode|cond body
                 | | |name realParams|arrayName dims|needScope sons|sons|ty def
                 |name init|name dims|retType name params block|ty name dims|sons];
    simpl; try constructor.
  - destruct op; repeat constructor; apply IH.
  - destruct op; repeat constructor; apply IH.
  - destruct son0; simpl; repeat constructor; apply IH.
  - apply IH.
  - apply Forall_app. split.
    + destruct thenNode; simpl; repeat constructor; apply IH.
    + destruct elseNode as [[e|]|]; simpl; repeat constructor; apply IH.
  - apply IH.
  - destruct body; simpl; repeat constructor; apply IH.
  - induction realParams; constructor; [apply IH | assumption].
  - apply IH.
  - induction dims; constructor; [apply IH | assumption].
  - induction sons; constructor; [apply IH | assumption].
  - induction sons; constructor; [apply IH | assumption].
  - destruct def; simpl; try constructor.
    + destruct init; simpl; repeat constructor; apply IH.
    + induction dims; constructor; [apply IH | assumption].
  - apply Forall_app. split.
    + induction params as [|p ps IHp]; simpl; [constructor|].
      apply Forall_app. split; [|exact IHp].
      destruct p; simpl; try constructor.
      destruct dims as [dims|]; [|constructor].
      induction dims; constructor; [apply IH | assumption].
    + destruct block; try constructor.
      induction sons; constructor; [apply IH | assumption].
  - induction sons; constructor; [apply IH | assumption].
Qed.

(** Every node has the shape. *)
Lemma all_nodes_shape : forall n, node_shape n.
Proof.
  induction n as [n IH] using ast_node_visited_ind.
  destruct n as [v|name|ty|op son0|op son0 son1|son0|cond thenNode elseNode|cond body
                 | | |name realParams|arrayName dims|needScope sons|sons|ty def
                 |name init|name dims|retType name params block|ty name dims|sons].
  - apply shape_leaf_uint.
  - apply shape_leaf_var_id.
  - apply shape_default; [intros; reflexivity | reflexivity].
  - destruct op; simpl in IH;
      try (apply shape_default_any; intros; reflexivity);
      inversion IH; subst.
    + apply shape_neg; assumption.
    + apply shape_not; assumption.
  - destruct op; simpl in IH;
      try (apply shape_default_any; intros; reflexivity);
      inversion IH as [|? ? H0 H1]; subst; inversion H1; subst;
      try (eapply shape_ir_binary; [assumption | assumption | reflexivity]);
      try (eapply shape_ir_widened; [assumption | assumption | reflexivity]);
      try (apply shape_and_or; [solve [auto] | assumption | assumption]);
      try (apply shape_assign; assumption).
  - apply shape_return. exact IH.
  - apply shape_if. exact IH.
  - apply shape_while. exact IH.
  - apply shape_break.
  - apply shape_continue.
  - apply shape_func_call. exact IH.
  - simpl in IH. inversion IH; subst. apply shape_array_access; assumption.
  - apply shape_block. exact IH.
  - apply shape_decl_stmt. exact IH.
  - apply shape_var_decl. exact IH.
  - apply shape_default; [intros; reflexivity | reflexivity].
  - apply shape_default; [intros; reflexivity | reflexivity].
  - apply shape_func_def. exact IH.
  - apply shape_default; [intros; reflexivity | reflexivity].
  - apply shape_compile_unit. exact IH.
Qed.

(* ------------------------------------------------------------------ *)
(** * The shape of the code of every node *)

(** X1.  Whatever node is lowered, a visit that succeeds leaves the stack
    of loop-condition labels and the stack of loop-end labels exactly as
    it found them: every push of [ir_while] is matched by its pop, also
    around nested loops, and no other handler changes the stacks. *)
Theorem X1_loop_stacks_restored :
  forall node s a s',
    lowers node s a s' ->
    loopCondStack s' = loopCondStack s /\ loopEndStack s' = loopEndStack s.
Proof.
  intros node s a s' H.
  exact (proj1 (proj2 (@all_nodes_shape node s empty_attrs a s' empty_attrs H))).
Qed.

(** X2.  The label instructions placed in the code of a node were all
    created during the visit of that node (their numbers lie between the
    allocation counter before and after the visit, which never goes
    back), and no label is placed twice. *)
Theorem X2_labels_fresh_and_distinct :
  forall node s a s',
    lowers node s a s' ->
    (nextId s <= nextId s')%nat
    /\ NoDup (labels_of (blockInsts a))
    /\ forall l, In l (labels_of (blockInsts a)) -> (nextId s <= l < nextId s')%nat.
Proof.
  intros node s a s' H.
  destruct (proj1 (@all_nodes_shape node s empty_attrs a s' empty_attrs H))
    as (M & R & N).
  split; [exact M|]. split; [exact N | exact R].
Qed.

(** X3.  In the code of a node that holds no function definition and no
    compile unit, every branch goes to a label placed in that same code,
    to a label on one of the two loop stacks of the state the visit started
    in, or to the exit label of the current function. *)
Theorem X3_jumps_stay_inside :
  forall node s a s',
    body_node node = true ->
    lowers node s a s' ->
    forall l, In l (targets_of (blockInsts a)) ->
      In l (labels_of (blockInsts a))
      \/ In l (loopCondStack s) \/ In l (loopEndStack s)
      \/ exit_label s = Some l.
Proof.
  intros node s a s' Hb H l Hl.
  destruct (proj2 (proj2 (@all_nodes_shape node s empty_attrs a s' empty_attrs H)) Hb)
    as [_ J].
  exact (J l Hl).
Qed.

(** X4.  Lowering the statements of a function body never touches the
    functions of the module beyond the two call statistics of the current
    function: the current function stays the same, no function is added or
    removed, and every function keeps its name, return type, parameters,
    instruction list, exit label and return value. *)
Theorem X4_body_keeps_functions :
  forall node s a s',
    body_node node = true ->
    lowers node s a s' ->
    currentFunction s' = currentFunction s
    /\ forall nm,
         match findFunction_in nm (functions s), findFunction_in nm (functions s') with
         | Some f, Some f' =>
             fn_name f' = fn_name f /\ fn_returnType f' = fn_returnType f
             /\ fn_params f' = fn_params f /\ fn_interCode f' = fn_interCode f
             /\ fn_exitLabel f' = fn_exitLabel f
             /\ fn_returnValue f' = fn_returnValue f
         | None, None => True
         | _, _ => False
         end.
Proof.
  intros node s a s' Hb H.
  destruct (proj2 (proj2 (@all_nodes_shape node s empty_attrs a s' empty_attrs H)) Hb)
    as [K _].
  exact K.
Qed.

(** The function that a function definition leaves is closed. *)
Lemma ir_function_define_closed :
  forall retType name params block s a s',
    forallb body_node (visited_sons (ast_func_def retType name params block)) = true ->
    loopCondStack s = [] -> loopEndStack s = [] ->
    lowers (ast_func_def retType name params block) s a s' ->
    exists f moves rv,
      findFunction_in name (functions s') = Some f
      /\ fn_exitLabel f = Some (nextId s)
      /\ fn_interCode f
         = EntryInstruction :: moves ++ blockInsts a
           ++ [LabelInstruction (nextId s); ExitInstruction rv]
      /\ forallb is_move moves = true
      /\ fn_closed f.
Proof.
  intros retType name params block s a s' Hb Hc He H.
  assert (Hs : Forall node_shape (visited_sons (ast_func_def retType name params block))).
  { apply Forall_forall. intros x _. apply all_nodes_shape. }
  destruct (ir_function_define_shape Hs H) as ((_ & _ & N) & _ & Hgt & _ & _ & K).
  destruct (K Hb) as (f & moves & rv & Hf & Hx & Hcode & Hm & J).
  destruct (is_move_plain _ Hm) as [Lm Tm].
  exists f, moves, rv.
  split; [exact Hf|]. split; [exact Hx|]. split; [exact Hcode|].
  split; [exact Hm|].
  assert (HL : labels_of (fn_interCode f)
               = labels_of (blockInsts a) ++ [nextId s]).
  { rewrite Hcode. cbn [labels_of].
    rewrite !labels_of_app, Lm. reflexivity. }
  assert (HT : targets_of (fn_interCode f) = targets_of (blockInsts a)).
  { rewrite Hcode.
    change (targets_of (EntryInstruction :: ?c)) with (targets_of c).
    rewrite !targets_of_app, Tm. simpl. rewrite app_nil_r. reflexivity. }
  split.
  - rewrite HL. apply NoDup_app_intro; [exact N | repeat constructor; intros [] |].
    intros l Hin [Heq|[]]. subst l. apply Hgt in Hin. lia.
  - intros l Hin. rewrite HT in Hin. rewrite HL. apply in_or_app.
    destruct (J l Hin) as [Hl|[Hl|[Hl|Hl]]].
    + left; exact Hl.
    + rewrite Hc in Hl. destruct Hl.
    + rewrite He in Hl. destruct Hl.
    + right. left. symmetry. exact Hl.
Qed.

(** X5.  A function definition lowered outside any loop, whose body holds
    no nested function definition, leaves in the module a function whose
    instruction list is: the entry instruction, the moves of the formal
    parameters, the code of the node, the exit label, the exit instruction.
    In that list no label is placed twice and every branch goes to a label
    placed in the list. *)
Theorem X5_function_code_closed :
  forall retType name params block s a s',
    forallb body_node (visited_sons (ast_func_def retType name params block)) = true ->
    loopCondStack s = [] -> loopEndStack s = [] ->
    lowers (ast_func_def retType name params block) s a s' ->
    exists f moves exitLabel rv,
      findFunction_in name (functions s') = Some f
      /\ fn_exitLabel f = Some exitLabel
      /\ fn_interCode f
         = EntryInstruction :: moves ++ blockInsts a
           ++ [LabelInstruction exitLabel; ExitInstruction rv]
      /\ forallb is_move moves = true
      /\ NoDup (labels_of (fn_interCode f))
      /\ forall l, In l (targets_of (fn_interCode f)) ->
                   In l (labels_of (fn_interCode f)).
Proof.
  intros retType name params block s a s' Hb Hc He H.
  destruct (@ir_function_define_closed retType name params block s a s' Hb Hc He H)
    as (f & moves & rv & Hf & Hx & Hcode & Hm & N & J).
  exists f, moves, (nextId s), rv.
  split; [exact Hf|]. split; [exact Hx|]. split; [exact Hcode|].
  split; [exact Hm|]. split; [exact N | exact J].
Qed.

Lemma X1_witness :
  exists a s',
    lowers demo_nested_loops demo_state a s'
    /\ loopCondStack s' = loopCondStack demo_state
    /\ loopEndStack s' = loopEndStack demo_state.
Proof.
  pose (r := run demo_nested_loops demo_state).
  assert (H : lowers demo_nested_loops demo_state (attrs_of r) (state_of r))
    by (vm_compute; reflexivity).
  exists (attrs_of r), (state_of r).
  split; [exact H | exact (@X1_loop_stacks_restored _ _ _ _ H)].
Defined.

Lemma X2_witness :
  exists a s',
    lowers demo_nested_loops demo_state a s'
    /\ (nextId demo_state <= nextId s')%nat
    /\ NoDup (labels_of (blockInsts a))
    /\ forall l, In l (labels_of (blockInsts a)) ->
                 (nextId demo_state <= l < nextId s')%nat.
Proof.
  pose (r := run demo_nested_loops demo_state).
  assert (H : lowers demo_nested_loops demo_state (attrs_of r) (state_of r))
    by (vm_compute; reflexivity).
  exists (attrs_of r), (state_of r).
  split; [exact H | exact (@X2_labels_fresh_and_distinct _ _ _ _ H)].
Defined.

Lemma X3_witness :
  exists a s',
    body_node demo_nested_loops = true
    /\ lowers demo_nested_loops demo_state a s'
    /\ forall l, In l (targets_of (blockInsts a)) ->
         In l (labels_of (blockInsts a))
         \/ In l (loopCondStack demo_state) \/ In l (loopEndStack demo_state)
         \/ exit_label demo_state = Some l.
Proof.
  pose (r := run demo_nested_loops demo_state).
  assert (Hb : body_node demo_nested_loops = true) by reflexivity.
  assert (H : lowers demo_nested_loops demo_state (attrs_of r) (state_of r))
    by (vm_compute; reflexivity).
  exists (attrs_of r), (state_of r).
  split; [exact Hb|]. split; [exact H | exact (@X3_jumps_stay_inside _ _ _ _ Hb H)].
Defined.

Lemma X4_witness :
  exists a s',
    body_node demo_nested_loops = true
    /\ lowers demo_nested_loops demo_state a s'
    /\ currentFunction s' = currentFunction demo_state.
Proof.
  pose (r := run demo_nested_loops demo_state).
  assert (Hb : body_node demo_nested_loops = true) by reflexivity.
  assert (H : lowers demo_nested_loops demo_state (attrs_of r) (state_of r))
    by (vm_compute; reflexivity).
  exists (attrs_of r), (state_of r).
  split; [exact Hb|]. split; [exact H | exact (proj1 (@X4_body_keeps_functions _ _ _ _ Hb H))].
Defined.

Lemma X5_witness :
  exists a s' f,
    forallb body_node (visited_sons demo_fn) = true
    /\ loopCondStack initState = [] /\ loopEndStack initState = []
    /\ lowers demo_fn initState a s'
    /\ findFunction_in "g" (functions s') = Some f
    /\ NoDup (labels_of (fn_interCode f))
    /\ forall l, In l (targets_of (fn_interCode f)) ->
                 In l (labels_of (fn_interCode f)).
Proof.
  pose (r := run demo_fn initState).
  assert (Hb : forallb body_node (visited_sons demo_fn) = true) by reflexivity.
  assert (H : lowers demo_fn initState (attrs_of r) (state_of r))
    by (vm_compute; reflexivity).
  destruct (@X5_function_code_closed TypeInt "g" _ _ initState _ _ Hb eq_refl eq_refl H)
    as (f & moves & ex & rv & Hf & _ & _ & _ & N & J).
  exists (attrs_of r), (state_of r), f.
  split; [exact Hb|]. split; [reflexivity|]. split; [reflexivity|].
  split; [exact H|]. split; [exact Hf|]. split; [exact N | exact J].
Defined.

(* ------------------------------------------------------------------ *)
(** * Function calls and function definitions *)

Lemma updateFunction_in_at :
  forall nm f g fs cur,
    findFunction_in nm fs = Some cur -> f cur = g cur ->
    updateFunction_in nm f fs = updateFunction_in nm g fs.
Proof.
  intros nm f g fs cur. induction fs as [|x fs IH]; intros H E; simpl in *.
  - reflexivity.
  - destruct (String.eqb (fn_name x) nm).
    + inversion H; subst. rewrite E. reflexivity.
    + rewrite (IH H E). reflexivity.
Qed.

Lemma updateFunction_in_twice :
  forall nm f g fs,
    (forall x, fn_name (f x) = fn_name x) ->
    updateFunction_in nm g (updateFunction_in nm f fs)
    = updateFunction_in nm (fun x => g (f x)) fs.
Proof.
  intros nm f g fs Hn. induction fs as [|x fs IH]; simpl.
  - reflexivity.
  - destruct (String.eqb (fn_name x) nm) eqn:E; simpl.
    + rewrite Hn, E. reflexivity.
    + rewrite E, IH. reflexivity.
Qed.

(** The loop over the actual parameters, for parameters that lower. *)
Lemma ir_function_call_args_run :
  forall args s ias s2,
    lowers_list args s ias s2 ->
    args_usable args ias ->
    forall rp n,
      ir_function_call_args
        (map (fun son => (node_type son, ir_visit_ast_node son)) args) rp s n
      = Ret (rp ++ map val ias) s2
            (mkAttrs (val n) (blockInsts n ++ List.concat (map blockInsts ias))
                     (arrayAccessAddress n)).
Proof.
  intros args s ias s2 H. induction H as [s|x xs s a s1 rest s2 Hx Hxs IH];
    intros Hu rp n.
  - simpl. gen_red. rewrite !app_nil_r. destruct n; reflexivity.
  - inversion Hu as [|? ? ? ? Hx0 Hrest]; subst.
    cbn [map ir_function_call_args]. gen_red.
    rewrite (lowers_at Hx n). gen_red.
    destruct (is_leaf_var_id (node_type x)) eqn:El.
    + destruct (getType (val a)) eqn:Et.
      * gen_red. rewrite (IH Hrest). cbn [map List.concat val blockInsts arrayAccessAddress].
        rewrite <- !app_assoc. reflexivity.
      * exfalso. apply (Hx0 eq_refl). destruct (val a); try discriminate Et. reflexivity.
    + gen_red. rewrite (IH Hrest). cbn [map List.concat val blockInsts arrayAccessAddress].
      rewrite <- !app_assoc. reflexivity.
Qed.

(** [ir_function_call] up to the test of the number of parameters. *)
Lemma ir_function_call_run :
  forall name args s cur callee ias s2 n,
    cur_fn s = Some cur ->
    findFunction_in name (functions s) = Some callee ->
    lowers_list args (call_entry s (List.length args)) ias s2 ->
    args_usable args ias ->
    ir_function_call name
      (map (fun son => (node_type son, ir_visit_ast_node son)) args) s n
    = if negb (List.length args =? List.length (fn_params callee))%nat
      then Err s2 (mkAttrs (val n)
                           (blockInsts n ++ List.concat (map blockInsts ias))
                           (arrayAccessAddress n))
      else Ret tt (set_nextId s2 (S (nextId s2)))
               (mkAttrs (InstValue (nextId s2) (fn_returnType callee))
                        ((blockInsts n ++ List.concat (map blockInsts ias))
                         ++ [FuncCallInstruction (nextId s2) name (map val ias)
                                                 (fn_returnType callee)])
                        (arrayAccessAddress n)).
Proof.
  intros name args s cur callee ias s2 n Hcur Hcallee Hl Hu.
  assert (Hlen : List.length ias = List.length args).
  { clear -Hl. induction Hl; simpl; [reflexivity | rewrite IHHl; reflexivity]. }
  unfold ir_function_call, getCurrentFunction, findFunction. gen_red.
  fold (cur_fn s). rewrite Hcur, Hcallee.
  unfold cur_fn in Hcur. unfold call_entry in Hl.
  destruct (currentFunction s) as [nm|] eqn:EC; [|discriminate Hcur].
  unfold updCurrentFunction. gen_red. rewrite EC.
  destruct args as [|x xs].
  - inversion Hl; subst. gen_red.
    destruct n; destruct (fn_params callee); simpl; rewrite ?app_nil_r; reflexivity.
  - cbn [map] in *.
    change ((node_type x, ir_visit_ast_node x)
            :: map (fun son => (node_type son, ir_visit_ast_node son)) xs)
      with (map (fun son => (node_type son, ir_visit_ast_node son)) (x :: xs)).
    set (k := List.length (x :: xs)) in *.
    assert (Hk : List.length
                   (map (fun son => (node_type son, ir_visit_ast_node son)) (x :: xs))
                 = k) by (apply length_map).
    rewrite Hk.
    assert (Hst : match (fn_maxFuncCallArgCnt cur <? Z.of_nat k)%Z with
                  | true =>
                      set_functions s
                        (updateFunction_in nm (fn_setMaxFuncCallArgCnt (Z.of_nat k))
                           (updateFunction_in nm (fn_setExistFuncCall true) (functions s)))
                  | false =>
                      set_functions s
                        (updateFunction_in nm (fn_setExistFuncCall true) (functions s))
                  end
                  = set_functions s
                      (updateFunction_in nm (call_statistics k) (functions s))).
    { destruct (fn_maxFuncCallArgCnt cur <? Z.of_nat k)%Z eqn:Em.
      - rewrite updateFunction_in_twice by (intros; reflexivity).
        f_equal. apply (updateFunction_in_at _ _ _ _ Hcur).
        unfold call_statistics, k. cbn [List.length]. fold k.
        change (S (List.length xs)) with k. rewrite Em. reflexivity.
      - f_equal. apply (updateFunction_in_at _ _ _ _ Hcur).
        unfold call_statistics, k. cbn [List.length].
        change (S (List.length xs)) with k. rewrite Em. reflexivity. }
    destruct (fn_maxFuncCallArgCnt cur <? Z.of_nat k)%Z; gen_red;
      rewrite ?EC; cbn [functions set_functions currentFunction];
      repeat match goal with
             | |- context [set_functions (set_functions ?a ?b) ?c] =>
                 change (set_functions (set_functions a b) c) with (set_functions a c)
             end;
      rewrite Hst;
      rewrite (ir_function_call_args_run Hl Hu); gen_red;
      rewrite length_map, Hlen; fold k;
      destruct (negb (k =? List.length (fn_params callee))%nat); reflexivity.
Qed.

(** X6.  A call of a function that the module does not know returns null
    at once: no actual parameter is visited, nothing is emitted and the
    state, the call statistics of the caller included, is as before. *)
Theorem X6_call_of_undefined_function :
  forall name args s n,
    findFunction_in name (functions s) = None ->
    ir_visit_ast_node (ast_func_call name args) s n = Ret None s n.
Proof.
  intros name args s n H. cbn [ir_visit_ast_node].
  unfold visit_with, ir_function_call, getCurrentFunction, findFunction, bind.
  rewrite H. reflexivity.
Qed.

(** X7.  A call whose number of actual parameters differs from the number
    of formal parameters of the callee returns null, after the actual
    parameters were lowered: the state is the one the last parameter
    left. *)
Theorem X7_call_with_wrong_argument_count :
  forall name args s cur callee ias s2 n,
    cur_fn s = Some cur ->
    findFunction_in name (functions s) = Some callee ->
    lowers_list args (call_entry s (List.length args)) ias s2 ->
    args_usable args ias ->
    List.length args <> List.length (fn_params callee) ->
    ir_visit_ast_node (ast_func_call name args) s n = Ret None s2 n.
Proof.
  intros name args s cur callee ias s2 n Hcur Hcallee Hl Hu Hne.
  cbn [ir_visit_ast_node]. unfold visit_with.
  rewrite (@ir_function_call_run name args s cur callee ias s2 empty_attrs Hcur Hcallee Hl Hu).
  apply Nat.eqb_neq in Hne. rewrite Hne. reflexivity.
Qed.

(** X8.  A call with the right number of actual parameters lowers to the
    code of the parameters from left to right followed by one call
    instruction, which carries the values of the parameters in order and
    the return type of the callee and is the value of the node.  The
    caller is marked as making a call, and its maximal number of call
    arguments is raised to the number of parameters when it was smaller,
    before the parameters are visited. *)
Theorem X8_call_lowering :
  forall name args s cur callee ias s2,
    cur_fn s = Some cur ->
    findFunction_in name (functions s) = Some callee ->
    lowers_list args (call_entry s (List.length args)) ias s2 ->
    args_usable args ias ->
    List.length args = List.length (fn_params callee) ->
    lowers (ast_func_call name args) s
           (mkAttrs (InstValue (nextId s2) (fn_returnType callee))
                    (List.concat (map blockInsts ias)
                     ++ [FuncCallInstruction (nextId s2) name (map val ias)
                                             (fn_returnType callee)])
                    nullptr)
           (set_nextId s2 (S (nextId s2)))
    /\ cur_fn (call_entry s (List.length args))
       = Some (call_statistics (List.length args) cur)
    /\ fn_existFuncCall (call_statistics (List.length args) cur) = true
    /\ fn_maxFuncCallArgCnt (call_statistics (List.length args) cur)
       = match args with
         | [] => fn_maxFuncCallArgCnt cur
         | _ :: _ => Z.max (fn_maxFuncCallArgCnt cur) (Z.of_nat (List.length args))
         end.
Proof.
  intros name args s cur callee ias s2 Hcur Hcallee Hl Hu Heq.
  split; [|split; [|split]].
  - unfold lowers. cbn [ir_visit_ast_node]. unfold visit_with.
    rewrite (@ir_function_call_run name args s cur callee ias s2 empty_attrs Hcur Hcallee Hl Hu).
    apply Nat.eqb_eq in Heq. rewrite Heq. reflexivity.
  - unfold cur_fn in *. unfold call_entry.
    destruct (currentFunction s) as [nm|] eqn:EC; [|discriminate Hcur].
    cbn [currentFunction functions set_functions]. rewrite EC.
    rewrite (findFunction_in_update nm (call_statistics (List.length args))
                                    (functions s) nm).
    + rewrite String.eqb_refl, Hcur. reflexivity.
    + intros g. unfold call_statistics.
      destruct (List.length args); [reflexivity|].
      destruct (fn_maxFuncCallArgCnt g <? Z.of_nat (S n))%Z; reflexivity.
  - unfold call_statistics. destruct (List.length args); [reflexivity|].
    destruct (fn_maxFuncCallArgCnt cur <? Z.of_nat (S n))%Z; reflexivity.
  - unfold call_statistics. destruct args as [|x xs]; [reflexivity|].
    cbn [List.length].
    destruct (fn_maxFuncCallArgCnt cur <? Z.of_nat (S (List.length xs)))%Z eqn:Em;
      cbn [fn_maxFuncCallArgCnt fn_setExistFuncCall fn_setMaxFuncCallArgCnt].
    + apply Z.ltb_lt in Em. lia.
    + apply Z.ltb_ge in Em. lia.
Qed.

Lemma X6_witness :
  findFunction_in "g" (functions demo_state) = None
  /\ ir_visit_ast_node demo_call_undefined demo_state empty_attrs
     = Ret None demo_state empty_attrs.
Proof.
  assert (H : findFunction_in "g" (functions demo_state) = None) by reflexivity.
  split; [exact H|].
  exact (@X6_call_of_undefined_function "g" _ demo_state empty_attrs H).
Defined.

Lemma X7_witness :
  exists cur callee,
    cur_fn demo_state = Some cur
    /\ findFunction_in "f" (functions demo_state) = Some callee
    /\ lowers_list [ast_leaf_var_id "x"] (call_entry demo_state 1)
                   [mkAttrs demo_x [] nullptr] (call_entry demo_state 1)
    /\ args_usable [ast_leaf_var_id "x"] [mkAttrs demo_x [] nullptr]
    /\ List.length [ast_leaf_var_id "x"] <> List.length (fn_params callee)
    /\ ir_visit_ast_node demo_call_one_arg demo_state empty_attrs
       = Ret None (call_entry demo_state 1) empty_attrs.
Proof.
  pose (cur := mkFunction "main" TypeInt [] [EntryInstruction] (Some 2%nat)
                          nullptr false 0%Z).
  pose (callee := mkFunction "f" TypeInt []
                   [EntryInstruction;
                    MoveInstruction (LocalVariable 1 TypeInt "") (ConstInt 0);
                    MoveInstruction (LocalVariable 1 TypeInt "") (ConstInt 1);
                    Goto 0; LabelInstruction 0;
                    ExitInstruction (LocalVariable 1 TypeInt "")]
                   (Some 0%nat) (LocalVariable 1 TypeInt "") false 0%Z).
  assert (H1 : cur_fn demo_state = Some cur) by reflexivity.
  assert (H2 : findFunction_in "f" (functions demo_state) = Some callee)
    by reflexivity.
  assert (H3 : lowers_list [ast_leaf_var_id "x"] (call_entry demo_state 1)
                           [mkAttrs demo_x [] nullptr] (call_entry demo_state 1))
    by (eapply lowers_cons; [vm_compute; reflexivity | apply lowers_nil]).
  assert (H4 : args_usable [ast_leaf_var_id "x"] [mkAttrs demo_x [] nullptr])
    by (repeat constructor; discriminate).
  assert (H5 : List.length [ast_leaf_var_id "x"] <> List.length (fn_params callee))
    by (simpl; lia).
  exists cur, callee.
  repeat (split; [assumption|]).
  exact (@X7_call_with_wrong_argument_count "f" _ demo_state cur callee _ _
           empty_attrs H1 H2 H3 H4 H5).
Defined.

Lemma X8_witness :
  exists cur callee,
    cur_fn demo_state_h = Some cur
    /\ findFunction_in "h" (functions demo_state_h) = Some callee
    /\ lowers_list [ast_leaf_var_id "x"; ast_leaf_literal_uint 1]
                   (call_entry demo_state_h 2)
                   [mkAttrs demo_x [] nullptr; mkAttrs (ConstInt 1) [] nullptr]
                   (call_entry demo_state_h 2)
    /\ args_usable [ast_leaf_var_id "x"; ast_leaf_literal_uint 1]
                   [mkAttrs demo_x [] nullptr; mkAttrs (ConstInt 1) [] nullptr]
    /\ List.length [ast_leaf_var_id "x"; ast_leaf_literal_uint 1]
       = List.length (fn_params callee)
    /\ lowers demo_call_h demo_state_h
              (mkAttrs (InstValue 5 TypeInt)
                       [FuncCallInstruction 5 "h" [demo_x; ConstInt 1] TypeInt]
                       nullptr)
              (set_nextId (call_entry demo_state_h 2) 6)
    /\ fn_maxFuncCallArgCnt (call_statistics 2 cur) = 2%Z.
Proof.
  pose (cur := mkFunction "main" TypeInt [] [EntryInstruction] (Some 2%nat)
                          nullptr false 0%Z).
  pose (callee := mkFunction "h" TypeInt
                    [FormalParam 0 TypeInt "p"; FormalParam 0 TypeInt "q"]
                    [EntryInstruction] (Some 0%nat) nullptr false 0%Z).
  assert (H1 : cur_fn demo_state_h = Some cur) by reflexivity.
  assert (H2 : findFunction_in "h" (functions demo_state_h) = Some callee)
    by reflexivity.
  assert (H3 : lowers_list [ast_leaf_var_id "x"; ast_leaf_literal_uint 1]
                 (call_entry demo_state_h 2)
                 [mkAttrs demo_x [] nullptr; mkAttrs (ConstInt 1) [] nullptr]
                 (call_entry demo_state_h 2))
    by (eapply lowers_cons;
        [vm_compute; reflexivity
        | eapply lowers_cons; [vm_compute; reflexivity | apply lowers_nil]]).
  assert (H4 : args_usable [ast_leaf_var_id "x"; ast_leaf_literal_uint 1]
                 [mkAttrs demo_x [] nullptr; mkAttrs (ConstInt 1) [] nullptr])
    by (repeat constructor; discriminate).
  assert (H5 : List.length [ast_leaf_var_id "x"; ast_leaf_literal_uint 1]
               = List.length (fn_params callee)) by reflexivity.
  exists cur, callee.
  repeat (split; [assumption|]).
  destruct (@X8_call_lowering "h" _ demo_state_h cur callee _ _ H1 H2 H3 H4 H5)
    as (L & _ & _ & M).
  split; [exact L | exact M].
Defined.

(* ------------------------------------------------------------------ *)
(** * Arrays and declarations: edges *)

Lemma lowers_list_length :
  forall xs s ias s2, lowers_list xs s ias s2 -> List.length ias = List.length xs.
Proof.
  induction 1; simpl; [reflexivity | rewrite IHlowers_list; reflexivity].
Qed.

(** The loop of [ir_calculate_array_offset] reads [fullDimensions] past its
    end when it has more rounds to go than dimensions are left. *)
Lemma offset_loop_past_the_end :
  forall n i indices dims lin s nd,
    (1 <= n)%nat ->
    (List.length dims < i + n)%nat ->
    (i + n <= List.length indices)%nat ->
    ir_calculate_array_offset_loop n i indices dims lin s nd = Undef.
Proof.
  induction n as [|n IH]; intros i indices dims lin s nd Hi Hn Hk.
  - lia.
  - cbn [ir_calculate_array_offset_loop].
    destruct (nth_error dims i) as [d|] eqn:Ed.
    + assert (Hlt : (i < List.length dims)%nat)
        by (apply nth_error_Some; rewrite Ed; discriminate).
      destruct (nth_error indices i) as [idx|] eqn:Ei;
        [|apply nth_error_None in Ei; lia].
      gen_red. apply IH; lia.
    + reflexivity.
Qed.

(** X9.  An access with more indices than the array has dimensions (and
    at least two indices) is not refused: after the array name and the
    indices were lowered, the offset loop of [ir_calculate_array_offset]
    reads the vector of dimensions past its end, which is undefined. *)
Theorem X9_array_access_with_too_many_indices :
  forall arrayName dims s na s1 ias s2 elem fullDims n,
    lowers arrayName s na s1 ->
    lowers_list dims s1 ias s2 ->
    getType (val na) = Some (ArrayType elem fullDims) ->
    (List.length fullDims < List.length dims)%nat ->
    (2 <= List.length dims)%nat ->
    ir_visit_ast_node (ast_array_access arrayName dims) s n = Undef.
Proof.
  intros arrayName dims s na s1 ias s2 elem fullDims n Hna Hl Hty Hlt H2.
  pose proof (lowers_list_length Hl) as Hlen.
  cbn [ir_visit_ast_node]. unfold visit_with, ir_array_access, ir_get_array_dimensions.
  gen_red. rewrite (lowers_at Hna empty_attrs). gen_red.
  rewrite (ir_get_array_dimensions_sons_run Hl). gen_red.
  rewrite Hty. cbn [app]. rewrite length_map, Hlen.
  assert (E : (List.length dims =? List.length fullDims)%nat = false)
    by (apply Nat.eqb_neq; lia).
  rewrite E. unfold ir_calculate_array_offset.
  destruct (List.length dims) as [|k] eqn:Ek; [lia|].
  destruct ias as [|a0 ias']; [simpl in Hlen; lia|].
  cbn [map nth_error]. gen_red.
  rewrite offset_loop_past_the_end;
    [reflexivity | lia | lia | simpl in *; rewrite length_map; lia].
Qed.

(** X10.  Indexing a variable whose type is not an array type is refused:
    the visit returns null, after the name and the indices were lowered. *)
Theorem X10_indexing_a_scalar_fails :
  forall arrayName dims s na s1 ias s2 ty n,
    lowers arrayName s na s1 ->
    lowers_list dims s1 ias s2 ->
    getType (val na) = Some ty ->
    isArrayType ty = false ->
    ir_visit_ast_node (ast_array_access arrayName dims) s n = Ret None s2 n.
Proof.
  intros arrayName dims s na s1 ias s2 ty n Hna Hl Hty Harr.
  cbn [ir_visit_ast_node]. unfold visit_with, ir_array_access, ir_get_array_dimensions.
  gen_red. rewrite (lowers_at Hna empty_attrs). gen_red.
  rewrite (ir_get_array_dimensions_sons_run Hl). gen_red.
  rewrite Hty. destruct ty; try reflexivity. discriminate Harr.
Qed.

(** X11.  An array declaration [ty name[e1]...[ek]] whose dimension
    expressions lower declares a variable of the array type whose j-th
    dimension is the value of [ej] when that is a constant and 10 when it
    is anything else; the code of the node is the code of the dimension
    expressions in order, and the variable is the value of the node. *)
Theorem X11_array_declaration :
  forall ty name dims s ias s2 var s3,
    lowers_list dims s ias s2 ->
    newVarValue (ArrayType ty (map dim_constant ias)) name s2 empty_attrs
    = Ret var s3 empty_attrs ->
    lowers (ast_var_decl ty (ast_array_def name dims)) s
           (mkAttrs var (List.concat (map blockInsts ias)) nullptr) s3
    /\ getType var = Some (ArrayType ty (map dim_constant ias))
    /\ Forall (fun a => (exists c, val a = ConstInt c /\ dim_constant a = c)
                        \/ dim_constant a = 10%Z) ias.
Proof.
  intros ty name dims s ias s2 var s3 Hl Hnew.
  assert (Hvar : getType var = Some (ArrayType ty (map dim_constant ias))
                 /\ var <> nullptr).
  { unfold newVarValue in Hnew.
    destruct (currentFunction s2); inversion Hnew; subst;
      split; (reflexivity || discriminate). }
  destruct Hvar as [Hty Hnn].
  split; [|split; [exact Hty|]].
  - unfold lowers. cbn [ir_visit_ast_node].
    unfold visit_with, ir_variable_declare, ir_array_var_def, ir_get_array_dimensions.
    gen_red. rewrite (ir_get_array_dimensions_sons_run Hl). gen_red.
    cbn [snd app].
    assert (Hnew' : forall n, newVarValue (ArrayType ty (map dim_constant ias)) name s2 n
                              = Ret var s3 n).
    { intros n. unfold newVarValue in *.
      destruct (currentFunction s2); inversion Hnew; subst; reflexivity. }
    rewrite Hnew'. destruct var; try reflexivity. destruct Hnn. reflexivity.
  - apply Forall_forall. intros a _. unfold dim_constant.
    destruct (val a); try (right; reflexivity).
    left. eexists. split; reflexivity.
Qed.

(** X12.  In a function, [ty name = e;] declares the variable before it
    lowers [e], so that [e] is lowered with [name] already bound to the
    new variable; the code of the node is the code of [e] followed by one
    move of the value of [e] into the variable. *)
Theorem X12_local_declaration_with_initializer :
  forall ty name init s cur var s1 ia s2,
    cur_fn s = Some cur ->
    newVarValue ty name s empty_attrs = Ret var s1 empty_attrs ->
    lowers init s1 ia s2 ->
    lowers (ast_var_decl ty (ast_var_def name (Some init))) s
           (mkAttrs var (blockInsts ia ++ [MoveInstruction var (val ia)]) nullptr)
           s2.
Proof.
  intros ty name init s cur var s1 ia s2 Hcur Hnew Hi.
  unfold lowers. cbn [ir_visit_ast_node].
  unfold visit_with, ir_variable_declare, ir_simple_var_def, getCurrentFunction.
  gen_red. fold (cur_fn s). rewrite Hcur.
  assert (Hnew' : forall n, newVarValue ty name s n = Ret var s1 n).
  { intros n. unfold newVarValue in *.
    destruct (currentFunction s); inversion Hnew; subst; reflexivity. }
  rewrite Hnew'. gen_red. rewrite (lowers_at Hi). gen_red. reflexivity.
Qed.

(** X13.  Outside any function a unary minus is folded: for an operand
    whose value is the constant [c] the node has the constant [-c] (in
    [int32_t]) as value and no code, the code of the operand included; for
    any other operand the visit returns null. *)
Theorem X13_minus_at_global_scope :
  forall operand s a s1 n,
    lowers operand s a s1 ->
    cur_fn s1 = None ->
    (forall c, val a = ConstInt c ->
       ir_visit_ast_node (ast_unary AST_OP_NEG operand) s n
       = Ret (Some (mkAttrs (ConstInt (wrap32 (- c))) [] nullptr)) s1 n
       /\ ((INT32_MIN < c <= INT32_MAX)%Z -> wrap32 (- c) = (- c)%Z))
    /\ ((forall c, val a <> ConstInt c) ->
        ir_visit_ast_node (ast_unary AST_OP_NEG operand) s n = Ret None s1 n).
Proof.
  intros operand s a s1 n Ha Hcur.
  assert (E : ir_visit_ast_node (ast_unary AST_OP_NEG operand) s n
              = match val a with
                | ConstInt v => Ret (Some (mkAttrs (ConstInt (wrap32 (- v))) [] nullptr)) s1 n
                | _ => Ret None s1 n
                end).
  { cbn [ir_visit_ast_node]. unfold visit_with, unary_handler, ir_neg, getCurrentFunction.
    gen_red. rewrite (lowers_at Ha). gen_red. fold (cur_fn s1). rewrite Hcur.
    destruct (val a); reflexivity. }
  split.
  - intros c Hc. rewrite E, Hc. split; [reflexivity|].
    intros Hr. apply wrap32_small. unfold in_int32, INT32_MIN, INT32_MAX in *. lia.
  - intros Hnc. rewrite E. destruct (val a) eqn:Ev; try reflexivity.
    destruct (Hnc v eq_refl).
Qed.

Lemma X9_witness :
  exists na ias,
    lowers (ast_leaf_var_id "a") demo_state na demo_state
    /\ lowers_list [ast_leaf_literal_uint 1; ast_leaf_literal_uint 2;
                    ast_leaf_literal_uint 3] demo_state ias demo_state
    /\ getType (val na) = Some (ArrayType TypeInt [3; 4]%Z)
    /\ (List.length [3; 4]%Z < 3)%nat
    /\ ir_visit_ast_node demo_access_too_deep demo_state empty_attrs = Undef.
Proof.
  pose (na := mkAttrs demo_a [] nullptr).
  pose (ias := [mkAttrs (ConstInt 1) [] nullptr; mkAttrs (ConstInt 2) [] nullptr;
                mkAttrs (ConstInt 3) [] nullptr]).
  assert (H1 : lowers (ast_leaf_var_id "a") demo_state na demo_state)
    by (vm_compute; reflexivity).
  assert (H2 : lowers_list [ast_leaf_literal_uint 1; ast_leaf_literal_uint 2;
                            ast_leaf_literal_uint 3] demo_state ias demo_state)
    by (repeat (eapply lowers_cons; [vm_compute; reflexivity|]); apply lowers_nil).
  assert (H3 : getType (val na) = Some (ArrayType TypeInt [3; 4]%Z)) by reflexivity.
  assert (H4 : (List.length [3; 4]%Z
                < List.length [ast_leaf_literal_uint 1; ast_leaf_literal_uint 2;
                               ast_leaf_literal_uint 3])%nat) by (simpl; lia).
  assert (H5 : (2 <= List.length [ast_leaf_literal_uint 1; ast_leaf_literal_uint 2;
                                  ast_leaf_literal_uint 3])%nat) by (simpl; lia).
  exists na, ias.
  split; [exact H1|]. split; [exact H2|]. split; [exact H3|]. split; [exact H4|].
  exact (@X9_array_access_with_too_many_indices _ _ _ _ _ _ _ _ _ empty_attrs
           H1 H2 H3 H4 H5).
Defined.

Lemma X10_witness :
  exists na ias,
    lowers (ast_leaf_var_id "x") demo_state na demo_state
    /\ lowers_list [ast_leaf_literal_uint 1] demo_state ias demo_state
    /\ getType (val na) = Some TypeInt
    /\ isArrayType TypeInt = false
    /\ ir_visit_ast_node demo_index_scalar demo_state empty_attrs
       = Ret None demo_state empty_attrs.
Proof.
  pose (na := mkAttrs demo_x [] nullptr).
  pose (ias := [mkAttrs (ConstInt 1) [] nullptr]).
  assert (H1 : lowers (ast_leaf_var_id "x") demo_state na demo_state)
    by (vm_compute; reflexivity).
  assert (H2 : lowers_list [ast_leaf_literal_uint 1] demo_state ias demo_state)
    by (repeat (eapply lowers_cons; [vm_compute; reflexivity|]); apply lowers_nil).
  assert (H3 : getType (val na) = Some TypeInt) by reflexivity.
  assert (H4 : isArrayType TypeInt = false) by reflexivity.
  exists na, ias.
  split; [exact H1|]. split; [exact H2|]. split; [exact H3|]. split; [exact H4|].
  exact (@X10_indexing_a_scalar_fails _ _ _ _ _ _ _ _ empty_attrs H1 H2 H3 H4).
Defined.

Lemma X11_witness :
  exists ias var s3,
    lowers_list [ast_leaf_literal_uint 2; ast_leaf_var_id "x"] demo_state ias
                demo_state
    /\ newVarValue (ArrayType TypeInt (map dim_constant ias)) "b" demo_state
                   empty_attrs
       = Ret var s3 empty_attrs
    /\ lowers demo_array_decl demo_state (mkAttrs var [] nullptr) s3
    /\ getType var = Some (ArrayType TypeInt [2; 10]%Z).
Proof.
  pose (ias := [mkAttrs (ConstInt 2) [] nullptr; mkAttrs demo_x [] nullptr]).
  pose (var := LocalVariable 5 (ArrayType TypeInt [2; 10]%Z) "b").
  pose (s3 := set_scopeStack (set_nextId demo_state 6)
                (insertValue "b" var (scopeStack demo_state))).
  assert (H1 : lowers_list [ast_leaf_literal_uint 2; ast_leaf_var_id "x"]
                           demo_state ias demo_state)
    by (repeat (eapply lowers_cons; [vm_compute; reflexivity|]); apply lowers_nil).
  assert (H2 : newVarValue (ArrayType TypeInt (map dim_constant ias)) "b"
                           demo_state empty_attrs
               = Ret var s3 empty_attrs) by reflexivity.
  exists ias, var, s3.
  split; [exact H1|]. split; [exact H2|].
  destruct (@X11_array_declaration TypeInt "b" _ _ _ _ _ _ H1 H2) as (L & T & _).
  split; [exact L | exact T].
Defined.

Lemma X12_witness :
  exists cur var s1,
    cur_fn demo_state = Some cur
    /\ newVarValue TypeInt "z" demo_state empty_attrs = Ret var s1 empty_attrs
    /\ lowers (ast_leaf_var_id "z") s1 (mkAttrs var [] nullptr) s1
    /\ lowers demo_self_init demo_state
              (mkAttrs var [MoveInstruction var var] nullptr) s1.
Proof.
  pose (cur := mkFunction "main" TypeInt [] [EntryInstruction] (Some 2%nat)
                          nullptr false 0%Z).
  pose (var := LocalVariable 5 TypeInt "z").
  pose (s1 := set_scopeStack (set_nextId demo_state 6)
                (insertValue "z" var (scopeStack demo_state))).
  assert (H1 : cur_fn demo_state = Some cur) by reflexivity.
  assert (H2 : newVarValue TypeInt "z" demo_state empty_attrs
               = Ret var s1 empty_attrs) by reflexivity.
  assert (H3 : lowers (ast_leaf_var_id "z") s1 (mkAttrs var [] nullptr) s1)
    by (vm_compute; reflexivity).
  exists cur, var, s1.
  split; [exact H1|]. split; [exact H2|]. split; [exact H3|].
  exact (@X12_local_declaration_with_initializer TypeInt "z" _ _ _ _ _ _ _ H1 H2 H3).
Defined.

Lemma X13_witness :
  lowers (ast_leaf_literal_uint 7) initState (mkAttrs (ConstInt 7) [] nullptr)
         initState
  /\ cur_fn initState = None
  /\ ir_visit_ast_node demo_minus_seven initState empty_attrs
     = Ret (Some (mkAttrs (ConstInt (wrap32 (- 7))) [] nullptr)) initState
           empty_attrs.
Proof.
  assert (H1 : lowers (ast_leaf_literal_uint 7) initState
                      (mkAttrs (ConstInt 7) [] nullptr) initState)
    by (vm_compute; reflexivity).
  assert (H2 : cur_fn initState = None) by reflexivity.
  split; [exact H1|]. split; [exact H2|].
  exact (proj1 (proj1 (@X13_minus_at_global_scope _ _ _ _ empty_attrs H1 H2)
                      7%Z eq_refl)).
Defined.

(* ------------------------------------------------------------------ *)
(** * In-bounds accesses *)

Lemma product_pos :
  forall dims, Forall (fun d => 0 < d)%Z dims -> (0 < product dims)%Z.
Proof.
  induction 1 as [|d dims Hd _ IH]; unfold product in *; simpl; [lia | nia].
Qed.

Lemma in_bounds_pos :
  forall idx dims, in_bounds idx dims -> Forall (fun d => 0 < d)%Z dims.
Proof.
  induction 1 as [|i d idx dims H _ IH]; constructor; [lia | exact IH].
Qed.

Lemma horner_from_bounds :
  forall idx dims, in_bounds idx dims ->
    forall off, (0 <= off)%Z ->
      (0 <= horner_from off idx dims < (off + 1) * product dims)%Z.
Proof.
  induction 1 as [|i d idx dims H Hrest IH]; intros off Hoff.
  - unfold product. simpl. lia.
  - cbn [horner_from].
    assert (Hp : (0 < product dims)%Z) by (apply product_pos, in_bounds_pos with idx; exact Hrest).
    destruct (IH (off * d + i)%Z) as [L U]; [nia|].
    split; [exact L|].
    change (product (d :: dims)) with (d * product dims)%Z. nia.
Qed.

Lemma horner_from_injective :
  forall idx dims, in_bounds idx dims ->
    forall idx', in_bounds idx' dims ->
      forall off off', (0 <= off)%Z -> (0 <= off')%Z ->
        horner_from off idx dims = horner_from off' idx' dims ->
        off = off' /\ idx = idx'.
Proof.
  induction 1 as [|i d idx dims H Hrest IH]; intros idx' H' off off' Ho Ho' E.
  - inversion H'; subst. simpl in E. split; [exact E | reflexivity].
  - inversion H' as [|i' d' idx0 dims0 Hi' Hrest']; subst.
    cbn [horner_from] in E.
    destruct (IH _ Hrest' (off * d + i)%Z (off' * d + i')%Z) as [E1 E2];
      [nia | nia | exact E |].
    assert (off = off') by nia. subst off'.
    assert (i = i') by lia. subst. split; reflexivity.
Qed.

(** [ArrayType::getSize] of an [int] array whose byte size fits
    [int32_t]. *)
Lemma typeSize_int_array :
  forall dims,
    Forall (fun d => 0 < d)%Z dims ->
    (4 * product dims <= INT32_MAX)%Z ->
    typeSize (ArrayType TypeInt dims) = (4 * product dims)%Z.
Proof.
  intros dims Hpos Hmax. cbn [typeSize].
  assert (G : forall ds acc,
             Forall (fun d => 0 < d)%Z ds -> (0 < acc)%Z ->
             (acc * product ds <= INT32_MAX)%Z ->
             fold_left (fun a d => wrap32 (a * d)) ds acc = (acc * product ds)%Z).
  { induction ds as [|d ds IH]; intros acc Hp Ha Hm.
    - unfold product. simpl. lia.
    - inversion Hp as [|? ? Hd Hds]; subst.
      change (product (d :: ds)) with (d * product ds)%Z in *.
      pose proof (product_pos Hds) as Hpp.
      cbn [fold_left].
      rewrite wrap32_small
        by (unfold in_int32, INT32_MIN, INT32_MAX in *; nia).
      rewrite IH; [lia | exact Hds | nia | nia]. }
  apply G; [exact Hpos | lia | exact Hmax].
Qed.

Lemma horner_injective :
  forall idx idx' dims,
    in_bounds idx dims -> in_bounds idx' dims ->
    horner idx dims = horner idx' dims -> idx = idx'.
Proof.
  intros idx idx' dims H H' E.
  destruct H as [|i d idx ds Hi Hrest].
  - inversion H'. reflexivity.
  - inversion H' as [|i' d' idx0 ds' Hi' Hrest']; subst.
    cbn [horner tl] in E.
    destruct (horner_from_injective Hrest Hrest' (off := i) (off' := i')) as [-> ->];
      [lia | lia | exact E | reflexivity].
Qed.

(** The byte offset that the code of a full access leaves, for index
    values inside the bounds. *)
Lemma full_access_offset :
  forall idx fullDims,
    in_bounds idx fullDims -> (1 <= List.length idx)%nat ->
    (4 * product fullDims <= INT32_MAX)%Z ->
    wrap32 (spec_byte_offset idx fullDims) = (4 * horner idx fullDims)%Z
    /\ (0 <= horner idx fullDims < product fullDims)%Z.
Proof.
  intros idx fullDims Hb Hk Hmax.
  assert (Hlen : List.length idx = List.length fullDims)
    by (clear -Hb; induction Hb; simpl; congruence).
  assert (Hh : (0 <= horner idx fullDims < product fullDims)%Z).
  { destruct Hb as [|i d idx dims Hi Hrest]; [simpl in Hk; lia|].
    cbn [horner tl].
    destruct (horner_from_bounds Hrest (off := i)) as [L U]; [lia|].
    pose proof (product_pos (in_bounds_pos Hrest)) as Hp.
    change (product (d :: dims)) with (d * product dims)%Z. nia. }
  split; [|exact Hh].
  unfold spec_byte_offset. rewrite Hlen, skipn_all.
  change (product []) with 1%Z. rewrite Z.mul_1_r.
  apply wrap32_small. unfold in_int32, INT32_MIN, INT32_MAX in *. lia.
Qed.

(** X14.  A full access [a[i1]...[in]] to an [int] array whose
    [ArrayType::getSize] fits [int32_t] stays inside the array when the
    index values are inside the bounds of the declared shape: the byte
    offset that the emitted arithmetic leaves is a multiple of 4 between 0
    and [getSize() - 4], the address is the base plus that offset, and two
    different in-bounds index tuples give different byte offsets. *)
Theorem X14_in_bounds_access_stays_inside :
  forall arrayName dims s na s1 ias s2 fullDims,
    lowers arrayName s na s1 ->
    lowers_list dims s1 ias s2 ->
    getType (val na) = Some (ArrayType TypeInt fullDims) ->
    List.length dims = List.length fullDims ->
    (1 <= List.length dims)%nat ->
    Forall (fun a => val a <> nullptr) ias ->
    Forall (value_id_lt (nextId s2)) (map val ias) ->
    value_id_lt (nextId s2) (val na) ->
    (4 * product fullDims <= INT32_MAX)%Z ->
    exists attrs s3 code byteId final,
      lowers (ast_array_access arrayName dims) s attrs s3
      /\ blockInsts attrs
         = List.concat (map blockInsts ias) ++ blockInsts na ++ code ++ [final]
      /\ forallb is_binary code = true
      /\ (forall m,
            in_bounds (map (eval m) (map val ias)) fullDims ->
            (0 <= regs (run_binaries code m) byteId
             <= typeSize (ArrayType TypeInt fullDims) - 4)%Z
            /\ (regs (run_binaries code m) byteId mod 4 = 0)%Z
            /\ regs (run_binaries code m) (S byteId)
               = wrap32 (eval m (val na) + regs (run_binaries code m) byteId))
      /\ (forall m1 m2,
            in_bounds (map (eval m1) (map val ias)) fullDims ->
            in_bounds (map (eval m2) (map val ias)) fullDims ->
            regs (run_binaries code m1) byteId = regs (run_binaries code m2) byteId ->
            map (eval m1) (map val ias) = map (eval m2) (map val ias)).
Proof.
  intros arrayName dims s na s1 ias s2 fullDims Hna Hl Hty Hlen Hk Hnn Hlt Hbase Hmax.
  pose proof (lowers_list_length Hl) as Hias.
  assert (Hk' : (1 <= List.length ias <= List.length fullDims)%nat) by lia.
  destruct (ir_array_access_run Hna Hl Hty Hk' Hnn) as (arith & off & cnt & Hlow & Hbin & Hsem).
  cbv zeta in Hlow, Hsem.
  set (byteId := (cnt + nextId s2)%nat) in *.
  assert (Hfull : skipn (List.length ias) fullDims = [])
    by (apply skipn_all2; lia).
  rewrite Hfull in Hsem.
  set (code := arith ++ [byteOffsetInst_of byteId off;
                         addrInst_of byteId (val na) TypeInt]) in *.
  assert (Hreg : forall m,
             in_bounds (map (eval m) (map val ias)) fullDims ->
             regs (run_binaries code m) byteId
             = (4 * horner (map (eval m) (map val ias)) fullDims)%Z
             /\ (0 <= horner (map (eval m) (map val ias)) fullDims
                 < product fullDims)%Z
             /\ regs (run_binaries code m) (S byteId)
                = wrap32 (eval m (val na) + regs (run_binaries code m) byteId)).
  { intros m Hb.
    destruct (Hsem m Hlt Hbase) as [Hv Ha];
      [constructor | change (product []) with 1%Z; unfold INT32_MAX; lia |].
    destruct (@full_access_offset (map (eval m) (map val ias)) fullDims Hb) as [E R];
      [rewrite !length_map; lia | exact Hmax |].
    rewrite Hv, E. split; [reflexivity|]. split; [exact R|].
    rewrite Ha, Hv, E. reflexivity. }
  eexists _, _, code, byteId, _.
  split; [exact Hlow|]. cbn [blockInsts].
  split; [unfold code; rewrite <- !app_assoc; reflexivity|].
  split.
  { unfold code. rewrite forallb_app, Hbin. reflexivity. }
  split.
  - intros m Hb. destruct (Hreg m Hb) as (E & R & A).
    rewrite (typeSize_int_array (in_bounds_pos Hb) Hmax).
    split; [rewrite E; lia|]. split; [|exact A].
    rewrite E, Z.mul_comm. apply Z.mod_mul. lia.
  - intros m1 m2 Hb1 Hb2 Heq.
    destruct (Hreg m1 Hb1) as (E1 & _ & _). destruct (Hreg m2 Hb2) as (E2 & _ & _).
    rewrite E1, E2 in Heq.
    assert (Hh : horner (map (eval m1) (map val ias)) fullDims
                 = horner (map (eval m2) (map val ias)) fullDims) by lia.
    exact (horner_injective Hb1 Hb2 Hh).
Qed.

Lemma X14_witness :
  exists na ias,
    lowers (ast_leaf_var_id "a") demo_state na demo_state
    /\ lowers_list [ast_leaf_literal_uint 1; ast_leaf_literal_uint 2]
                   demo_state ias demo_state
    /\ getType (val na) = Some (ArrayType TypeInt [3; 4]%Z)
    /\ Forall (fun a => val a <> nullptr) ias
    /\ Forall (value_id_lt (nextId demo_state)) (map val ias)
    /\ value_id_lt (nextId demo_state) (val na)
    /\ (4 * product [3; 4] <= INT32_MAX)%Z
    /\ in_bounds (map (eval (demo_machine 0 0)) (map val ias)) [3; 4]%Z
    /\ exists attrs s3 code byteId,
         lowers demo_access demo_state attrs s3
         /\ (0 <= regs (run_binaries code (demo_machine 0 0)) byteId
             <= typeSize (ArrayType TypeInt [3; 4]) - 4)%Z.
Proof.
  pose (na := mkAttrs demo_a [] nullptr).
  pose (ias := [mkAttrs (ConstInt 1) [] nullptr; mkAttrs (ConstInt 2) [] nullptr]).
  assert (H1 : lowers (ast_leaf_var_id "a") demo_state na demo_state)
    by (vm_compute; reflexivity).
  assert (H2 : lowers_list [ast_leaf_literal_uint 1; ast_leaf_literal_uint 2]
                           demo_state ias demo_state)
    by (repeat (eapply lowers_cons; [vm_compute; reflexivity|]); apply lowers_nil).
  assert (H3 : getType (val na) = Some (ArrayType TypeInt [3; 4]%Z)) by reflexivity.
  assert (H4 : List.length [ast_leaf_literal_uint 1; ast_leaf_literal_uint 2]
               = List.length [3; 4]%Z) by reflexivity.
  assert (H5 : (1 <= List.length [ast_leaf_literal_uint 1;
                                  ast_leaf_literal_uint 2])%nat) by (simpl; lia).
  assert (H6 : Forall (fun a => val a <> nullptr) ias)
    by (repeat constructor; discriminate).
  assert (H7 : Forall (value_id_lt (nextId demo_state)) (map val ias))
    by (repeat constructor).
  assert (H8 : value_id_lt (nextId demo_state) (val na)) by exact I.
  assert (H9 : (4 * product [3; 4] <= INT32_MAX)%Z) by (vm_compute; discriminate).
  assert (Hb : in_bounds (map (eval (demo_machine 0 0)) (map val ias)) [3; 4]%Z)
    by (repeat constructor; simpl; lia).
  exists na, ias.
  split; [exact H1|]. split; [exact H2|]. split; [exact H3|]. split; [exact H6|].
  split; [exact H7|]. split; [exact H8|]. split; [exact H9|]. split; [exact Hb|].
  destruct (X14_in_bounds_access_stays_inside H1 H2 H3 H4 H5 H6 H7 H8 H9)
    as (attrs & s3 & code & byteId & final & L & _ & _ & R & _).
  exists attrs, s3, code, byteId. split; [exact L|].
  exact (proj1 (R (demo_machine 0 0) Hb)).
Defined.

(* ------------------------------------------------------------------ *)
(** * Global variables and the selector's dispatch *)

(** X15.  Whatever sequence of [setInitializer] calls a new global
    variable receives, it is in the BSS section exactly when every call
    passed a null pointer; a variable that is in BSS has no initializer,
    and the alignment stays 4.  (Setting a non-null initializer and then a
    null one leaves a variable without initializer outside BSS.) *)
Theorem X15_bss_after_any_initializers :
  forall ty name inits,
    let g := setInitializers (GlobalVariable.new ty name) inits in
    GlobalVariable.isInBSSSection g = forallb InstSelectorArm32.is_nullptr inits
    /\ (GlobalVariable.isInBSSSection g = true ->
        GlobalVariable.getInitializer g = nullptr)
    /\ GlobalVariable.alignment g = 4%Z.
Proof.
  intros ty name inits.
  assert (G : forall l g0,
             (GlobalVariable.isInBSSSection g0 = true ->
              GlobalVariable.getInitializer g0 = nullptr) ->
             let g := setInitializers g0 l in
             GlobalVariable.isInBSSSection g
             = GlobalVariable.isInBSSSection g0 && forallb InstSelectorArm32.is_nullptr l
             /\ (GlobalVariable.isInBSSSection g = true ->
                 GlobalVariable.getInitializer g = nullptr)
             /\ GlobalVariable.alignment g = GlobalVariable.alignment g0).
  { induction l as [|v l IH]; intros g0 H0; cbn zeta.
    - unfold setInitializers. simpl. rewrite andb_true_r. auto.
    - unfold setInitializers. cbn [fold_left].
      fold (setInitializers (GlobalVariable.setInitializer g0 v) l).
      destruct (IH (GlobalVariable.setInitializer g0 v)) as (E & I & A).
      + destruct v; simpl; intros Hb; try discriminate Hb. reflexivity.
      + split; [|split; [exact I|]].
        * rewrite E. unfold GlobalVariable.isInBSSSection.
          destruct v; simpl; rewrite ?andb_false_r; reflexivity.
        * rewrite A. reflexivity. }
  destruct (G inits (GlobalVariable.new ty name) (fun _ => eq_refl)) as (E & I & A).
  cbn zeta. split; [exact E|]. split; [exact I | exact A].
Qed.

(** X16.  The selector has a handler for the operator of every instruction
    class except [LoadArrayInstruction] and [StoreArrayInstruction], and
    [run] produces for an instruction list exactly what it produces for the
    list with the array loads and stores removed: these instructions are
    skipped, whatever the handlers do. *)
Theorem X16_selector_skips_array_memory_accesses :
  (forall inst,
     Dispatch.translator_handlers (Dispatch.getOp inst) = None
     <-> is_array_memory_access inst = true)
  /\ forall (SelectorState : Type) call outputIRInstruction showLinearIR isDead
            (ir : InterCode) (st : SelectorState),
       Dispatch.run call outputIRInstruction showLinearIR isDead ir st
       = Dispatch.run call outputIRInstruction showLinearIR isDead
                      (filter (fun i => negb (is_array_memory_access i)) ir) st.
Proof.
  assert (H : forall inst,
             Dispatch.translator_handlers (Dispatch.getOp inst) = None
             <-> is_array_memory_access inst = true).
  { intros inst. destruct inst as [| | | | |id op a b ty| | | |];
      try destruct op; cbn; split; intros E; try discriminate E; reflexivity. }
  split; [exact H|].
  intros SelectorState call outputIRInstruction showLinearIR isDead ir.
  assert (T : forall i st, is_array_memory_access i = true ->
                 Dispatch.translate call outputIRInstruction showLinearIR i st = st).
  { intros i st E. apply H in E. unfold Dispatch.translate. rewrite E. reflexivity. }
  unfold Dispatch.run.
  induction ir as [|i ir IH]; intros st; [reflexivity|].
  cbn [fold_left filter].
  destruct (is_array_memory_access i) eqn:E; cbn [negb].
  - rewrite (T i st E). destruct (isDead i); apply IH.
  - cbn [fold_left]. apply IH.
Qed.

Lemma X15_witness :
  GlobalVariable.isInBSSSection
    (setInitializers (GlobalVariable.new TypeInt "g") [ConstInt 1; nullptr])
  = false
  /\ GlobalVariable.getInitializer
       (setInitializers (GlobalVariable.new TypeInt "g") [ConstInt 1; nullptr])
     = nullptr.
Proof.
  split; [|reflexivity].
  exact (proj1 (X15_bss_after_any_initializers TypeInt "g" [ConstInt 1; nullptr])).
Defined.

Lemma X16_witness :
  Dispatch.run (fun _ i st => st ++ [i]) (fun _ st => st) false (fun _ => false)
               [LabelInstruction 1;
                LoadArrayInstruction 2 demo_a (ConstInt 0) TypeInt;
                StoreArrayInstruction (ConstInt 7) demo_a (ConstInt 0);
                Goto 1] []
  = Dispatch.run (fun _ i st => st ++ [i]) (fun _ st => st) false (fun _ => false)
                 [LabelInstruction 1; Goto 1] [].
Proof.
  exact (proj2 X16_selector_skips_array_memory_accesses _
               (fun _ i st => st ++ [i]) (fun _ st => st) false (fun _ => false)
               [LabelInstruction 1;
                LoadArrayInstruction 2 demo_a (ConstInt 0) TypeInt;
                StoreArrayInstruction (ConstInt 7) demo_a (ConstInt 0);
                Goto 1] []).
Defined.

(* ------------------------------------------------------------------ *)
(** * Every function of the module is closed *)

Lemma others_kept_refl : forall name s, others_kept name s s.
Proof.
  intros name s. split; [reflexivity|]. intros nm _.
  destruct (findFunction_in nm (functions s)); [reflexivity | exact I].
Qed.

Lemma others_kept_trans :
  forall name s1 s2 s3,
    others_kept name s1 s2 -> others_kept name s2 s3 -> others_kept name s1 s3.
Proof.
  intros name s1 s2 s3 [C1 F1] [C2 F2]. split; [congruence|].
  intros nm Hn. specialize (F1 nm Hn). specialize (F2 nm Hn).
  destruct (findFunction_in nm (functions s1)), (findFunction_in nm (functions s2)),
    (findFunction_in nm (functions s3)); try contradiction; try exact I.
  congruence.
Qed.

Lemma functions_kept_others :
  forall name s s', functions_kept s s' -> others_kept name s s'.
Proof.
  intros name s s' [C F]. split; [exact C|]. intros nm _. specialize (F nm).
  destruct (findFunction_in nm (functions s)), (findFunction_in nm (functions s'));
    try contradiction; try exact I.
  destruct F as (_ & _ & _ & E & _). exact E.
Qed.

Lemma others_kept_eq :
  forall name s s',
    functions s' = functions s -> currentFunction s' = currentFunction s ->
    others_kept name s s'.
Proof.
  intros name s s' Hf Hc. split; [exact Hc|]. intros nm _. rewrite Hf.
  destruct (findFunction_in nm (functions s)); [reflexivity | exact I].
Qed.

(** A write through the pointer to the current function [name]. *)
Lemma updCurrentFunction_others :
  forall name upd s n,
    currentFunction s = Some name ->
    (forall g, fn_name (upd g) = fn_name g) ->
    exists s',
      updCurrentFunction upd s n = Ret tt s' n
      /\ others_kept name s s'
      /\ nextId s' = nextId s.
Proof.
  intros name upd s n EC Hn. unfold updCurrentFunction, modifyState. rewrite EC.
  eexists. split; [reflexivity|]. split; [|reflexivity].
  split; [reflexivity|]. intros nm Hne.
  cbn [functions set_functions].
  rewrite (findFunction_in_update name upd (functions s) nm Hn).
  destruct (String.eqb name nm) eqn:E.
  - apply String.eqb_eq in E. congruence.
  - destruct (findFunction_in nm (functions s)); [reflexivity | exact I].
Qed.

Ltac step_upd_others H name EC :=
  gen_red_in H;
  match type of H with
  | context [updCurrentFunction ?upd ?s ?n] =>
      let s1 := fresh "s" in
      let E := fresh "E" in
      let O := fresh "O" in
      let M := fresh "M" in
      destruct (@updCurrentFunction_others name upd s n)
        as (s1 & E & O & M);
      [first [exact EC | destruct EC; assumption | congruence]
      | intros ?; reflexivity
      | rewrite E in H; clear E; gen_red_in H]
  end.

Lemma formal_params_first_others :
  forall name params s n s' n',
    currentFunction s = Some name ->
    Forall node_shape (flat_map formal_param_dim_nodes params) ->
    forallb body_node (flat_map formal_param_dim_nodes params) = true ->
    formal_params_first (map formal_param_view_of params) s n = Ret tt s' n' ->
    others_kept name s s'.
Proof.
  intros name. induction params as [|p ps IH]; intros s n s' n' EC Hs Hb H.
  - simpl in H. gen_red_in H. inversion H; subst. apply others_kept_refl.
  - simpl in Hs. apply Forall_app in Hs. destruct Hs as [Hp Hps].
    simpl in Hb. rewrite forallb_app in Hb. apply andb_prop in Hb.
    destruct Hb as [Hbp Hbps].
    destruct p;
      cbn [map formal_param_view_of formal_params_first option_map] in H;
      gen_red_in H; try discriminate H.
    destruct dims as [dl|]; simpl in Hp, Hbp;
      cbn [map formal_param_view_of formal_params_first option_map] in H;
      gen_red_in H.
    + match type of H with
      | context [formal_param_dims ?l ?ds ?st ?nt] =>
          destruct (formal_param_dims l ds st nt) as [r s1 n1| |] eqn:E;
            gen_red_in H; try discriminate H
      end.
      apply formal_param_dims_inv in E. destruct E as (ias & Hl & -> & ->).
      destruct (lowers_list_shape Hp Hl) as (_ & _ & K).
      destruct (K Hbp) as [Fk _].
      pose proof (functions_kept_others name Fk) as O1.
      assert (EC1 : currentFunction s1 = Some name)
        by (destruct Fk as [C _]; congruence).
      assert (EC2 : currentFunction (set_nextId s1 (S (nextId s1))) = Some name)
        by exact EC1.
      step_upd_others H name EC2.
      assert (EC3 : currentFunction s0 = Some name)
        by (destruct O as [C _]; rewrite C; exact EC2).
      apply (IH _ _ _ _ EC3 Hps Hbps) in H.
      eapply others_kept_trans; [exact O1|].
      eapply others_kept_trans; [|exact H].
      eapply others_kept_trans; [|exact O].
      apply others_kept_eq; reflexivity.
    + assert (EC2 : currentFunction (set_nextId s (S (nextId s))) = Some name)
        by exact EC.
      step_upd_others H name EC2.
      assert (EC3 : currentFunction s0 = Some name)
        by (destruct O as [C _]; rewrite C; exact EC2).
      apply (IH _ _ _ _ EC3 Hps Hbps) in H.
      eapply others_kept_trans; [|exact H].
      eapply others_kept_trans; [|exact O].
      apply others_kept_eq; reflexivity.
Qed.

Lemma formal_params_second_others :
  forall name sons i s n s' n',
    currentFunction s = Some name ->
    formal_params_second sons i s n = Ret tt s' n' ->
    others_kept name s s'.
Proof.
  intros name. induction sons as [|p ps IH]; intros i s n s' n' EC H.
  - simpl in H. gen_red_in H. inversion H; subst. apply others_kept_refl.
  - cbn [formal_params_second] in H. unfold getCurrentFunction in H.
    gen_red_in H. fold (cur_fn s) in H.
    destruct (cur_fn s) as [f0|] eqn:Ef; [|discriminate H].
    destruct p as [[[ty pname] dn]|]; [|discriminate H].
    destruct (nth_error (fn_params f0) i) as [fp|]; [|discriminate H].
    destruct (getType fp) as [ty'|]; [|discriminate H].
    gen_red_in H.
    match type of H with
    | context [newVarValue ?t ?nm ?st ?nt] =>
        destruct (newVarValue_cases t nm st nt) as (v & s1 & E & _ & _ & _ & Fk);
          rewrite E in H; clear E; gen_red_in H
    end.
    pose proof (functions_kept_others name Fk) as O1.
    assert (EC1 : currentFunction s1 = Some name)
      by (destruct Fk as [C _]; congruence).
    step_upd_others H name EC1.
    assert (EC3 : currentFunction s0 = Some name)
      by (destruct O as [C _]; rewrite C; exact EC1).
    apply (IH _ _ _ _ _ EC3) in H.
    eapply others_kept_trans; [exact O1|].
    eapply others_kept_trans; [exact O | exact H].
Qed.

Lemma findFunction_in_app_other :
  forall nm fs f,
    fn_name f <> nm ->
    findFunction_in nm (fs ++ [f]) = findFunction_in nm fs.
Proof.
  intros nm fs f Hn. induction fs as [|g fs IH]; simpl.
  - destruct (String.eqb (fn_name f) nm) eqn:E; [|reflexivity].
    apply String.eqb_eq in E. contradiction.
  - destruct (String.eqb (fn_name g) nm); [reflexivity | exact IH].
Qed.

(** [ir_function_define] leaves the code of the other functions alone. *)
Lemma ir_function_define_others :
  forall retType name params block s a s',
    forallb body_node (visited_sons (ast_func_def retType name params block)) = true ->
    lowers (ast_func_def retType name params block) s a s' ->
    forall nm, nm <> name ->
      match findFunction_in nm (functions s), findFunction_in nm (functions s') with
      | Some f, Some f' => fn_interCode f' = fn_interCode f
      | None, None => True
      | _, _ => False
      end.
Proof.
  intros retType name params block s a s' Hbody Hv.
  assert (Hs : Forall node_shape (visited_sons (ast_func_def retType name params block))).
  { apply Forall_forall. intros x _. apply all_nodes_shape. }
  unfold lowers in Hv. simpl ir_visit_ast_node in Hv.
  change (map (fun p : ast_node =>
                 match p with
                 | ast_func_formal_param ty pname dims =>
                     Some (ty, pname, option_map (map ir_visit_ast_node) dims)
                 | _ => None
                 end) params)
    with (map formal_param_view_of params) in Hv.
  simpl visited_sons in *. apply Forall_app in Hs. destruct Hs as [Hps Hbs].
  rewrite forallb_app in Hbody. apply andb_prop in Hbody. destruct Hbody as [Hbp Hbb].
  set (body := match block with ast_block _ sons => sons | _ => [] end) in *.
  assert (Hbd : match block with
                | ast_block _ sons => map ir_visit_ast_node sons
                | _ => []
                end = map ir_visit_ast_node body)
    by (destruct block; reflexivity).
  rewrite Hbd in Hv. clear Hbd. clearbody body.
  unfold ir_function_define, getCurrentFunction, newFunction, setCurrentFunction,
    enterScope, leaveScope in Hv.
  gen_red_in Hv. fold (cur_fn s) in Hv.
  destruct (cur_fn s) as [f00|] eqn:Ecur; [discriminate Hv|].
  destruct (findFunction_in name (functions s)) as [f00|] eqn:Efind;
    [discriminate Hv|].
  gen_red_in Hv.
  set (f0 := mkFunction name retType [] [] None nullptr false 0%Z) in *.
  match type of Hv with
  | context [updCurrentFunction _ ?st _] => set (sa := st) in *
  end.
  assert (ECa : currentFunction sa = Some name) by reflexivity.
  assert (Oa : forall nm, nm <> name ->
                 findFunction_in nm (functions sa) = findFunction_in nm (functions s)).
  { intros nm Hn. unfold sa. cbn [functions set_functions set_scopeStack
                                   set_currentFunction].
    apply findFunction_in_app_other. simpl. congruence. }
  (* entry *)
  step_upd_others Hv name ECa. rename O into O1. rename s0 into s1.
  assert (EC1 : currentFunction s1 = Some name)
    by (destruct O1 as [C _]; rewrite C; exact ECa).
  assert (EC1' : currentFunction (set_nextId s1 (S (nextId s1))) = Some name)
    by exact EC1.
  (* exit label *)
  step_upd_others Hv name EC1'. rename O into O2. rename s0 into s2.
  assert (EC2 : currentFunction s2 = Some name)
    by (destruct O2 as [C _]; rewrite C; exact EC1').
  (* formal parameters *)
  unfold ir_function_formal_params, getCurrentFunction in Hv. gen_red_in Hv.
  fold (cur_fn s2) in Hv.
  destruct (cur_fn s2) as [f2|]; gen_red_in Hv; [|discriminate Hv].
  match type of Hv with
  | context [formal_params_first ?l ?st ?nt] =>
      destruct (formal_params_first l st nt) as [[] s3 n3| |] eqn:E3;
        gen_red_in Hv; try discriminate Hv
  end.
  pose proof (@formal_params_first_others name params _ _ _ _ EC2 Hps Hbp E3) as O3.
  assert (EC3 : currentFunction s3 = Some name)
    by (destruct O3 as [C _]; rewrite C; exact EC2).
  match type of Hv with
  | context [formal_params_second ?l ?i ?st ?nt] =>
      destruct (formal_params_second l i st nt) as [[] s4 n4| |] eqn:E4;
        gen_red_in Hv; try discriminate Hv
  end.
  pose proof (@formal_params_second_others name _ _ _ _ _ _ EC3 E4) as O4.
  assert (EC4 : currentFunction s4 = Some name)
    by (destruct O4 as [C _]; rewrite C; exact EC3).
  assert (O14 : others_kept name sa s4).
  { eapply others_kept_trans; [exact O1|].
    eapply others_kept_trans; [apply others_kept_eq; reflexivity|].
    eapply others_kept_trans; [exact O2|].
    eapply others_kept_trans; [exact O3 | exact O4]. }
  clear O1 O2 O3 O4 E3 E4.
  assert (Hfinal : forall s5 s6 s7 : GenState,
             others_kept name s4 s5 -> others_kept name s5 s6 ->
             others_kept name s6 s7 ->
             forall nm, nm <> name ->
               match findFunction_in nm (functions s),
                     findFunction_in nm (functions s7) with
               | Some f, Some f' => fn_interCode f' = fn_interCode f
               | None, None => True
               | _, _ => False
               end).
  { intros s5 s6 s7 A B C nm Hn.
    pose proof (others_kept_trans O14 (others_kept_trans A (others_kept_trans B C)))
      as [_ F].
    specialize (F nm Hn). rewrite (Oa nm Hn) in F. exact F. }
  (* the return value, then the body *)
  destruct (isVoidType retType); gen_red_in Hv.
  - unfold ir_block in Hv. gen_red_in Hv.
    match type of Hv with
    | context [ir_block_sons ?l ?st ?nt] =>
        destruct (ir_block_sons l st nt) as [[] s5 n5| |] eqn:E5;
          gen_red_in Hv; try discriminate Hv
    end.
    apply ir_block_sons_inv in E5. destruct E5 as (ias & Hl & ->).
    destruct (lowers_list_shape Hbs Hl) as (_ & _ & K5).
    destruct (K5 Hbb) as [F5 _].
    assert (EC5 : currentFunction s5 = Some name)
      by (destruct F5 as [C _]; rewrite C; exact EC4).
    step_upd_others Hv name EC5. rename O into O6. rename s0 into s6.
    assert (EC6 : currentFunction s6 = Some name)
      by (destruct O6 as [C _]; rewrite C; exact EC5).
    step_upd_others Hv name EC6. rename O into O7. rename s0 into s7.
    inversion Hv; subst; clear Hv.
    cbn [functions set_functions set_scopeStack set_currentFunction].
    exact (Hfinal _ _ _ (functions_kept_others name F5) O6 O7).
  - match type of Hv with
    | context [newVarValue ?t ?nm ?st ?nt] =>
        destruct (newVarValue_cases t nm st nt) as (rv & sA & E & _ & _ & _ & FA);
          rewrite E in Hv; clear E; gen_red_in Hv
    end.
    assert (ECA : currentFunction sA = Some name)
      by (destruct FA as [C _]; rewrite C; exact EC4).
    step_upd_others Hv name ECA. rename O into OB. rename s0 into sB.
    assert (ECB : currentFunction sB = Some name)
      by (destruct OB as [C _]; rewrite C; exact ECA).
    unfold ir_block in Hv. gen_red_in Hv.
    match type of Hv with
    | context [ir_block_sons ?l ?st ?nt] =>
        destruct (ir_block_sons l st nt) as [[] s5 n5| |] eqn:E5;
          gen_red_in Hv; try discriminate Hv
    end.
    apply ir_block_sons_inv in E5. destruct E5 as (ias & Hl & ->).
    destruct (lowers_list_shape Hbs Hl) as (_ & _ & K5).
    destruct (K5 Hbb) as [F5 _].
    assert (EC5 : currentFunction s5 = Some name)
      by (destruct F5 as [C _]; rewrite C; exact ECB).
    step_upd_others Hv name EC5. rename O into O6. rename s0 into s6.
    assert (EC6 : currentFunction s6 = Some name)
      by (destruct O6 as [C _]; rewrite C; exact EC5).
    step_upd_others Hv name EC6. rename O into O7. rename s0 into s7.
    inversion Hv; subst; clear Hv.
    cbn [functions set_functions set_scopeStack set_currentFunction].
    refine (Hfinal _ _ _ _ O6 O7).
    eapply others_kept_trans; [exact (functions_kept_others name FA)|].
    eapply others_kept_trans; [exact OB|].
    exact (functions_kept_others name F5).
Qed.

(** X17.  After a compile unit whose children are declarations and
    function definitions without nested definitions was lowered, starting
    outside any loop from a module whose functions are closed (the empty
    module, for one), every function of the module is closed: its code
    places no label twice, and each of its branches goes to a label placed
    in its own code. *)
Theorem X17_module_functions_closed :
  forall sons s a s',
    forallb unit_node sons = true ->
    loopCondStack s = [] -> loopEndStack s = [] ->
    (forall nm f, findFunction_in nm (functions s) = Some f -> fn_closed f) ->
    lowers (ast_compile_unit sons) s a s' ->
    forall nm f, findFunction_in nm (functions s') = Some f -> fn_closed f.
Proof.
  intros sons s a s' Hu Hc He Hin Hv.
  unfold lowers in Hv. simpl ir_visit_ast_node in Hv.
  unfold ir_compile_unit, setCurrentFunction in Hv. gen_red_in Hv.
  match type of Hv with
  | context [ir_compile_unit_sons ?l ?st ?nt] =>
      destruct (ir_compile_unit_sons l st nt) as [[] s3 n3| |] eqn:E;
        gen_red_in Hv; try discriminate Hv
  end.
  apply ir_compile_unit_sons_inv in E. destruct E as (-> & ias & Hl).
  inversion Hv; subst; clear Hv.
  remember (set_currentFunction s None) as s0 eqn:Es0.
  assert (Hc0 : loopCondStack s0 = []) by (subst s0; exact Hc).
  assert (He0 : loopEndStack s0 = []) by (subst s0; exact He).
  assert (Hin0 : forall nm f, findFunction_in nm (functions s0) = Some f -> fn_closed f)
    by (subst s0; exact Hin).
  clear Es0 Hc He Hin s.
  induction Hl as [s|x xs s ax s1 rest s2 Hx Hxs IH]; [exact Hin0|].
  cbn [forallb] in Hu. apply andb_prop in Hu. destruct Hu as [Hux Huxs].
  destruct (proj1 (proj2 (@all_nodes_shape x s empty_attrs ax s1 empty_attrs Hx)))
    as [B1 B2].
  apply IH; [exact Huxs | congruence | congruence |].
  intros nm f Hf.
  assert (Hbody : body_node x = true ->
                  forall nm f, findFunction_in nm (functions s1) = Some f -> fn_closed f).
  { intros Hb nm0 g Hg.
    destruct (proj2 (proj2 (@all_nodes_shape x s empty_attrs ax s1 empty_attrs Hx)) Hb)
      as [[_ K] _].
    specialize (K nm0). rewrite Hg in K.
    destruct (findFunction_in nm0 (functions s)) as [g0|] eqn:Eg0; [|contradiction].
    destruct K as (_ & _ & _ & Ecode & _).
    unfold fn_closed. rewrite Ecode. exact (Hin0 _ _ Eg0). }
  destruct x; try (exact (Hbody Hux nm f Hf)).
  cbn [unit_node] in Hux.
  destruct (String.eqb nm name) eqn:En.
  - apply String.eqb_eq in En. subst nm.
    destruct (@ir_function_define_closed _ _ _ _ _ _ _ Hux Hc0 He0 Hx)
      as (g & _ & _ & Hg & _ & _ & _ & Cg).
    rewrite Hg in Hf. inversion Hf; subst. exact Cg.
  - apply String.eqb_neq in En.
    pose proof (@ir_function_define_others _ _ _ _ _ _ _ Hux Hx nm En) as K.
    rewrite Hf in K.
    destruct (findFunction_in nm (functions s)) as [g0|] eqn:Eg0; [|contradiction].
    unfold fn_closed. rewrite K. exact (Hin0 _ _ Eg0).
Qed.

Lemma X17_witness :
  exists a s',
    forallb unit_node [demo_fn;
                       ast_func_def TypeInt "main" []
                         (ast_block false
                            [ast_return
                               (Some (ast_func_call "g" [ast_leaf_literal_uint 3]))])]
    = true
    /\ loopCondStack initState = [] /\ loopEndStack initState = []
    /\ (forall nm f, findFunction_in nm (functions initState) = Some f -> fn_closed f)
    /\ lowers demo_unit initState a s'
    /\ (exists f, findFunction_in "main" (functions s') = Some f)
    /\ forall nm f, findFunction_in nm (functions s') = Some f -> fn_closed f.
Proof.
  pose (r := run demo_unit initState).
  assert (H1 : forallb unit_node
                 [demo_fn;
                  ast_func_def TypeInt "main" []
                    (ast_block false
                       [ast_return
                          (Some (ast_func_call "g" [ast_leaf_literal_uint 3]))])]
               = true) by reflexivity.
  assert (H2 : forall nm f, findFunction_in nm (functions initState) = Some f ->
                            fn_closed f)
    by (intros nm f H; discriminate H).
  assert (H3 : lowers demo_unit initState (attrs_of r) (state_of r))
    by (vm_compute; reflexivity).
  exists (attrs_of r), (state_of r).
  split; [exact H1|]. split; [reflexivity|]. split; [reflexivity|].
  split; [exact H2|]. split; [exact H3|].
  split; [eexists; vm_compute; reflexivity|].
  exact (@X17_module_functions_closed _ initState _ _ H1 eq_refl eq_refl H2 H3).
Defined.

(* ------------------------------------------------------------------ *)
(** * Formal parameters *)

Lemma updCurrentFunction_run :
  forall upd s n f,
    cur_fn s = Some f ->
    (forall g, fn_name (upd g) = fn_name g) ->
    exists s',
      updCurrentFunction upd s n = Ret tt s' n
      /\ cur_fn s' = Some (upd f)
      /\ nextId s' = nextId s
      /\ scopeStack s' = scopeStack s
      /\ currentFunction s' = currentFunction s.
Proof.
  intros upd s n f Hf Hn. unfold updCurrentFunction, modifyState, cur_fn in *.
  destruct (currentFunction s) as [nm|] eqn:EC; [|discriminate Hf].
  eexists. split; [reflexivity|].
  cbn [currentFunction functions set_functions nextId scopeStack].
  rewrite EC, (findFunction_in_update nm upd (functions s) nm Hn),
    String.eqb_refl, Hf.
  repeat split; reflexivity.
Qed.

Lemma formal_param_dims_literals :
  forall dims cs, literal_dims dims = Some cs ->
    forall ds s n,
      formal_param_dims (map ir_visit_ast_node dims) ds s n = Ret (ds ++ cs) s n.
Proof.
  induction dims as [|d dims IH]; intros cs H ds s n.
  - inversion H; subst. simpl. unfold ret. rewrite app_nil_r. reflexivity.
  - destruct d; try discriminate H. cbn [literal_dims] in H.
    destruct (literal_dims dims) as [cs'|] eqn:E; [|discriminate H].
    inversion H; subst. cbn [map formal_param_dims ir_visit_ast_node].
    unfold ir_leaf_node_uint. gen_red.
    rewrite (IH cs' eq_refl). rewrite <- app_assoc. reflexivity.
Qed.

(** The first loop: one [FormalParam] per parameter, appended in order. *)
Lemma formal_params_first_run :
  forall params sig,
    map formal_param_sig params = map Some sig ->
    forall s n f,
      cur_fn s = Some f ->
      exists s',
        formal_params_first (map formal_param_view_of params) s n = Ret tt s' n
        /\ cur_fn s' = Some (fn_with_params f (formals_from (nextId s) sig) [])
        /\ nextId s' = (nextId s + List.length sig)%nat
        /\ scopeStack s' = scopeStack s
        /\ currentFunction s' = currentFunction s.
Proof.
  induction params as [|p ps IH]; intros sig Hsig s n f Hf.
  - destruct sig; [|discriminate Hsig]. exists s. simpl.
    split; [reflexivity|].
    split; [rewrite Hf; unfold fn_with_params; rewrite !app_nil_r;
            destruct f; reflexivity|].
    split; [lia|]. split; reflexivity.
  - destruct sig as [|[ty pname] sig]; [discriminate Hsig|].
    cbn [map] in Hsig. inversion Hsig as [[Hp Hps]]. clear Hsig.
    assert (Hstep : forall ty' (s0 : GenState) n0,
               s0 = s ->
               exists s1,
                 (id <- new_id ;;
                  updCurrentFunction (fn_addParam (FormalParam id ty' pname)) ;;
                  formal_params_first (map formal_param_view_of ps)) s0 n0
                 = Ret tt s1 n0
                 /\ cur_fn s1
                    = Some (fn_with_params f
                              (FormalParam (nextId s) ty' pname
                               :: formals_from (S (nextId s)) sig) [])
                 /\ nextId s1 = (nextId s + S (List.length sig))%nat
                 /\ scopeStack s1 = scopeStack s
                 /\ currentFunction s1 = currentFunction s).
    { intros ty' s0 n0 ->. gen_red.
      assert (Hf' : cur_fn (set_nextId s (S (nextId s))) = Some f) by exact Hf.
      destruct (@updCurrentFunction_run
                  (fn_addParam (FormalParam (nextId s) ty' pname))
                  (set_nextId s (S (nextId s))) n0 f Hf' (fun g => eq_refl))
        as (s1 & E1 & C1 & M1 & S1 & K1).
      rewrite E1.
      destruct (IH sig Hps s1 n0 _ C1) as (s2 & E2 & C2 & M2 & S2 & K2).
      exists s2. split; [exact E2|].
      split.
      { rewrite C2, M1. cbn [nextId set_nextId]. unfold fn_with_params, fn_addParam.
        cbn [fn_name fn_returnType fn_params fn_interCode fn_exitLabel
             fn_returnValue fn_existFuncCall fn_maxFuncCallArgCnt].
        rewrite <- !app_assoc. reflexivity. }
      split; [rewrite M2, M1; cbn [nextId set_nextId]; lia|].
      split; [rewrite S2, S1; reflexivity | rewrite K2, K1; reflexivity]. }
    destruct p; try discriminate Hp.
    destruct dims as [dl|];
      cbn [formal_param_sig] in Hp;
      cbn [map formal_param_view_of formal_params_first option_map].
    + destruct (literal_dims dl) as [cs|] eqn:El; [|discriminate Hp].
      inversion Hp; subst. unfold bind at 1. unfold bind at 1.
      rewrite (formal_param_dims_literals dl El). unfold ret at 1.
      cbn [formals_from app]. apply Hstep. reflexivity.
    + inversion Hp; subst. unfold bind at 1. unfold ret at 1.
      cbn [formals_from]. apply Hstep. reflexivity.
Qed.

Lemma newVarValue_local :
  forall ty name s n f,
    cur_fn s = Some f ->
    exists s',
      newVarValue ty name s n = Ret (LocalVariable (nextId s) ty name) s' n
      /\ cur_fn s' = Some f
      /\ nextId s' = S (nextId s)
      /\ currentFunction s' = currentFunction s.
Proof.
  intros ty name s n f Hf. unfold newVarValue, cur_fn in *.
  destruct (currentFunction s) as [nm|] eqn:EC; [|discriminate Hf].
  destruct (String.eqb name ""); eexists; (split; [reflexivity|]);
    cbn [currentFunction functions nextId set_nextId set_scopeStack];
    rewrite EC; repeat split; assumption.
Qed.

(** The second loop: one local per parameter and its copy. *)
Lemma formal_params_second_run :
  forall params sig,
    map formal_param_sig params = map Some sig ->
    forall i s n f pre fid,
      cur_fn s = Some f ->
      fn_params f = pre ++ formals_from fid sig ->
      List.length pre = i ->
      exists s',
        formal_params_second (map formal_param_view_of params) i s n = Ret tt s' n
        /\ cur_fn s' = Some (fn_with_params f [] (param_moves (nextId s) fid sig))
        /\ nextId s' = (nextId s + List.length sig)%nat.
Proof.
  induction params as [|p ps IH]; intros sig Hsig i s n f pre fid Hf Hpar Hlen.
  - destruct sig; [|discriminate Hsig]. exists s. simpl.
    split; [reflexivity|].
    split; [rewrite Hf; unfold fn_with_params; rewrite !app_nil_r;
            destruct f; reflexivity | lia].
  - destruct sig as [|[ty pname] sig]; [discriminate Hsig|].
    cbn [map] in Hsig. inversion Hsig as [[Hp Hps]]. clear Hsig.
    assert (Hview : exists t0 dn, formal_param_view_of p = Some (t0, pname, dn)).
    { destruct p; try discriminate Hp. destruct dims as [dl|]; cbn in Hp.
      - destruct (literal_dims dl); [|discriminate Hp]. inversion Hp; subst.
        do 2 eexists. reflexivity.
      - inversion Hp; subst. do 2 eexists. reflexivity. }
    destruct Hview as (t0 & dn & Hview).
    cbn [map formal_params_second]. rewrite Hview.
    unfold getCurrentFunction. gen_red. fold (cur_fn s). rewrite Hf.
    assert (Hnth : nth_error (fn_params f) i = Some (FormalParam fid ty pname)).
    { rewrite Hpar, nth_error_app2 by lia.
      replace (i - List.length pre)%nat with 0%nat by lia. reflexivity. }
    rewrite Hnth. cbn [getType]. gen_red.
    destruct (@newVarValue_local ty pname s n f Hf) as (s1 & E1 & C1 & M1 & K1).
    rewrite E1.
    destruct (@updCurrentFunction_run
                (fn_addInsts [MoveInstruction (LocalVariable (nextId s) ty pname)
                                              (FormalParam fid ty pname)])
                s1 n f C1 (fun g => eq_refl))
      as (s2 & E2 & C2 & M2 & _ & K2).
    rewrite E2.
    destruct (IH sig Hps (S i) s2 n _ (pre ++ [FormalParam fid ty pname]) (S fid) C2)
      as (s3 & E3 & C3 & M3).
    { cbn [fn_params fn_addInsts]. rewrite Hpar, <- app_assoc. reflexivity. }
    { rewrite length_app. simpl. lia. }
    exists s3. split; [exact E3|]. split.
    + rewrite C3, M2, M1. unfold fn_with_params, fn_addInsts.
      cbn [fn_name fn_returnType fn_params fn_interCode fn_exitLabel
           fn_returnValue fn_existFuncCall fn_maxFuncCallArgCnt param_moves].
      rewrite <- !app_assoc. reflexivity.
    + rewrite M3, M2, M1. simpl. lia.
Qed.

(** X18.  For formal parameters whose dimensions, if any, are literals,
    [ir_function_formal_params] succeeds and gives the current function,
    in the order of the declaration, one [FormalParam] per parameter (an
    array parameter with 0 as first dimension) and then, appended to the
    code of the function, one move per parameter from that [FormalParam]
    into a new local of the same type and name. *)
Theorem X18_formal_parameters :
  forall params sig s n f,
    map formal_param_sig params = map Some sig ->
    cur_fn s = Some f ->
    fn_params f = [] ->
    exists s',
      ir_function_formal_params (map formal_param_view_of params) s n = Ret tt s' n
      /\ cur_fn s'
         = Some (fn_with_params f (formals_from (nextId s) sig)
                   (param_moves (nextId s + List.length sig) (nextId s) sig))
      /\ nextId s' = (nextId s + 2 * List.length sig)%nat.
Proof.
  intros params sig s n f Hsig Hf Hnil.
  unfold ir_function_formal_params, getCurrentFunction. gen_red.
  fold (cur_fn s). rewrite Hf.
  destruct (@formal_params_first_run params sig Hsig s n f Hf) as (s1 & E1 & C1 & M1 & _ & _).
  rewrite E1.
  destruct (@formal_params_second_run params sig Hsig 0 s1 n _ [] (nextId s) C1)
    as (s2 & E2 & C2 & M2).
  { cbn [fn_params fn_with_params]. rewrite Hnil. reflexivity. }
  { reflexivity. }
  exists s2. split; [exact E2|]. split.
  - rewrite C2, M1. unfold fn_with_params.
    cbn [fn_name fn_returnType fn_params fn_interCode fn_exitLabel
         fn_returnValue fn_existFuncCall fn_maxFuncCallArgCnt].
    rewrite !app_nil_r. reflexivity.
  - rewrite M2, M1. lia.
Qed.

Lemma X18_witness :
  exists f s',
    map formal_param_sig demo_params
    = map Some [(ArrayType TypeInt [0; 3]%Z, "a"); (TypeInt, "n")]
    /\ cur_fn demo_state = Some f
    /\ fn_params f = []
    /\ ir_function_formal_params (map formal_param_view_of demo_params)
                                 demo_state empty_attrs
       = Ret tt s' empty_attrs
    /\ cur_fn s'
       = Some (fn_with_params f
                 [FormalParam 5 (ArrayType TypeInt [0; 3]%Z) "a";
                  FormalParam 6 TypeInt "n"]
                 [MoveInstruction (LocalVariable 7 (ArrayType TypeInt [0; 3]%Z) "a")
                                  (FormalParam 5 (ArrayType TypeInt [0; 3]%Z) "a");
                  MoveInstruction (LocalVariable 8 TypeInt "n")
                                  (FormalParam 6 TypeInt "n")]).
Proof.
  pose (f := mkFunction "main" TypeInt [] [EntryInstruction] (Some 2%nat)
                        nullptr false 0%Z).
  assert (H1 : map formal_param_sig demo_params
               = map Some [(ArrayType TypeInt [0; 3]%Z, "a"); (TypeInt, "n")])
    by reflexivity.
  assert (H2 : cur_fn demo_state = Some f) by reflexivity.
  assert (H3 : fn_params f = []) by reflexivity.
  destruct (@X18_formal_parameters demo_params _ demo_state empty_attrs f H1 H2 H3)
    as (s' & E & C & _).
  exists f, s'.
  split; [exact H1|]. split; [exact H2|]. split; [exact H3|].
  split; [exact E | exact C].
Defined.

(* ------------------------------------------------------------------ *)
(** * Scopes are entered and left in pairs *)

Lemma scope_grown_refl : forall s, scope_grown s s.
Proof.
  intros s. unfold scope_grown. destruct (scopeStack s) as [|sc outer];
    [reflexivity | exists []; reflexivity].
Qed.

Lemma scope_grown_trans :
  forall s1 s2 s3, scope_grown s1 s2 -> scope_grown s2 s3 -> scope_grown s1 s3.
Proof.
  intros s1 s2 s3 H1 H2. unfold scope_grown in *.
  destruct (scopeStack s1) as [|sc outer].
  - rewrite H1 in H2. exact H2.
  - destruct H1 as [t1 E1]. rewrite E1 in H2. destruct H2 as [t2 E2].
    exists (t2 ++ t1). rewrite E2, app_assoc. reflexivity.
Qed.

Lemma scope_grown_eq :
  forall s s1 s2,
    scopeStack s2 = scopeStack s1 -> scope_grown s s1 -> scope_grown s s2.
Proof.
  intros s s1 s2 E H. unfold scope_grown in *. rewrite E. exact H.
Qed.

Lemma scope_grown_same :
  forall s s', scopeStack s' = scopeStack s -> scope_grown s s'.
Proof.
  intros s s' E. apply (@scope_grown_eq s s s' E). apply scope_grown_refl.
Qed.

(** The scope that was entered is the one that is left. *)
Lemma scope_grown_entered :
  forall s s1,
    scope_grown (set_scopeStack s ([] :: scopeStack s)) s1 ->
    tl (scopeStack s1) = scopeStack s.
Proof.
  intros s s1 H. unfold scope_grown in H. cbn [scopeStack set_scopeStack] in H.
  destruct H as [top E]. rewrite E. reflexivity.
Qed.

Lemma newVarValue_scope :
  forall ty name s n,
    exists v s', newVarValue ty name s n = Ret v s' n /\ scope_grown s s'.
Proof.
  intros ty name s n. unfold newVarValue.
  destruct (currentFunction s); destruct (String.eqb name "");
    do 2 eexists; (split; [reflexivity|]);
    unfold scope_grown;
    cbn [scopeStack set_scopeStack set_nextId set_globals];
    destruct (scopeStack s) as [|sc outer]; cbn [insertValue];
    first [reflexivity | exists []; reflexivity | eexists [_]; reflexivity].
Qed.

Lemma updCurrentFunction_scope :
  forall upd s n,
    exists s', updCurrentFunction upd s n = Ret tt s' n /\ scope_grown s s'.
Proof.
  intros upd s n. unfold updCurrentFunction, modifyState.
  eexists. split; [reflexivity|]. apply scope_grown_same.
  destruct (currentFunction s); reflexivity.
Qed.

(** The start of a fact, without the updates that leave the scopes alone. *)
Ltac scope_starts :=
  repeat match goal with
         | H : scope_grown (set_nextId ?x ?k) ?b |- _ =>
             change (scope_grown x b) in H
         | H : scope_grown (set_loopStacks ?x ?c ?e) ?b |- _ =>
             change (scope_grown x b) in H
         | H : scope_grown (set_functions ?x ?f) ?b |- _ =>
             change (scope_grown x b) in H
         | H : scope_grown (set_globals ?x ?g) ?b |- _ =>
             change (scope_grown x b) in H
         | H : scope_grown (set_currentFunction ?x ?f) ?b |- _ =>
             change (scope_grown x b) in H
         | |- scope_grown (set_nextId ?x ?k) ?b => change (scope_grown x b)
         | |- scope_grown (set_loopStacks ?x ?c ?e) ?b => change (scope_grown x b)
         | |- scope_grown (set_functions ?x ?f) ?b => change (scope_grown x b)
         | |- scope_grown (set_globals ?x ?g) ?b => change (scope_grown x b)
         | |- scope_grown (set_currentFunction ?x ?f) ?b => change (scope_grown x b)
         end.

Ltac scope_ends :=
  repeat match goal with
         | |- scope_grown ?a (set_nextId ?x ?k) =>
             apply (@scope_grown_eq a x (set_nextId x k) eq_refl)
         | |- scope_grown ?a (set_loopStacks ?x ?c ?e) =>
             apply (@scope_grown_eq a x (set_loopStacks x c e) eq_refl)
         | |- scope_grown ?a (set_functions ?x ?f) =>
             apply (@scope_grown_eq a x (set_functions x f) eq_refl)
         | |- scope_grown ?a (set_globals ?x ?g) =>
             apply (@scope_grown_eq a x (set_globals x g) eq_refl)
         | |- scope_grown ?a (set_currentFunction ?x ?f) =>
             apply (@scope_grown_eq a x (set_currentFunction x f) eq_refl)
         end.

Ltac scope_chain :=
  first [ assumption
        | apply scope_grown_refl
        | match goal with
          | H : scope_grown ?m ?b |- scope_grown ?a ?b =>
              apply (@scope_grown_trans a m b); [scope_chain | exact H]
          end ].

Ltac scoped_children :=
  repeat match goal with
         | Hc : node_scoped ?x, L : lowers ?x ?s ?a ?s1 |- _ =>
             let G := fresh "G" in
             pose proof (Hc s empty_attrs a s1 empty_attrs L) as G; clear L
         end.

Ltac solve_scope := scoped_children; scope_starts; scope_ends; scope_chain.

Ltac step_newvar_s H :=
  gen_red_in H;
  match type of H with
  | context [newVarValue ?ty ?name ?s ?n] =>
      let v := fresh "v" in
      let s1 := fresh "s" in
      let E := fresh "E" in
      let G := fresh "G" in
      destruct (newVarValue_scope ty name s n) as (v & s1 & E & G);
      rewrite E in H; clear E; gen_red_in H
  end.

Ltac step_upd_s H :=
  gen_red_in H;
  match type of H with
  | context [updCurrentFunction ?upd ?s ?n] =>
      let s1 := fresh "s" in
      let E := fresh "E" in
      let G := fresh "G" in
      destruct (updCurrentFunction_scope upd s n) as (s1 & E & G);
      rewrite E in H; clear E; gen_red_in H
  end.

Ltac scope_done H := inversion H; subst; clear H; solve_scope.

Lemma scoped_leaf_uint : forall v, node_scoped (ast_leaf_literal_uint v).
Proof.
  intros v s n0 a s' n0' Hv. simpl in Hv. unfold ir_leaf_node_uint in Hv.
  gen_red_in Hv. scope_done Hv.
Qed.

Lemma scoped_leaf_var_id : forall name, node_scoped (ast_leaf_var_id name).
Proof.
  intros v s n0 a s' n0' Hv. simpl in Hv.
  unfold ir_leaf_node_var_id, findVarValue in Hv.
  gen_red_in Hv. scope_done Hv.
Qed.

Lemma scoped_default :
  forall n, (forall s n0, ir_visit_ast_node n s n0 = visit_with ir_default s n0) ->
            node_scoped n.
Proof.
  intros n Hn s n0 a s' n0' Hv. rewrite Hn in Hv. unfold ir_default in Hv.
  gen_red_in Hv. scope_done Hv.
Qed.

Lemma scoped_ir_binary :
  forall op ty a b op0,
    node_scoped a -> node_scoped b ->
    binary_handler op0 (node_type a) (ir_visit_ast_node a) (ir_visit_ast_node b)
    = (inst <- ir_binary op ty (ir_visit_ast_node a) (ir_visit_ast_node b) ;;
       setVal (asValue inst)) ->
    node_scoped (ast_binary op0 a b).
Proof.
  intros op ty a b op0 Ha Hb Heq s n0 at' s' n0' Hv.
  simpl ir_visit_ast_node in Hv. rewrite Heq in Hv. unfold ir_binary in Hv.
  step_visit Hv. step_visit Hv. scope_done Hv.
Qed.

Lemma scoped_ir_widened :
  forall op a b op0,
    node_scoped a -> node_scoped b ->
    binary_handler op0 (node_type a) (ir_visit_ast_node a) (ir_visit_ast_node b)
    = (cmpInst <- ir_binary op TypeBool (ir_visit_ast_node a) (ir_visit_ast_node b) ;;
       r <- convertBoolToInt (asValue cmpInst) ;; setVal r) ->
    node_scoped (ast_binary op0 a b).
Proof.
  intros op a b op0 Ha Hb Heq s n0 at' s' n0' Hv.
  simpl ir_visit_ast_node in Hv. rewrite Heq in Hv.
  unfold ir_binary, convertBoolToInt in Hv.
  step_visit Hv. step_visit Hv. step_newvar_s Hv. scope_done Hv.
Qed.

Lemma scoped_and_or :
  forall op a b,
    op = AST_OP_AND \/ op = AST_OP_OR ->
    node_scoped a -> node_scoped b -> node_scoped (ast_binary op a b).
Proof.
  intros op a b Hop Ha Hb s n0 at' s' n0' Hv.
  destruct Hop; subst op; simpl ir_visit_ast_node in Hv;
    unfold binary_handler, ir_and, ir_or, convertBoolToInt in Hv;
    step_visit Hv; step_visit Hv; step_newvar_s Hv; scope_done Hv.
Qed.

Lemma scoped_assign :
  forall a b, node_scoped a -> node_scoped b ->
              node_scoped (ast_binary AST_OP_ASSIGN a b).
Proof.
  intros a b Ha Hb s n0 at' s' n0' Hv.
  simpl ir_visit_ast_node in Hv. unfold binary_handler, ir_assign in Hv.
  step_visit Hv. step_visit Hv.
  destruct (is_array_access (node_type a)); gen_red_in Hv; scope_done Hv.
Qed.

Lemma scoped_not : forall a, node_scoped a -> node_scoped (ast_unary AST_OP_NOT a).
Proof.
  intros a Ha s n0 at' s' n0' Hv.
  simpl ir_visit_ast_node in Hv. unfold unary_handler, ir_not, convertBoolToInt in Hv.
  step_visit Hv. step_newvar_s Hv. scope_done Hv.
Qed.

Lemma scoped_neg : forall a, node_scoped a -> node_scoped (ast_unary AST_OP_NEG a).
Proof.
  intros a Ha s n0 at' s' n0' Hv.
  simpl ir_visit_ast_node in Hv. unfold unary_handler, ir_neg in Hv.
  step_visit Hv. unfold getCurrentFunction in Hv. gen_red_in Hv.
  destruct (match currentFunction s0 with
            | Some name => findFunction_in name (functions s0)
            | None => None
            end).
  - destruct (getType (val a0)) as [ty|]; [|discriminate Hv].
    destruct (isInt1Byte ty); gen_red_in Hv.
    + step_newvar_s Hv. scope_done Hv.
    + scope_done Hv.
  - destruct (val a0); gen_red_in Hv; try discriminate Hv. scope_done Hv.
Qed.

Lemma scoped_return :
  forall son0, Forall node_scoped (opt_node son0) -> node_scoped (ast_return son0).
Proof.
  intros son0 Hs s n0 at' s' n0' Hv.
  simpl ir_visit_ast_node in Hv. unfold ir_return, getCurrentFunction in Hv.
  destruct son0 as [x|]; simpl in Hs.
  - inversion Hs as [|? ? Hx _]; subst. step_visit Hv.
    destruct (currentFunction s0) as [nm|]; [|discriminate Hv].
    destruct (findFunction_in nm (functions s0)) as [f|]; [|discriminate Hv].
    gen_red_in Hv.
    destruct (fn_exitLabel f) as [l0|]; gen_red_in Hv; [|discriminate Hv].
    scope_done Hv.
  - gen_red_in Hv.
    destruct (currentFunction s) as [nm|]; [|discriminate Hv].
    destruct (findFunction_in nm (functions s)) as [f|]; [|discriminate Hv].
    gen_red_in Hv.
    destruct (fn_exitLabel f) as [l0|]; gen_red_in Hv; [|discriminate Hv].
    scope_done Hv.
Qed.

Lemma scoped_if :
  forall cond thenNode elseNode,
    Forall node_scoped (visited_sons (ast_if cond thenNode elseNode)) ->
    node_scoped (ast_if cond thenNode elseNode).
Proof.
  intros cond thenNode elseNode Hs s n0 at' s' n0' Hv.
  simpl in Hs. inversion Hs as [|? ? Hc Hrest]; subst. clear Hs.
  apply Forall_app in Hrest. destruct Hrest as [Ht He].
  simpl ir_visit_ast_node in Hv. unfold ir_if in Hv.
  step_visit Hv.
  destruct thenNode as [t|]; simpl in Ht;
    [inversion Ht as [|? ? Ht' _]; subst; step_visit Hv | gen_red_in Hv];
    (destruct elseNode as [[e|]|]; simpl in He;
     [inversion He as [|? ? He' _]; subst; step_visit Hv | gen_red_in Hv ..]);
    scope_done Hv.
Qed.

Lemma scoped_while :
  forall cond body,
    Forall node_scoped (visited_sons (ast_while cond body)) ->
    node_scoped (ast_while cond body).
Proof.
  intros cond body Hs s n0 at' s' n0' Hv.
  simpl in Hs. inversion Hs as [|? ? Hc Hb]; subst. clear Hs.
  simpl ir_visit_ast_node in Hv. unfold ir_while in Hv.
  step_visit Hv.
  destruct body as [t|]; simpl in Hb;
    [inversion Hb as [|? ? Hb' _]; subst; step_visit Hv | gen_red_in Hv];
    scope_done Hv.
Qed.

Lemma scoped_break : node_scoped ast_break.
Proof.
  intros s n0 at' s' n0' Hv. simpl in Hv. unfold ir_break in Hv. gen_red_in Hv.
  destruct (loopEndStack s) as [|x st]; gen_red_in Hv; [discriminate Hv|].
  scope_done Hv.
Qed.

Lemma scoped_continue : node_scoped ast_continue.
Proof.
  intros s n0 at' s' n0' Hv. simpl in Hv. unfold ir_continue in Hv. gen_red_in Hv.
  destruct (loopCondStack s) as [|x st]; gen_red_in Hv; [discriminate Hv|].
  scope_done Hv.
Qed.

Lemma lowers_list_scoped :
  forall sons s ias s',
    Forall node_scoped sons -> lowers_list sons s ias s' -> scope_grown s s'.
Proof.
  intros sons s ias s' Hs Hl. induction Hl as [s|x xs s a s1 rest s2 Hx Hrest IH].
  - apply scope_grown_refl.
  - inversion Hs as [|? ? Hx' Hxs]; subst.
    eapply scope_grown_trans; [exact (Hx' _ _ _ _ _ Hx) | exact (IH Hxs)].
Qed.

Ltac scoped_lists :=
  repeat match goal with
         | Hc : Forall node_scoped ?xs, L : lowers_list ?xs ?s ?ias ?s1 |- _ =>
             let G := fresh "G" in
             pose proof (lowers_list_scoped Hc L) as G; clear L
         end.

Ltac scope_done_list H := inversion H; subst; clear H; scoped_lists; solve_scope.

(** A block with a scope of its own leaves the scopes exactly as they
    were. *)
Lemma block_scope_restored :
  forall sons s n0 a s' n0',
    Forall node_scoped sons ->
    ir_visit_ast_node (ast_block true sons) s n0 = Ret (Some a) s' n0' ->
    scopeStack s' = scopeStack s.
Proof.
  intros sons s n0 a s' n0' Hs Hv.
  simpl ir_visit_ast_node in Hv. unfold ir_block, enterScope, leaveScope in Hv.
  gen_red_in Hv.
  destruct (ir_block_sons (map ir_visit_ast_node sons)
              (set_scopeStack s ([] :: scopeStack s)) empty_attrs)
    as [[] s1 n1| |] eqn:E; gen_red_in Hv; try discriminate Hv.
  apply ir_block_sons_inv in E. destruct E as (ias & Hl & ->).
  inversion Hv; subst; clear Hv.
  cbn [scopeStack set_scopeStack].
  apply scope_grown_entered. exact (lowers_list_scoped Hs Hl).
Qed.

Lemma scoped_block :
  forall needScope sons,
    Forall node_scoped sons -> node_scoped (ast_block needScope sons).
Proof.
  intros needScope sons Hs s n0 at' s' n0' Hv.
  destruct needScope.
  - apply scope_grown_same. exact (@block_scope_restored _ _ _ _ _ _ Hs Hv).
  - simpl ir_visit_ast_node in Hv. unfold ir_block in Hv. gen_red_in Hv.
    destruct (ir_block_sons (map ir_visit_ast_node sons) s empty_attrs)
      as [[] s1 n1| |] eqn:E; gen_red_in Hv; try discriminate Hv.
    apply ir_block_sons_inv in E. destruct E as (ias & Hl & ->).
    scope_done_list Hv.
Qed.

Lemma scoped_decl_stmt :
  forall sons, Forall node_scoped sons -> node_scoped (ast_decl_stmt sons).
Proof.
  intros sons Hs s n0 at' s' n0' Hv.
  simpl ir_visit_ast_node in Hv. gen_red_in Hv.
  destruct (ir_declare_statment (map ir_visit_ast_node sons) s empty_attrs)
    as [[] s1 n1| |] eqn:E; gen_red_in Hv; try discriminate Hv.
  apply ir_declare_statment_inv in E. destruct E as (ias & Hl & ->).
  scope_done_list Hv.
Qed.

Lemma scoped_func_call :
  forall name realParams,
    Forall node_scoped realParams -> node_scoped (ast_func_call name realParams).
Proof.
  intros name realParams Hs s n0 at' s' n0' Hv.
  simpl ir_visit_ast_node in Hv.
  unfold ir_function_call, getCurrentFunction, findFunction in Hv.
  gen_red_in Hv.
  destruct (findFunction_in name (functions s)) as [callee|]; [|discriminate Hv].
  destruct (match currentFunction s with
            | Some name0 => findFunction_in name0 (functions s)
            | None => None
            end) as [cur|]; [|discriminate Hv].
  step_upd_s Hv.
  destruct realParams as [|p ps]; cbn [map] in Hv; gen_red_in Hv.
  - match type of Hv with
    | context [if ?c then _ else _] => destruct c; gen_red_in Hv; [discriminate Hv|]
    end.
    scope_done Hv.
  - change ((node_type p, ir_visit_ast_node p)
            :: map (fun son => (node_type son, ir_visit_ast_node son)) ps)
      with (map (fun son => (node_type son, ir_visit_ast_node son)) (p :: ps)) in Hv.
    remember (p :: ps) as sons eqn:Esons. clear Esons p ps.
    match type of Hv with
    | context [if ?c then updCurrentFunction _ else _] => destruct c
    end.
    + step_upd_s Hv.
      match type of Hv with
      | context [ir_function_call_args ?l ?rp ?st ?nt] =>
          destruct (ir_function_call_args l rp st nt) as [r s3 n3| |] eqn:E;
            gen_red_in Hv; try discriminate Hv
      end.
      apply ir_function_call_args_inv in E. destruct E as (ias & Hl & -> & ->).
      match type of Hv with
      | context [if ?c then _ else _] => destruct c; gen_red_in Hv; [discriminate Hv|]
      end.
      scope_done_list Hv.
    + gen_red_in Hv.
      match type of Hv with
      | context [ir_function_call_args ?l ?rp ?st ?nt] =>
          destruct (ir_function_call_args l rp st nt) as [r s3 n3| |] eqn:E;
            gen_red_in Hv; try discriminate Hv
      end.
      apply ir_function_call_args_inv in E. destruct E as (ias & Hl & -> & ->).
      match type of Hv with
      | context [if ?c then _ else _] => destruct c; gen_red_in Hv; [discriminate Hv|]
      end.
      scope_done_list Hv.
Qed.

Lemma scoped_array_access :
  forall arrayName dims,
    node_scoped arrayName -> Forall node_scoped dims ->
    node_scoped (ast_array_access arrayName dims).
Proof.
  intros arrayName dims Ha Hd s n0 at' s' n0' Hv.
  simpl ir_visit_ast_node in Hv.
  unfold ir_array_access, ir_get_array_dimensions in Hv.
  step_visit Hv.
  match type of Hv with
  | context [ir_get_array_dimensions_sons ?l ?dv ?dc ?st ?nt] =>
      destruct (ir_get_array_dimensions_sons l dv dc st nt)
        as [r s3 n3| |] eqn:E; gen_red_in Hv; try discriminate Hv
  end.
  apply ir_get_array_dimensions_sons_inv in E. destruct E as (ias & Hl & -> & ->).
  gen_red_in Hv.
  destruct (getType (val a)) as [[| | | |elem fullDims]|]; try discriminate Hv.
  gen_red_in Hv.
  match type of Hv with
  | context [ir_calculate_array_offset ?a1 ?a2 ?a3 ?a4 ?a5 ?st ?nt] =>
      destruct (ir_calculate_array_offset a1 a2 a3 a4 a5 st nt)
        as [off s4 n4| |] eqn:E; gen_red_in Hv; try discriminate Hv
  end.
  apply ir_calculate_array_offset_shape in E.
  destruct E as (arith & -> & Hb & (k & -> & Hk)).
  unfold ir_generate_array_access_instructions in Hv.
  destruct off; gen_red_in Hv; try discriminate Hv;
    (destruct (List.length (map val ias) =? List.length fullDims)%nat;
     gen_red_in Hv; scope_done_list Hv).
Qed.

Lemma scoped_var_decl :
  forall ty def,
    Forall node_scoped (visited_sons (ast_var_decl ty def)) ->
    node_scoped (ast_var_decl ty def).
Proof.
  intros ty def Hs s n0 at' s' n0' Hv.
  simpl ir_visit_ast_node in Hv. unfold ir_variable_declare in Hv.
  destruct def; gen_red_in Hv; try discriminate Hv.
  - unfold ir_simple_var_def, getCurrentFunction in Hv. gen_red_in Hv.
    step_newvar_s Hv.
    destruct init as [x|]; simpl in Hs; gen_red_in Hv.
    + inversion Hs as [|? ? Hx _]; subst. step_visit Hv.
      destruct (match currentFunction s with
                | Some name0 => findFunction_in name0 (functions s)
                | None => None
                end); gen_red_in Hv.
      * scope_done Hv.
      * unfold setGlobalInitializer in Hv.
        destruct v; gen_red_in Hv; try discriminate Hv.
        scope_done Hv.
    + scope_done Hv.
  - unfold ir_array_var_def, ir_get_array_dimensions in Hv. simpl in Hs.
    gen_red_in Hv.
    match type of Hv with
    | context [ir_get_array_dimensions_sons ?l ?dv ?dc ?st ?nt] =>
        destruct (ir_get_array_dimensions_sons l dv dc st nt)
          as [r s3 n3| |] eqn:E; gen_red_in Hv; try discriminate Hv
    end.
    apply ir_get_array_dimensions_sons_inv in E. destruct E as (ias & Hl & -> & ->).
    step_newvar_s Hv.
    destruct v; gen_red_in Hv; try discriminate Hv; scope_done_list Hv.
Qed.

Lemma scoped_compile_unit :
  forall sons, Forall node_scoped sons -> node_scoped (ast_compile_unit sons).
Proof.
  intros sons Hs s n0 at' s' n0' Hv.
  simpl ir_visit_ast_node in Hv. unfold ir_compile_unit, setCurrentFunction in Hv.
  gen_red_in Hv.
  match type of Hv with
  | context [ir_compile_unit_sons ?l ?st ?nt] =>
      destruct (ir_compile_unit_sons l st nt) as [[] s3 n3| |] eqn:E;
        gen_red_in Hv; try discriminate Hv
  end.
  apply ir_compile_unit_sons_inv in E. destruct E as (-> & ias & Hl).
  scope_done_list Hv.
Qed.

Lemma formal_params_first_scoped :
  forall params s n s' n',
    Forall node_scoped (flat_map formal_param_dim_nodes params) ->
    formal_params_first (map formal_param_view_of params) s n = Ret tt s' n' ->
    scope_grown s s'.
Proof.
  induction params as [|p ps IH]; intros s n s' n' Hs H.
  - simpl in H. gen_red_in H. inversion H; subst. apply scope_grown_refl.
  - simpl in Hs. apply Forall_app in Hs. destruct Hs as [Hp Hps].
    destruct p;
      cbn [map formal_param_view_of formal_params_first option_map] in H;
      gen_red_in H; try discriminate H.
    destruct dims as [dl|]; simpl in Hp;
      cbn [map formal_param_view_of formal_params_first option_map] in H;
      gen_red_in H.
    + match type of H with
      | context [formal_param_dims ?l ?ds ?st ?nt] =>
          destruct (formal_param_dims l ds st nt) as [r s1 n1| |] eqn:E;
            gen_red_in H; try discriminate H
      end.
      apply formal_param_dims_inv in E. destruct E as (ias & Hl & -> & ->).
      step_upd_s H. apply (IH _ _ _ _ Hps) in H.
      scoped_lists. solve_scope.
    + step_upd_s H. apply (IH _ _ _ _ Hps) in H. solve_scope.
Qed.

Lemma formal_params_second_scoped :
  forall sons i s n s' n',
    formal_params_second sons i s n = Ret tt s' n' -> scope_grown s s'.
Proof.
  induction sons as [|p ps IH]; intros i s n s' n' H.
  - simpl in H. gen_red_in H. inversion H; subst. apply scope_grown_refl.
  - cbn [formal_params_second] in H. unfold getCurrentFunction in H.
    gen_red_in H. fold (cur_fn s) in H.
    destruct (cur_fn s) as [f0|]; [|discriminate H].
    destruct p as [[[ty pname] dn]|]; [|discriminate H].
    destruct (nth_error (fn_params f0) i) as [fp|]; [|discriminate H].
    destruct (getType fp) as [ty'|]; [|discriminate H].
    step_newvar_s H. step_upd_s H. apply IH in H. solve_scope.
Qed.

(** A function definition leaves the scopes exactly as they were. *)
Lemma function_scope_restored :
  forall retType name params block s n0 a s' n0',
    Forall node_scoped (visited_sons (ast_func_def retType name params block)) ->
    ir_visit_ast_node (ast_func_def retType name params block) s n0
    = Ret (Some a) s' n0' ->
    scopeStack s' = scopeStack s.
Proof.
  intros retType name params block s n0 a s' n0' Hs Hv.
  simpl ir_visit_ast_node in Hv.
  change (map (fun p : ast_node =>
                 match p with
                 | ast_func_formal_param ty pname dims =>
                     Some (ty, pname, option_map (map ir_visit_ast_node) dims)
                 | _ => None
                 end) params)
    with (map formal_param_view_of params) in Hv.
  simpl visited_sons in *. apply Forall_app in Hs. destruct Hs as [Hps Hbs].
  set (body := match block with ast_block _ sons => sons | _ => [] end) in *.
  assert (Hbd : match block with
                | ast_block _ sons => map ir_visit_ast_node sons
                | _ => []
                end = map ir_visit_ast_node body)
    by (destruct block; reflexivity).
  rewrite Hbd in Hv. clear Hbd. clearbody body.
  unfold ir_function_define, getCurrentFunction, newFunction, setCurrentFunction,
    enterScope, leaveScope in Hv.
  gen_red_in Hv. fold (cur_fn s) in Hv.
  destruct (cur_fn s) as [f00|]; [discriminate Hv|].
  destruct (findFunction_in name (functions s)) as [f00|]; [discriminate Hv|].
  gen_red_in Hv.
  match type of Hv with
  | context [updCurrentFunction _ ?st _] => set (sa := st) in *
  end.
  assert (Ga : scope_grown (set_scopeStack s ([] :: scopeStack s)) sa)
    by (apply scope_grown_same; reflexivity).
  step_upd_s Hv. step_upd_s Hv.
  unfold ir_function_formal_params, getCurrentFunction in Hv. gen_red_in Hv.
  match type of Hv with
  | context [match currentFunction ?st with Some _ => _ | None => None end] =>
      fold (cur_fn st) in Hv; destruct (cur_fn st); gen_red_in Hv;
      [|discriminate Hv]
  end.
  match type of Hv with
  | context [formal_params_first ?l ?st ?nt] =>
      destruct (formal_params_first l st nt) as [[] sp np| |] eqn:E3;
        gen_red_in Hv; try discriminate Hv
  end.
  apply (@formal_params_first_scoped params _ _ _ _ Hps) in E3.
  match type of Hv with
  | context [formal_params_second ?l ?i ?st ?nt] =>
      destruct (formal_params_second l i st nt) as [[] sq nq| |] eqn:E4;
        gen_red_in Hv; try discriminate Hv
  end.
  apply formal_params_second_scoped in E4.
  assert (G4 : scope_grown (set_scopeStack s ([] :: scopeStack s)) sq)
    by solve_scope.
  clear Ga E3 E4.
  destruct (isVoidType retType); gen_red_in Hv.
  - unfold ir_block in Hv. gen_red_in Hv.
    match type of Hv with
    | context [ir_block_sons ?l ?st ?nt] =>
        destruct (ir_block_sons l st nt) as [[] sb nb| |] eqn:E5;
          gen_red_in Hv; try discriminate Hv
    end.
    apply ir_block_sons_inv in E5. destruct E5 as (ias & Hl & ->).
    step_upd_s Hv. step_upd_s Hv.
    inversion Hv; subst; clear Hv.
    cbn [scopeStack set_scopeStack set_currentFunction].
    apply scope_grown_entered. scoped_lists. solve_scope.
  - step_newvar_s Hv. step_upd_s Hv.
    unfold ir_block in Hv. gen_red_in Hv.
    match type of Hv with
    | context [ir_block_sons ?l ?st ?nt] =>
        destruct (ir_block_sons l st nt) as [[] sb nb| |] eqn:E5;
          gen_red_in Hv; try discriminate Hv
    end.
    apply ir_block_sons_inv in E5. destruct E5 as (ias & Hl & ->).
    step_upd_s Hv. step_upd_s Hv.
    inversion Hv; subst; clear Hv.
    cbn [scopeStack set_scopeStack set_currentFunction].
    apply scope_grown_entered. scoped_lists. solve_scope.
Qed.

Lemma scoped_func_def :
  forall retType name params block,
    Forall node_scoped (visited_sons (ast_func_def retType name params block)) ->
    node_scoped (ast_func_def retType name params block).
Proof.
  intros retType name params block Hs s n0 a s' n0' Hv.
  apply scope_grown_same. exact (@function_scope_restored _ _ _ _ _ _ _ _ _ Hs Hv).
Qed.

(** Every node leaves the outer scopes alone. *)
Lemma all_nodes_scoped : forall n, node_scoped n.
Proof.
  induction n as [n IH] using ast_node_visited_ind.
  destruct n as [v|name|ty|op son0|op son0 son1|son0|cond thenNode elseNode|cond body
                 | | |name realParams|arrayName dims|needScope sons|sons|ty def
                 |name init|name dims|retType name params block|ty name dims|sons].
  - apply scoped_leaf_uint.
  - apply scoped_leaf_var_id.
  - apply scoped_default; intros; reflexivity.
  - destruct op; simpl in IH;
      try (apply scoped_default; intros; reflexivity);
      inversion IH; subst.
    + apply scoped_neg; assumption.
    + apply scoped_not; assumption.
  - destruct op; simpl in IH;
      try (apply scoped_default; intros; reflexivity);
      inversion IH as [|? ? H0 H1]; subst; inversion H1; subst;
      try (eapply scoped_ir_binary; [assumption | assumption | reflexivity]);
      try (eapply scoped_ir_widened; [assumption | assumption | reflexivity]);
      try (apply scoped_and_or; [solve [auto] | assumption | assumption]);
      try (apply scoped_assign; assumption).
  - apply scoped_return. exact IH.
  - apply scoped_if. exact IH.
  - apply scoped_while. exact IH.
  - apply scoped_break.
  - apply scoped_continue.
  - apply scoped_func_call. exact IH.
  - simpl in IH. inversion IH; subst. apply scoped_array_access; assumption.
  - apply scoped_block. exact IH.
  - apply scoped_decl_stmt. exact IH.
  - apply scoped_var_decl. exact IH.
  - apply scoped_default; intros; reflexivity.
  - apply scoped_default; intros; reflexivity.
  - apply scoped_func_def. exact IH.
  - apply scoped_default; intros; reflexivity.
  - apply scoped_compile_unit. exact IH.
Qed.

(** X19.  A successful visit of any node leaves every scope around the
    innermost one untouched and keeps the bindings of the innermost scope,
    with the bindings it declared in front of them; in particular the
    scope stack has the depth it had. *)
Theorem X19_outer_scopes_untouched :
  forall node s a s',
    lowers node s a s' ->
    match scopeStack s with
    | [] => scopeStack s' = []
    | sc :: outer => exists top, scopeStack s' = (top ++ sc) :: outer
    end
    /\ List.length (scopeStack s') = List.length (scopeStack s).
Proof.
  intros node s a s' H.
  pose proof (@all_nodes_scoped node s empty_attrs a s' empty_attrs H) as G.
  split; [exact G|]. unfold scope_grown in G.
  destruct (scopeStack s) as [|sc outer].
  - rewrite G. reflexivity.
  - destruct G as [top E]. rewrite E. reflexivity.
Qed.

(** X20.  A block with a scope of its own and a function definition leave
    the scope stack exactly as they found it: what was declared inside is
    not visible afterwards, and every name is bound after the node to what
    it was bound to before. *)
Theorem X20_declarations_do_not_leak :
  forall node s a s',
    opens_scope node = true ->
    lowers node s a s' ->
    scopeStack s' = scopeStack s
    /\ forall name,
         findVarValue_in name (scopeStack s') = findVarValue_in name (scopeStack s).
Proof.
  intros node s a s' Ho H.
  assert (E : scopeStack s' = scopeStack s).
  { destruct node; try discriminate Ho.
    - cbn [opens_scope] in Ho. subst needScope.
      apply (@block_scope_restored sons s empty_attrs a s' empty_attrs);
        [apply Forall_forall; intros x _; apply all_nodes_scoped | exact H].
    - refine (@function_scope_restored _ _ _ _ s empty_attrs a s' empty_attrs _ H).
      apply Forall_forall; intros x _; apply all_nodes_scoped. }
  split; [exact E|]. intros name. rewrite E. reflexivity.
Qed.

Lemma X19_witness :
  exists a s',
    lowers demo_self_init demo_state a s'
    /\ scopeStack s'
       = ([("z", LocalVariable 5 TypeInt "z")]
          ++ [("y", demo_y); ("x", demo_x)]) :: [[("a", demo_a)]]
    /\ List.length (scopeStack s') = List.length (scopeStack demo_state).
Proof.
  pose (r := run demo_self_init demo_state).
  assert (H : lowers demo_self_init demo_state (attrs_of r) (state_of r))
    by (vm_compute; reflexivity).
  exists (attrs_of r), (state_of r).
  split; [exact H|]. split; [reflexivity|].
  exact (proj2 (@X19_outer_scopes_untouched _ _ _ _ H)).
Defined.

Lemma X20_witness :
  exists a s',
    opens_scope demo_block_decls = true
    /\ lowers demo_block_decls demo_state a s'
    /\ nextId s' = 7%nat
    /\ scopeStack s' = scopeStack demo_state
    /\ findVarValue_in "x" (scopeStack s') = demo_x.
Proof.
  pose (r := run demo_block_decls demo_state).
  assert (Ho : opens_scope demo_block_decls = true) by reflexivity.
  assert (H : lowers demo_block_decls demo_state (attrs_of r) (state_of r))
    by (vm_compute; reflexivity).
  exists (attrs_of r), (state_of r).
  split; [exact Ho|]. split; [exact H|]. split; [reflexivity|].
  destruct (@X20_declarations_do_not_leak _ _ _ _ Ho H) as [E F].
  split; [exact E|]. rewrite (F "x"). reflexivity.
Defined.

(* ------------------------------------------------------------------ *)
(** * Arithmetic expressions compute their value *)

Lemma expr_value_frame :
  forall st b m m',
    (forall name, value_id_lt b (findVarValue_in name st)) ->
    (forall u, value_id_lt b u -> eval m' u = eval m u) ->
    forall e, expr_value st m' e = expr_value st m e.
Proof.
  intros st b m m' Hst Hm. fix IH 1. intros e.
  destruct e as [v|name|ty|op son0|op e1 e2|son0|cond thenNode elseNode|cond body
                 | | |name realParams|arrayName dims|needScope sons|sons|ty def
                 |name init|name dims|retType name params block|ty name dims|sons];
    try reflexivity.
  - simpl. apply Hm, Hst.
  - cbn [expr_value]. destruct (arith_operator op); [|reflexivity].
    rewrite (IH e1), (IH e2). reflexivity.
Qed.

(** The lowering of an arithmetic expression: the code and the value
    read off the tree, straight-line code that writes new temporaries only
    and leaves the value in the node's value. *)
Lemma arith_expr_run :
  forall e s,
    arith_expr (scopeStack s) e = true ->
    scopes_older s ->
    let a := mkAttrs (arith_val (scopeStack s) (nextId s) e)
                     (arith_code (scopeStack s) (nextId s) e) nullptr in
    lowers e s a (advance s (arith_size e))
    /\ forallb is_binary (blockInsts a) = true
    /\ value_id_lt (arith_size e + nextId s) (val a)
    /\ (forall m u, value_id_lt (nextId s) u ->
                    eval (run_binaries (blockInsts a) m) u = eval m u)
    /\ forall m, eval (run_binaries (blockInsts a) m) (val a)
                 = expr_value (scopeStack s) m e.
Proof.
  induction e as [e IH] using ast_node_visited_ind. intros s He Hs.
  destruct e as [v|name|ty|op son0|op e1 e2|son0|cond thenNode elseNode|cond body
                 | | |name realParams|arrayName dims|needScope sons|sons|ty def
                 |name init|name dims|retType name params block|ty name dims|sons];
    try discriminate He.
  - (* a literal *)
    cbv zeta. cbn [arith_val arith_code arith_size blockInsts val advance].
    split; [reflexivity|]. split; [reflexivity|]. split; [exact I|].
    split; [intros; reflexivity | intros; reflexivity].
  - (* an identifier *)
    cbv zeta. cbn [arith_val arith_code arith_size blockInsts val advance].
    split; [reflexivity|]. split; [reflexivity|]. split; [apply Hs|].
    split; [intros; reflexivity | intros; reflexivity].
  - (* an operator *)
    cbn [arith_expr] in He.
    destruct (arith_operator op) as [irop|] eqn:Eop; [|discriminate He].
    apply andb_prop in He. destruct He as [He1 He2].
    assert (Hsons : visited_sons (ast_binary op e1 e2) = [e1; e2])
      by (destruct op; try discriminate Eop; reflexivity).
    rewrite Hsons in IH. inversion IH as [|? ? IH1 IH']; subst.
    inversion IH' as [|? ? IH2 _]; subst. clear IH IH'.
    set (k1 := arith_size e1). set (k2 := arith_size e2).
    destruct (IH1 s He1 Hs) as (L1 & B1 & V1 & F1 & E1).
    fold k1 in L1, V1.
    assert (Hs1 : scopes_older (advance s k1)).
    { intros name. rewrite nextId_advance.
      assert (Hsc : scopeStack (advance s k1) = scopeStack s)
        by (destruct k1; reflexivity).
      rewrite Hsc. eapply value_id_lt_mono; [|apply Hs]. lia. }
    assert (Hsc1 : scopeStack (advance s k1) = scopeStack s)
      by (destruct k1; reflexivity).
    rewrite <- Hsc1 in He2.
    destruct (IH2 (advance s k1) He2 Hs1) as (L2 & B2 & V2 & F2 & E2).
    fold k2 in L2, V2.
    rewrite advance_advance in L2. rewrite nextId_advance in L2, B2, V2, F2, E2.
    rewrite Hsc1 in L2, B2, V2, F2, E2.
    cbn [blockInsts val] in B1, V1, F1, E1, B2, V2, F2, E2.
    set (st := scopeStack s) in *.
    set (c1 := arith_code st (nextId s) e1) in *.
    set (v1 := arith_val st (nextId s) e1) in *.
    set (c2 := arith_code st (k1 + nextId s) e2) in *.
    set (v2 := arith_val st (k1 + nextId s) e2) in *.
    set (id := (k1 + k2 + nextId s)%nat).
    assert (Hcode : arith_code st (nextId s) (ast_binary op e1 e2)
                    = c1 ++ c2 ++ [BinaryInstruction id irop v1 v2 TypeInt])
      by (cbn [arith_code]; rewrite Eop; reflexivity).
    assert (Hval : arith_val st (nextId s) (ast_binary op e1 e2)
                   = InstValue id TypeInt) by reflexivity.
    assert (Hsize : arith_size (ast_binary op e1 e2) = (k1 + k2 + 1)%nat)
      by (cbn [arith_size]; rewrite Eop; reflexivity).
    cbv zeta. rewrite Hcode, Hval, Hsize.
    split.
    { unfold lowers. cbn [ir_visit_ast_node].
      assert (Hh : binary_handler op (node_type e1) (ir_visit_ast_node e1)
                                  (ir_visit_ast_node e2)
                   = (inst <- ir_binary irop TypeInt (ir_visit_ast_node e1)
                                        (ir_visit_ast_node e2) ;;
                      setVal (asValue inst)))
        by (destruct op; try discriminate Eop; inversion Eop; reflexivity).
      rewrite Hh. unfold ir_binary. gen_run.
      rewrite new_id_advance, nextId_advance.
      replace (k1 + k2 + nextId s)%nat with id by reflexivity.
      rewrite <- app_assoc. reflexivity. }
    cbn [blockInsts val].
    split.
    { rewrite !forallb_app, B1, B2. reflexivity. }
    split; [simpl; lia|].
    assert (Hrun : forall m,
               run_binaries (c1 ++ c2 ++ [BinaryInstruction id irop v1 v2 TypeInt]) m
               = set_reg (run_binaries c2 (run_binaries c1 m))
                         id
                         (eval_binop irop
                            (eval (run_binaries c2 (run_binaries c1 m)) v1)
                            (eval (run_binaries c2 (run_binaries c1 m)) v2))).
    { intros m. rewrite !run_binaries_app. reflexivity. }
    split.
    { intros m u Hu. rewrite Hrun.
      rewrite (@eval_set_reg_lt _ id _ (nextId s) u Hu) by (unfold id; lia).
      rewrite F2 by (eapply value_id_lt_mono; [|exact Hu]; lia).
      apply F1. exact Hu. }
    intros m. rewrite Hrun, eval_set_reg_same. cbn [expr_value]. rewrite Eop.
    f_equal.
    + rewrite F2 by exact V1. apply E1.
    + rewrite E2.
      apply (@expr_value_frame st (nextId s)); [exact Hs|].
      intros u Hu. apply F1. exact Hu.
Qed.

(** X21.  An expression made of literals, declared identifiers and the
    operators [+ - * / %] lowers, in a state whose variables are older
    than the counter, to the code [arith_code] that is read off the tree:
    for each operator node the code of the left operand, then the code of
    the right operand, then one binary instruction of the operator on the
    values of the two, numbered by the allocation counter, which ends one
    past the last of them; literals and identifiers have no code.  The
    code is straight-line.  Run on the machine, it leaves in the value of
    the node the value of the expression: at each operator node the IR
    operation of that operator applied to the value of the left and the
    value of the right operand.  It writes new temporaries only: what was
    created before keeps its value. *)
Theorem X21_arithmetic_expression_value :
  forall e s,
    arith_expr (scopeStack s) e = true ->
    scopes_older s ->
    let code := arith_code (scopeStack s) (nextId s) e in
    let v := arith_val (scopeStack s) (nextId s) e in
    lowers e s (mkAttrs v code nullptr) (advance s (arith_size e))
    /\ forallb is_binary code = true
    /\ (forall m, eval (run_binaries code m) v = expr_value (scopeStack s) m e)
    /\ (forall m u, value_id_lt (nextId s) u ->
                    eval (run_binaries code m) u = eval m u).
Proof.
  intros e s He Hs code v.
  destruct (@arith_expr_run e s He Hs) as (L & B & _ & F & E).
  split; [exact L|]. split; [exact B|]. split; [exact E | exact F].
Qed.

Lemma X21_witness :
  arith_expr (scopeStack demo_state) demo_arith = true
  /\ scopes_older demo_state
  /\ lowers demo_arith demo_state
            (mkAttrs (InstValue 8 TypeInt)
               [BinaryInstruction 5 IRINST_OP_ADD_I demo_x (ConstInt 2) TypeInt;
                BinaryInstruction 6 IRINST_OP_MUL_I (InstValue 5 TypeInt) demo_y TypeInt;
                BinaryInstruction 7 IRINST_OP_MOD_I demo_x (ConstInt 3) TypeInt;
                BinaryInstruction 8 IRINST_OP_SUB_I (InstValue 6 TypeInt)
                                  (InstValue 7 TypeInt) TypeInt]
               nullptr)
            (set_nextId demo_state 9)
  /\ eval (run_binaries (arith_code (scopeStack demo_state) (nextId demo_state)
                                    demo_arith)
                        (demo_machine 0 5))
          (arith_val (scopeStack demo_state) (nextId demo_state) demo_arith)
     = 33%Z.
Proof.
  assert (H1 : arith_expr (scopeStack demo_state) demo_arith = true) by reflexivity.
  assert (H2 : scopes_older demo_state).
  { intros name. cbn [scopeStack demo_state findVarValue_in findInScope].
    destruct (String.eqb "y" name); [simpl; lia|].
    destruct (String.eqb "x" name); [simpl; lia|].
    destruct (String.eqb "a" name); exact I. }
  destruct (@X21_arithmetic_expression_value demo_arith demo_state H1 H2)
    as (L & _ & E & _).
  split; [exact H1|]. split; [exact H2|]. split; [exact L|].
  rewrite E. reflexivity.
Defined.

(* ------------------------------------------------------------------ *)
(** * The type of an identifier that is not declared *)

(** X22.  An identifier that no scope binds lowers to a null value, and
    the handlers that read the type of that value do so without a test: in
    a function, a unary minus on the identifier, an array access with the
    identifier as array name (after the indices were lowered) and a call
    of a defined function with the identifier as actual parameter all
    dereference the null pointer. *)
Theorem X22_type_of_undeclared_identifier :
  forall name s cur n,
    findVarValue_in name (scopeStack s) = nullptr ->
    cur_fn s = Some cur ->
    ir_visit_ast_node (ast_unary AST_OP_NEG (ast_leaf_var_id name)) s n = Undef
    /\ (forall dims ias s2,
          lowers_list dims s ias s2 ->
          ir_visit_ast_node (ast_array_access (ast_leaf_var_id name) dims) s n
          = Undef)
    /\ (forall fname callee,
          findFunction_in fname (functions s) = Some callee ->
          ir_visit_ast_node (ast_func_call fname [ast_leaf_var_id name]) s n
          = Undef).
Proof.
  intros name s cur n Hnull Hcur.
  split; [|split].
  - cbn [ir_visit_ast_node].
    unfold visit_with, unary_handler, ir_neg, getCurrentFunction,
      ir_leaf_node_var_id, findVarValue.
    gen_red. rewrite Hnull. gen_red.
    fold (cur_fn s). rewrite Hcur. reflexivity.
  - intros dims ias s2 Hl.
    change (ir_visit_ast_node (ast_array_access (ast_leaf_var_id name) dims))
      with (visit_with (ir_array_access (ir_visit_ast_node (ast_leaf_var_id name))
                                        (Some (map ir_visit_ast_node dims)))).
    unfold visit_with at 1. unfold ir_array_access, ir_get_array_dimensions.
    cbn [ir_visit_ast_node].
    unfold visit_with, ir_leaf_node_var_id, findVarValue.
    gen_red. rewrite Hnull. gen_red.
    rewrite (ir_get_array_dimensions_sons_run Hl). gen_red. reflexivity.
  - intros fname callee Hcallee.
    cbn [ir_visit_ast_node]. unfold visit_with, ir_function_call, getCurrentFunction,
      findFunction.
    gen_red. fold (cur_fn s). rewrite Hcur, Hcallee.
    unfold cur_fn in Hcur.
    destruct (currentFunction s) as [nm|] eqn:EC; [|discriminate Hcur].
    unfold updCurrentFunction, ir_leaf_node_var_id, findVarValue.
    cbn [map List.length]. gen_red. rewrite EC.
    destruct (fn_maxFuncCallArgCnt cur <? Z.of_nat 1)%Z; gen_red;
      rewrite ?EC; cbn [ir_function_call_args node_type is_leaf_var_id]; gen_red;
      cbn [ir_visit_ast_node];
      unfold visit_with, ir_leaf_node_var_id, findVarValue; gen_red;
      cbn [scopeStack set_functions]; rewrite Hnull; reflexivity.
Qed.

Lemma X22_witness :
  exists cur,
    findVarValue_in "z" (scopeStack demo_state) = nullptr
    /\ cur_fn demo_state = Some cur
    /\ ir_visit_ast_node (ast_unary AST_OP_NEG (ast_leaf_var_id "z")) demo_state
                         empty_attrs
       = Undef
    /\ ir_visit_ast_node (ast_func_call "f" [ast_leaf_var_id "z"]) demo_state
                         empty_attrs
       = Undef.
Proof.
  pose (cur := mkFunction "main" TypeInt [] [EntryInstruction] (Some 2%nat)
                          nullptr false 0%Z).
  assert (H1 : findVarValue_in "z" (scopeStack demo_state) = nullptr) by reflexivity.
  assert (H2 : cur_fn demo_state = Some cur) by reflexivity.
  destruct (@X22_type_of_undeclared_identifier "z" demo_state cur empty_attrs H1 H2)
    as (N & _ & C).
  exists cur. split; [exact H1|]. split; [exact H2|]. split; [exact N|].
  eapply C. reflexivity.
Defined.

